(** * sd_markdown (markdown.h): the Markdown parser and its support code

    Shallow embedding of the single-header Sundown port [src/markdown.h]:
    the buffers (BUFFER.C), the stack of scratch buffers (STACK.C), the
    autolink scanners (AUTOLINK.C), the perfect hash of the block tags
    (HTML_BLOCKS.H), the whole parser of MARKDOWN.C (reference table, first
    pass, inline and block parsing, [sd_markdown_new] and
    [sd_markdown_render]), the HTML renderer and the renderer of the table
    of contents (HTML.C, with [sdhtml_is_tag]) and the escapes of HTML text
    and of URLs (HOUDINI_HTML_E.C, HOUDINI_HREF_E.C).

    Conventions of the embedding.
    - A byte ([uint8_t]) is an [ascii]; a byte array handed to a function
      together with its length ([data], [size]) is a [list ascii] whose
      length is that size.  [byte_at data i] is the read [data[i]].
    - Where a function also reads before its [data] argument or is given a
      position inside a larger array (the inline and block parsers), the
      argument is a [ptr]: the array and an offset into it.  [rd], [rd_back],
      [shift] and [unshift] are [data[i]], [data[-k]], [data + n] and
      [data - n].
    - [size_t] indices into such arrays are [nat]; buffer sizes and
      capacities, which are compared with the 16 MiB constant, are [Z].
      Object sizes never reach [SIZE_MAX], so index arithmetic does not
      wrap; the one subtraction of the source that can go below zero is
      discussed at [autolink_delim].
    - [unsigned int] (the label fingerprint) is a [Z] reduced modulo 2^32
      after every operation; flag words are [Z] tested with [Z.land].
    - The C library ([isalnum], [isspace], [ispunct], [tolower],
      [strncasecmp], [strchr]) is the one of the "C" locale.
    - [malloc], [calloc] and [realloc] are taken to succeed.
    - A failed [assert] and a call through a NULL callback abort the
      program: functions that can do so return [option], [None] standing
      for the abort, and are chained with the bind of the option monad
      ([x ← m; k]).
    - A [struct sd_buf] is kept as its valid contents (the first [size]
      bytes of [data]), its capacity [asize] and its [unit]; [size] is the
      length of the contents.
    - A [struct sd_markdown] is passed to the parsing functions and returned
      by them together with the output buffer.  A callback is a function of
      the output buffer, its text arguments and the state behind [opaque],
      which returns the buffer and the state as it leaves them; it is
      [None] in [sd_callbacks] when the pointer is NULL.
    - The two pools of scratch buffers are the stacks [work_bufs_block] and
      [work_bufs_span].  [rndr_newbuf] hands out the buffer of the next free
      slot (emptied) or a new one; the parsing function works on it as a
      value and [rndr_popbuf] is given it back, so that the slot holds what
      the C code has written through the pointer.
    - [parse_blockquote] moves the lines of the quote together inside the
      array it is given ([memmove]); this is done on the array of its [ptr].
    - A loop is a [Fixpoint] on a fuel argument, started with a bound on the
      number of its iterations.  The mutual recursion of [parse_inline] and
      [parse_block] is a pair of [Fixpoint]s on a depth, which
      [sd_markdown_render] starts at [max_nesting + 2]. *)

From Stdlib Require Import ZArith List Ascii String Bool Lia Arith.
From stdpp Require Import base option list.
Import ListNotations.

Open Scope string_scope.
Open Scope char_scope.
Open Scope list_scope.
Open Scope nat_scope.

(** ** Bytes and the C library *)

Definition NUL : ascii := "000".
Definition TAB : ascii := "009".
Definition LF : ascii := "010".
Definition CR : ascii := "013".
Definition DQUOTE : ascii := "034".

(** [data[i]]; the guards of the source keep [i] below the size. *)
Definition byte_at (data : list ascii) (i : nat) : ascii := nth i data NUL.

(** [data + off] seen as an array of [len] bytes. *)
Definition slice (data : list ascii) (off len : nat) : list ascii :=
  firstn len (skipn off data).

Definition bytes (s : string) : list ascii := list_ascii_of_string s.

Definition in_range (lo hi c : ascii) : bool :=
  (nat_of_ascii lo <=? nat_of_ascii c) && (nat_of_ascii c <=? nat_of_ascii hi).

Definition isdigit (c : ascii) : bool := in_range "0" "9" c.
Definition isupper (c : ascii) : bool := in_range "A" "Z" c.
Definition islower (c : ascii) : bool := in_range "a" "z" c.
Definition isalpha (c : ascii) : bool := isupper c || islower c.
Definition isalnum (c : ascii) : bool := isalpha c || isdigit c.

Definition tolower (c : ascii) : ascii :=
  if isupper c then ascii_of_nat (nat_of_ascii c + 32) else c.

(** [strchr(s, c) != NULL]: the terminating NUL of [s] is part of the
    string that is searched. *)
Definition strchr (s : string) (c : ascii) : bool :=
  existsb (Ascii.eqb c) (bytes s) || Ascii.eqb c NUL.

(** [strncasecmp(link, prefix, len) == 0] for a [prefix] of [len] bytes
    without NUL, [link] holding at least [len] bytes. *)
Fixpoint strncasecmp_eq (link prefix : list ascii) : bool :=
  match prefix, link with
  | [], _ => true
  | p :: prefix', c :: link' =>
      Ascii.eqb (tolower c) (tolower p) && strncasecmp_eq link' prefix'
  | _ :: _, [] => false
  end.

(** ** BUFFER.C *)

Local Open Scope Z_scope.

Definition BUFFER_MAX_ALLOC_SIZE : Z := 1024 * 1024 * 16.

Inductive buferror_t : Type := BUF_OK | BUF_ENOMEM.

Definition buferror_code (e : buferror_t) : Z :=
  match e with BUF_OK => 0 | BUF_ENOMEM => -1 end.

Record sd_buf : Type := mk_buf {
  buf_data : list ascii;   (* data[0 .. size) *)
  buf_asize : Z;           (* allocated size *)
  buf_unit : Z             (* reallocation unit size (0 = read-only buffer) *)
}.

Definition buf_size (buf : sd_buf) : Z := Z.of_nat (length (buf_data buf)).

(** [while (neoasz < neosz) neoasz += buf->unit;] *)
Fixpoint grow_asize (fuel : nat) (unit neosz neoasz : Z) : Z :=
  match fuel with
  | O => neoasz
  | S fuel' =>
      if neoasz <? neosz then grow_asize fuel' unit neosz (neoasz + unit)
      else neoasz
  end.

Definition sd_bufgrow (buf : sd_buf) (neosz : Z) : option (buferror_t * sd_buf) :=
  if buf_unit buf =? 0 then None
  else if neosz >? BUFFER_MAX_ALLOC_SIZE then Some (BUF_ENOMEM, buf)
  else if buf_asize buf >=? neosz then Some (BUF_OK, buf)
  else
    let neoasz :=
      grow_asize (Z.to_nat (neosz - buf_asize buf)) (buf_unit buf) neosz
                 (buf_asize buf + buf_unit buf) in
    Some (BUF_OK, mk_buf (buf_data buf) neoasz (buf_unit buf)).

Definition sd_bufnew (unit : Z) : sd_buf := mk_buf [] 0 unit.

(** [memcpy(buf->data + buf->size, data, len); buf->size += len;] *)
Definition buf_append (buf : sd_buf) (src : list ascii) : sd_buf :=
  mk_buf (buf_data buf ++ src) (buf_asize buf) (buf_unit buf).

Definition sd_bufput (buf : sd_buf) (src : list ascii) : option sd_buf :=
  if buf_unit buf =? 0 then None
  else
    let len := Z.of_nat (length src) in
    if buf_size buf + len >? buf_asize buf then
      '(err, buf') ← sd_bufgrow buf (buf_size buf + len);
      if buferror_code err <? 0 then Some buf
      else Some (buf_append buf' src)
    else Some (buf_append buf src).

Definition sd_bufputs (buf : sd_buf) (str : string) : option sd_buf :=
  sd_bufput buf (bytes str).

Definition sd_bufputc (buf : sd_buf) (c : ascii) : option sd_buf :=
  if buf_unit buf =? 0 then None
  else if buf_size buf + 1 >? buf_asize buf then
    '(err, buf') ← sd_bufgrow buf (buf_size buf + 1);
    if buferror_code err <? 0 then Some buf
    else Some (buf_append buf' [c])
  else Some (buf_append buf [c]).

Local Close Scope Z_scope.

(** ** AUTOLINK.C *)

Definition valid_uris : list string :=
  ["/"%string; "http://"%string; "https://"%string; "ftp://"%string;
   "mailto:"%string].

(** The body of the [for] loop of [sd_autolink_issafe] for one entry. *)
Definition issafe_uri (link : list ascii) (uri : string) : bool :=
  let len := String.length uri in
  (len <? length link)
  && strncasecmp_eq link (bytes uri)
  && isalnum (byte_at link len).

Definition sd_autolink_issafe (link : list ascii) : bool :=
  existsb (issafe_uri link) valid_uris.

(** [for (i = 0; i < link_end; ++i) if (data[i] == '<') { link_end = i; break; }] *)
Fixpoint cut_langle (fuel : nat) (data : list ascii) (i link_end : nat) : nat :=
  match fuel with
  | O => link_end
  | S fuel' =>
      if i <? link_end then
        if Ascii.eqb (byte_at data i) "<" then i
        else cut_langle fuel' data (S i) link_end
      else link_end
  end.

(** [while (new_end > 0 && isalpha(data[new_end])) new_end--;] *)
Fixpoint entity_back (fuel : nat) (data : list ascii) (new_end : nat) : nat :=
  match fuel with
  | O => new_end
  | S fuel' =>
      if (0 <? new_end) && isalpha (byte_at data new_end)
      then entity_back fuel' data (new_end - 1)
      else new_end
  end.

(** The [while (link_end > 0)] loop that peels trailing punctuation and
    entity references.  [link_end - 2] is a [size_t] subtraction: for
    [link_end = 1] it wraps in C and the inner loop then reads the byte
    before the span.  The three callers pass a span whose first byte is the
    trigger byte ('w', ':' or '@'), so that [data[0]] is never ';' and the
    case does not arise; here the subtraction is cut off at 0, which gives
    the result of the C code when that byte is no letter. *)
Fixpoint peel_trailing (fuel : nat) (data : list ascii) (link_end : nat) : nat :=
  match fuel with
  | O => link_end
  | S fuel' =>
      if 0 <? link_end then
        if strchr "?!.," (byte_at data (link_end - 1)) then
          peel_trailing fuel' data (link_end - 1)
        else if Ascii.eqb (byte_at data (link_end - 1)) ";" then
          let new_end := entity_back (link_end - 2) data (link_end - 2) in
          if (new_end <? link_end - 2) && Ascii.eqb (byte_at data new_end) "&"
          then peel_trailing fuel' data new_end
          else peel_trailing fuel' data (link_end - 1)
        else link_end
      else link_end
  end.

(** The [switch (cclose)] that picks the opening sign; 0 when there is none. *)
Definition copen_of (cclose : ascii) : ascii :=
  if Ascii.eqb cclose DQUOTE then DQUOTE
  else if Ascii.eqb cclose "'" then "'"
  else if Ascii.eqb cclose ")" then "("
  else if Ascii.eqb cclose "]" then "["
  else if Ascii.eqb cclose "}" then "{"
  else NUL.

(** [while (j < link_end) { if (data[j] == copen) opening++;
    else if (data[j] == cclose) closing++; j++; }]; returns
    [(opening, closing)]. *)
Fixpoint count_delims (fuel : nat) (data : list ascii) (copen cclose : ascii)
    (j link_end opening closing : nat) : nat * nat :=
  match fuel with
  | O => (opening, closing)
  | S fuel' =>
      if j <? link_end then
        if Ascii.eqb (byte_at data j) copen then
          count_delims fuel' data copen cclose (S j) link_end (S opening) closing
        else if Ascii.eqb (byte_at data j) cclose then
          count_delims fuel' data copen cclose (S j) link_end opening (S closing)
        else count_delims fuel' data copen cclose (S j) link_end opening closing
      else (opening, closing)
  end.

Definition autolink_delim (data : list ascii) (link_end max_rewind size : nat) : nat :=
  let link_end := cut_langle link_end data 0 link_end in
  let link_end := peel_trailing link_end data link_end in
  if link_end =? 0 then 0
  else
    let cclose := byte_at data (link_end - 1) in
    let copen := copen_of cclose in
    if negb (Ascii.eqb copen NUL) then
      let '(opening, closing) :=
        count_delims link_end data copen cclose 0 link_end 0 0 in
      if negb (closing =? opening) then link_end - 1 else link_end
    else link_end.

(** ** MARKDOWN.C: the reference table *)

Definition REF_TABLE_SIZE : nat := 8.

(** [struct link_ref]; the [next] pointer is the tail of the chain the
    record is in. *)
Record link_ref : Type := mk_link_ref {
  ref_id : Z;
  ref_link : option sd_buf;
  ref_title : option sd_buf
}.

(** [struct link_ref *refs[REF_TABLE_SIZE]]: one chain per entry, the record
    the entry points to first. *)
Definition bucket (references : list (list link_ref)) (i : nat) : list link_ref :=
  default [] (references !! i).

Definition u32 (x : Z) : Z := (x mod 2 ^ 32)%Z.

(** [hash = tolower(link_ref[i]) + (hash << 6) + (hash << 16) - hash;] *)
Definition hash_step (hash : Z) (c : ascii) : Z :=
  u32 (u32 (u32 (Z.of_nat (nat_of_ascii (tolower c)) + u32 (Z.shiftl hash 6))
            + u32 (Z.shiftl hash 16))
       - hash).

Fixpoint hash_loop (fuel : nat) (link_ref : list ascii) (i length : nat) (hash : Z) : Z :=
  match fuel with
  | O => hash
  | S fuel' =>
      if i <? length
      then hash_loop fuel' link_ref (S i) length (hash_step hash (byte_at link_ref i))
      else hash
  end.

Definition hash_link_ref (link_ref : list ascii) : Z :=
  hash_loop (length link_ref) link_ref 0 (length link_ref) 0%Z.

(** [ref->id % REF_TABLE_SIZE], the index of the entry. *)
Definition ref_slot (id : Z) : nat := Z.to_nat (id mod Z.of_nat REF_TABLE_SIZE).

(** Returns the table after the insertion together with the new record,
    which is the first one of entry [ref_slot (ref_id ref)]. *)
Definition add_link_ref (references : list (list link_ref)) (name : list ascii)
    : link_ref * list (list link_ref) :=
  let ref := mk_link_ref (hash_link_ref name) None None in
  let slot := ref_slot (ref_id ref) in
  (ref, <[slot := ref :: bucket references slot]> references).

(** The [while (ref != NULL)] walk of a chain. *)
Fixpoint find_in_chain (ref : list link_ref) (hash : Z) : option link_ref :=
  match ref with
  | [] => None
  | r :: next => if (ref_id r =? hash)%Z then Some r else find_in_chain next hash
  end.

Definition find_link_ref (references : list (list link_ref)) (name : list ascii)
    : option link_ref :=
  let hash := hash_link_ref name in
  find_in_chain (bucket references (ref_slot hash)) hash.

(** The stores of [is_ref] through the pointer that [add_link_ref] returned
    ([ref->link = sd_bufnew(..); sd_bufput(ref->link, ..)] and the same for
    the title when there is one); the record is the first one of its entry. *)
Definition fill_link_ref (references : list (list link_ref)) (slot : nat)
    (link : list ascii) (title : option (list ascii))
    : option (list (list link_ref)) :=
  match bucket references slot with
  | [] => None
  | ref :: next =>
      link_buf ← sd_bufput (sd_bufnew (Z.of_nat (length link))) link;
      title_buf ←
        match title with
        | Some t => Some <$> sd_bufput (sd_bufnew (Z.of_nat (length t))) t
        | None => Some (ref_title ref)
        end;
      Some (<[slot := mk_link_ref (ref_id ref) (Some link_buf) title_buf :: next]>
              references)
  end.

(** ** MARKDOWN.H / MARKDOWN.C: callbacks and the render context *)

Inductive mkd_autolink : Type := MKDA_NOT_AUTOLINK | MKDA_NORMAL | MKDA_EMAIL.

Inductive markdown_char_t : Type :=
  | MD_CHAR_NONE | MD_CHAR_EMPHASIS | MD_CHAR_CODESPAN | MD_CHAR_LINEBREAK
  | MD_CHAR_LINK | MD_CHAR_LANGLE | MD_CHAR_ESCAPE | MD_CHAR_ENTITITY
  | MD_CHAR_AUTOLINK_URL | MD_CHAR_AUTOLINK_EMAIL | MD_CHAR_AUTOLINK_WWW
  | MD_CHAR_SUPERSCRIPT.

(** [struct stack]: [item] has [asize] entries. *)
Record stack : Type := mk_stack {
  st_item : list (option sd_buf);
  st_size : nat
}.

Section Renderer.

(** The state behind the [opaque] pointer. *)
Context {opaque_t : Type}.

(** A [const struct sd_buf *] argument of a callback: NULL, or the bytes
    it holds.  A callback gets the output buffer and the opaque state and
    returns them as it leaves them; span callbacks also return an [int]. *)
Definition cb_text : Type := option (list ascii).
Definition cb_void : Type := option (sd_buf * opaque_t).
Definition cb_int : Type := option (Z * sd_buf * opaque_t).

Record sd_callbacks : Type := mk_callbacks {
  cb_blockcode : option (sd_buf → cb_text → cb_text → opaque_t → cb_void);
  cb_blockquote : option (sd_buf → cb_text → opaque_t → cb_void);
  cb_blockhtml : option (sd_buf → cb_text → opaque_t → cb_void);
  cb_header : option (sd_buf → cb_text → Z → opaque_t → cb_void);
  cb_hrule : option (sd_buf → opaque_t → cb_void);
  cb_list : option (sd_buf → cb_text → Z → opaque_t → cb_void);
  cb_listitem : option (sd_buf → cb_text → Z → opaque_t → cb_void);
  cb_paragraph : option (sd_buf → cb_text → opaque_t → cb_void);
  cb_table : option (sd_buf → cb_text → cb_text → opaque_t → cb_void);
  cb_table_row : option (sd_buf → cb_text → opaque_t → cb_void);
  cb_table_cell : option (sd_buf → cb_text → Z → opaque_t → cb_void);
  cb_autolink : option (sd_buf → cb_text → mkd_autolink → opaque_t → cb_int);
  cb_codespan : option (sd_buf → cb_text → opaque_t → cb_int);
  cb_double_emphasis : option (sd_buf → cb_text → opaque_t → cb_int);
  cb_emphasis : option (sd_buf → cb_text → opaque_t → cb_int);
  cb_image : option (sd_buf → cb_text → cb_text → cb_text → opaque_t → cb_int);
  cb_linebreak : option (sd_buf → opaque_t → cb_int);
  cb_link : option (sd_buf → cb_text → cb_text → cb_text → opaque_t → cb_int);
  cb_raw_html_tag : option (sd_buf → cb_text → opaque_t → cb_int);
  cb_triple_emphasis : option (sd_buf → cb_text → opaque_t → cb_int);
  cb_strikethrough : option (sd_buf → cb_text → opaque_t → cb_int);
  cb_superscript : option (sd_buf → cb_text → opaque_t → cb_int);
  cb_entity : option (sd_buf → cb_text → opaque_t → cb_void);
  cb_normal_text : option (sd_buf → cb_text → opaque_t → cb_void);
  cb_doc_header : option (sd_buf → opaque_t → cb_void);
  cb_doc_footer : option (sd_buf → opaque_t → cb_void)
}.

(** [struct sd_markdown]; [work_bufs[BUFFER_BLOCK]] and
    [work_bufs[BUFFER_SPAN]] are the two stacks. *)
Record sd_markdown : Type := mk_markdown {
  cb : sd_callbacks;
  opaque : opaque_t;
  refs : list (list link_ref);
  active_char : ascii → markdown_char_t;
  work_bufs_block : stack;
  work_bufs_span : stack;
  ext_flags : Z;
  max_nesting : nat;
  in_link_body : Z
}.

Definition set_opaque (rndr : sd_markdown) (o : opaque_t) : sd_markdown :=
  mk_markdown (cb rndr) o (refs rndr) (active_char rndr) (work_bufs_block rndr)
    (work_bufs_span rndr) (ext_flags rndr) (max_nesting rndr) (in_link_body rndr).

(** *** char_codespan *)

(** [while (nb < size && data[nb] == '`') nb++;] *)
Fixpoint count_backticks (fuel : nat) (data : list ascii) (nb : nat) : nat :=
  match fuel with
  | O => nb
  | S fuel' =>
      if (nb <? length data) && Ascii.eqb (byte_at data nb) "`"
      then count_backticks fuel' data (S nb)
      else nb
  end.

(** [for (end = nb; end < size && i < nb; end++)
       { if (data[end] == '`') i++; else i = 0; }]; returns [(end, i)]. *)
Fixpoint find_delim (fuel : nat) (data : list ascii) (nb end_ i : nat) : nat * nat :=
  match fuel with
  | O => (end_, i)
  | S fuel' =>
      if (end_ <? length data) && (i <? nb) then
        if Ascii.eqb (byte_at data end_) "`"
        then find_delim fuel' data nb (S end_) (S i)
        else find_delim fuel' data nb (S end_) 0
      else (end_, i)
  end.

(** [while (f_begin < end && data[f_begin] == ' ') f_begin++;] *)
Fixpoint trim_begin (fuel : nat) (data : list ascii) (f_begin end_ : nat) : nat :=
  match fuel with
  | O => f_begin
  | S fuel' =>
      if (f_begin <? end_) && Ascii.eqb (byte_at data f_begin) " "
      then trim_begin fuel' data (S f_begin) end_
      else f_begin
  end.

(** [while (f_end > nb && data[f_end-1] == ' ') f_end--;] *)
Fixpoint trim_end (fuel : nat) (data : list ascii) (f_end nb : nat) : nat :=
  match fuel with
  | O => f_end
  | S fuel' =>
      if (nb <? f_end) && Ascii.eqb (byte_at data (f_end - 1)) " "
      then trim_end fuel' data (f_end - 1) nb
      else f_end
  end.

(** [data] holds the [size] bytes from the cursor on; the function reads
    no byte outside of them. *)
Definition char_codespan (ob : sd_buf) (rndr : sd_markdown) (data : list ascii)
    (offset : nat) : option (nat * sd_buf * sd_markdown) :=
  let size := length data in
  let nb := count_backticks size data 0 in
  let '(end_, i) := find_delim size data nb nb 0 in
  if (i <? nb) && (size <=? end_) then Some (0, ob, rndr)
  else
    let f_begin := trim_begin end_ data nb end_ in
    let f_end := trim_end (end_ - nb) data (end_ - nb) nb in
    codespan ← cb_codespan (cb rndr);
    let work :=
      if f_begin <? f_end then Some (slice data f_begin (f_end - f_begin))
      else None in
    '(r, ob', o') ← codespan ob work (opaque rndr);
    Some (if (r =? 0)%Z then 0 else end_, ob', set_opaque rndr o').

(** *** char_entity *)

(** [while (end < size && isalnum(data[end])) end++;] *)
Fixpoint skip_alnum (fuel : nat) (data : list ascii) (end_ : nat) : nat :=
  match fuel with
  | O => end_
  | S fuel' =>
      if (end_ <? length data) && isalnum (byte_at data end_)
      then skip_alnum fuel' data (S end_)
      else end_
  end.

Definition char_entity (ob : sd_buf) (rndr : sd_markdown) (data : list ascii)
    (offset : nat) : option (nat * sd_buf * sd_markdown) :=
  let size := length data in
  let end_ := 1 in
  let end_ :=
    if (end_ <? size) && Ascii.eqb (byte_at data end_) "#" then S end_ else end_ in
  let end_ := skip_alnum size data end_ in
  if (end_ <? size) && Ascii.eqb (byte_at data end_) ";" then
    let end_ := S end_ in
    match cb_entity (cb rndr) with
    | Some entity =>
        '(ob', o') ← entity ob (Some (slice data 0 end_)) (opaque rndr);
        Some (end_, ob', set_opaque rndr o')
    | None =>
        ob' ← sd_bufput ob (slice data 0 end_);
        Some (end_, ob', rndr)
    end
  else Some (0, ob, rndr).

End Renderer.

Arguments sd_callbacks : clear implicits.
Arguments sd_markdown : clear implicits.

(** *** expand_tabs *)

(** [while (i < size && line[i] != '\t') { i++; tab++; }]; returns
    [(i, tab)]. *)
Fixpoint skip_to_tab (fuel : nat) (line : list ascii) (i tab : nat) : nat * nat :=
  match fuel with
  | O => (i, tab)
  | S fuel' =>
      if (i <? length line) && negb (Ascii.eqb (byte_at line i) TAB)
      then skip_to_tab fuel' line (S i) (S tab)
      else (i, tab)
  end.

(** [do { sd_bufputc(ob, ' '); tab++; } while (tab % 4);]; running out of
    fuel is an abort. *)
Fixpoint pad_to_stop (fuel : nat) (ob : sd_buf) (tab : nat) : option (sd_buf * nat) :=
  match fuel with
  | O => None
  | S fuel' =>
      ob' ← sd_bufputc ob " ";
      let tab' := S tab in
      if negb (tab' mod 4 =? 0) then pad_to_stop fuel' ob' tab'
      else Some (ob', tab')
  end.

(** The outer [while (i < size)] loop; running out of fuel is an abort. *)
Fixpoint expand_tabs_loop (fuel : nat) (ob : sd_buf) (line : list ascii)
    (i tab : nat) : option sd_buf :=
  match fuel with
  | O => None
  | S fuel' =>
      if i <? length line then
        let org := i in
        let '(i, tab) := skip_to_tab (length line) line i tab in
        ob ← (if org <? i then sd_bufput ob (slice line org (i - org)) else Some ob);
        if length line <=? i then Some ob
        else
          '(ob, tab) ← pad_to_stop 4 ob tab;
          expand_tabs_loop fuel' ob line (S i) tab
      else Some ob
  end.

Definition expand_tabs (ob : sd_buf) (line : list ascii) : option sd_buf :=
  expand_tabs_loop (S (length line)) ob line 0 0.

(** ** The [if (refs)] block of is_ref *)

(** [ref = add_link_ref(refs, name, ..)] followed by the stores of the link
    and of the title, if there is one, into the new record. *)
Definition store_ref (references : list (list link_ref)) (name link : list ascii)
    (title : option (list ascii)) : option (list (list link_ref)) :=
  let '(ref, references) := add_link_ref references name in
  fill_link_ref references (ref_slot (ref_id ref)) link title.

(** The first pass of [sd_markdown_render] over a run of definitions, each
    given as label, link and title. *)
Fixpoint store_refs (references : list (list link_ref))
    (defs : list (list ascii * list ascii * option (list ascii)))
    : option (list (list link_ref)) :=
  match defs with
  | [] => Some references
  | (name, link, title) :: defs' =>
      references ← store_ref references name link title;
      store_refs references defs'
  end.

(** ** Pointers into byte arrays

    A [uint8_t *] that a parsing function is given is a position in an
    array: [mem] is the array (the valid bytes of the buffer it belongs to)
    and [off] the position.  A read outside of the array gives NUL. *)

Record ptr : Type := mk_ptr { mem : list ascii; off : nat }.

(** [data[i]] *)
Definition rd (data : ptr) (i : nat) : ascii := byte_at (mem data) (off data + i).

(** [data[-k]] *)
Definition rd_back (data : ptr) (k : nat) : ascii :=
  if off data <? k then NUL else byte_at (mem data) (off data - k).

(** [data + n] and [data - n] *)
Definition shift (data : ptr) (n : nat) : ptr := mk_ptr (mem data) (off data + n).
Definition unshift (data : ptr) (n : nat) : ptr := mk_ptr (mem data) (off data - n).

(** The [size] bytes at [data], and all the bytes from [data] on. *)
Definition view (data : ptr) (size : nat) : list ascii :=
  slice (mem data) (off data) size.
Definition rest (data : ptr) : list ascii := skipn (off data) (mem data).

(** The data of a buffer, as a pointer to its first byte. *)
Definition buf_ptr (buf : sd_buf) : ptr := mk_ptr (buf_data buf) 0.

(** [while (p(i)) i++;], for a condition that fails within [fuel] steps. *)
Fixpoint scan_fwd (fuel : nat) (p : nat → bool) (i : nat) : nat :=
  match fuel with
  | O => i
  | S fuel' => if p i then scan_fwd fuel' p (S i) else i
  end.

(** [while (i < size && p(i)) i++;] *)
Definition while_lt (size : nat) (p : nat → bool) (i : nat) : nat :=
  scan_fwd (size - i) (λ i, (i <? size) && p i) i.

(** [while (i > low && p(i)) i--;] *)
Fixpoint scan_bwd (fuel : nat) (low : nat) (p : nat → bool) (i : nat) : nat :=
  match fuel with
  | O => i
  | S fuel' => if (low <? i) && p i then scan_bwd fuel' low p (i - 1) else i
  end.

Definition while_gt (low : nat) (p : nat → bool) (i : nat) : nat :=
  scan_bwd (i - low) low p i.

(** [for (end = beg + 1; end < size && data[end - 1] != '\n'; end++);]:
    the end of the line that begins at [beg]. *)
Definition line_end (data : ptr) (size beg : nat) : nat :=
  while_lt size (λ end_, negb (Ascii.eqb (rd data (end_ - 1)) LF)) (beg + 1).

Definition _isspace (c : ascii) : bool := Ascii.eqb c " " || Ascii.eqb c LF.

(** [isspace] and [ispunct] of the C locale. *)
Definition isspace (c : ascii) : bool :=
  Ascii.eqb c " " || in_range TAB CR c.

Definition ispunct (c : ascii) : bool :=
  in_range "!" "~" c && negb (isalnum c).

(** [strchr(s, c) != NULL] is [strchr s c]; the flags of [ext_flags] and of
    the list and table callbacks are tested with [Z.land]. *)
Definition has_flag (flags flag : Z) : bool := negb (Z.land flags flag =? 0)%Z.

Definition MKDEXT_NO_INTRA_EMPHASIS : Z := 1.
Definition MKDEXT_TABLES : Z := 2.
Definition MKDEXT_FENCED_CODE : Z := 4.
Definition MKDEXT_AUTOLINK : Z := 8.
Definition MKDEXT_STRIKETHROUGH : Z := 16.
Definition MKDEXT_SPACE_HEADERS : Z := 64.
Definition MKDEXT_SUPERSCRIPT : Z := 128.
Definition MKDEXT_LAX_SPACING : Z := 256.

Definition MKD_LIST_ORDERED : Z := 1.
Definition MKD_LI_BLOCK : Z := 2.
Definition MKD_LI_END : Z := 8.

Definition MKD_TABLE_ALIGN_L : Z := 1.
Definition MKD_TABLE_ALIGN_R : Z := 2.
Definition MKD_TABLE_HEADER : Z := 4.

Definition SD_AUTOLINK_SHORT_DOMAINS : Z := 1.

(** ** STACK.C *)

Definition stack_grow (st : stack) (new_size : nat) : stack :=
  if new_size <=? length (st_item st) then st
  else
    mk_stack (st_item st ++ replicate (new_size - length (st_item st)) None)
             (if new_size <? st_size st then new_size else st_size st).

Definition stack_init (initial_size : nat) : stack :=
  stack_grow (mk_stack [] 0) (if initial_size =? 0 then 8 else initial_size).

(** [st->item[st->size++] = item] writes within the array once it has been
    grown, unless the stack was never initialised. *)
Definition stack_push (st : stack) (item : sd_buf) : option stack :=
  let st := stack_grow st (st_size st * 2) in
  if st_size st <? length (st_item st)
  then Some (mk_stack (<[st_size st := Some item]> (st_item st)) (S (st_size st)))
  else None.

(** ** AUTOLINK.C: the scanners *)

(** The [for] loop of [check_domain]; returns [(i, np)]. *)
Fixpoint check_domain_loop (fuel : nat) (data : ptr) (size i np : nat) : nat * nat :=
  match fuel with
  | O => (i, np)
  | S fuel' =>
      if i <? size - 1 then
        if Ascii.eqb (rd data i) "." then check_domain_loop fuel' data size (S i) (S np)
        else if negb (isalnum (rd data i)) && negb (Ascii.eqb (rd data i) "-")
        then (i, np)
        else check_domain_loop fuel' data size (S i) np
      else (i, np)
  end.

(** The callers pass a [size] of 1 at least. *)
Definition check_domain (data : ptr) (size : nat) (allow_short : bool) : nat :=
  if negb (isalnum (rd data 0)) then 0
  else
    let '(i, np) := check_domain_loop size data size 1 0 in
    if allow_short then i
    else if negb (np =? 0) then i else 0.

(** [memcmp(a, b, n) == 0] for two arrays of [n] bytes. *)
Fixpoint bytes_eqb (a b : list ascii) : bool :=
  match a, b with
  | [], [] => true
  | x :: a', y :: b' => Ascii.eqb x y && bytes_eqb a' b'
  | _, _ => false
  end.

(** The three scanners return the length of the link, [*rewind_p] and the
    [link] buffer. *)
Definition sd_autolink__www (link : sd_buf) (data : ptr) (max_rewind size : nat)
    (flags : Z) : option (nat * nat * sd_buf) :=
  if (0 <? max_rewind) && negb (ispunct (rd_back data 1))
     && negb (isspace (rd_back data 1))
  then Some (0, 0, link)
  else if (size <? 4) || negb (bytes_eqb (view data 4) (bytes "www."))
  then Some (0, 0, link)
  else
    let link_end := check_domain data size false in
    if link_end =? 0 then Some (0, 0, link)
    else
      let link_end := while_lt size (λ i, negb (isspace (rd data i))) link_end in
      let link_end := autolink_delim (rest data) link_end max_rewind size in
      if link_end =? 0 then Some (0, 0, link)
      else
        link ← sd_bufput link (view data link_end);
        Some (link_end, 0, link).

(** [for (rewind = 0; rewind < max_rewind; ++rewind)] over the bytes before
    [data]. *)
Fixpoint email_rewind (fuel : nat) (data : ptr) (max_rewind rewind : nat) : nat :=
  match fuel with
  | O => rewind
  | S fuel' =>
      if rewind <? max_rewind then
        let c := rd_back data (rewind + 1) in
        if isalnum c || strchr ".+-_" c
        then email_rewind fuel' data max_rewind (S rewind)
        else rewind
      else rewind
  end.

(** [for (link_end = 0; link_end < size; ++link_end)]; returns
    [(link_end, nb, np)]. *)
Fixpoint email_forward (fuel : nat) (data : ptr) (size link_end nb np : nat)
    : nat * nat * nat :=
  match fuel with
  | O => (link_end, nb, np)
  | S fuel' =>
      if link_end <? size then
        let c := rd data link_end in
        if isalnum c then email_forward fuel' data size (S link_end) nb np
        else if Ascii.eqb c "@" then email_forward fuel' data size (S link_end) (S nb) np
        else if Ascii.eqb c "." && (link_end <? size - 1)
        then email_forward fuel' data size (S link_end) nb (S np)
        else if negb (Ascii.eqb c "-") && negb (Ascii.eqb c "_")
        then (link_end, nb, np)
        else email_forward fuel' data size (S link_end) nb np
      else (link_end, nb, np)
  end.

Definition sd_autolink__email (link : sd_buf) (data : ptr) (max_rewind size : nat)
    (flags : Z) : option (nat * nat * sd_buf) :=
  let rewind := email_rewind max_rewind data max_rewind 0 in
  if rewind =? 0 then Some (0, 0, link)
  else
    let '(link_end, nb, np) := email_forward size data size 0 0 0 in
    if (link_end <? 2) || negb (nb =? 1) || (np =? 0)
       || negb (isalpha (rd data (link_end - 1)))
    then Some (0, 0, link)
    else
      let link_end := autolink_delim (rest data) link_end max_rewind size in
      if link_end =? 0 then Some (0, 0, link)
      else
        link ← sd_bufput link (view (unshift data rewind) (link_end + rewind));
        Some (link_end, rewind, link).

(** [while (rewind < max_rewind && isalpha(data[-rewind - 1])) rewind++;] *)
Definition url_rewind (data : ptr) (max_rewind : nat) : nat :=
  while_lt max_rewind (λ rewind, isalpha (rd_back data (rewind + 1))) 0.

Definition sd_autolink__url (link : sd_buf) (data : ptr) (max_rewind size : nat)
    (flags : Z) : option (nat * nat * sd_buf) :=
  if (size <? 4) || negb (Ascii.eqb (rd data 1) "/") || negb (Ascii.eqb (rd data 2) "/")
  then Some (0, 0, link)
  else
    let rewind := url_rewind data max_rewind in
    if negb (sd_autolink_issafe (view (unshift data rewind) (size + rewind)))
    then Some (0, 0, link)
    else
      let link_end := 3 in
      let domain_len :=
        check_domain (shift data link_end) (size - link_end)
          (has_flag flags SD_AUTOLINK_SHORT_DOMAINS) in
      if domain_len =? 0 then Some (0, 0, link)
      else
        let link_end := link_end + domain_len in
        let link_end := while_lt size (λ i, negb (isspace (rd data i))) link_end in
        let link_end := autolink_delim (rest data) link_end max_rewind size in
        if link_end =? 0 then Some (0, 0, link)
        else
          link ← sd_bufput link (view (unshift data rewind) (link_end + rewind));
          Some (link_end, rewind, link).

(** ** MARKDOWN.C: helpers of the inline parser *)

Inductive buffer_type : Type := BUFFER_BLOCK | BUFFER_SPAN.

(** [static const size_t buf_size[2] = {256, 64};] *)
Definition pool_unit (type : buffer_type) : Z :=
  match type with BUFFER_BLOCK => 256%Z | BUFFER_SPAN => 64%Z end.

(** The [for] loop of [is_mail_autolink]; returns the result of the
    function. *)
Fixpoint is_mail_autolink_loop (fuel : nat) (data : ptr) (size i nb : nat) : nat :=
  match fuel with
  | O => 0
  | S fuel' =>
      if i <? size then
        let c := rd data i in
        if isalnum c then is_mail_autolink_loop fuel' data size (S i) nb
        else if Ascii.eqb c "@" then is_mail_autolink_loop fuel' data size (S i) (S nb)
        else if Ascii.eqb c "-" || Ascii.eqb c "." || Ascii.eqb c "_"
        then is_mail_autolink_loop fuel' data size (S i) nb
        else if Ascii.eqb c ">" then (if nb =? 1 then i + 1 else 0)
        else 0
      else 0
  end.

Definition is_mail_autolink (data : ptr) (size : nat) : nat :=
  is_mail_autolink_loop size data size 0 0.

(** The [while (i < size)] scan of [tag_length] that looks for the end of an
    autolink. *)
Fixpoint tag_scan (fuel : nat) (data : ptr) (size i : nat) : nat :=
  match fuel with
  | O => i
  | S fuel' =>
      if i <? size then
        let c := rd data i in
        if Ascii.eqb c "\" then tag_scan fuel' data size (i + 2)
        else if Ascii.eqb c ">" || Ascii.eqb c "'" || Ascii.eqb c DQUOTE
                || Ascii.eqb c " " || Ascii.eqb c LF
        then i
        else tag_scan fuel' data size (S i)
      else i
  end.

(** Returns the length of the tag and [*autolink], which the caller has set
    to [MKDA_NOT_AUTOLINK]. *)
Definition tag_length (data : ptr) (size : nat) : nat * mkd_autolink :=
  if size <? 3 then (0, MKDA_NOT_AUTOLINK)
  else if negb (Ascii.eqb (rd data 0) "<") then (0, MKDA_NOT_AUTOLINK)
  else
    let i := if Ascii.eqb (rd data 1) "/" then 2 else 1 in
    if negb (isalnum (rd data i)) then (0, MKDA_NOT_AUTOLINK)
    else
      let i :=
        while_lt size
          (λ i, isalnum (rd data i) || Ascii.eqb (rd data i) "."
                || Ascii.eqb (rd data i) "+" || Ascii.eqb (rd data i) "-") i in
      let j := if (1 <? i) && Ascii.eqb (rd data i) "@"
               then is_mail_autolink (shift data i) (size - i) else 0 in
      if negb (j =? 0) then (i + j, MKDA_EMAIL)
      else
        let '(i, autolink) :=
          if (2 <? i) && Ascii.eqb (rd data i) ":" then (S i, MKDA_NORMAL)
          else (i, MKDA_NOT_AUTOLINK) in
        let tag_end i autolink :=
          let i := while_lt size (λ i, negb (Ascii.eqb (rd data i) ">")) i in
          if size <=? i then (0, autolink) else (i + 1, autolink) in
        if size <=? i then tag_end i MKDA_NOT_AUTOLINK
        else
          match autolink with
          | MKDA_NOT_AUTOLINK => tag_end i autolink
          | _ =>
              let j := i in
              let i := tag_scan size data size i in
              if size <=? i then (0, autolink)
              else if (j <? i) && Ascii.eqb (rd data i) ">" then (i + 1, autolink)
              else tag_end i MKDA_NOT_AUTOLINK
          end.

(** The loop of [unscape_text]; [None] is an abort. *)
Fixpoint unscape_loop (fuel : nat) (ob : sd_buf) (src : list ascii) (i : nat)
    : option sd_buf :=
  match fuel with
  | O => Some ob
  | S fuel' =>
      if i <? length src then
        let org := i in
        let i := while_lt (length src) (λ i, negb (Ascii.eqb (byte_at src i) "\")) i in
        ob ← (if org <? i then sd_bufput ob (slice src org (i - org)) else Some ob);
        if length src <=? i + 1 then Some ob
        else
          ob ← sd_bufputc ob (byte_at src (i + 1));
          unscape_loop fuel' ob src (i + 2)
      else Some ob
  end.

Definition unscape_text (ob : sd_buf) (src : list ascii) : option sd_buf :=
  unscape_loop (length src) ob src 0.

(** ** MARKDOWN.C: the inline parser *)

(** [find_emph_char]: a scan to the byte [stop] that notes in [tmp_i] the
    first place where [c] stands:
    [while (i < size && data[i] != stop)
       { if (!tmp_i && data[i] == c) tmp_i = i; i++; }];
    returns [(i, tmp_i)]. *)
Fixpoint scan_mark (fuel : nat) (data : ptr) (size : nat) (stop c : ascii)
    (i tmp_i : nat) : nat * nat :=
  match fuel with
  | O => (i, tmp_i)
  | S fuel' =>
      if (i <? size) && negb (Ascii.eqb (rd data i) stop) then
        let tmp_i := if (tmp_i =? 0) && Ascii.eqb (rd data i) c then i else tmp_i in
        scan_mark fuel' data size stop c (S i) tmp_i
      else (i, tmp_i)
  end.

(** [while (i < size && bt < span_nb) { if (!tmp_i && data[i] == c) tmp_i = i;
      if (data[i] == '`') bt++; else bt = 0; i++; }]; returns [(i, tmp_i)]. *)
Fixpoint scan_codespan (fuel : nat) (data : ptr) (size : nat) (c : ascii)
    (span_nb i bt tmp_i : nat) : nat * nat :=
  match fuel with
  | O => (i, tmp_i)
  | S fuel' =>
      if (i <? size) && (bt <? span_nb) then
        let tmp_i := if (tmp_i =? 0) && Ascii.eqb (rd data i) c then i else tmp_i in
        let bt := if Ascii.eqb (rd data i) "`" then S bt else 0 in
        scan_codespan fuel' data size c span_nb (S i) bt tmp_i
      else (i, tmp_i)
  end.

(** The outer [while (i < size)] loop of [find_emph_char]. *)
Fixpoint find_emph_loop (fuel : nat) (data : ptr) (size : nat) (c : ascii) (i : nat)
    : nat :=
  match fuel with
  | O => 0
  | S fuel' =>
      if i <? size then
        let i :=
          while_lt size
            (λ i, negb (Ascii.eqb (rd data i) c) && negb (Ascii.eqb (rd data i) "`")
                  && negb (Ascii.eqb (rd data i) "[")) i in
        if i =? size then 0
        else if Ascii.eqb (rd data i) c then i
        else if negb (i =? 0) && Ascii.eqb (rd data (i - 1)) "\" then
          find_emph_loop fuel' data size c (S i)
        else if Ascii.eqb (rd data i) "`" then
          let i' := while_lt size (λ i, Ascii.eqb (rd data i) "`") i in
          let span_nb := i' - i in
          if size <=? i' then 0
          else
            let '(i, tmp_i) := scan_codespan size data size c span_nb i' 0 0 in
            if size <=? i then tmp_i
            else find_emph_loop fuel' data size c i
        else if Ascii.eqb (rd data i) "[" then
          let '(i, tmp_i) := scan_mark size data size "]" c (S i) 0 in
          let i := S i in
          let i :=
            while_lt size
              (λ i, Ascii.eqb (rd data i) " " || Ascii.eqb (rd data i) LF) i in
          if size <=? i then tmp_i
          else
            let after cc :=
              let '(i, tmp_i) := scan_mark size data size cc c (S i) tmp_i in
              if size <=? i then tmp_i
              else find_emph_loop fuel' data size c (S i) in
            if Ascii.eqb (rd data i) "[" then after "]"
            else if Ascii.eqb (rd data i) "(" then after ")"
            else if negb (tmp_i =? 0) then tmp_i
            else find_emph_loop fuel' data size c i
        else find_emph_loop fuel' data size c i
      else 0
  end.

Definition find_emph_char (data : ptr) (size : nat) (c : ascii) : nat :=
  find_emph_loop size data size c 1.

Section Parser.

Context {opaque_t : Type}.

(** [rndr->work_bufs[type]] *)
Definition work_bufs (rndr : sd_markdown opaque_t) (type : buffer_type) : stack :=
  match type with
  | BUFFER_BLOCK => work_bufs_block rndr
  | BUFFER_SPAN => work_bufs_span rndr
  end.

Definition set_work_bufs (rndr : sd_markdown opaque_t) (type : buffer_type)
    (pool : stack) : sd_markdown opaque_t :=
  match type with
  | BUFFER_BLOCK =>
      mk_markdown (cb rndr) (opaque rndr) (refs rndr) (active_char rndr) pool
        (work_bufs_span rndr) (ext_flags rndr) (max_nesting rndr) (in_link_body rndr)
  | BUFFER_SPAN =>
      mk_markdown (cb rndr) (opaque rndr) (refs rndr) (active_char rndr)
        (work_bufs_block rndr) pool (ext_flags rndr) (max_nesting rndr)
        (in_link_body rndr)
  end.

Definition set_in_link_body (rndr : sd_markdown opaque_t) (v : Z)
    : sd_markdown opaque_t :=
  mk_markdown (cb rndr) (opaque rndr) (refs rndr) (active_char rndr)
    (work_bufs_block rndr) (work_bufs_span rndr) (ext_flags rndr)
    (max_nesting rndr) v.

Definition set_refs (rndr : sd_markdown opaque_t) (references : list (list link_ref))
    : sd_markdown opaque_t :=
  mk_markdown (cb rndr) (opaque rndr) references (active_char rndr)
    (work_bufs_block rndr) (work_bufs_span rndr) (ext_flags rndr)
    (max_nesting rndr) (in_link_body rndr).

(** [rndr_newbuf] hands out the buffer of the first free entry of the pool,
    emptied, or a new one that it pushes.  The buffer stays in the pool; the
    function that asked for it works on the value it was given and gives it
    back to [rndr_popbuf], which stores it in the entry again: this is the
    state the buffer of the entry is in when the C code drops the entry. *)
Definition rndr_newbuf (rndr : sd_markdown opaque_t) (type : buffer_type)
    : option (sd_buf * sd_markdown opaque_t) :=
  let pool := work_bufs rndr type in
  match (if st_size pool <? length (st_item pool)
         then st_item pool !! st_size pool else None) with
  | Some (Some work) =>
      Some (mk_buf [] (buf_asize work) (buf_unit work),
            set_work_bufs rndr type (mk_stack (st_item pool) (S (st_size pool))))
  | _ =>
      let work := sd_bufnew (pool_unit type) in
      pool ← stack_push pool work;
      Some (work, set_work_bufs rndr type pool)
  end.

(** [rndr->work_bufs[type].size--].  Every call follows a call of
    [rndr_newbuf] on the same pool, which is then not empty; [None] stands
    for the wrap-around of [size] on an empty pool. *)
Definition rndr_popbuf (rndr : sd_markdown opaque_t) (type : buffer_type)
    (work : sd_buf) : option (sd_markdown opaque_t) :=
  let pool := work_bufs rndr type in
  match st_size pool with
  | O => None
  | S n =>
      Some (set_work_bufs rndr type (mk_stack (<[n := Some work]> (st_item pool)) n))
  end.

(** The result of a callback, with the opaque state stored back. *)
Definition run_int (r : @cb_int opaque_t) (rndr : sd_markdown opaque_t)
    : option (Z * sd_buf * sd_markdown opaque_t) :=
  '(r, ob, o) ← r; Some (r, ob, set_opaque rndr o).

Definition run_void (r : @cb_void opaque_t) (rndr : sd_markdown opaque_t)
    : option (sd_buf * sd_markdown opaque_t) :=
  '(ob, o) ← r; Some (ob, set_opaque rndr o).

(** [if (rndr->cb.normal_text) rndr->cb.normal_text(ob, &work, rndr->opaque);
    else sd_bufput(ob, work.data, work.size);] *)
Definition put_normal_text (ob : sd_buf) (rndr : sd_markdown opaque_t)
    (text : list ascii) : option (sd_buf * sd_markdown opaque_t) :=
  match cb_normal_text (cb rndr) with
  | Some normal_text => run_void (normal_text ob (Some text) (opaque rndr)) rndr
  | None => ob ← sd_bufput ob text; Some (ob, rndr)
  end.

(** [ob->size = n] *)
Definition buf_truncate (ob : sd_buf) (n : nat) : sd_buf :=
  mk_buf (firstn n (buf_data ob)) (buf_asize ob) (buf_unit ob).

(** [ob->size -= rewind]; a rewind beyond the start of the buffer, after
    which the size of the buffer is no size any more, is an abort. *)
Definition buf_rewind (ob : sd_buf) (rewind : nat) : option sd_buf :=
  if length (buf_data ob) <? rewind then None
  else Some (buf_truncate ob (length (buf_data ob) - rewind)).

(** The recursive calls: [parse_inline] and [parse_block] at one level of
    nesting less. *)
Variable parse_inline :
  sd_buf → sd_markdown opaque_t → ptr → nat → option (sd_buf * sd_markdown opaque_t).
Variable parse_block :
  sd_buf → sd_markdown opaque_t → ptr → nat → option (sd_buf * sd_markdown opaque_t).

(** The tail that the three emphasis parsers share:
    [work = rndr_newbuf(rndr, BUFFER_SPAN); parse_inline(work, rndr, data, i);
     r = render_method(ob, work, rndr->opaque); rndr_popbuf(rndr, BUFFER_SPAN);
     return r ? i + n : 0;] *)
Definition render_emph (render_method : sd_buf → cb_text → opaque_t → cb_int)
    (ob : sd_buf) (rndr : sd_markdown opaque_t) (data : ptr) (i n : nat)
    : option (nat * sd_buf * sd_markdown opaque_t) :=
  '(work, rndr) ← rndr_newbuf rndr BUFFER_SPAN;
  '(work, rndr) ← parse_inline work rndr data i;
  '(r, ob, rndr) ← run_int (render_method ob (Some (buf_data work)) (opaque rndr)) rndr;
  rndr ← rndr_popbuf rndr BUFFER_SPAN work;
  Some (if (r =? 0)%Z then 0 else i + n, ob, rndr).

Fixpoint parse_emph1_loop (fuel : nat)
    (emphasis : sd_buf → cb_text → opaque_t → cb_int)
    (ob : sd_buf) (rndr : sd_markdown opaque_t) (data : ptr) (size : nat) (c : ascii)
    (i : nat) : option (nat * sd_buf * sd_markdown opaque_t) :=
  match fuel with
  | O => Some (0, ob, rndr)
  | S fuel' =>
      if i <? size then
        let len := find_emph_char (shift data i) (size - i) c in
        if len =? 0 then Some (0, ob, rndr)
        else
          let i := i + len in
          if size <=? i then Some (0, ob, rndr)
          else if Ascii.eqb (rd data i) c && negb (_isspace (rd data (i - 1))) then
            if has_flag (ext_flags rndr) MKDEXT_NO_INTRA_EMPHASIS
               && (i + 1 <? size) && isalnum (rd data (i + 1))
            then parse_emph1_loop fuel' emphasis ob rndr data size c i
            else render_emph emphasis ob rndr data i 1
          else parse_emph1_loop fuel' emphasis ob rndr data size c i
      else Some (0, ob, rndr)
  end.

Definition parse_emph1 (ob : sd_buf) (rndr : sd_markdown opaque_t) (data : ptr)
    (size : nat) (c : ascii) : option (nat * sd_buf * sd_markdown opaque_t) :=
  match cb_emphasis (cb rndr) with
  | None => Some (0, ob, rndr)
  | Some emphasis =>
      let i :=
        if (1 <? size) && Ascii.eqb (rd data 0) c && Ascii.eqb (rd data 1) c
        then 1 else 0 in
      parse_emph1_loop size emphasis ob rndr data size c i
  end.

Fixpoint parse_emph2_loop (fuel : nat)
    (render_method : sd_buf → cb_text → opaque_t → cb_int)
    (ob : sd_buf) (rndr : sd_markdown opaque_t) (data : ptr) (size : nat) (c : ascii)
    (i : nat) : option (nat * sd_buf * sd_markdown opaque_t) :=
  match fuel with
  | O => Some (0, ob, rndr)
  | S fuel' =>
      if i <? size then
        let len := find_emph_char (shift data i) (size - i) c in
        if len =? 0 then Some (0, ob, rndr)
        else
          let i := i + len in
          if (i + 1 <? size) && Ascii.eqb (rd data i) c && Ascii.eqb (rd data (i + 1)) c
             && negb (i =? 0) && negb (_isspace (rd data (i - 1)))
          then render_emph render_method ob rndr data i 2
          else parse_emph2_loop fuel' render_method ob rndr data size c (S i)
      else Some (0, ob, rndr)
  end.

Definition parse_emph2 (ob : sd_buf) (rndr : sd_markdown opaque_t) (data : ptr)
    (size : nat) (c : ascii) : option (nat * sd_buf * sd_markdown opaque_t) :=
  match (if Ascii.eqb c "~" then cb_strikethrough (cb rndr)
         else cb_double_emphasis (cb rndr)) with
  | None => Some (0, ob, rndr)
  | Some render_method => parse_emph2_loop size render_method ob rndr data size c 0
  end.

Fixpoint parse_emph3_loop (fuel : nat) (ob : sd_buf) (rndr : sd_markdown opaque_t)
    (data : ptr) (size : nat) (c : ascii) (i : nat)
    : option (nat * sd_buf * sd_markdown opaque_t) :=
  match fuel with
  | O => Some (0, ob, rndr)
  | S fuel' =>
      if i <? size then
        let len := find_emph_char (shift data i) (size - i) c in
        if len =? 0 then Some (0, ob, rndr)
        else
          let i := i + len in
          if negb (Ascii.eqb (rd data i) c) || _isspace (rd data (i - 1))
          then parse_emph3_loop fuel' ob rndr data size c i
          else
            match cb_triple_emphasis (cb rndr) with
            | Some triple_emphasis =>
                if (i + 2 <? size) && Ascii.eqb (rd data (i + 1)) c
                   && Ascii.eqb (rd data (i + 2)) c
                then render_emph triple_emphasis ob rndr data i 3
                else if (i + 1 <? size) && Ascii.eqb (rd data (i + 1)) c then
                  '(len, ob, rndr) ← parse_emph1 ob rndr (unshift data 2) (size + 2) c;
                  Some (if len =? 0 then 0 else len - 2, ob, rndr)
                else
                  '(len, ob, rndr) ← parse_emph2 ob rndr (unshift data 1) (size + 1) c;
                  Some (if len =? 0 then 0 else len - 1, ob, rndr)
            | None =>
                if (i + 1 <? size) && Ascii.eqb (rd data (i + 1)) c then
                  '(len, ob, rndr) ← parse_emph1 ob rndr (unshift data 2) (size + 2) c;
                  Some (if len =? 0 then 0 else len - 2, ob, rndr)
                else
                  '(len, ob, rndr) ← parse_emph2 ob rndr (unshift data 1) (size + 1) c;
                  Some (if len =? 0 then 0 else len - 1, ob, rndr)
            end
      else Some (0, ob, rndr)
  end.

Definition parse_emph3 (ob : sd_buf) (rndr : sd_markdown opaque_t) (data : ptr)
    (size : nat) (c : ascii) : option (nat * sd_buf * sd_markdown opaque_t) :=
  parse_emph3_loop size ob rndr data size c 0.

Definition char_emphasis (ob : sd_buf) (rndr : sd_markdown opaque_t) (data : ptr)
    (offset size : nat) : option (nat * sd_buf * sd_markdown opaque_t) :=
  let c := rd data 0 in
  if has_flag (ext_flags rndr) MKDEXT_NO_INTRA_EMPHASIS
     && (0 <? offset) && negb (_isspace (rd_back data 1))
     && negb (Ascii.eqb (rd_back data 1) ">")
  then Some (0, ob, rndr)
  else if (2 <? size) && negb (Ascii.eqb (rd data 1) c) then
    if Ascii.eqb c "~" || _isspace (rd data 1) then Some (0, ob, rndr)
    else
      '(ret, ob, rndr) ← parse_emph1 ob rndr (shift data 1) (size - 1) c;
      Some (if ret =? 0 then 0 else ret + 1, ob, rndr)
  else if (3 <? size) && Ascii.eqb (rd data 1) c && negb (Ascii.eqb (rd data 2) c) then
    if _isspace (rd data 2) then Some (0, ob, rndr)
    else
      '(ret, ob, rndr) ← parse_emph2 ob rndr (shift data 2) (size - 2) c;
      Some (if ret =? 0 then 0 else ret + 2, ob, rndr)
  else if (4 <? size) && Ascii.eqb (rd data 1) c && Ascii.eqb (rd data 2) c
          && negb (Ascii.eqb (rd data 3) c) then
    if Ascii.eqb c "~" || _isspace (rd data 3) then Some (0, ob, rndr)
    else
      '(ret, ob, rndr) ← parse_emph3 ob rndr (shift data 3) (size - 3) c;
      Some (if ret =? 0 then 0 else ret + 3, ob, rndr)
  else Some (0, ob, rndr).

Definition char_linebreak (ob : sd_buf) (rndr : sd_markdown opaque_t) (data : ptr)
    (offset size : nat) : option (nat * sd_buf * sd_markdown opaque_t) :=
  if (offset <? 2) || negb (Ascii.eqb (rd_back data 1) " ")
     || negb (Ascii.eqb (rd_back data 2) " ")
  then Some (0, ob, rndr)
  else
    let n :=
      while_gt 0 (λ n, Ascii.eqb (byte_at (buf_data ob) (n - 1)) " ")
        (length (buf_data ob)) in
    let ob := buf_truncate ob n in
    linebreak ← cb_linebreak (cb rndr);
    '(r, ob, rndr) ← run_int (linebreak ob (opaque rndr)) rndr;
    Some (if (r =? 0)%Z then 0 else 1, ob, rndr).

Definition escape_chars : string := "\`*_{}[]()#+-.!:|&<>^~".

Definition char_escape (ob : sd_buf) (rndr : sd_markdown opaque_t) (data : ptr)
    (offset size : nat) : option (nat * sd_buf * sd_markdown opaque_t) :=
  if 1 <? size then
    if negb (strchr escape_chars (rd data 1)) then Some (0, ob, rndr)
    else
      '(ob, rndr) ←
        match cb_normal_text (cb rndr) with
        | Some normal_text =>
            run_void (normal_text ob (Some (view (shift data 1) 1)) (opaque rndr)) rndr
        | None => ob ← sd_bufputc ob (rd data 1); Some (ob, rndr)
        end;
      Some (2, ob, rndr)
  else if size =? 1 then
    ob ← sd_bufputc ob (rd data 0); Some (2, ob, rndr)
  else Some (2, ob, rndr).

Definition char_langle_tag (ob : sd_buf) (rndr : sd_markdown opaque_t) (data : ptr)
    (offset size : nat) : option (nat * sd_buf * sd_markdown opaque_t) :=
  let '(end_, altype) := tag_length data size in
  '(ret, ob, rndr) ←
    (if 2 <? end_ then
       match cb_autolink (cb rndr), altype with
       | Some autolink, (MKDA_NORMAL | MKDA_EMAIL) =>
           '(u_link, rndr) ← rndr_newbuf rndr BUFFER_SPAN;
           u_link ← unscape_text u_link (view (shift data 1) (end_ - 2));
           '(ret, ob, rndr) ←
             run_int (autolink ob (Some (buf_data u_link)) altype (opaque rndr)) rndr;
           rndr ← rndr_popbuf rndr BUFFER_SPAN u_link;
           Some (ret, ob, rndr)
       | _, _ =>
           match cb_raw_html_tag (cb rndr) with
           | Some raw_html_tag =>
               run_int (raw_html_tag ob (Some (view data end_)) (opaque rndr)) rndr
           | None => Some (0%Z, ob, rndr)
           end
       end
     else Some (0%Z, ob, rndr));
  Some (if (ret =? 0)%Z then 0 else end_, ob, rndr).

Definition char_autolink_www (ob : sd_buf) (rndr : sd_markdown opaque_t) (data : ptr)
    (offset size : nat) : option (nat * sd_buf * sd_markdown opaque_t) :=
  match cb_link (cb rndr) with
  | None => Some (0, ob, rndr)
  | Some link_cb =>
      if negb (in_link_body rndr =? 0)%Z then Some (0, ob, rndr)
      else
        '(link, rndr) ← rndr_newbuf rndr BUFFER_SPAN;
        '(link_len, rewind, link) ← sd_autolink__www link data offset size 0;
        '(ob, rndr) ←
          (if 0 <? link_len then
             '(link_url, rndr) ← rndr_newbuf rndr BUFFER_SPAN;
             link_url ← sd_bufput link_url (bytes "http://");
             link_url ← sd_bufput link_url (buf_data link);
             ob ← buf_rewind ob rewind;
             '(ob, rndr) ←
               match cb_normal_text (cb rndr) with
               | Some normal_text =>
                   '(link_text, rndr) ← rndr_newbuf rndr BUFFER_SPAN;
                   '(link_text, rndr) ←
                     run_void (normal_text link_text (Some (buf_data link))
                                 (opaque rndr)) rndr;
                   '(_, ob, rndr) ←
                     run_int (link_cb ob (Some (buf_data link_url)) None
                                (Some (buf_data link_text)) (opaque rndr)) rndr;
                   rndr ← rndr_popbuf rndr BUFFER_SPAN link_text;
                   Some (ob, rndr)
               | None =>
                   '(_, ob, rndr) ←
                     run_int (link_cb ob (Some (buf_data link_url)) None
                                (Some (buf_data link)) (opaque rndr)) rndr;
                   Some (ob, rndr)
               end;
             rndr ← rndr_popbuf rndr BUFFER_SPAN link_url;
             Some (ob, rndr)
           else Some (ob, rndr));
        rndr ← rndr_popbuf rndr BUFFER_SPAN link;
        Some (link_len, ob, rndr)
  end.

(** [char_autolink_email] and [char_autolink_url] differ by the scanner and
    the type they pass to the callback. *)
Definition char_autolink_with
    (scanner : sd_buf → ptr → nat → nat → Z → option (nat * nat * sd_buf))
    (type : mkd_autolink)
    (ob : sd_buf) (rndr : sd_markdown opaque_t) (data : ptr)
    (offset size : nat) : option (nat * sd_buf * sd_markdown opaque_t) :=
  match cb_autolink (cb rndr) with
  | None => Some (0, ob, rndr)
  | Some autolink =>
      if negb (in_link_body rndr =? 0)%Z then Some (0, ob, rndr)
      else
        '(link, rndr) ← rndr_newbuf rndr BUFFER_SPAN;
        '(link_len, rewind, link) ← scanner link data offset size 0%Z;
        '(ob, rndr) ←
          (if 0 <? link_len then
             ob ← buf_rewind ob rewind;
             '(_, ob, rndr) ←
               run_int (autolink ob (Some (buf_data link)) type (opaque rndr)) rndr;
             Some (ob, rndr)
           else Some (ob, rndr));
        rndr ← rndr_popbuf rndr BUFFER_SPAN link;
        Some (link_len, ob, rndr)
  end.

Definition char_autolink_email := char_autolink_with sd_autolink__email MKDA_EMAIL.
Definition char_autolink_url := char_autolink_with sd_autolink__url MKDA_NORMAL.

(** *** char_link *)

(** [for (level = 1; i < size; i++)]: the search for the closing bracket;
    returns [(i, text_has_nl)]. *)
Fixpoint link_text_end (fuel : nat) (data : ptr) (size i : nat) (level : Z)
    (text_has_nl : bool) : nat * bool :=
  match fuel with
  | O => (i, text_has_nl)
  | S fuel' =>
      if i <? size then
        if Ascii.eqb (rd data i) LF then link_text_end fuel' data size (S i) level true
        else if Ascii.eqb (rd data (i - 1)) "\" then
          link_text_end fuel' data size (S i) level text_has_nl
        else if Ascii.eqb (rd data i) "[" then
          link_text_end fuel' data size (S i) (level + 1)%Z text_has_nl
        else if Ascii.eqb (rd data i) "]" then
          if (level - 1 <=? 0)%Z then (i, text_has_nl)
          else link_text_end fuel' data size (S i) (level - 1)%Z text_has_nl
        else link_text_end fuel' data size (S i) level text_has_nl
      else (i, text_has_nl)
  end.

(** The scan for the end of the address of an inline link. *)
Fixpoint link_url_end (fuel : nat) (data : ptr) (size i : nat) : nat :=
  match fuel with
  | O => i
  | S fuel' =>
      if i <? size then
        if Ascii.eqb (rd data i) "\" then link_url_end fuel' data size (i + 2)
        else if Ascii.eqb (rd data i) ")" then i
        else if (1 <=? i) && _isspace (rd data (i - 1))
                && (Ascii.eqb (rd data i) "'" || Ascii.eqb (rd data i) DQUOTE)
        then i
        else link_url_end fuel' data size (S i)
      else i
  end.

(** The scan for the end of the title of an inline link. *)
Fixpoint link_title_end (fuel : nat) (data : ptr) (size i : nat) (qtype : ascii)
    (in_title : bool) : nat :=
  match fuel with
  | O => i
  | S fuel' =>
      if i <? size then
        if Ascii.eqb (rd data i) "\" then
          link_title_end fuel' data size (i + 2) qtype in_title
        else if Ascii.eqb (rd data i) qtype then
          link_title_end fuel' data size (S i) qtype false
        else if Ascii.eqb (rd data i) ")" && negb in_title then i
        else link_title_end fuel' data size (S i) qtype in_title
      else i
  end.

(** [for (j = 1; j < txt_e; j++)]: the label made of a text that holds
    newlines. *)
Fixpoint link_id_loop (fuel : nat) (b : sd_buf) (data : ptr) (txt_e j : nat)
    : option sd_buf :=
  match fuel with
  | O => Some b
  | S fuel' =>
      if j <? txt_e then
        b ← (if negb (Ascii.eqb (rd data j) LF) then sd_bufputc b (rd data j)
             else if negb (Ascii.eqb (rd data (j - 1)) " ") then sd_bufputc b " "
             else Some b);
        link_id_loop fuel' b data txt_e (S j)
      else Some b
  end.

(** The buffers taken from the pool by [char_link], each with the entry it
    stands in, are kept in [held]: [cleanup] sets the size of the pool back,
    which drops them all. *)
Definition link_newbuf (rndr : sd_markdown opaque_t) (held : list (nat * sd_buf))
    : option (sd_buf * nat * sd_markdown opaque_t) :=
  let slot := st_size (work_bufs_span rndr) in
  '(work, rndr) ← rndr_newbuf rndr BUFFER_SPAN;
  Some (work, slot, rndr).

(** [rndr->work_bufs[BUFFER_SPAN].size = (int)org_work_size;] *)
Definition link_cleanup (rndr : sd_markdown opaque_t) (org_work_size : nat)
    (held : list (nat * sd_buf)) : sd_markdown opaque_t :=
  let pool := work_bufs_span rndr in
  set_work_bufs rndr BUFFER_SPAN
    (mk_stack
       (fold_left (λ item '(slot, work), <[slot := Some work]> item) held
          (st_item pool))
       org_work_size).

(** The label of a reference or shortcut link whose own label is empty:
    the text, with its newlines turned into spaces when it has some.
    Returns the label and what is held of the pool. *)
Definition link_text_id (rndr : sd_markdown opaque_t) (held : list (nat * sd_buf))
    (data : ptr) (txt_e : nat) (text_has_nl : bool)
    : option (list ascii * list (nat * sd_buf) * sd_markdown opaque_t) :=
  if text_has_nl then
    '(b, slot, rndr) ← link_newbuf rndr held;
    b ← link_id_loop txt_e b data txt_e 1;
    Some (buf_data b, held ++ [(slot, b)], rndr)
  else Some (view (shift data 1) (txt_e - 1), held, rndr).

(** The end of [char_link], from "building content" on; [link] and [title]
    are the link and title found, NULL or their bytes. *)
Definition link_render (ob : sd_buf) (rndr : sd_markdown opaque_t) (data : ptr)
    (is_img : bool) (org_work_size : nat) (held : list (nat * sd_buf))
    (txt_e i : nat) (link title : option (list ascii))
    : option (nat * sd_buf * sd_markdown opaque_t) :=
  '(content, held, rndr) ←
    (if 1 <? txt_e then
       '(content, slot, rndr) ← link_newbuf rndr held;
       '(content, rndr) ←
         (if is_img then
            content ← sd_bufput content (view (shift data 1) (txt_e - 1));
            Some (content, rndr)
          else
            '(content, rndr) ←
              parse_inline content (set_in_link_body rndr 1) (shift data 1) (txt_e - 1);
            Some (content, set_in_link_body rndr 0));
       Some (Some (buf_data content), held ++ [(slot, content)], rndr)
     else Some (None, held, rndr));
  '(u_link, held, rndr) ←
    match link with
    | Some link =>
        '(u_link, slot, rndr) ← link_newbuf rndr held;
        u_link ← unscape_text u_link link;
        Some (Some (buf_data u_link), held ++ [(slot, u_link)], rndr)
    | None => Some (None, held, rndr)
    end;
  '(ret, ob, rndr) ←
    (if is_img then
       let ob :=
         if (0 <? length (buf_data ob))
            && Ascii.eqb (byte_at (buf_data ob) (length (buf_data ob) - 1)) "!"
         then buf_truncate ob (length (buf_data ob) - 1) else ob in
       image ← cb_image (cb rndr);
       run_int (image ob u_link title content (opaque rndr)) rndr
     else
       link_cb ← cb_link (cb rndr);
       run_int (link_cb ob u_link title content (opaque rndr)) rndr);
  Some (if (ret =? 0)%Z then 0 else i, ob, link_cleanup rndr org_work_size held).

(** The reference and shortcut styles, from the label on. *)
Definition link_by_ref (ob : sd_buf) (rndr : sd_markdown opaque_t) (data : ptr)
    (is_img : bool) (org_work_size : nat) (held : list (nat * sd_buf))
    (txt_e i : nat) (id : list ascii)
    : option (nat * sd_buf * sd_markdown opaque_t) :=
  match find_link_ref (refs rndr) id with
  | None => Some (0, ob, link_cleanup rndr org_work_size held)
  | Some lr =>
      link_render ob rndr data is_img org_work_size held txt_e i
        (buf_data <$> ref_link lr) (buf_data <$> ref_title lr)
  end.

Definition char_link (ob : sd_buf) (rndr : sd_markdown opaque_t) (data : ptr)
    (offset size : nat) : option (nat * sd_buf * sd_markdown opaque_t) :=
  let is_img := negb (offset =? 0) && Ascii.eqb (rd_back data 1) "!" in
  let org_work_size := st_size (work_bufs_span rndr) in
  let cleanup rndr held := Some (0, ob, link_cleanup rndr org_work_size held) in
  if (is_img && negb (bool_decide (is_Some (cb_image (cb rndr)))))
     || (negb is_img && negb (bool_decide (is_Some (cb_link (cb rndr)))))
  then cleanup rndr []
  else
    let '(i, text_has_nl) := link_text_end size data size 1 1%Z false in
    if size <=? i then cleanup rndr []
    else
      let txt_e := i in
      let i := while_lt size (λ i, _isspace (rd data i)) (S i) in
      if (i <? size) && Ascii.eqb (rd data i) "(" then
        (* inline style link *)
        let i := while_lt size (λ i, _isspace (rd data i)) (S i) in
        let link_b := i in
        let i := link_url_end size data size i in
        if size <=? i then cleanup rndr []
        else
          let link_e := i in
          let after_title (i link_e title_b title_e : nat) :=
            let link_e := while_gt link_b (λ e, _isspace (rd data (e - 1))) link_e in
            let link_b := if Ascii.eqb (rd data link_b) "<" then S link_b else link_b in
            let link_e := if Ascii.eqb (rd data (link_e - 1)) ">" then link_e - 1
                          else link_e in
            '(link, held, rndr) ←
              (if link_b <? link_e then
                 '(link, slot, rndr) ← link_newbuf rndr [];
                 link ← sd_bufput link (view (shift data link_b) (link_e - link_b));
                 Some (Some (buf_data link), [(slot, link)], rndr)
               else Some (None, [], rndr));
            '(title, held, rndr) ←
              (if title_b <? title_e then
                 '(title, slot, rndr) ← link_newbuf rndr held;
                 title ← sd_bufput title (view (shift data title_b) (title_e - title_b));
                 Some (Some (buf_data title), held ++ [(slot, title)], rndr)
               else Some (None, held, rndr));
            link_render ob rndr data is_img org_work_size held txt_e (S i) link title in
          if Ascii.eqb (rd data i) "'" || Ascii.eqb (rd data i) DQUOTE then
            let qtype := rd data i in
            let title_b := S i in
            let i := link_title_end size data size (S i) qtype true in
            if size <=? i then cleanup rndr []
            else
              let title_e :=
                while_gt title_b (λ e, _isspace (rd data e)) (i - 1) in
              if negb (Ascii.eqb (rd data title_e) "'")
                 && negb (Ascii.eqb (rd data title_e) DQUOTE)
              then after_title i i 0 0
              else after_title i link_e title_b title_e
          else after_title i link_e 0 0
      else if (i <? size) && Ascii.eqb (rd data i) "[" then
        (* reference style link *)
        let link_b := S i in
        let i := while_lt size (λ i, negb (Ascii.eqb (rd data i) "]")) (S i) in
        if size <=? i then cleanup rndr []
        else
          let link_e := i in
          '(id, held, rndr) ←
            (if link_b =? link_e then link_text_id rndr [] data txt_e text_has_nl
             else Some (view (shift data link_b) (link_e - link_b), [], rndr));
          link_by_ref ob rndr data is_img org_work_size held txt_e (S i) id
      else
        (* shortcut reference style link *)
        '(id, held, rndr) ← link_text_id rndr [] data txt_e text_has_nl;
        link_by_ref ob rndr data is_img org_work_size held txt_e (txt_e + 1) id.

Definition char_superscript (ob : sd_buf) (rndr : sd_markdown opaque_t) (data : ptr)
    (offset size : nat) : option (nat * sd_buf * sd_markdown opaque_t) :=
  match cb_superscript (cb rndr) with
  | None => Some (0, ob, rndr)
  | Some superscript =>
      if size <? 2 then Some (0, ob, rndr)
      else
        let render sup_start sup_len :=
          if sup_len - sup_start =? 0
          then Some (if sup_start =? 2 then 3 else 0, ob, rndr)
          else
            '(sup, rndr) ← rndr_newbuf rndr BUFFER_SPAN;
            '(sup, rndr) ← parse_inline sup rndr (shift data sup_start)
                             (sup_len - sup_start);
            '(_, ob, rndr) ←
              run_int (superscript ob (Some (buf_data sup)) (opaque rndr)) rndr;
            rndr ← rndr_popbuf rndr BUFFER_SPAN sup;
            Some (if sup_start =? 2 then sup_len + 1 else sup_len, ob, rndr) in
        if Ascii.eqb (rd data 1) "(" then
          let sup_len :=
            while_lt size
              (λ n, negb (Ascii.eqb (rd data n) ")")
                    && negb (Ascii.eqb (rd data (n - 1)) "\")) 2 in
          if sup_len =? size then Some (0, ob, rndr)
          else render 2 sup_len
        else
          let sup_len := while_lt size (λ n, negb (_isspace (rd data n))) 1 in
          render 1 sup_len
  end.

(** [markdown_char_ptrs[action](ob, rndr, data, offset, size)]; the data of
    [char_codespan] and [char_entity] are the [size] bytes at [data]. *)
Definition char_trigger (action : markdown_char_t) (ob : sd_buf)
    (rndr : sd_markdown opaque_t) (data : ptr) (offset size : nat)
    : option (nat * sd_buf * sd_markdown opaque_t) :=
  match action with
  | MD_CHAR_NONE => None
  | MD_CHAR_EMPHASIS => char_emphasis ob rndr data offset size
  | MD_CHAR_CODESPAN => char_codespan ob rndr (view data size) offset
  | MD_CHAR_LINEBREAK => char_linebreak ob rndr data offset size
  | MD_CHAR_LINK => char_link ob rndr data offset size
  | MD_CHAR_LANGLE => char_langle_tag ob rndr data offset size
  | MD_CHAR_ESCAPE => char_escape ob rndr data offset size
  | MD_CHAR_ENTITITY => char_entity ob rndr (view data size) offset
  | MD_CHAR_AUTOLINK_URL => char_autolink_url ob rndr data offset size
  | MD_CHAR_AUTOLINK_EMAIL => char_autolink_email ob rndr data offset size
  | MD_CHAR_AUTOLINK_WWW => char_autolink_www ob rndr data offset size
  | MD_CHAR_SUPERSCRIPT => char_superscript ob rndr data offset size
  end.

Definition is_active (action : markdown_char_t) : bool :=
  match action with MD_CHAR_NONE => false | _ => true end.

(** The [while (i < size)] loop of [parse_inline]; running out of fuel is an
    abort. *)
Fixpoint parse_inline_loop (fuel : nat) (ob : sd_buf) (rndr : sd_markdown opaque_t)
    (data : ptr) (size i end_ : nat) : option (sd_buf * sd_markdown opaque_t) :=
  match fuel with
  | O => None
  | S fuel' =>
      if i <? size then
        let end_ :=
          while_lt size (λ e, negb (is_active (active_char rndr (rd data e)))) end_ in
        '(ob, rndr) ← put_normal_text ob rndr (view (shift data i) (end_ - i));
        if size <=? end_ then Some (ob, rndr)
        else
          let i := end_ in
          let action := active_char rndr (rd data end_) in
          '(end_, ob, rndr) ← char_trigger action ob rndr (shift data i) i (size - i);
          if end_ =? 0 then parse_inline_loop fuel' ob rndr data size i (i + 1)
          else parse_inline_loop fuel' ob rndr data size (i + end_) (i + end_)
      else Some (ob, rndr)
  end.

Definition nesting_exceeded (rndr : sd_markdown opaque_t) : bool :=
  max_nesting rndr
  <? st_size (work_bufs_span rndr) + st_size (work_bufs_block rndr).

Definition parse_inline_body (ob : sd_buf) (rndr : sd_markdown opaque_t) (data : ptr)
    (size : nat) : option (sd_buf * sd_markdown opaque_t) :=
  if nesting_exceeded rndr then Some (ob, rndr)
  else parse_inline_loop (S size) ob rndr data size 0 0.

(** ** Block-level parsing functions *)

(** [is_empty]: the length of the line when it is empty, 0 otherwise. *)
Definition is_empty (data : ptr) (size : nat) : nat :=
  let i := while_lt size (λ i, negb (Ascii.eqb (rd data i) LF)
                                && Ascii.eqb (rd data i) " ") 0 in
  if (i <? size) && negb (Ascii.eqb (rd data i) LF) then 0 else i + 1.

(** The first three lines of most block tests: up to three spaces, each
    read without a look at [size]. *)
Definition skip_3_spaces (data : ptr) : nat :=
  if Ascii.eqb (rd data 0) " " then
    if Ascii.eqb (rd data 1) " " then
      if Ascii.eqb (rd data 2) " " then 3 else 2
    else 1
  else 0.

(** The same with [i < size] tested before each read. *)
Definition skip_3_spaces_in (data : ptr) (size : nat) : nat :=
  let i := 0 in
  let i := if (i <? size) && Ascii.eqb (rd data i) " " then S i else i in
  let i := if (i <? size) && Ascii.eqb (rd data i) " " then S i else i in
  let i := if (i <? size) && Ascii.eqb (rd data i) " " then S i else i in
  i.

(** The loop of [is_hrule]: [None] is [return 0]. *)
Fixpoint hrule_loop (fuel : nat) (data : ptr) (size : nat) (c : ascii) (i n : nat)
    : option nat :=
  match fuel with
  | O => Some n
  | S fuel' =>
      if (i <? size) && negb (Ascii.eqb (rd data i) LF) then
        if Ascii.eqb (rd data i) c then hrule_loop fuel' data size c (S i) (S n)
        else if negb (Ascii.eqb (rd data i) " ") then None
        else hrule_loop fuel' data size c (S i) n
      else Some n
  end.

Definition is_hrule (data : ptr) (size : nat) : bool :=
  if size <? 3 then false
  else
    let i := skip_3_spaces data in
    if (size <=? i + 2)
       || (negb (Ascii.eqb (rd data i) "*") && negb (Ascii.eqb (rd data i) "-")
           && negb (Ascii.eqb (rd data i) "_"))
    then false
    else
      match hrule_loop size data size (rd data i) i 0 with
      | Some n => 3 <=? n
      | None => false
      end.

Definition prefix_codefence (data : ptr) (size : nat) : nat :=
  if size <? 3 then 0
  else
    let i := skip_3_spaces data in
    if (size <=? i + 2)
       || negb (Ascii.eqb (rd data i) "~" || Ascii.eqb (rd data i) "`")
    then 0
    else
      let c := rd data i in
      let i' := while_lt size (λ i, Ascii.eqb (rd data i) c) i in
      if i' - i <? 3 then 0 else i'.

(** [is_codefence]: the size of the line when it is a code fence, with the
    bytes that [syntax] is set to; 0 otherwise. *)
Definition is_codefence (data : ptr) (size : nat) : nat * list ascii :=
  let i := prefix_codefence data size in
  if i =? 0 then (0, [])
  else
    let i := while_lt size (λ i, Ascii.eqb (rd data i) " ") i in
    let finish (i syn_start syn_len : nat) :=
      let i' := while_lt size (λ i, negb (Ascii.eqb (rd data i) LF)
                                     && _isspace (rd data i)) i in
      (if (i' <? size) && negb (Ascii.eqb (rd data i') LF) then 0 else i' + 1,
       view (shift data syn_start) syn_len) in
    if (i <? size) && Ascii.eqb (rd data i) "{" then
      let syn_start := S i in
      let i := while_lt size (λ i, negb (Ascii.eqb (rd data i) "}")
                                    && negb (Ascii.eqb (rd data i) LF)) (S i) in
      let syn_len := i - syn_start in
      if (i =? size) || negb (Ascii.eqb (rd data i) "}") then (0, [])
      else
        let skipped :=
          scan_fwd syn_len (λ k, (k <? syn_len) && _isspace (rd data (syn_start + k))) 0 in
        let syn_start := syn_start + skipped in
        let syn_len := syn_len - skipped in
        let syn_len :=
          while_gt 0 (λ n, _isspace (rd data (syn_start + n - 1))) syn_len in
        finish (S i) syn_start syn_len
    else
      let i' := while_lt size (λ i, negb (_isspace (rd data i))) i in
      finish i' i (i' - i).

Definition is_atxheader (rndr : sd_markdown opaque_t) (data : ptr) (size : nat) : bool :=
  if negb (Ascii.eqb (rd data 0) "#") then false
  else if has_flag (ext_flags rndr) MKDEXT_SPACE_HEADERS then
    let level :=
      while_lt size (λ level, (level <? 6) && Ascii.eqb (rd data level) "#") 0 in
    if (level <? size) && negb (Ascii.eqb (rd data level) " ") then false else true
  else true.

Definition is_headerline (data : ptr) (size : nat) : nat :=
  let underline (c : ascii) (level : nat) :=
    let i := while_lt size (λ i, Ascii.eqb (rd data i) c) 1 in
    let i := while_lt size (λ i, Ascii.eqb (rd data i) " ") i in
    if (size <=? i) || Ascii.eqb (rd data i) LF then level else 0 in
  if Ascii.eqb (rd data 0) "=" then underline "=" 1
  else if Ascii.eqb (rd data 0) "-" then underline "-" 2
  else 0.

Definition is_next_headerline (data : ptr) (size : nat) : nat :=
  let i := while_lt size (λ i, negb (Ascii.eqb (rd data i) LF)) 0 in
  let i := S i in
  if size <=? i then 0 else is_headerline (shift data i) (size - i).

Definition prefix_quote (data : ptr) (size : nat) : nat :=
  let i := skip_3_spaces_in data size in
  if (i <? size) && Ascii.eqb (rd data i) ">" then
    if (i + 1 <? size) && Ascii.eqb (rd data (i + 1)) " " then i + 2 else i + 1
  else 0.

Definition prefix_code (data : ptr) (size : nat) : nat :=
  if (3 <? size) && Ascii.eqb (rd data 0) " " && Ascii.eqb (rd data 1) " "
     && Ascii.eqb (rd data 2) " " && Ascii.eqb (rd data 3) " "
  then 4 else 0.

Definition prefix_oli (data : ptr) (size : nat) : nat :=
  let i := skip_3_spaces_in data size in
  if (size <=? i) || negb (isdigit (rd data i)) then 0
  else
    let i := while_lt size (λ i, isdigit (rd data i)) i in
    if (size <=? i + 1) || negb (Ascii.eqb (rd data i) ".")
       || negb (Ascii.eqb (rd data (i + 1)) " ")
    then 0
    else if negb (is_next_headerline (shift data i) (size - i) =? 0) then 0
    else i + 2.

Definition prefix_uli (data : ptr) (size : nat) : nat :=
  let i := skip_3_spaces_in data size in
  if (size <=? i + 1)
     || (negb (Ascii.eqb (rd data i) "*") && negb (Ascii.eqb (rd data i) "+")
         && negb (Ascii.eqb (rd data i) "-"))
     || negb (Ascii.eqb (rd data (i + 1)) " ")
  then 0
  else if negb (is_next_headerline (shift data i) (size - i) =? 0) then 0
  else i + 2.

(** ** HTML_BLOCKS.H: the perfect hash of the block tags *)

Definition asso_values : list nat :=
  [   38; 38; 38; 38; 38; 38; 38; 38; 38; 38; 38; 38; 38; 38; 38; 38;
   38; 38; 38; 38; 38; 38; 38; 38; 38; 38; 38; 38; 38; 38; 38; 38;
   38; 38; 38; 38; 38; 38; 38; 38; 38; 38; 38; 38; 38; 38; 38; 38;
   38; 38;  8; 30; 25; 20; 15; 10; 38; 38; 38; 38; 38; 38; 38; 38;
   38; 38;  0; 38;  0; 38;  5;  5;  5; 15;  0; 38; 38;  0; 15; 10;
    0; 38; 38; 15;  0;  5; 38; 38; 38; 38; 38; 38; 38; 38; 38; 38;
   38; 38;  0; 38;  0; 38;  5;  5;  5; 15;  0; 38; 38;  0; 15; 10;
    0; 38; 38; 15;  0;  5; 38; 38; 38; 38; 38; 38; 38; 38; 38; 38;
   38; 38; 38; 38; 38; 38; 38; 38; 38; 38; 38; 38; 38; 38; 38; 38;
   38; 38; 38; 38; 38; 38; 38; 38; 38; 38; 38; 38; 38; 38; 38; 38;
   38; 38; 38; 38; 38; 38; 38; 38; 38; 38; 38; 38; 38; 38; 38; 38;
   38; 38; 38; 38; 38; 38; 38; 38; 38; 38; 38; 38; 38; 38; 38; 38;
   38; 38; 38; 38; 38; 38; 38; 38; 38; 38; 38; 38; 38; 38; 38; 38;
   38; 38; 38; 38; 38; 38; 38; 38; 38; 38; 38; 38; 38; 38; 38; 38;
   38; 38; 38; 38; 38; 38; 38; 38; 38; 38; 38; 38; 38; 38; 38; 38;
   38; 38; 38; 38; 38; 38; 38; 38; 38; 38; 38; 38; 38; 38; 38; 38;
   38]%nat.

Definition gperf_downcase (c : ascii) : ascii :=
  if isupper c then ascii_of_nat (nat_of_ascii c + 32) else c.

(** [gperf_case_strncmp(s1, s2, n) == 0] *)
Fixpoint gperf_case_strncmp_eq (s1 s2 : ptr) (n : nat) : bool :=
  match n with
  | O => true
  | S n' =>
      let c1 := gperf_downcase (rd s1 0) in
      let c2 := gperf_downcase (rd s2 0) in
      if negb (Ascii.eqb c1 NUL) && Ascii.eqb c1 c2
      then gperf_case_strncmp_eq (shift s1 1) (shift s2 1) n'
      else Ascii.eqb c1 c2
  end.

Definition hash_block_tag (str : ptr) (len : nat) : nat :=
  match len with
  | 1 => len + nth (nat_of_ascii (rd str 0)) asso_values 0
  | _ => len + nth (nat_of_ascii (rd str 1) + 1) asso_values 0
             + nth (nat_of_ascii (rd str 0)) asso_values 0
  end.

Definition wordlist : list string :=
  [EmptyString; "p"; "dl"; "div"; "math"; "table"; EmptyString; "ul"; "del"; "form"; "blockquote"; "figure"; "ol"; "fieldset"; EmptyString; "h1"; EmptyString; "h6"; "pre"; EmptyString; EmptyString; "script"; "h5"; "noscript"; EmptyString; "style"; "iframe"; "h4"; "ins"; EmptyString; EmptyString; EmptyString; "h3"; EmptyString; EmptyString; EmptyString; EmptyString; "h2"]%string.

(** A string constant of the program, with its terminating NUL. *)
Definition c_str (s : string) : ptr := mk_ptr (bytes s ++ [NUL]) 0.

Definition find_block_tag (str : ptr) (len : nat) : option string :=
  if (len <=? 10) && (1 <=? len) then
    let key := hash_block_tag str len in
    if key <=? 37 then
      let s := nth key wordlist EmptyString in
      if (Z.land (Z.lxor (Z.of_nat (nat_of_ascii (rd str 0)))
                         (Z.of_nat (nat_of_ascii (rd (c_str s) 0))))
                 (Z.lnot 32) =? 0)%Z
         && gperf_case_strncmp_eq str (c_str s) len
         && Ascii.eqb (rd (c_str s) len) NUL
      then Some s else None
    else None
  else None.

(** [htmlblock_end_tag]: the length on a match, 0 otherwise. *)
Definition htmlblock_end_tag (tag : string) (tag_len : nat) (data : ptr) (size : nat)
    : nat :=
  if (size <=? tag_len + 3)
     || negb (strncasecmp_eq (rest (shift data 2)) (bytes tag))
     || negb (Ascii.eqb (rd data (tag_len + 2)) ">")
  then 0
  else
    let i := tag_len + 3 in
    let w := if i <? size then is_empty (shift data i) (size - i) else 0 in
    if (i <? size) && (w =? 0) then 0
    else
      let i := i + w in
      let w := if i <? size then is_empty (shift data i) (size - i) else 0 in
      i + w.

(** The inner loop of [htmlblock_end]: the next [</], with the newlines
    passed counted. *)
Fixpoint next_close_tag (fuel : nat) (data : ptr) (size i : nat) (block_lines : nat)
    : nat * nat :=
  match fuel with
  | O => (i, block_lines)
  | S fuel' =>
      if (i <? size)
         && negb (Ascii.eqb (rd data (i - 1)) "<" && Ascii.eqb (rd data i) "/")
      then next_close_tag fuel' data size (S i)
             (if Ascii.eqb (rd data i) LF then S block_lines else block_lines)
      else (i, block_lines)
  end.

Fixpoint htmlblock_end_loop (fuel : nat) (curtag : string) (data : ptr) (size : nat)
    (start_of_line : bool) (i block_lines : nat) : nat :=
  match fuel with
  | O => 0
  | S fuel' =>
      if i <? size then
        let '(i, block_lines) := next_close_tag size data size (S i) block_lines in
        if start_of_line && (0 <? block_lines)
           && negb (Ascii.eqb (rd data (i - 2)) LF)
        then htmlblock_end_loop fuel' curtag data size start_of_line i block_lines
        else if size <=? i + 2 + String.length curtag then 0
        else
          let end_tag :=
            htmlblock_end_tag curtag (String.length curtag)
              (shift data (i - 1)) (size - i + 1) in
          if negb (end_tag =? 0) then i + end_tag - 1
          else htmlblock_end_loop fuel' curtag data size start_of_line i block_lines
      else 0
  end.

Definition htmlblock_end (curtag : string) (data : ptr) (size : nat)
    (start_of_line : bool) : nat :=
  htmlblock_end_loop size curtag data size start_of_line 1 0.

(** What [parse_htmlblock] returns, which is the size of the block that it
    renders when it is not 0. *)
Definition htmlblock_size (data : ptr) (size : nat) : nat :=
  if (size <? 2) || negb (Ascii.eqb (rd data 0) "<") then 0
  else
    let i := while_lt size (λ i, negb (Ascii.eqb (rd data i) ">")
                                  && negb (Ascii.eqb (rd data i) " ")) 1 in
    let curtag := if i <? size then find_block_tag (shift data 1) (i - 1) else None in
    match curtag with
    | None =>
        let hr :=
          if (4 <? size)
             && (Ascii.eqb (rd data 1) "h" || Ascii.eqb (rd data 1) "H")
             && (Ascii.eqb (rd data 2) "r" || Ascii.eqb (rd data 2) "R")
          then
            let i := while_lt size (λ i, negb (Ascii.eqb (rd data i) ">")) 3 in
            if i + 1 <? size then
              let i := S i in
              let j := is_empty (shift data i) (size - i) in
              if negb (j =? 0) then i + j else 0
            else 0
          else 0 in
        if (5 <? size) && Ascii.eqb (rd data 1) "!" && Ascii.eqb (rd data 2) "-"
           && Ascii.eqb (rd data 3) "-"
        then
          let i :=
            while_lt size
              (λ i, negb (Ascii.eqb (rd data (i - 2)) "-"
                          && Ascii.eqb (rd data (i - 1)) "-"
                          && Ascii.eqb (rd data i) ">")) 5 in
          let i := S i in
          let j := if i <? size then is_empty (shift data i) (size - i) else 0 in
          if negb (j =? 0) then i + j else hr
        else hr
    | Some curtag =>
        let tag_end := htmlblock_end curtag data size true in
        if (tag_end =? 0) && negb (String.eqb curtag "ins")
           && negb (String.eqb curtag "del")
        then htmlblock_end curtag data size false
        else tag_end
    end.

Definition parse_htmlblock (ob : sd_buf) (rndr : sd_markdown opaque_t) (data : ptr)
    (size : nat) (do_render : bool) : option (nat * sd_buf * sd_markdown opaque_t) :=
  let work_size := htmlblock_size data size in
  if work_size =? 0 then Some (0, ob, rndr)
  else
    match cb_blockhtml (cb rndr) with
    | Some blockhtml =>
        if do_render then
          '(ob, rndr) ← run_void (blockhtml ob (Some (view data work_size)) (opaque rndr)) rndr;
          Some (work_size, ob, rndr)
        else Some (work_size, ob, rndr)
    | None => Some (work_size, ob, rndr)
    end.

(** *** parse_blockquote *)

(** [memmove(mem + dst, mem + src, n)] *)
Definition memmove (mem : list ascii) (dst src n : nat) : list ascii :=
  firstn dst mem ++ slice mem src n ++ skipn (dst + n) mem.

(** The loop of [parse_blockquote], which moves the lines of the quote,
    their prefixes taken off, to the front of [data], in place.  The state
    is the array, [beg], [end], [work_data] as an index from [data] (NULL
    is [None]) and [work_size]; the result is the array, [end],
    [work_data] and [work_size]. *)
Fixpoint blockquote_loop (fuel : nat) (mem : list ascii) (data_off size : nat)
    (beg end_ : nat) (work_data : option nat) (work_size : nat)
    : list ascii * nat * option nat * nat :=
  match fuel with
  | O => (mem, end_, work_data, work_size)
  | S fuel' =>
      if beg <? size then
        let data := mk_ptr mem data_off in
        let end_ := line_end data size beg in
        let pre := prefix_quote (shift data beg) (end_ - beg) in
        if (pre =? 0)
           && negb (is_empty (shift data beg) (end_ - beg) =? 0)
           && ((size <=? end_)
               || ((prefix_quote (shift data end_) (size - end_) =? 0)
                   && (is_empty (shift data end_) (size - end_) =? 0)))
        then (mem, end_, work_data, work_size)
        else
          let beg := beg + pre in
          if beg <? end_ then
            match work_data with
            | None =>
                blockquote_loop fuel' mem data_off size end_ end_
                  (Some beg) (work_size + (end_ - beg))
            | Some w =>
                let mem :=
                  if negb (beg =? w + work_size)
                  then memmove mem (data_off + w + work_size) (data_off + beg)
                         (end_ - beg)
                  else mem in
                blockquote_loop fuel' mem data_off size end_ end_
                  work_data (work_size + (end_ - beg))
            end
          else blockquote_loop fuel' mem data_off size end_ end_ work_data work_size
      else (mem, end_, work_data, work_size)
  end.

(** [parse_block] is given the lines as they stand in the array after the
    moves; the bytes that were moved lie before [data + end], which the
    caller of [parse_blockquote] does not read again. *)
Definition parse_blockquote (ob : sd_buf) (rndr : sd_markdown opaque_t) (data : ptr)
    (size : nat) : option (nat * sd_buf * sd_markdown opaque_t) :=
  '(out, rndr) ← rndr_newbuf rndr BUFFER_BLOCK;
  let '(mem', end_, work_data, work_size) :=
    blockquote_loop size (mem data) (off data) size 0 0 None 0 in
  let work :=
    match work_data with
    | Some w => mk_ptr mem' (off data + w)
    | None => mk_ptr [] 0
    end in
  '(out, rndr) ← parse_block out rndr work work_size;
  '(ob, rndr) ←
    match cb_blockquote (cb rndr) with
    | Some blockquote => run_void (blockquote ob (Some (buf_data out)) (opaque rndr)) rndr
    | None => Some (ob, rndr)
    end;
  rndr ← rndr_popbuf rndr BUFFER_BLOCK out;
  Some (end_, ob, rndr).

(** *** parse_paragraph *)

(** The loop of [parse_paragraph]; the result is [i], [end] and [level].
    [parse_htmlblock] is called with [do_render] 0, when all it does is to
    return [htmlblock_size]. *)
Fixpoint paragraph_loop (fuel : nat) (rndr : sd_markdown opaque_t) (data : ptr)
    (size i end_ : nat) : nat * nat * nat :=
  match fuel with
  | O => (i, end_, 0)
  | S fuel' =>
      if i <? size then
        let end_ := line_end data size i in
        let line := shift data i in
        let len := size - i in
        if negb (is_empty line len =? 0) then (i, end_, 0)
        else if negb (is_headerline line len =? 0) then (i, end_, is_headerline line len)
        else if is_atxheader rndr line len || is_hrule line len
                || negb (prefix_quote line len =? 0)
        then (i, i, 0)
        else if has_flag (ext_flags rndr) MKDEXT_LAX_SPACING
                && negb (isalnum (rd data i))
                && (negb (prefix_oli line len =? 0)
                    || negb (prefix_uli line len =? 0)
                    || (Ascii.eqb (rd data i) "<"
                        && bool_decide (is_Some (cb_blockhtml (cb rndr)))
                        && negb (htmlblock_size line len =? 0))
                    || (has_flag (ext_flags rndr) MKDEXT_FENCED_CODE
                        && negb (fst (is_codefence line len) =? 0)))
        then (i, i, 0)
        else paragraph_loop fuel' rndr data size end_ end_
      else (i, end_, 0)
  end.

(** [tmp = rndr_newbuf(rndr, BUFFER_BLOCK); parse_inline(tmp, rndr, ...);
    if (rndr->cb.paragraph) ...; rndr_popbuf(rndr, BUFFER_BLOCK);] *)
Definition render_paragraph (ob : sd_buf) (rndr : sd_markdown opaque_t) (data : ptr)
    (size : nat) : option (sd_buf * sd_markdown opaque_t) :=
  '(tmp, rndr) ← rndr_newbuf rndr BUFFER_BLOCK;
  '(tmp, rndr) ← parse_inline tmp rndr data size;
  '(ob, rndr) ←
    match cb_paragraph (cb rndr) with
    | Some paragraph => run_void (paragraph ob (Some (buf_data tmp)) (opaque rndr)) rndr
    | None => Some (ob, rndr)
    end;
  rndr ← rndr_popbuf rndr BUFFER_BLOCK tmp;
  Some (ob, rndr).

(** [work = rndr_newbuf(rndr, BUFFER_SPAN); parse_inline(work, rndr, ...);
    if (rndr->cb.header) ...; rndr_popbuf(rndr, BUFFER_SPAN);] *)
Definition render_header (ob : sd_buf) (rndr : sd_markdown opaque_t) (data : ptr)
    (size : nat) (level : nat) : option (sd_buf * sd_markdown opaque_t) :=
  '(work, rndr) ← rndr_newbuf rndr BUFFER_SPAN;
  '(work, rndr) ← parse_inline work rndr data size;
  '(ob, rndr) ←
    match cb_header (cb rndr) with
    | Some header =>
        run_void (header ob (Some (buf_data work)) (Z.of_nat level) (opaque rndr)) rndr
    | None => Some (ob, rndr)
    end;
  rndr ← rndr_popbuf rndr BUFFER_SPAN work;
  Some (ob, rndr).

Definition parse_paragraph (ob : sd_buf) (rndr : sd_markdown opaque_t) (data : ptr)
    (size : nat) : option (nat * sd_buf * sd_markdown opaque_t) :=
  let '(i, end_, level) := paragraph_loop size rndr data size 0 0 in
  let work_size := while_gt 0 (λ n, Ascii.eqb (rd data (n - 1)) LF) i in
  '(ob, rndr) ←
    (if level =? 0 then render_paragraph ob rndr data work_size
     else
       '(work_data, work_size, ob, rndr) ←
         (if negb (work_size =? 0) then
            let i := work_size in
            let work_size := work_size - 1 in
            let work_size :=
              while_gt 0 (λ n, negb (Ascii.eqb (rd data n) LF)) work_size in
            let beg := work_size + 1 in
            let work_size :=
              while_gt 0 (λ n, Ascii.eqb (rd data (n - 1)) LF) work_size in
            if 0 <? work_size then
              '(ob, rndr) ← render_paragraph ob rndr data work_size;
              Some (shift data beg, i - beg, ob, rndr)
            else Some (data, i, ob, rndr)
          else Some (data, work_size, ob, rndr));
       render_header ob rndr work_data work_size level);
  Some (end_, ob, rndr).

(** *** parse_fencedcode and parse_blockcode *)

(** [if (is_empty(data + beg, end - beg)) sd_bufputc(work, '\n');
    else sd_bufput(work, data + beg, end - beg);] *)
Definition put_code_line (work : sd_buf) (data : ptr) (beg end_ : nat) : option sd_buf :=
  if negb (is_empty (shift data beg) (end_ - beg) =? 0) then sd_bufputc work LF
  else sd_bufput work (view (shift data beg) (end_ - beg)).

Fixpoint fencedcode_loop (fuel : nat) (work : sd_buf) (data : ptr) (size beg : nat)
    : option (nat * sd_buf) :=
  match fuel with
  | O => None
  | S fuel' =>
      if beg <? size then
        let '(fence_end, fence_trail) := is_codefence (shift data beg) (size - beg) in
        if negb (fence_end =? 0) && (length fence_trail =? 0)
        then Some (beg + fence_end, work)
        else
          let end_ := line_end data size beg in
          work ← (if beg <? end_ then put_code_line work data beg end_ else Some work);
          fencedcode_loop fuel' work data size end_
      else Some (beg, work)
  end.

Definition parse_fencedcode (ob : sd_buf) (rndr : sd_markdown opaque_t) (data : ptr)
    (size : nat) : option (nat * sd_buf * sd_markdown opaque_t) :=
  let '(beg, lang) := is_codefence data size in
  if beg =? 0 then Some (0, ob, rndr)
  else
    '(work, rndr) ← rndr_newbuf rndr BUFFER_BLOCK;
    '(beg, work) ← fencedcode_loop (S size) work data size beg;
    work ←
      (if (0 <? length (buf_data work))
          && negb (Ascii.eqb (byte_at (buf_data work) (length (buf_data work) - 1)) LF)
       then sd_bufputc work LF else Some work);
    '(ob, rndr) ←
      match cb_blockcode (cb rndr) with
      | Some blockcode =>
          run_void (blockcode ob (Some (buf_data work))
                      (if negb (length lang =? 0) then Some lang else None)
                      (opaque rndr)) rndr
      | None => Some (ob, rndr)
      end;
    rndr ← rndr_popbuf rndr BUFFER_BLOCK work;
    Some (beg, ob, rndr).

Fixpoint blockcode_loop (fuel : nat) (work : sd_buf) (data : ptr) (size beg : nat)
    : option (nat * sd_buf) :=
  match fuel with
  | O => None
  | S fuel' =>
      if beg <? size then
        let end_ := line_end data size beg in
        let pre := prefix_code (shift data beg) (end_ - beg) in
        if (pre =? 0) && (is_empty (shift data beg) (end_ - beg) =? 0)
        then Some (beg, work)
        else
          let beg := beg + pre in
          work ← (if beg <? end_ then put_code_line work data beg end_ else Some work);
          blockcode_loop fuel' work data size end_
      else Some (beg, work)
  end.

Definition parse_blockcode (ob : sd_buf) (rndr : sd_markdown opaque_t) (data : ptr)
    (size : nat) : option (nat * sd_buf * sd_markdown opaque_t) :=
  '(work, rndr) ← rndr_newbuf rndr BUFFER_BLOCK;
  '(beg, work) ← blockcode_loop (S size) work data size 0;
  let work :=
    buf_truncate work
      (while_gt 0 (λ n, Ascii.eqb (byte_at (buf_data work) (n - 1)) LF)
         (length (buf_data work))) in
  work ← sd_bufputc work LF;
  '(ob, rndr) ←
    match cb_blockcode (cb rndr) with
    | Some blockcode =>
        run_void (blockcode ob (Some (buf_data work)) None (opaque rndr)) rndr
    | None => Some (ob, rndr)
    end;
  rndr ← rndr_popbuf rndr BUFFER_BLOCK work;
  Some (beg, ob, rndr).

(** *** parse_listitem and parse_list *)

(** What the loop of [parse_listitem] keeps from one line to the next. *)
Record listitem_state : Type := mk_listitem_state {
  li_beg : nat;
  li_end : nat;
  li_in_empty : bool;
  li_has_inside_empty : bool;
  li_in_fence : bool;
  li_sublist : nat;
  li_flags : Z;
  li_work : sd_buf
}.

Fixpoint listitem_loop (fuel : nat) (rndr : sd_markdown opaque_t) (data : ptr)
    (size orgpre : nat) (st : listitem_state) : option listitem_state :=
  match fuel with
  | O => None
  | S fuel' =>
      let '(mk_listitem_state beg end_ in_empty has_inside_empty in_fence sublist
              flags work) := st in
      if beg <? size then
        let end_ :=
          while_lt size (λ e, negb (Ascii.eqb (rd data (e - 1)) LF)) (S end_) in
        if negb (is_empty (shift data beg) (end_ - beg) =? 0) then
          listitem_loop fuel' rndr data size orgpre
            (mk_listitem_state end_ end_ true has_inside_empty in_fence sublist
               flags work)
        else
          let i :=
            scan_fwd 4 (λ i, (i <? 4) && (beg + i <? end_)
                             && Ascii.eqb (rd data (beg + i)) " ") 0 in
          let pre := i in
          let line := shift data (beg + i) in
          let len := end_ - beg - i in
          let in_fence :=
            if has_flag (ext_flags rndr) MKDEXT_FENCED_CODE
               && negb (fst (is_codefence line len) =? 0)
            then negb in_fence else in_fence in
          let has_next_uli := if in_fence then 0 else prefix_uli line len in
          let has_next_oli := if in_fence then 0 else prefix_oli line len in
          let stop flags :=
            Some (mk_listitem_state beg end_ in_empty has_inside_empty in_fence
                    sublist flags work) in
          let join has_inside_empty sublist work :=
            work ← sd_bufput work (view line len);
            listitem_loop fuel' rndr data size orgpre
              (mk_listitem_state end_ end_ false has_inside_empty in_fence sublist
                 flags work) in
          if in_empty
             && ((has_flag flags MKD_LIST_ORDERED && negb (has_next_uli =? 0))
                 || (negb (has_flag flags MKD_LIST_ORDERED)
                     && negb (has_next_oli =? 0)))
          then stop (Z.lor flags MKD_LI_END)
          else if (negb (has_next_uli =? 0) && negb (is_hrule line len))
                  || negb (has_next_oli =? 0)
          then
            let has_inside_empty := in_empty || has_inside_empty in
            if pre =? orgpre then
              Some (mk_listitem_state beg end_ in_empty has_inside_empty in_fence
                      sublist flags work)
            else
              join has_inside_empty
                (if sublist =? 0 then length (buf_data work) else sublist) work
          else if in_empty && (pre =? 0) then stop (Z.lor flags MKD_LI_END)
          else if in_empty then
            work ← sd_bufputc work LF;
            join true sublist work
          else join has_inside_empty sublist work
      else Some st
  end.

(** [parse_listitem] returns the bytes taken and the new [*flags]. *)
Definition parse_listitem (ob : sd_buf) (rndr : sd_markdown opaque_t) (data : ptr)
    (size : nat) (flags : Z) : option (nat * Z * sd_buf * sd_markdown opaque_t) :=
  let orgpre :=
    while_lt size (λ n, (n <? 3) && Ascii.eqb (rd data n) " ") 0 in
  let beg := prefix_uli data size in
  let beg := if beg =? 0 then prefix_oli data size else beg in
  if beg =? 0 then Some (0, flags, ob, rndr)
  else
    let end_ := while_lt size (λ e, negb (Ascii.eqb (rd data (e - 1)) LF)) beg in
    '(work, rndr) ← rndr_newbuf rndr BUFFER_SPAN;
    '(inter, rndr) ← rndr_newbuf rndr BUFFER_SPAN;
    work ← sd_bufput work (view (shift data beg) (end_ - beg));
    st ← listitem_loop (S size) rndr data size orgpre
           (mk_listitem_state end_ end_ false false false 0 flags work);
    let beg := li_beg st in
    let sublist := li_sublist st in
    let work := li_work st in
    let flags :=
      if li_has_inside_empty st then Z.lor (li_flags st) MKD_LI_BLOCK
      else li_flags st in
    let work_size := length (buf_data work) in
    let split := negb (sublist =? 0) && (sublist <? work_size) in
    '(inter, rndr) ←
      (if has_flag flags MKD_LI_BLOCK then
         if split then
           '(inter, rndr) ← parse_block inter rndr (buf_ptr work) sublist;
           parse_block inter rndr (shift (buf_ptr work) sublist) (work_size - sublist)
         else parse_block inter rndr (buf_ptr work) work_size
       else
         if split then
           '(inter, rndr) ← parse_inline inter rndr (buf_ptr work) sublist;
           parse_block inter rndr (shift (buf_ptr work) sublist) (work_size - sublist)
         else parse_inline inter rndr (buf_ptr work) work_size);
    '(ob, rndr) ←
      match cb_listitem (cb rndr) with
      | Some listitem =>
          run_void (listitem ob (Some (buf_data inter)) flags (opaque rndr)) rndr
      | None => Some (ob, rndr)
      end;
    rndr ← rndr_popbuf rndr BUFFER_SPAN inter;
    rndr ← rndr_popbuf rndr BUFFER_SPAN work;
    Some (beg, flags, ob, rndr).

Fixpoint list_loop (fuel : nat) (work : sd_buf) (rndr : sd_markdown opaque_t)
    (data : ptr) (size i : nat) (flags : Z)
    : option (nat * Z * sd_buf * sd_markdown opaque_t) :=
  match fuel with
  | O => None
  | S fuel' =>
      if i <? size then
        '(j, flags, work, rndr) ← parse_listitem work rndr (shift data i) (size - i) flags;
        let i := i + j in
        if (j =? 0) || has_flag flags MKD_LI_END then Some (i, flags, work, rndr)
        else list_loop fuel' work rndr data size i flags
      else Some (i, flags, work, rndr)
  end.

Definition parse_list (ob : sd_buf) (rndr : sd_markdown opaque_t) (data : ptr)
    (size : nat) (flags : Z) : option (nat * sd_buf * sd_markdown opaque_t) :=
  '(work, rndr) ← rndr_newbuf rndr BUFFER_BLOCK;
  '(i, flags, work, rndr) ← list_loop (S size) work rndr data size 0 flags;
  '(ob, rndr) ←
    match cb_list (cb rndr) with
    | Some list_cb =>
        run_void (list_cb ob (Some (buf_data work)) flags (opaque rndr)) rndr
    | None => Some (ob, rndr)
    end;
  rndr ← rndr_popbuf rndr BUFFER_BLOCK work;
  Some (i, ob, rndr).

(** *** parse_atxheader *)

Definition parse_atxheader (ob : sd_buf) (rndr : sd_markdown opaque_t) (data : ptr)
    (size : nat) : option (nat * sd_buf * sd_markdown opaque_t) :=
  let level :=
    while_lt size (λ level, (level <? 6) && Ascii.eqb (rd data level) "#") 0 in
  let i := while_lt size (λ i, Ascii.eqb (rd data i) " ") level in
  let end_ := while_lt size (λ e, negb (Ascii.eqb (rd data e) LF)) i in
  let skip := end_ in
  let end_ := while_gt 0 (λ e, Ascii.eqb (rd data (e - 1)) "#") end_ in
  let end_ := while_gt 0 (λ e, Ascii.eqb (rd data (e - 1)) " ") end_ in
  '(ob, rndr) ←
    (if i <? end_ then render_header ob rndr (shift data i) (end_ - i) level
     else Some (ob, rndr));
  Some (skip, ob, rndr).

(** *** Tables *)

(** [while (i < size && data[i] != '\n') if (data[i++] == '|') pipes++;] *)
Fixpoint scan_pipes (fuel : nat) (data : ptr) (size i : nat) (pipes : Z) : nat * Z :=
  match fuel with
  | O => (i, pipes)
  | S fuel' =>
      if (i <? size) && negb (Ascii.eqb (rd data i) LF)
      then scan_pipes fuel' data size (S i)
             (if Ascii.eqb (rd data i) "|" then (pipes + 1)%Z else pipes)
      else (i, pipes)
  end.

(** [col_data[col]]; the array holds [columns] entries. *)
Definition col_flags (col_data : list Z) (col : nat) : Z := nth col col_data 0%Z.

(** The first loop of [parse_table_row]: the cells that the row holds. *)
Fixpoint table_cells_loop (fuel : nat) (row_work : sd_buf) (rndr : sd_markdown opaque_t)
    (data : ptr) (size columns : nat) (col_data : list Z) (header_flag : Z)
    (i col : nat) : option (nat * sd_buf * sd_markdown opaque_t) :=
  match fuel with
  | O => Some (col, row_work, rndr)
  | S fuel' =>
      if (col <? columns) && (i <? size) then
        '(cell_work, rndr) ← rndr_newbuf rndr BUFFER_SPAN;
        let i := while_lt size (λ i, _isspace (rd data i)) i in
        let cell_start := i in
        let i := while_lt size (λ i, negb (Ascii.eqb (rd data i) "|")) i in
        let cell_end := while_gt cell_start (λ e, _isspace (rd data e)) (i - 1) in
        '(cell_work, rndr) ←
          parse_inline cell_work rndr (shift data cell_start)
            (1 + cell_end - cell_start);
        table_cell ← cb_table_cell (cb rndr);
        '(row_work, rndr) ←
          run_void (table_cell row_work (Some (buf_data cell_work))
                      (Z.lor (col_flags col_data col) header_flag) (opaque rndr)) rndr;
        rndr ← rndr_popbuf rndr BUFFER_SPAN cell_work;
        table_cells_loop fuel' row_work rndr data size columns col_data header_flag
          (S i) (S col)
      else Some (col, row_work, rndr)
  end.

(** The second loop: empty cells for the columns that are left. *)
Fixpoint table_empty_cells (fuel : nat) (row_work : sd_buf) (rndr : sd_markdown opaque_t)
    (col_data : list Z) (header_flag : Z) (col : nat)
    : option (sd_buf * sd_markdown opaque_t) :=
  match fuel with
  | O => Some (row_work, rndr)
  | S fuel' =>
      table_cell ← cb_table_cell (cb rndr);
      '(row_work, rndr) ←
        run_void (table_cell row_work (Some [])
                    (Z.lor (col_flags col_data col) header_flag) (opaque rndr)) rndr;
      table_empty_cells fuel' row_work rndr col_data header_flag (S col)
  end.

Definition parse_table_row (ob : sd_buf) (rndr : sd_markdown opaque_t) (data : ptr)
    (size columns : nat) (col_data : list Z) (header_flag : Z)
    : option (sd_buf * sd_markdown opaque_t) :=
  match cb_table_cell (cb rndr), cb_table_row (cb rndr) with
  | Some _, Some _ =>
      '(row_work, rndr) ← rndr_newbuf rndr BUFFER_SPAN;
      let i := if (0 <? size) && Ascii.eqb (rd data 0) "|" then 1 else 0 in
      '(col, row_work, rndr) ←
        table_cells_loop columns row_work rndr data size columns col_data header_flag
          i 0;
      '(row_work, rndr) ←
        table_empty_cells (columns - col) row_work rndr col_data header_flag col;
      table_row ← cb_table_row (cb rndr);
      '(ob, rndr) ← run_void (table_row ob (Some (buf_data row_work)) (opaque rndr)) rndr;
      rndr ← rndr_popbuf rndr BUFFER_SPAN row_work;
      Some (ob, rndr)
  | _, _ => Some (ob, rndr)
  end.

(** The loop of [parse_table_header] over the header underline; the result
    is [col] and the alignments found. *)
Fixpoint table_underline_loop (fuel : nat) (data : ptr) (under_end columns : nat)
    (col_data : list Z) (i col : nat) : nat * list Z :=
  match fuel with
  | O => (col, col_data)
  | S fuel' =>
      if (col <? columns) && (i <? under_end) then
        let i := while_lt under_end (λ i, Ascii.eqb (rd data i) " ") i in
        let '(i, col_data, dashes) :=
          if Ascii.eqb (rd data i) ":"
          then (S i, <[col := Z.lor (col_flags col_data col) MKD_TABLE_ALIGN_L]> col_data, 1)
          else (i, col_data, 0) in
        let i' := while_lt under_end (λ i, Ascii.eqb (rd data i) "-") i in
        let dashes := dashes + (i' - i) in
        let i := i' in
        let '(i, col_data, dashes) :=
          if (i <? under_end) && Ascii.eqb (rd data i) ":"
          then (S i, <[col := Z.lor (col_flags col_data col) MKD_TABLE_ALIGN_R]> col_data,
                S dashes)
          else (i, col_data, dashes) in
        let i := while_lt under_end (λ i, Ascii.eqb (rd data i) " ") i in
        if (i <? under_end) && negb (Ascii.eqb (rd data i) "|") then (col, col_data)
        else if dashes <? 3 then (col, col_data)
        else table_underline_loop fuel' data under_end columns col_data (S i) (S col)
      else (col, col_data)
  end.

(** [parse_table_header] returns the bytes taken, [*columns] and
    [*column_data]. *)
Definition parse_table_header (ob : sd_buf) (rndr : sd_markdown opaque_t) (data : ptr)
    (size : nat) : option (nat * nat * list Z * sd_buf * sd_markdown opaque_t) :=
  let '(i, pipes) := scan_pipes size data size 0 0%Z in
  if (i =? size) || (pipes =? 0)%Z then Some (0, 0, [], ob, rndr)
  else
    let header_end := while_gt 0 (λ e, _isspace (rd data (e - 1))) i in
    let pipes := if Ascii.eqb (rd data 0) "|" then (pipes - 1)%Z else pipes in
    let pipes :=
      if (0 <? header_end) && Ascii.eqb (rd data (header_end - 1)) "|"
      then (pipes - 1)%Z else pipes in
    let columns := Z.to_nat (pipes + 1) in
    let col_data := replicate columns 0%Z in
    let i := S i in
    let i := if (i <? size) && Ascii.eqb (rd data i) "|" then S i else i in
    let under_end := while_lt size (λ e, negb (Ascii.eqb (rd data e) LF)) i in
    let '(col, col_data) :=
      table_underline_loop columns data under_end columns col_data i 0 in
    if col <? columns then Some (0, columns, col_data, ob, rndr)
    else
      '(ob, rndr) ←
        parse_table_row ob rndr data header_end columns col_data MKD_TABLE_HEADER;
      Some (under_end + 1, columns, col_data, ob, rndr).

Fixpoint table_rows_loop (fuel : nat) (body_work : sd_buf) (rndr : sd_markdown opaque_t)
    (data : ptr) (size columns : nat) (col_data : list Z) (i : nat)
    : option (nat * sd_buf * sd_markdown opaque_t) :=
  match fuel with
  | O => None
  | S fuel' =>
      if i <? size then
        let row_start := i in
        let '(i, pipes) := scan_pipes size data size i 0%Z in
        if (pipes =? 0)%Z || (i =? size) then Some (row_start, body_work, rndr)
        else
          '(body_work, rndr) ←
            parse_table_row body_work rndr (shift data row_start) (i - row_start)
              columns col_data 0;
          table_rows_loop fuel' body_work rndr data size columns col_data (S i)
      else Some (i, body_work, rndr)
  end.

Definition parse_table (ob : sd_buf) (rndr : sd_markdown opaque_t) (data : ptr)
    (size : nat) : option (nat * sd_buf * sd_markdown opaque_t) :=
  '(header_work, rndr) ← rndr_newbuf rndr BUFFER_SPAN;
  '(body_work, rndr) ← rndr_newbuf rndr BUFFER_BLOCK;
  '(i, columns, col_data, header_work, rndr) ←
    parse_table_header header_work rndr data size;
  '(i, body_work, ob, rndr) ←
    (if 0 <? i then
       '(i, body_work, rndr) ←
         table_rows_loop (S size) body_work rndr data size columns col_data i;
       '(ob, rndr) ←
         match cb_table (cb rndr) with
         | Some table =>
             run_void (table ob (Some (buf_data header_work))
                         (Some (buf_data body_work)) (opaque rndr)) rndr
         | None => Some (ob, rndr)
         end;
       Some (i, body_work, ob, rndr)
     else Some (i, body_work, ob, rndr));
  rndr ← rndr_popbuf rndr BUFFER_SPAN header_work;
  rndr ← rndr_popbuf rndr BUFFER_BLOCK body_work;
  Some (i, ob, rndr).

(** *** parse_block *)

(** One turn of the loop of [parse_block]: the bytes taken by the block
    that begins at [data]. *)
Definition parse_one_block (ob : sd_buf) (rndr : sd_markdown opaque_t) (data : ptr)
    (size : nat) : option (nat * sd_buf * sd_markdown opaque_t) :=
  if is_atxheader rndr data size then parse_atxheader ob rndr data size
  else
    '(i, ob, rndr) ←
      (if Ascii.eqb (rd data 0) "<" && bool_decide (is_Some (cb_blockhtml (cb rndr)))
       then parse_htmlblock ob rndr data size true
       else Some (0, ob, rndr));
    if negb (i =? 0) then Some (i, ob, rndr)
    else if negb (is_empty data size =? 0) then Some (is_empty data size, ob, rndr)
    else if is_hrule data size then
      '(ob, rndr) ←
        match cb_hrule (cb rndr) with
        | Some hrule => run_void (hrule ob (opaque rndr)) rndr
        | None => Some (ob, rndr)
        end;
      Some (S (while_lt size (λ n, negb (Ascii.eqb (rd data n) LF)) 0), ob, rndr)
    else
      '(i, ob, rndr) ←
        (if has_flag (ext_flags rndr) MKDEXT_FENCED_CODE
         then parse_fencedcode ob rndr data size
         else Some (0, ob, rndr));
      if negb (i =? 0) then Some (i, ob, rndr)
      else
        '(i, ob, rndr) ←
          (if has_flag (ext_flags rndr) MKDEXT_TABLES
           then parse_table ob rndr data size
           else Some (0, ob, rndr));
        if negb (i =? 0) then Some (i, ob, rndr)
        else if negb (prefix_quote data size =? 0) then parse_blockquote ob rndr data size
        else if negb (prefix_code data size =? 0) then parse_blockcode ob rndr data size
        else if negb (prefix_uli data size =? 0) then parse_list ob rndr data size 0
        else if negb (prefix_oli data size =? 0)
        then parse_list ob rndr data size MKD_LIST_ORDERED
        else parse_paragraph ob rndr data size.

(** The [while (beg < size)] loop of [parse_block]; a block that takes no
    byte makes it run for ever, which is an abort here. *)
Fixpoint parse_block_loop (fuel : nat) (ob : sd_buf) (rndr : sd_markdown opaque_t)
    (data : ptr) (size beg : nat) : option (sd_buf * sd_markdown opaque_t) :=
  match fuel with
  | O => None
  | S fuel' =>
      if beg <? size then
        '(i, ob, rndr) ← parse_one_block ob rndr (shift data beg) (size - beg);
        parse_block_loop fuel' ob rndr data size (beg + i)
      else Some (ob, rndr)
  end.

Definition parse_block_body (ob : sd_buf) (rndr : sd_markdown opaque_t) (data : ptr)
    (size : nat) : option (sd_buf * sd_markdown opaque_t) :=
  if nesting_exceeded rndr then Some (ob, rndr)
  else parse_block_loop (S size) ob rndr data size 0.

End Parser.

Arguments parse_inline_body {opaque_t} parse_inline ob rndr data size.
Arguments parse_block_body {opaque_t} parse_inline parse_block ob rndr data size.

(** ** The recursion of parse_inline and parse_block

    [fuel] bounds the depth of the calls of [parse_inline] and [parse_block]
    within one another.  Each of them is called with one more buffer taken
    from the pools than its caller was, and returns at once when more than
    [max_nesting] are taken. *)
Fixpoint parse_inline {opaque_t : Type} (fuel : nat) (ob : sd_buf)
    (rndr : sd_markdown opaque_t) (data : ptr) (size : nat)
    : option (sd_buf * sd_markdown opaque_t) :=
  match fuel with
  | O => None
  | S fuel' => parse_inline_body (parse_inline fuel') ob rndr data size
  end.

Fixpoint parse_block {opaque_t : Type} (fuel : nat) (ob : sd_buf)
    (rndr : sd_markdown opaque_t) (data : ptr) (size : nat)
    : option (sd_buf * sd_markdown opaque_t) :=
  match fuel with
  | O => None
  | S fuel' =>
      parse_block_body (parse_inline fuel') (parse_block fuel') ob rndr data size
  end.

(** ** Reference parsing *)

(** What [is_ref] finds in a line that is a reference: where the label, the
    link and the title are, and [*last]. *)
Record ref_line : Type := mk_ref_line {
  id_offset : nat; id_end : nat;
  link_offset : nat; link_end : nat;
  title_offset : nat; title_end : nat;
  ref_last : nat
}.

(** The scan of [is_ref], up to "a valid ref has been found"; [None] is
    [return 0]. *)
Definition is_ref_scan (data : ptr) (beg end_ : nat) : option ref_line :=
  let at_ c i := Ascii.eqb (rd data i) c in
  if end_ <=? beg + 3 then None
  else if at_ " " beg && at_ " " (beg + 1) && at_ " " (beg + 2) && at_ " " (beg + 3)
  then None
  else
    let i :=
      if at_ " " beg then
        if at_ " " (beg + 1) then
          if at_ " " (beg + 2) then 3 else 2
        else 1
      else 0 in
    let i := i + beg in
    (* id part: anything but a newline between brackets *)
    if negb (at_ "[" i) then None
    else
      let i := S i in
      let id_offset := i in
      let i := while_lt end_ (λ i, negb (at_ LF i) && negb (at_ CR i) && negb (at_ "]" i)) i in
      if (end_ <=? i) || negb (at_ "]" i) then None
      else
        let id_end := i in
        (* spacer: colon (space | tab)* newline? (space | tab)* *)
        let i := S i in
        if (end_ <=? i) || negb (at_ ":" i) then None
        else
          let i := S i in
          let i := while_lt end_ (at_ " ") i in
          let i :=
            if (i <? end_) && (at_ LF i || at_ CR i) then
              let i := S i in
              if (i <? end_) && at_ CR i && at_ LF (i - 1) then S i else i
            else i in
          let i := while_lt end_ (at_ " ") i in
          if end_ <=? i then None
          else
            (* link: whitespace-free sequence, optionally between angle brackets *)
            let i := if at_ "<" i then S i else i in
            let link_offset := i in
            let i :=
              while_lt end_ (λ i, negb (at_ " " i) && negb (at_ LF i) && negb (at_ CR i)) i in
            let link_end := if at_ ">" (i - 1) then i - 1 else i in
            (* optional spacer *)
            let i := while_lt end_ (at_ " ") i in
            if (i <? end_) && negb (at_ LF i) && negb (at_ CR i) && negb (at_ "'" i)
               && negb (at_ DQUOTE i) && negb (at_ "(" i)
            then None
            else
              (* computing end-of-line *)
              let line_end := if (end_ <=? i) || at_ CR i || at_ LF i then i else 0 in
              let line_end :=
                if (i + 1 <? end_) && at_ LF i && at_ CR (i + 1) then i + 1
                else line_end in
              (* optional (space|tab)* spacer after a newline *)
              let i :=
                if negb (line_end =? 0) then while_lt end_ (at_ " ") (line_end + 1)
                else i in
              (* optional title *)
              let '(line_end, title_offset, title_end) :=
                if (i + 1 <? end_) && (at_ "'" i || at_ DQUOTE i || at_ "(" i) then
                  let i := S i in
                  let title_offset := i in
                  let i := while_lt end_ (λ i, negb (at_ LF i) && negb (at_ CR i)) i in
                  let title_end :=
                    if (i + 1 <? end_) && at_ LF i && at_ CR (i + 1) then i + 1 else i in
                  let i := while_gt title_offset (at_ " ") (i - 1) in
                  if (title_offset <? i) && (at_ "'" i || at_ DQUOTE i || at_ ")" i)
                  then (title_end, title_offset, i)
                  else (line_end, title_offset, title_end)
                else (line_end, 0, 0) in
              if (line_end =? 0) || (link_end =? link_offset) then None
              else
                Some (mk_ref_line id_offset id_end link_offset link_end
                        title_offset title_end line_end).

(** [is_ref] as [sd_markdown_render] calls it, with [last] and [refs]
    given: [None] is [return 0]; otherwise [*last] and the table with the
    reference stored. *)
Definition is_ref (data : ptr) (beg end_ : nat) (refs : list (list link_ref))
    : option (option (nat * list (list link_ref))) :=
  match is_ref_scan data beg end_ with
  | None => Some None
  | Some r =>
      refs ←
        store_ref refs
          (view (shift data (id_offset r)) (id_end r - id_offset r))
          (view (shift data (link_offset r)) (link_end r - link_offset r))
          (if title_offset r <? title_end r
           then Some (view (shift data (title_offset r)) (title_end r - title_offset r))
           else None);
      Some (Some (ref_last r, refs))
  end.

(** ** Exported functions *)

Definition set_active (active : ascii → markdown_char_t) (c : ascii)
    (action : markdown_char_t) : ascii → markdown_char_t :=
  λ c', if Ascii.eqb c' c then action else active c'.

Definition sd_markdown_new {opaque_t : Type} (extensions : Z) (max_nesting : nat)
    (callbacks : sd_callbacks opaque_t) (opaque : opaque_t)
    : option (sd_markdown opaque_t) :=
  if max_nesting =? 0 then None
  else
    let activate (cond : bool) (c : ascii) (action : markdown_char_t) active :=
      if cond then set_active active c action else active in
    let has {A} (f : option A) := bool_decide (is_Some f) in
    let emphasis :=
      has (cb_emphasis callbacks) || has (cb_double_emphasis callbacks)
      || has (cb_triple_emphasis callbacks) in
    let active := λ _, MD_CHAR_NONE in
    let active := activate emphasis "*" MD_CHAR_EMPHASIS active in
    let active := activate emphasis "_" MD_CHAR_EMPHASIS active in
    let active :=
      activate (emphasis && has_flag extensions MKDEXT_STRIKETHROUGH) "~" MD_CHAR_EMPHASIS
         active in
    let active := activate (has (cb_codespan callbacks)) "`" MD_CHAR_CODESPAN active in
    let active := activate (has (cb_linebreak callbacks)) LF MD_CHAR_LINEBREAK active in
    let active :=
      activate (has (cb_image callbacks) || has (cb_link callbacks)) "[" MD_CHAR_LINK active in
    let active := set_active active "<" MD_CHAR_LANGLE in
    let active := set_active active "\" MD_CHAR_ESCAPE in
    let active := set_active active "&" MD_CHAR_ENTITITY in
    let autolink := has_flag extensions MKDEXT_AUTOLINK in
    let active := activate autolink ":" MD_CHAR_AUTOLINK_URL active in
    let active := activate autolink "@" MD_CHAR_AUTOLINK_EMAIL active in
    let active := activate autolink "w" MD_CHAR_AUTOLINK_WWW active in
    let active :=
      activate (has_flag extensions MKDEXT_SUPERSCRIPT) "^" MD_CHAR_SUPERSCRIPT active in
    Some (mk_markdown callbacks opaque (replicate REF_TABLE_SIZE [])
            active (stack_init 4) (stack_init 8) extensions max_nesting 0%Z).

Definition UTF8_BOM : list ascii := ["239"; "187"; "191"]%char.

(** The [while] loop of the first pass over the newlines that end a line:
    one \n for each newline. *)
Fixpoint put_newlines (fuel : nat) (text : sd_buf) (document : ptr)
    (doc_size end_ : nat) : option (nat * sd_buf) :=
  match fuel with
  | O => Some (end_, text)
  | S fuel' =>
      if (end_ <? doc_size)
         && (Ascii.eqb (rd document end_) LF || Ascii.eqb (rd document end_) CR)
      then
        text ←
          (if Ascii.eqb (rd document end_) LF
              || ((end_ + 1 <? doc_size)
                  && negb (Ascii.eqb (rd document (end_ + 1)) LF))
           then sd_bufputc text LF else Some text);
        put_newlines fuel' text document doc_size (S end_)
      else Some (end_, text)
  end.

(** The first pass: looking for references, copying everything else. *)
Fixpoint first_pass (fuel : nat) (text : sd_buf) (refs : list (list link_ref))
    (document : ptr) (doc_size beg : nat)
    : option (sd_buf * list (list link_ref)) :=
  match fuel with
  | O => None
  | S fuel' =>
      if beg <? doc_size then
        found ← is_ref document beg doc_size refs;
        match found with
        | Some (end_, refs) => first_pass fuel' text refs document doc_size end_
        | None =>
            let end_ :=
              while_lt doc_size
                (λ e, negb (Ascii.eqb (rd document e) LF)
                      && negb (Ascii.eqb (rd document e) CR)) beg in
            text ←
              (if beg <? end_
               then expand_tabs text (view (shift document beg) (end_ - beg))
               else Some text);
            '(end_, text) ← put_newlines doc_size text document doc_size end_;
            first_pass fuel' text refs document doc_size end_
        end
      else Some (text, refs)
  end.

(** [x + (x >> 1)] *)
Definition MARKDOWN_GROW (x : Z) : Z := (x + Z.shiftr x 1)%Z.

(** [sd_markdown_render] up to its clean-up: all of it but the two
    assertions that end it.  [free_link_refs] frees the references and
    leaves the table as it is. *)
Definition render_passes {opaque_t : Type} (ob : sd_buf) (document : list ascii)
    (md : sd_markdown opaque_t) : option (sd_buf * sd_markdown opaque_t) :=
  let doc_size := length document in
  let document := mk_ptr document 0 in
  let text := sd_bufnew 64 in
  '(_, text) ← sd_bufgrow text (Z.of_nat doc_size);
  let md := set_refs md (replicate REF_TABLE_SIZE []) in
  let beg :=
    if (3 <=? doc_size) && bytes_eqb (view document 3) UTF8_BOM then 3 else 0 in
  '(text, refs) ← first_pass (S doc_size) text (refs md) document doc_size beg;
  let md := set_refs md refs in
  '(_, ob) ← sd_bufgrow ob (MARKDOWN_GROW (buf_size text));
  '(ob, md) ←
    match cb_doc_header (cb md) with
    | Some doc_header => run_void (doc_header ob (opaque md)) md
    | None => Some (ob, md)
    end;
  '(ob, md) ←
    (if negb (length (buf_data text) =? 0) then
       let last := byte_at (buf_data text) (length (buf_data text) - 1) in
       text ←
         (if negb (Ascii.eqb last LF) && negb (Ascii.eqb last CR)
          then sd_bufputc text LF else Some text);
       parse_block (max_nesting md + 2) ob md (buf_ptr text) (length (buf_data text))
     else Some (ob, md));
  match cb_doc_footer (cb md) with
  | Some doc_footer => run_void (doc_footer ob (opaque md)) md
  | None => Some (ob, md)
  end.

(** [assert(md->work_bufs[BUFFER_SPAN].size == 0);
    assert(md->work_bufs[BUFFER_BLOCK].size == 0);] *)
Definition sd_markdown_render {opaque_t : Type} (ob : sd_buf) (document : list ascii)
    (md : sd_markdown opaque_t) : option (sd_buf * sd_markdown opaque_t) :=
  '(ob, md) ← render_passes ob document md;
  if negb (st_size (work_bufs_span md) =? 0) then None
  else if negb (st_size (work_bufs_block md) =? 0) then None
  else Some (ob, md).

(** ** BUFFER.C: sd_bufprintf *)

(** [sd_bufprintf(buf, fmt, ...)], given the bytes [formatted] that the
    format and its arguments print to: [vsnprintf] returns their number. *)
Definition sd_bufprintf (buf : sd_buf) (formatted : list ascii) : option sd_buf :=
  if (buf_unit buf =? 0)%Z then None
  else
    '(err, buf) ←
      (if (buf_size buf >=? buf_asize buf)%Z then sd_bufgrow buf (buf_size buf + 1)
       else Some (BUF_OK, buf));
    if (buferror_code err <? 0)%Z then Some buf
    else
      let n := Z.of_nat (length formatted) in
      if (n >=? buf_asize buf - buf_size buf)%Z then
        '(err, buf') ← sd_bufgrow buf (buf_size buf + n + 1);
        if (buferror_code err <? 0)%Z then Some buf
        else Some (buf_append buf' formatted)
      else Some (buf_append buf formatted).

(** What [%d] prints. *)
Fixpoint decimal_digits (fuel : nat) (n : Z) (acc : list ascii) : list ascii :=
  match fuel with
  | O => acc
  | S fuel' =>
      let acc := ascii_of_nat (48 + Z.to_nat (n mod 10)) :: acc in
      if (n / 10 =? 0)%Z then acc else decimal_digits fuel' (n / 10) acc
  end.

Definition decimal (n : Z) : list ascii :=
  if (n <? 0)%Z then "-"%char :: decimal_digits 10 (- n) []
  else decimal_digits 10 n [].

(** ** HTML.C: the header callback of the HTML renderer *)

(** [struct html_renderopt], which the callbacks of the HTML renderer are
    given as their [opaque] argument. *)
Record html_renderopt : Type := mk_html_renderopt {
  header_count : Z;
  current_level : Z;
  level_offset : Z;
  html_flags : Z;
  link_attributes : option (sd_buf → list ascii → option sd_buf)
}.

Definition HTML_TOC : Z := 64.

Definition rndr_header (ob : sd_buf) (text : cb_text) (level : Z)
    (options : html_renderopt) : option (sd_buf * html_renderopt) :=
  ob ← (if negb (length (buf_data ob) =? 0) then sd_bufputc ob LF else Some ob);
  '(ob, options) ←
    (if has_flag (html_flags options) HTML_TOC then
       ob ← sd_bufprintf ob
              (bytes "<h" ++ decimal level ++ bytes " id=" ++ [DQUOTE] ++ bytes "toc_"
               ++ decimal (header_count options) ++ [DQUOTE] ++ bytes ">");
       Some (ob, mk_html_renderopt (header_count options + 1) (current_level options)
                   (level_offset options) (html_flags options)
                   (link_attributes options))
     else
       ob ← sd_bufprintf ob (bytes "<h" ++ decimal level ++ bytes ">");
       Some (ob, options));
  ob ← match text with
       | Some text => sd_bufput ob text
       | None => Some ob
       end;
  ob ← sd_bufprintf ob (bytes "</h" ++ decimal level ++ bytes ">" ++ [LF]);
  Some (ob, options).

(** ** BUFFER.C: sd_bufprefix, sd_bufreset and sd_bufslurp *)

(** A [uint8_t] and a [char] as the [int] they are promoted to in a
    comparison or a difference; [char] is taken to be signed.  The strings
    that the program compares buffers with are ASCII, for which the two
    agree. *)
Definition uint8_value (c : ascii) : Z := Z.of_nat (nat_of_ascii c).

Definition char_value (c : ascii) : Z :=
  if 128 <=? nat_of_ascii c then (Z.of_nat (nat_of_ascii c) - 256)%Z
  else Z.of_nat (nat_of_ascii c).

(** The loop of [sd_bufprefix] over the bytes [data] of the buffer;
    [prefix[i]] is NUL at the end of the string. *)
Fixpoint bufprefix_loop (fuel : nat) (data prefix : list ascii) (i : nat) : Z :=
  match fuel with
  | O => 0%Z
  | S fuel' =>
      if i <? length data then
        if (char_value (byte_at prefix i) =? 0)%Z then 0%Z
        else if negb (uint8_value (byte_at data i) =? char_value (byte_at prefix i))%Z
        then (uint8_value (byte_at data i) - char_value (byte_at prefix i))%Z
        else bufprefix_loop fuel' data prefix (S i)
      else 0%Z
  end.

Definition bufprefix (data : list ascii) (prefix : string) : Z :=
  bufprefix_loop (length data) data (bytes prefix) 0.

Definition sd_bufprefix (buf : sd_buf) (prefix : string) : option Z :=
  if (buf_unit buf =? 0)%Z then None
  else Some (bufprefix (buf_data buf) prefix).

Definition sd_bufreset (buf : sd_buf) : sd_buf := mk_buf [] 0 (buf_unit buf).

Definition sd_bufslurp (buf : sd_buf) (len : nat) : option sd_buf :=
  if (buf_unit buf =? 0)%Z then None
  else if length (buf_data buf) <=? len
  then Some (mk_buf [] (buf_asize buf) (buf_unit buf))
  else
    Some (mk_buf (slice (buf_data buf) len (length (buf_data buf) - len))
                 (buf_asize buf) (buf_unit buf)).

(** ** STACK.C: stack_pop and stack_top *)

(** [st->item[--st->size]]; the functions of the stack keep [size] within
    the array. *)
Definition stack_pop (st : stack) : option sd_buf * stack :=
  match st_size st with
  | O => (None, st)
  | S n => (default None (st_item st !! n), mk_stack (st_item st) n)
  end.

Definition stack_top (st : stack) : option sd_buf :=
  match st_size st with
  | O => None
  | S n => default None (st_item st !! n)
  end.

(** ** HOUDINI_HTML_E.C *)

Definition ESCAPE_GROW_FACTOR (x : Z) : Z := (x * 12 / 10)%Z.

Definition HTML_ESCAPE_TABLE : list nat :=
  [0; 0; 0; 0; 0; 0; 0; 0; 0; 0; 0; 0; 0; 0; 0; 0;
   0; 0; 0; 0; 0; 0; 0; 0; 0; 0; 0; 0; 0; 0; 0; 0;
   0; 0; 1; 0; 0; 0; 2; 3; 0; 0; 0; 0; 0; 0; 0; 4;
   0; 0; 0; 0; 0; 0; 0; 0; 0; 0; 0; 0; 5; 0; 6; 0;
   0; 0; 0; 0; 0; 0; 0; 0; 0; 0; 0; 0; 0; 0; 0; 0;
   0; 0; 0; 0; 0; 0; 0; 0; 0; 0; 0; 0; 0; 0; 0; 0;
   0; 0; 0; 0; 0; 0; 0; 0; 0; 0; 0; 0; 0; 0; 0; 0;
   0; 0; 0; 0; 0; 0; 0; 0; 0; 0; 0; 0; 0; 0; 0; 0;
   0; 0; 0; 0; 0; 0; 0; 0; 0; 0; 0; 0; 0; 0; 0; 0;
   0; 0; 0; 0; 0; 0; 0; 0; 0; 0; 0; 0; 0; 0; 0; 0;
   0; 0; 0; 0; 0; 0; 0; 0; 0; 0; 0; 0; 0; 0; 0; 0;
   0; 0; 0; 0; 0; 0; 0; 0; 0; 0; 0; 0; 0; 0; 0; 0;
   0; 0; 0; 0; 0; 0; 0; 0; 0; 0; 0; 0; 0; 0; 0; 0;
   0; 0; 0; 0; 0; 0; 0; 0; 0; 0; 0; 0; 0; 0; 0; 0;
   0; 0; 0; 0; 0; 0; 0; 0; 0; 0; 0; 0; 0; 0; 0; 0;
   0; 0; 0; 0; 0; 0; 0; 0; 0; 0; 0; 0; 0; 0; 0; 0]%nat.

Definition HTML_ESCAPES : list string :=
  [EmptyString; "&quot;"; "&amp;"; "&#39;"; "&#47;"; "&lt;"; "&gt;"]%string.

(** [HTML_ESCAPE_TABLE[src[i]]] *)
Definition html_escape_code (c : ascii) : nat :=
  nth (nat_of_ascii c) HTML_ESCAPE_TABLE 0.

Fixpoint escape_html_loop (fuel : nat) (ob : sd_buf) (src : list ascii)
    (secure : bool) (i : nat) : option sd_buf :=
  match fuel with
  | O => Some ob
  | S fuel' =>
      if i <? length src then
        let org := i in
        let i :=
          while_lt (length src) (λ i, html_escape_code (byte_at src i) =? 0) i in
        ob ← (if org <? i then sd_bufput ob (slice src org (i - org)) else Some ob);
        if length src <=? i then Some ob
        else
          let esc := html_escape_code (byte_at src i) in
          ob ←
            (if Ascii.eqb (byte_at src i) "/" && negb secure then sd_bufputc ob "/"
             else sd_bufputs ob (nth esc HTML_ESCAPES EmptyString));
          escape_html_loop fuel' ob src secure (S i)
      else Some ob
  end.

Definition houdini_escape_html0 (ob : sd_buf) (src : list ascii) (secure : bool)
    : option sd_buf :=
  '(_, ob) ← sd_bufgrow ob (ESCAPE_GROW_FACTOR (Z.of_nat (length src)));
  escape_html_loop (length src) ob src secure 0.

Definition houdini_escape_html (ob : sd_buf) (src : list ascii) : option sd_buf :=
  houdini_escape_html0 ob src true.

(** ** HOUDINI_HREF_E.C *)

Definition HREF_SAFE : list nat :=
  [0; 0; 0; 0; 0; 0; 0; 0; 0; 0; 0; 0; 0; 0; 0; 0;
   0; 0; 0; 0; 0; 0; 0; 0; 0; 0; 0; 0; 0; 0; 0; 0;
   0; 1; 0; 1; 1; 1; 0; 0; 1; 1; 1; 1; 1; 1; 1; 1;
   1; 1; 1; 1; 1; 1; 1; 1; 1; 1; 1; 1; 0; 1; 0; 1;
   1; 1; 1; 1; 1; 1; 1; 1; 1; 1; 1; 1; 1; 1; 1; 1;
   1; 1; 1; 1; 1; 1; 1; 1; 1; 1; 1; 0; 0; 0; 0; 1;
   0; 1; 1; 1; 1; 1; 1; 1; 1; 1; 1; 1; 1; 1; 1; 1;
   1; 1; 1; 1; 1; 1; 1; 1; 1; 1; 1; 0; 0; 0; 0; 0;
   0; 0; 0; 0; 0; 0; 0; 0; 0; 0; 0; 0; 0; 0; 0; 0;
   0; 0; 0; 0; 0; 0; 0; 0; 0; 0; 0; 0; 0; 0; 0; 0;
   0; 0; 0; 0; 0; 0; 0; 0; 0; 0; 0; 0; 0; 0; 0; 0;
   0; 0; 0; 0; 0; 0; 0; 0; 0; 0; 0; 0; 0; 0; 0; 0;
   0; 0; 0; 0; 0; 0; 0; 0; 0; 0; 0; 0; 0; 0; 0; 0;
   0; 0; 0; 0; 0; 0; 0; 0; 0; 0; 0; 0; 0; 0; 0; 0;
   0; 0; 0; 0; 0; 0; 0; 0; 0; 0; 0; 0; 0; 0; 0; 0;
   0; 0; 0; 0; 0; 0; 0; 0; 0; 0; 0; 0; 0; 0; 0; 0]%nat.

(** [HREF_SAFE[src[i]] != 0] *)
Definition href_safe (c : ascii) : bool :=
  negb (nth (nat_of_ascii c) HREF_SAFE 0 =? 0).

Definition hex_chars : list ascii := bytes "0123456789ABCDEF".

(** [hex_str] when [src[i]] is [c]. *)
Definition hex_str (c : ascii) : list ascii :=
  ["%";
   byte_at hex_chars
     (Z.to_nat (Z.land (Z.shiftr (Z.of_nat (nat_of_ascii c)) 4) 15));
   byte_at hex_chars (Z.to_nat (Z.land (Z.of_nat (nat_of_ascii c)) 15))].

Fixpoint escape_href_loop (fuel : nat) (ob : sd_buf) (src : list ascii) (i : nat)
    : option sd_buf :=
  match fuel with
  | O => Some ob
  | S fuel' =>
      if i <? length src then
        let org := i in
        let i := while_lt (length src) (λ i, href_safe (byte_at src i)) i in
        ob ← (if org <? i then sd_bufput ob (slice src org (i - org)) else Some ob);
        if length src <=? i then Some ob
        else
          ob ←
            (if Ascii.eqb (byte_at src i) "&" then sd_bufput ob (bytes "&amp;")
             else if Ascii.eqb (byte_at src i) "'" then sd_bufput ob (bytes "&#x27;")
             else sd_bufput ob (hex_str (byte_at src i)));
          escape_href_loop fuel' ob src (S i)
      else Some ob
  end.

Definition houdini_escape_href (ob : sd_buf) (src : list ascii) : option sd_buf :=
  '(_, ob) ← sd_bufgrow ob (ESCAPE_GROW_FACTOR (Z.of_nat (length src)));
  escape_href_loop (length src) ob src 0.

(** ** HTML.C *)

Definition HTML_SKIP_HTML : Z := 1.
Definition HTML_SKIP_STYLE : Z := 2.
Definition HTML_SKIP_IMAGES : Z := 4.
Definition HTML_SKIP_LINKS : Z := 8.
Definition HTML_EXPAND_TABS : Z := 16.
Definition HTML_SAFELINK : Z := 32.
Definition HTML_HARD_WRAP : Z := 128.
Definition HTML_USE_XHTML : Z := 256.
Definition HTML_ESCAPE : Z := 512.

Definition MKD_TABLE_ALIGN_CENTER : Z := 3.
Definition MKD_TABLE_ALIGNMASK : Z := 3.

Inductive html_tag : Type := HTML_TAG_NONE | HTML_TAG_OPEN | HTML_TAG_CLOSE.

(** The [for] loop of [sdhtml_is_tag]: [None] is [return HTML_TAG_NONE],
    [Some i] the index at which the loop ends; [k] counts the bytes of
    [tagname] passed. *)
Fixpoint is_tag_loop (fuel : nat) (tag_data tagname : list ascii) (i k : nat)
    : option nat :=
  match fuel with
  | O => Some i
  | S fuel' =>
      if i <? length tag_data then
        if (char_value (byte_at tagname k) =? 0)%Z then Some i
        else if negb (uint8_value (byte_at tag_data i)
                      =? char_value (byte_at tagname k))%Z
        then None
        else is_tag_loop fuel' tag_data tagname (S i) (S k)
      else Some i
  end.

Definition sdhtml_is_tag (tag_data : list ascii) (tagname : string) : html_tag :=
  let tag_size := length tag_data in
  if (tag_size <? 3) || negb (Ascii.eqb (byte_at tag_data 0) "<") then HTML_TAG_NONE
  else
    let closed := Ascii.eqb (byte_at tag_data 1) "/" in
    let i := if closed then 2 else 1 in
    match is_tag_loop tag_size tag_data (bytes tagname) i 0 with
    | None => HTML_TAG_NONE
    | Some i =>
        if i =? tag_size then HTML_TAG_NONE
        else if isspace (byte_at tag_data i) || Ascii.eqb (byte_at tag_data i) ">"
        then (if closed then HTML_TAG_CLOSE else HTML_TAG_OPEN)
        else HTML_TAG_NONE
    end.

Definition escape_html (ob : sd_buf) (source : list ascii) : option sd_buf :=
  houdini_escape_html0 ob source false.

Definition escape_href (ob : sd_buf) (source : list ascii) : option sd_buf :=
  houdini_escape_href ob source.

(** [if (ob->size) sd_bufputc(ob, '\n');] *)
Definition put_separator (ob : sd_buf) : option sd_buf :=
  if negb (length (buf_data ob) =? 0) then sd_bufputc ob LF else Some ob.

(** The end of the opening tag of a link: the attributes that
    [link_attributes] adds, if it is set.  The callback is given the bytes
    of [url]; with the NULL [url] that [rndr_link] can hand on there are
    none to give, and the call is left out of the model ([None]). *)
Definition close_link_tag (ob : sd_buf) (link : cb_text) (options : html_renderopt)
    : option sd_buf :=
  match link_attributes options with
  | Some attributes =>
      ob ← sd_bufputc ob DQUOTE;
      ob ← (match link with
            | Some link => attributes ob link
            | None => None
            end);
      sd_bufputc ob ">"
  | None => sd_bufput ob (DQUOTE :: bytes ">")
  end.

(** [link->size - 7] wraps around when the buffer is a beginning of
    [mailto:] shorter than it, and [escape_html] is then sent far beyond the
    buffer: [None]. *)
Definition rndr_autolink (ob : sd_buf) (link : cb_text) (type : mkd_autolink)
    (options : html_renderopt) : option (Z * sd_buf * html_renderopt) :=
  match link with
  | None => Some (0%Z, ob, options)
  | Some link =>
      if length link =? 0 then Some (0%Z, ob, options)
      else if has_flag (html_flags options) HTML_SAFELINK
              && negb (sd_autolink_issafe link)
              && negb (match type with MKDA_EMAIL => true | _ => false end)
      then Some (0%Z, ob, options)
      else
        ob ← sd_bufput ob (bytes "<a href=" ++ [DQUOTE]);
        ob ← (match type with
              | MKDA_EMAIL => sd_bufput ob (bytes "mailto:")
              | _ => Some ob
              end);
        ob ← escape_href ob link;
        ob ← close_link_tag ob (Some link) options;
        ob ←
          (if (bufprefix link "mailto:" =? 0)%Z then
             if length link <? 7 then None
             else escape_html ob (slice link 7 (length link - 7))
           else escape_html ob link);
        ob ← sd_bufput ob (bytes "</a>");
        Some (1%Z, ob, options)
  end.

(** The [for] loop of [rndr_blockcode] over the words of [lang]. *)
Fixpoint blockcode_classes (fuel : nat) (ob : sd_buf) (lang : list ascii)
    (i cls : nat) : option sd_buf :=
  match fuel with
  | O => Some ob
  | S fuel' =>
      if i <? length lang then
        let i := while_lt (length lang) (λ i, isspace (byte_at lang i)) i in
        '(i, ob) ←
          (if i <? length lang then
             let org := i in
             let i :=
               while_lt (length lang) (λ i, negb (isspace (byte_at lang i))) i in
             let org := if Ascii.eqb (byte_at lang org) "." then S org else org in
             ob ← (if negb (cls =? 0) then sd_bufputc ob " " else Some ob);
             ob ← escape_html ob (slice lang org (i - org));
             Some (i, ob)
           else Some (i, ob));
        blockcode_classes fuel' ob lang (S i) (S cls)
      else Some ob
  end.

Definition rndr_blockcode (ob : sd_buf) (text lang : cb_text)
    (options : html_renderopt) : option (sd_buf * html_renderopt) :=
  ob ← put_separator ob;
  ob ←
    (match lang with
     | Some ((_ :: _) as lang) =>
         ob ← sd_bufput ob (bytes "<pre><code class=" ++ [DQUOTE]);
         ob ← blockcode_classes (length lang) ob lang 0 0;
         sd_bufput ob (DQUOTE :: bytes ">")
     | _ => sd_bufput ob (bytes "<pre><code>")
     end);
  ob ← (match text with
        | Some text => escape_html ob text
        | None => Some ob
        end);
  ob ← sd_bufput ob (bytes "</code></pre>" ++ [LF]);
  Some (ob, options).

(** [if (text) sd_bufput(ob, text->data, text->size);] *)
Definition put_text (ob : sd_buf) (text : cb_text) : option sd_buf :=
  match text with
  | Some text => sd_bufput ob text
  | None => Some ob
  end.

Definition rndr_blockquote (ob : sd_buf) (text : cb_text)
    (options : html_renderopt) : option (sd_buf * html_renderopt) :=
  ob ← put_separator ob;
  ob ← sd_bufput ob (bytes "<blockquote>" ++ [LF]);
  ob ← put_text ob text;
  ob ← sd_bufput ob (bytes "</blockquote>" ++ [LF]);
  Some (ob, options).

Definition rndr_codespan (ob : sd_buf) (text : cb_text)
    (options : html_renderopt) : option (Z * sd_buf * html_renderopt) :=
  ob ← sd_bufput ob (bytes "<code>");
  ob ← (match text with
        | Some text => escape_html ob text
        | None => Some ob
        end);
  ob ← sd_bufput ob (bytes "</code>");
  Some (1%Z, ob, options).

(** The span callbacks that write their text between two tags, and nothing
    when there is no text: [if (!text || !text->size) return 0;]. *)
Definition rndr_between (open_ close : string) (ob : sd_buf) (text : cb_text)
    (options : html_renderopt) : option (Z * sd_buf * html_renderopt) :=
  match text with
  | Some ((_ :: _) as text) =>
      ob ← sd_bufput ob (bytes open_);
      ob ← sd_bufput ob text;
      ob ← sd_bufput ob (bytes close);
      Some (1%Z, ob, options)
  | _ => Some (0%Z, ob, options)
  end.

Definition rndr_strikethrough := rndr_between "<del>" "</del>".
Definition rndr_double_emphasis := rndr_between "<strong>" "</strong>".
Definition rndr_emphasis := rndr_between "<em>" "</em>".
Definition rndr_triple_emphasis := rndr_between "<strong><em>" "</em></strong>".
Definition rndr_superscript := rndr_between "<sup>" "</sup>".

Definition USE_XHTML (options : html_renderopt) : bool :=
  has_flag (html_flags options) HTML_USE_XHTML.

Definition rndr_linebreak (ob : sd_buf) (options : html_renderopt)
    : option (Z * sd_buf * html_renderopt) :=
  ob ← sd_bufputs ob (if USE_XHTML options then "<br/>" ++ String LF EmptyString
                      else "<br>" ++ String LF EmptyString)%string;
  Some (1%Z, ob, options).

Definition rndr_link (ob : sd_buf) (link title content : cb_text)
    (options : html_renderopt) : option (Z * sd_buf * html_renderopt) :=
  if match link with
     | Some link =>
         has_flag (html_flags options) HTML_SAFELINK && negb (sd_autolink_issafe link)
     | None => false
     end
  then Some (0%Z, ob, options)
  else
    ob ← sd_bufput ob (bytes "<a href=" ++ [DQUOTE]);
    ob ← (match link with
          | Some ((_ :: _) as link) => escape_href ob link
          | _ => Some ob
          end);
    ob ← (match title with
          | Some ((_ :: _) as title) =>
              ob ← sd_bufput ob (DQUOTE :: bytes " title=" ++ [DQUOTE]);
              escape_html ob title
          | _ => Some ob
          end);
    ob ← close_link_tag ob link options;
    ob ← (match content with
          | Some ((_ :: _) as content) => sd_bufput ob content
          | _ => Some ob
          end);
    ob ← sd_bufput ob (bytes "</a>");
    Some (1%Z, ob, options).

Definition rndr_list (ob : sd_buf) (text : cb_text) (flags : Z)
    (options : html_renderopt) : option (sd_buf * html_renderopt) :=
  ob ← put_separator ob;
  ob ← sd_bufput ob (if has_flag flags MKD_LIST_ORDERED then bytes "<ol>" ++ [LF]
                     else bytes "<ul>" ++ [LF]);
  ob ← put_text ob text;
  ob ← sd_bufput ob (if has_flag flags MKD_LIST_ORDERED then bytes "</ol>" ++ [LF]
                     else bytes "</ul>" ++ [LF]);
  Some (ob, options).

(** [while (size && text->data[size - 1] == '\n') size--;] *)
Definition drop_newlines (text : list ascii) : nat :=
  while_gt 0 (λ size, Ascii.eqb (byte_at text (size - 1)) LF) (length text).

Definition rndr_listitem (ob : sd_buf) (text : cb_text) (flags : Z)
    (options : html_renderopt) : option (sd_buf * html_renderopt) :=
  ob ← sd_bufput ob (bytes "<li>");
  ob ← (match text with
        | Some text => sd_bufput ob (firstn (drop_newlines text) text)
        | None => Some ob
        end);
  ob ← sd_bufput ob (bytes "</li>" ++ [LF]);
  Some (ob, options).

(** The loop of [rndr_paragraph] under [HTML_HARD_WRAP]; the text is not
    empty. *)
Fixpoint paragraph_lines (fuel : nat) (ob : sd_buf) (text : list ascii)
    (options : html_renderopt) (i : nat) : option sd_buf :=
  match fuel with
  | O => Some ob
  | S fuel' =>
      if i <? length text then
        let org := i in
        let i := while_lt (length text) (λ i, negb (Ascii.eqb (byte_at text i) LF)) i in
        ob ← (if org <? i then sd_bufput ob (slice text org (i - org)) else Some ob);
        if length text - 1 <=? i then Some ob
        else
          '(_, ob, _) ← rndr_linebreak ob options;
          paragraph_lines fuel' ob text options (S i)
      else Some ob
  end.

Definition rndr_paragraph (ob : sd_buf) (text : cb_text)
    (options : html_renderopt) : option (sd_buf * html_renderopt) :=
  ob ← put_separator ob;
  match text with
  | Some ((_ :: _) as text) =>
      let i := while_lt (length text) (λ i, isspace (byte_at text i)) 0 in
      if i =? length text then Some (ob, options)
      else
        ob ← sd_bufput ob (bytes "<p>");
        ob ←
          (if has_flag (html_flags options) HTML_HARD_WRAP
           then paragraph_lines (length text) ob text options i
           else sd_bufput ob (slice text i (length text - i)));
        ob ← sd_bufput ob (bytes "</p>" ++ [LF]);
        Some (ob, options)
  | _ => Some (ob, options)
  end.

Definition rndr_raw_block (ob : sd_buf) (text : cb_text)
    (options : html_renderopt) : option (sd_buf * html_renderopt) :=
  match text with
  | None => Some (ob, options)
  | Some text =>
      let sz := drop_newlines text in
      let org := while_lt sz (λ org, Ascii.eqb (byte_at text org) LF) 0 in
      if sz <=? org then Some (ob, options)
      else
        ob ← put_separator ob;
        ob ← sd_bufput ob (slice text org (sz - org));
        ob ← sd_bufputc ob LF;
        Some (ob, options)
  end.

Definition rndr_hrule (ob : sd_buf) (options : html_renderopt)
    : option (sd_buf * html_renderopt) :=
  ob ← put_separator ob;
  ob ← sd_bufputs ob (if USE_XHTML options then "<hr/>" ++ String LF EmptyString
                      else "<hr>" ++ String LF EmptyString)%string;
  Some (ob, options).

Definition rndr_image (ob : sd_buf) (link title alt : cb_text)
    (options : html_renderopt) : option (Z * sd_buf * html_renderopt) :=
  match link with
  | Some ((_ :: _) as link) =>
      ob ← sd_bufput ob (bytes "<img src=" ++ [DQUOTE]);
      ob ← escape_href ob link;
      ob ← sd_bufput ob (DQUOTE :: bytes " alt=" ++ [DQUOTE]);
      ob ← (match alt with
            | Some ((_ :: _) as alt) => escape_html ob alt
            | _ => Some ob
            end);
      ob ← (match title with
            | Some ((_ :: _) as title) =>
                ob ← sd_bufput ob (DQUOTE :: bytes " title=" ++ [DQUOTE]);
                escape_html ob title
            | _ => Some ob
            end);
      ob ← sd_bufput ob (if USE_XHTML options then DQUOTE :: bytes "/>"
                         else DQUOTE :: bytes ">");
      Some (1%Z, ob, options)
  | _ => Some (0%Z, ob, options)
  end.

(** [text->data] is read at once: a NULL [text] is an abort. *)
Definition rndr_raw_html (ob : sd_buf) (text : cb_text)
    (options : html_renderopt) : option (Z * sd_buf * html_renderopt) :=
  text ← text;
  if has_flag (html_flags options) HTML_ESCAPE then
    ob ← escape_html ob text;
    Some (1%Z, ob, options)
  else if has_flag (html_flags options) HTML_SKIP_HTML then Some (1%Z, ob, options)
  else if has_flag (html_flags options) HTML_SKIP_STYLE
          && match sdhtml_is_tag text "style" with HTML_TAG_NONE => false | _ => true end
  then Some (1%Z, ob, options)
  else if has_flag (html_flags options) HTML_SKIP_LINKS
          && match sdhtml_is_tag text "a" with HTML_TAG_NONE => false | _ => true end
  then Some (1%Z, ob, options)
  else if has_flag (html_flags options) HTML_SKIP_IMAGES
          && match sdhtml_is_tag text "img" with HTML_TAG_NONE => false | _ => true end
  then Some (1%Z, ob, options)
  else
    ob ← sd_bufput ob text;
    Some (1%Z, ob, options).

Definition rndr_table (ob : sd_buf) (header body : cb_text)
    (options : html_renderopt) : option (sd_buf * html_renderopt) :=
  ob ← put_separator ob;
  ob ← sd_bufput ob (bytes "<table><thead>" ++ [LF]);
  ob ← put_text ob header;
  ob ← sd_bufput ob (bytes "</thead><tbody>" ++ [LF]);
  ob ← put_text ob body;
  ob ← sd_bufput ob (bytes "</tbody></table>" ++ [LF]);
  Some (ob, options).

Definition rndr_tablerow (ob : sd_buf) (text : cb_text)
    (options : html_renderopt) : option (sd_buf * html_renderopt) :=
  ob ← sd_bufput ob (bytes "<tr>" ++ [LF]);
  ob ← put_text ob text;
  ob ← sd_bufput ob (bytes "</tr>" ++ [LF]);
  Some (ob, options).

Definition rndr_tablecell (ob : sd_buf) (text : cb_text) (flags : Z)
    (options : html_renderopt) : option (sd_buf * html_renderopt) :=
  ob ← sd_bufput ob (if has_flag flags MKD_TABLE_HEADER then bytes "<th"
                     else bytes "<td");
  let align := Z.land flags MKD_TABLE_ALIGNMASK in
  ob ←
    (if (align =? MKD_TABLE_ALIGN_CENTER)%Z
     then sd_bufput ob (bytes " align=" ++ [DQUOTE] ++ bytes "center" ++ [DQUOTE] ++ bytes ">")
     else if (align =? MKD_TABLE_ALIGN_L)%Z
     then sd_bufput ob (bytes " align=" ++ [DQUOTE] ++ bytes "left" ++ [DQUOTE] ++ bytes ">")
     else if (align =? MKD_TABLE_ALIGN_R)%Z
     then sd_bufput ob (bytes " align=" ++ [DQUOTE] ++ bytes "right" ++ [DQUOTE] ++ bytes ">")
     else sd_bufput ob (bytes ">"));
  ob ← put_text ob text;
  ob ← sd_bufput ob (if has_flag flags MKD_TABLE_HEADER then bytes "</th>" ++ [LF]
                     else bytes "</td>" ++ [LF]);
  Some (ob, options).

Definition rndr_normal_text (ob : sd_buf) (text : cb_text)
    (options : html_renderopt) : option (sd_buf * html_renderopt) :=
  ob ← (match text with
        | Some text => escape_html ob text
        | None => Some ob
        end);
  Some (ob, options).

(** *** The renderer of the table of contents *)

Definition set_toc (options : html_renderopt) (count level offset : Z)
    : html_renderopt :=
  mk_html_renderopt count level offset (html_flags options) (link_attributes options).

(** [while (level > current_level) { SD_BUFPUTSL(ob, "<ul>\n<li>\n");
    current_level++; }] *)
Fixpoint toc_open (fuel : nat) (ob : sd_buf) (level current : Z)
    : option (sd_buf * Z) :=
  match fuel with
  | O => Some (ob, current)
  | S fuel' =>
      if (level >? current)%Z then
        ob ← sd_bufput ob (bytes "<ul>" ++ [LF] ++ bytes "<li>" ++ [LF]);
        toc_open fuel' ob level (current + 1)%Z
      else Some (ob, current)
  end.

(** [while (level < current_level) { SD_BUFPUTSL(ob, "</ul>\n</li>\n");
    current_level--; }] *)
Fixpoint toc_close (fuel : nat) (ob : sd_buf) (level current : Z)
    : option (sd_buf * Z) :=
  match fuel with
  | O => Some (ob, current)
  | S fuel' =>
      if (level <? current)%Z then
        ob ← sd_bufput ob (bytes "</ul>" ++ [LF] ++ bytes "</li>" ++ [LF]);
        toc_close fuel' ob level (current - 1)%Z
      else Some (ob, current)
  end.

Definition toc_header (ob : sd_buf) (text : cb_text) (level : Z)
    (options : html_renderopt) : option (sd_buf * html_renderopt) :=
  let offset :=
    if (current_level options =? 0)%Z then (level - 1)%Z else level_offset options in
  let level := (level - offset)%Z in
  let current := current_level options in
  '(ob, current) ←
    (if (level >? current)%Z then toc_open (Z.to_nat (level - current)) ob level current
     else if (level <? current)%Z then
       ob ← sd_bufput ob (bytes "</li>" ++ [LF]);
       '(ob, current) ← toc_close (Z.to_nat (current - level)) ob level current;
       ob ← sd_bufput ob (bytes "<li>" ++ [LF]);
       Some (ob, current)
     else
       ob ← sd_bufput ob (bytes "</li>" ++ [LF] ++ bytes "<li>" ++ [LF]);
       Some (ob, current));
  ob ← sd_bufprintf ob
         (bytes "<a href=" ++ [DQUOTE] ++ bytes "#toc_"
          ++ decimal (header_count options) ++ [DQUOTE] ++ bytes ">");
  ob ← (match text with
        | Some text => escape_html ob text
        | None => Some ob
        end);
  ob ← sd_bufput ob (bytes "</a>" ++ [LF]);
  Some (ob, set_toc options (header_count options + 1) current offset).

Definition toc_link (ob : sd_buf) (link title content : cb_text)
    (options : html_renderopt) : option (Z * sd_buf * html_renderopt) :=
  ob ← (match content with
        | Some ((_ :: _) as content) => sd_bufput ob content
        | _ => Some ob
        end);
  Some (1%Z, ob, options).

(** [while (current_level > 0) { SD_BUFPUTSL(ob, "</li>\n</ul>\n");
    current_level--; }] *)
Fixpoint toc_finalize_loop (fuel : nat) (ob : sd_buf) (current : Z)
    : option (sd_buf * Z) :=
  match fuel with
  | O => Some (ob, current)
  | S fuel' =>
      if (current >? 0)%Z then
        ob ← sd_bufput ob (bytes "</li>" ++ [LF] ++ bytes "</ul>" ++ [LF]);
        toc_finalize_loop fuel' ob (current - 1)%Z
      else Some (ob, current)
  end.

Definition toc_finalize (ob : sd_buf) (options : html_renderopt)
    : option (sd_buf * html_renderopt) :=
  '(ob, current) ←
    toc_finalize_loop (Z.to_nat (current_level options)) ob (current_level options);
  Some (ob, set_toc options (header_count options) current (level_offset options)).

(** The two functions fill [*callbacks] and [*options], which they return
    here. *)
Definition sdhtml_toc_renderer : sd_callbacks html_renderopt * html_renderopt :=
  (mk_callbacks None None None (Some toc_header) None None None None None None None
     None (Some rndr_codespan) (Some rndr_double_emphasis) (Some rndr_emphasis)
     None None (Some toc_link) None (Some rndr_triple_emphasis)
     (Some rndr_strikethrough) (Some rndr_superscript)
     None None
     None (Some toc_finalize),
   mk_html_renderopt 0 0 0 HTML_TOC None).

Definition sdhtml_renderer (render_flags : Z)
    : sd_callbacks html_renderopt * html_renderopt :=
  let image :=
    if has_flag render_flags HTML_SKIP_IMAGES then None else Some rndr_image in
  let link :=
    if has_flag render_flags HTML_SKIP_LINKS then None else Some rndr_link in
  let autolink :=
    if has_flag render_flags HTML_SKIP_LINKS then None else Some rndr_autolink in
  let blockhtml :=
    if has_flag render_flags HTML_SKIP_HTML || has_flag render_flags HTML_ESCAPE
    then None else Some rndr_raw_block in
  (mk_callbacks (Some rndr_blockcode) (Some rndr_blockquote) blockhtml
     (Some rndr_header) (Some rndr_hrule) (Some rndr_list) (Some rndr_listitem)
     (Some rndr_paragraph) (Some rndr_table) (Some rndr_tablerow)
     (Some rndr_tablecell)
     autolink (Some rndr_codespan) (Some rndr_double_emphasis) (Some rndr_emphasis)
     image (Some rndr_linebreak) link (Some rndr_raw_html)
     (Some rndr_triple_emphasis) (Some rndr_strikethrough) (Some rndr_superscript)
     None (Some rndr_normal_text)
     None None,
   mk_html_renderopt 0 0 0 render_flags None).

(** * Specification-level definitions

    What follows is not taken from the source: these are the notions the
    statements below compare the code with. *)

(** ** Tab expansion law *)

(** A tab at output column [col] becomes [4 - col mod 4] spaces, any other
    byte is copied. *)
Fixpoint tab_expand (col : nat) (line : list ascii) : list ascii :=
  match line with
  | [] => []
  | c :: line' =>
      if Ascii.eqb c TAB
      then repeat " "%char (4 - col mod 4) ++ tab_expand (col + (4 - col mod 4)) line'
      else c :: tab_expand (S col) line'
  end.

(** ** Code spans *)

(** [data[k .. k+n)] are [n] backticks. *)
Definition backticks_at (data : list ascii) (k n : nat) : Prop :=
  k + n ≤ length data ∧ ∀ j, k ≤ j < k + n → byte_at data j = "`"%char.

(** The input begins with a run of exactly [n] backticks. *)
Definition opening_run (data : list ascii) (n : nat) : Prop :=
  backticks_at data 0 n ∧ (n < length data → byte_at data n ≠ "`"%char).

(** [k] is the first position after the opening run at which [n]
    backticks in a row begin. *)
Definition first_close (data : list ascii) (n k : nat) : Prop :=
  n ≤ k ∧ backticks_at data k n ∧ ∀ k', n ≤ k' < k → ¬ backticks_at data k' n.

Fixpoint drop_spaces (l : list ascii) : list ascii :=
  match l with
  | c :: l' => if Ascii.eqb c " " then drop_spaces l' else l
  | [] => []
  end.

(** All space bytes removed at both ends. *)
Definition trim_spaces (l : list ascii) : list ascii :=
  rev (drop_spaces (rev (drop_spaces l))).

(** The text argument of the callback: NULL when nothing is left. *)
Definition span_text (l : list ascii) : option (list ascii) :=
  match l with [] => None | _ => Some l end.

(** The reading of the specification: the closing delimiter is the first
    later run of exactly [n] backticks, and one whitespace byte is removed
    at each end of the interior. *)
Fixpoint run_length (l : list ascii) : nat :=
  match l with
  | c :: l' => if Ascii.eqb c "`" then S (run_length l') else 0
  | [] => 0
  end.

Fixpoint first_exact_run (fuel : nat) (data : list ascii) (n pos : nat) : option nat :=
  match fuel with
  | O => None
  | S fuel' =>
      if length data <=? pos then None
      else
        let r := run_length (skipn pos data) in
        if r =? 0 then first_exact_run fuel' data n (S pos)
        else if r =? n then Some pos
        else first_exact_run fuel' data n (pos + r)
  end.

Definition is_whitespace (c : ascii) : bool :=
  Ascii.eqb c " " || Ascii.eqb c LF.

Definition trim_one_front (l : list ascii) : list ascii :=
  match l with
  | c :: l' => if is_whitespace c then l' else l
  | [] => []
  end.

Definition trim_one (l : list ascii) : list ascii :=
  rev (trim_one_front (rev (trim_one_front l))).

(** Bytes consumed and text handed to the callback, [None] when the
    recognizer is to consume nothing. *)
Definition codespan_as_specified (data : list ascii)
    : option (nat * option (list ascii)) :=
  let n := run_length data in
  k ← first_exact_run (length data) data n n;
  Some (k + n, span_text (trim_one (slice data n (k - n)))).

(** ** Autolink delimiters *)

(** The counts of the balancing step: every byte equal to the opening sign
    is an opening, every other byte equal to the closing sign a closing. *)
Definition openings (copen : ascii) (span : list ascii) : nat :=
  count_occ ascii_dec span copen.

Definition closings (copen cclose : ascii) (span : list ascii) : nat :=
  if Ascii.eqb copen cclose then 0 else count_occ ascii_dec span cclose.

(** The reading of the specification: after a shrink the span is tested
    again. *)
Fixpoint balance_retest (fuel : nat) (data : list ascii) (link_end : nat) : nat :=
  match fuel with
  | O => link_end
  | S fuel' =>
      if link_end =? 0 then 0
      else
        let cclose := byte_at data (link_end - 1) in
        let copen := copen_of cclose in
        if negb (Ascii.eqb copen NUL)
           && negb (openings copen (firstn link_end data)
                    =? closings copen cclose (firstn link_end data))
        then balance_retest fuel' data (link_end - 1)
        else link_end
  end.

Definition autolink_delim_retest (data : list ascii) (link_end : nat) : nat :=
  let link_end := cut_langle link_end data 0 link_end in
  let link_end := peel_trailing link_end data link_end in
  balance_retest link_end data link_end.

(** ** Entities *)

(** [&#?[A-Za-z0-9]+;] at the head of [data], as a decomposition: the
    optional ['#'] is [hash], the alphanumeric bytes are [name]. *)
Definition entity_shape (data : list ascii) (hash name rest : list ascii) : Prop :=
  data = "&"%char :: hash ++ name ++ ";"%char :: rest
  ∧ (hash = [] ∨ hash = ["#"%char])
  ∧ Forall (λ c, isalnum c = true) name.

Definition matches_entity (data : list ascii) : Prop :=
  ∃ hash name rest, entity_shape data hash name rest ∧ name ≠ [].

(** ** Reference table *)

(** The fingerprint as a left fold. *)
Definition fingerprint (name : list ascii) : Z :=
  fold_left
    (λ hash b,
       ((Z.shiftl hash 6 + Z.shiftl hash 16 - hash
         + Z.of_nat (nat_of_ascii (tolower b))) mod 2 ^ 32)%Z)
    name 0%Z.

(** ** Renderers used in the examples *)

(** A renderer that only records the text arguments of the calls to
    [codespan] and [entity], and reports every code span as handled. *)
Definition recording_callbacks : sd_callbacks (list (option (list ascii))) :=
  mk_callbacks None None None None None None None None None None None
    None (Some (λ ob text o, Some (1%Z, ob, o ++ [text])))
    None None None None None None None None None
    (Some (λ ob text o, Some (ob, o ++ [text]))) None None None.

Definition empty_stack : stack := mk_stack [] 0.

Definition recording_rndr (calls : list (option (list ascii)))
    : sd_markdown (list (option (list ascii))) :=
  mk_markdown recording_callbacks calls (replicate REF_TABLE_SIZE [])
    (λ _, MD_CHAR_NONE) empty_stack empty_stack 0%Z 16 0%Z.

(** ** Loop invariants *)

(** The state of the delimiter search before an iteration: the last [i]
    bytes read are backticks, the byte before them (if it is past the
    opening run) is none, and no [nb] backticks in a row have been passed. *)
Definition delim_inv (data : list ascii) (nb end_ i : nat) : Prop :=
  i + nb ≤ end_
  ∧ (∀ j, end_ - i ≤ j < end_ → byte_at data j = "`"%char)
  ∧ (end_ - i = nb ∨ byte_at data (end_ - i - 1) ≠ "`"%char)
  ∧ (∀ k, nb ≤ k → k + nb ≤ end_ → ¬ backticks_at data k nb).

(** ** The scratch pools *)

(** [wp m Q]: if [m] returns, its result satisfies [Q]. *)
Definition wp {A : Type} (m : option A) (Q : A → Prop) : Prop :=
  match m with
  | Some a => Q a
  | None => True
  end.

(** The active counts of the two pools. *)
Definition span_size {opaque_t : Type} (rndr : sd_markdown opaque_t) : nat :=
  st_size (work_bufs_span rndr).
Definition block_size {opaque_t : Type} (rndr : sd_markdown opaque_t) : nat :=
  st_size (work_bufs_block rndr).

(** [in_link_body] as 0 or 1. *)
Definition in_link {opaque_t : Type} (rndr : sd_markdown opaque_t) : nat :=
  if (in_link_body rndr =? 0)%Z then 0 else 1.

(** What no function of the parser changes: the callbacks, the table of
    the active characters, the extensions and the nesting limit. *)
Definition same_setup {opaque_t : Type} (rndr rndr' : sd_markdown opaque_t) : Prop :=
  cb rndr' = cb rndr ∧ active_char rndr' = active_char rndr
  ∧ ext_flags rndr' = ext_flags rndr ∧ max_nesting rndr' = max_nesting rndr.

(** What a function has done to the context when it has given back every
    buffer that it took: the pools hold as many buffers as before, and
    [in_link_body] is not set if it was not. *)
Definition restored {opaque_t : Type} (rndr rndr' : sd_markdown opaque_t) : Prop :=
  span_size rndr' = span_size rndr ∧ block_size rndr' = block_size rndr
  ∧ in_link rndr' ≤ in_link rndr ∧ same_setup rndr rndr'.

Definition pools_idle {opaque_t : Type} (rndr : sd_markdown opaque_t) : Prop :=
  span_size rndr = 0 ∧ block_size rndr = 0.

(** A function of the signature of [parse_inline] that is balanced. *)
Definition balanced {opaque_t : Type}
    (parse : sd_buf → sd_markdown opaque_t → ptr → nat
             → option (sd_buf * sd_markdown opaque_t)) : Prop :=
  ∀ ob rndr data size, wp (parse ob rndr data size) (λ r, restored rndr r.2).

(** A renderer without state that writes each element between two tags. *)
Definition tagged (open_ close : string) (ob : sd_buf) (text : cb_text)
    : option sd_buf :=
  ob ← sd_bufput ob (bytes open_);
  ob ← sd_bufput ob (default [] text);
  sd_bufput ob (bytes close).

Definition tagged_block (open_ close : string)
    : option (sd_buf → cb_text → unit → @cb_void unit) :=
  Some (λ ob text o, ob ← tagged open_ close ob text; Some (ob, o)).

Definition tagged_flagged (open_ close : string)
    : option (sd_buf → cb_text → Z → unit → @cb_void unit) :=
  Some (λ ob text _ o, ob ← tagged open_ close ob text; Some (ob, o)).

Definition tagged_span (open_ close : string)
    : option (sd_buf → cb_text → unit → @cb_int unit) :=
  Some (λ ob text o, ob ← tagged open_ close ob text; Some (1%Z, ob, o)).

Definition tagged_link (open_ close : string)
    : option (sd_buf → cb_text → cb_text → cb_text → unit → @cb_int unit) :=
  Some (λ ob link title content o,
          ob ← tagged open_ ">" ob link;
          ob ← tagged "" close ob content;
          Some (1%Z, ob, o)).

Definition tagging_callbacks : sd_callbacks unit :=
  mk_callbacks
    (Some (λ ob text lang o, ob ← tagged "<pre>" "</pre>" ob text; Some (ob, o)))
    (tagged_block "<blockquote>" "</blockquote>")
    (tagged_block "" "")
    (tagged_flagged "<h>" "</h>")
    (Some (λ ob o, ob ← sd_bufput ob (bytes "<hr>"); Some (ob, o)))
    (tagged_flagged "<ul>" "</ul>")
    (tagged_flagged "<li>" "</li>")
    (tagged_block "<p>" "</p>")
    (Some (λ ob header body o,
             ob ← tagged "<table>" "" ob header;
             ob ← tagged "" "</table>" ob body;
             Some (ob, o)))
    (tagged_block "<tr>" "</tr>")
    (tagged_flagged "<td>" "</td>")
    (Some (λ ob link type o, ob ← tagged "<a>" "</a>" ob link; Some (1%Z, ob, o)))
    (tagged_span "<code>" "</code>")
    (tagged_span "<strong>" "</strong>")
    (tagged_span "<em>" "</em>")
    (tagged_link "<img src=" "")
    (Some (λ ob o, ob ← sd_bufput ob (bytes "<br>"); Some (1%Z, ob, o)))
    (tagged_link "<a href=" "</a>")
    (tagged_span "" "")
    (tagged_span "<strong><em>" "</em></strong>")
    (tagged_span "<del>" "</del>")
    (tagged_span "<sup>" "</sup>")
    None None None None.

(** A document with a quote, a list, emphasis, a link and a code span. *)
Definition sample_document : list ascii :=
  bytes "> *a* [b](c)" ++ [LF; LF] ++ bytes "* x `y`" ++ [LF].

(** A renderer without state whose callback for the normal text looks at
    the capacity of the buffer that it writes to:
    [sd_bufputs(ob, ob->asize ? "again" : "first")]. *)
Definition capacity_callbacks : sd_callbacks unit :=
  mk_callbacks None None None None None None None
    (tagged_block "<p>" "</p>")
    None None None None None None None None None None None None None None None
    (Some (λ ob text o,
             ob ← sd_bufput ob
                    (bytes (if (buf_asize ob =? 0)%Z then "first" else "again"));
             Some (ob, o)))
    None None.

(** A renderer without state that writes a header before the document. *)
Definition doc_header_callbacks : sd_callbacks unit :=
  mk_callbacks None None None None None None None None None None None None None
    None None None None None None None None None None None
    (Some (λ ob o, ob ← sd_bufput ob (bytes "<html>"); Some (ob, o)))
    None.

(** ** Two renders side by side *)

(** [wp2 m m' Q]: [m] and [m'] both abort, or both return and their results
    are related by [Q]. *)
Definition wp2 {A B : Type} (m : option A) (m' : option B) (Q : A → B → Prop) : Prop :=
  match m, m' with
  | Some a, Some b => Q a b
  | None, None => True
  | _, _ => False
  end.

(** A buffer of the pool [type], as [rndr_newbuf] makes them and [sd_bufput]
    keeps them: its unit is the one of the pool and its capacity a multiple
    of it within the limit. *)
Definition scratch (type : buffer_type) (b : sd_buf) : Prop :=
  buf_unit b = pool_unit type
  ∧ (0 ≤ buf_asize b ≤ BUFFER_MAX_ALLOC_SIZE)%Z
  ∧ (pool_unit type | buf_asize b)%Z.

(** Two buffers of the pool [type] with the same contents; their capacities
    may differ. *)
Definition scratch_rel (type : buffer_type) (b b' : sd_buf) : Prop :=
  buf_data b' = buf_data b ∧ scratch type b ∧ scratch type b'.

(** A pool that has been initialised and holds buffers of its type. *)
Definition pool_ok (type : buffer_type) (pool : stack) : Prop :=
  0 < length (st_item pool)
  ∧ ∀ i b, st_item pool !! i = Some (Some b) → scratch type b.

Section Respect.
Context {opaque_t : Type}.

(** The results of a callback on two buffers related by [R]: the same
    return value and opaque state, and buffers related by [R] again. *)
Definition void_rel (R : sd_buf → sd_buf → Prop) (r r' : sd_buf * opaque_t) : Prop :=
  R r.1 r'.1 ∧ r'.2 = r.2.

Definition int_rel (R : sd_buf → sd_buf → Prop) (r r' : Z * sd_buf * opaque_t) : Prop :=
  r'.1.1 = r.1.1 ∧ R r.1.2 r'.1.2 ∧ r'.2 = r.2.

(** The callbacks treat two output buffers related by [R] alike. *)
Record callbacks_respect (R : sd_buf → sd_buf → Prop) (cbs : sd_callbacks opaque_t)
    : Prop := {
  respect_blockcode :
    ∀ f, cb_blockcode cbs = Some f →
      ∀ ob ob' text lang o, R ob ob' →
        wp2 (f ob text lang o) (f ob' text lang o) (void_rel R);
  respect_blockquote :
    ∀ f, cb_blockquote cbs = Some f →
      ∀ ob ob' text o, R ob ob' →
        wp2 (f ob text o) (f ob' text o) (void_rel R);
  respect_blockhtml :
    ∀ f, cb_blockhtml cbs = Some f →
      ∀ ob ob' text o, R ob ob' →
        wp2 (f ob text o) (f ob' text o) (void_rel R);
  respect_header :
    ∀ f, cb_header cbs = Some f →
      ∀ ob ob' text level o, R ob ob' →
        wp2 (f ob text level o) (f ob' text level o) (void_rel R);
  respect_hrule :
    ∀ f, cb_hrule cbs = Some f →
      ∀ ob ob' o, R ob ob' →
        wp2 (f ob o) (f ob' o) (void_rel R);
  respect_list :
    ∀ f, cb_list cbs = Some f →
      ∀ ob ob' text flags o, R ob ob' →
        wp2 (f ob text flags o) (f ob' text flags o) (void_rel R);
  respect_listitem :
    ∀ f, cb_listitem cbs = Some f →
      ∀ ob ob' text flags o, R ob ob' →
        wp2 (f ob text flags o) (f ob' text flags o) (void_rel R);
  respect_paragraph :
    ∀ f, cb_paragraph cbs = Some f →
      ∀ ob ob' text o, R ob ob' →
        wp2 (f ob text o) (f ob' text o) (void_rel R);
  respect_table :
    ∀ f, cb_table cbs = Some f →
      ∀ ob ob' header body o, R ob ob' →
        wp2 (f ob header body o) (f ob' header body o) (void_rel R);
  respect_table_row :
    ∀ f, cb_table_row cbs = Some f →
      ∀ ob ob' text o, R ob ob' →
        wp2 (f ob text o) (f ob' text o) (void_rel R);
  respect_table_cell :
    ∀ f, cb_table_cell cbs = Some f →
      ∀ ob ob' text flags o, R ob ob' →
        wp2 (f ob text flags o) (f ob' text flags o) (void_rel R);
  respect_autolink :
    ∀ f, cb_autolink cbs = Some f →
      ∀ ob ob' link type o, R ob ob' →
        wp2 (f ob link type o) (f ob' link type o) (int_rel R);
  respect_codespan :
    ∀ f, cb_codespan cbs = Some f →
      ∀ ob ob' text o, R ob ob' →
        wp2 (f ob text o) (f ob' text o) (int_rel R);
  respect_double_emphasis :
    ∀ f, cb_double_emphasis cbs = Some f →
      ∀ ob ob' text o, R ob ob' →
        wp2 (f ob text o) (f ob' text o) (int_rel R);
  respect_emphasis :
    ∀ f, cb_emphasis cbs = Some f →
      ∀ ob ob' text o, R ob ob' →
        wp2 (f ob text o) (f ob' text o) (int_rel R);
  respect_image :
    ∀ f, cb_image cbs = Some f →
      ∀ ob ob' link title alt o, R ob ob' →
        wp2 (f ob link title alt o) (f ob' link title alt o) (int_rel R);
  respect_linebreak :
    ∀ f, cb_linebreak cbs = Some f →
      ∀ ob ob' o, R ob ob' →
        wp2 (f ob o) (f ob' o) (int_rel R);
  respect_link :
    ∀ f, cb_link cbs = Some f →
      ∀ ob ob' link title content o, R ob ob' →
        wp2 (f ob link title content o) (f ob' link title content o) (int_rel R);
  respect_raw_html_tag :
    ∀ f, cb_raw_html_tag cbs = Some f →
      ∀ ob ob' tag o, R ob ob' →
        wp2 (f ob tag o) (f ob' tag o) (int_rel R);
  respect_triple_emphasis :
    ∀ f, cb_triple_emphasis cbs = Some f →
      ∀ ob ob' text o, R ob ob' →
        wp2 (f ob text o) (f ob' text o) (int_rel R);
  respect_strikethrough :
    ∀ f, cb_strikethrough cbs = Some f →
      ∀ ob ob' text o, R ob ob' →
        wp2 (f ob text o) (f ob' text o) (int_rel R);
  respect_superscript :
    ∀ f, cb_superscript cbs = Some f →
      ∀ ob ob' text o, R ob ob' →
        wp2 (f ob text o) (f ob' text o) (int_rel R);
  respect_entity :
    ∀ f, cb_entity cbs = Some f →
      ∀ ob ob' text o, R ob ob' →
        wp2 (f ob text o) (f ob' text o) (void_rel R);
  respect_normal_text :
    ∀ f, cb_normal_text cbs = Some f →
      ∀ ob ob' text o, R ob ob' →
        wp2 (f ob text o) (f ob' text o) (void_rel R);
  respect_doc_header :
    ∀ f, cb_doc_header cbs = Some f →
      ∀ ob ob' o, R ob ob' →
        wp2 (f ob o) (f ob' o) (void_rel R);
  respect_doc_footer :
    ∀ f, cb_doc_footer cbs = Some f →
      ∀ ob ob' o, R ob ob' →
        wp2 (f ob o) (f ob' o) (void_rel R)
}.

(** What the parser needs of a relation [R] between the output buffers of
    two runs: related buffers hold the same bytes and stay related when the
    same bytes are appended, when they are cut at the same length and when
    a callback writes to them. *)
Record closed (cbs : sd_callbacks opaque_t) (R : sd_buf → sd_buf → Prop) : Prop := {
  closed_data : ∀ b b', R b b' → buf_data b' = buf_data b;
  closed_put : ∀ b b' src, R b b' → wp2 (sd_bufput b src) (sd_bufput b' src) R;
  closed_putc : ∀ b b' c, R b b' → wp2 (sd_bufputc b c) (sd_bufputc b' c) R;
  closed_truncate : ∀ b b' n, R b b' → R (buf_truncate b n) (buf_truncate b' n);
  closed_callbacks : callbacks_respect R cbs
}.

(** Two contexts that differ by what their pools keep only: the same
    callbacks [cbs], opaque state, references, tables and flags, as many
    buffers taken from each pool, and pools in order. *)
Record md_sim (cbs : sd_callbacks opaque_t) (rndr rndr' : sd_markdown opaque_t)
    : Prop := {
  sim_cb : cb rndr = cbs;
  sim_cb' : cb rndr' = cbs;
  sim_opaque : opaque rndr' = opaque rndr;
  sim_refs : refs rndr' = refs rndr;
  sim_active_char : active_char rndr' = active_char rndr;
  sim_ext_flags : ext_flags rndr' = ext_flags rndr;
  sim_max_nesting : max_nesting rndr' = max_nesting rndr;
  sim_in_link_body : in_link_body rndr' = in_link_body rndr;
  sim_span_size : st_size (work_bufs_span rndr') = st_size (work_bufs_span rndr);
  sim_block_size : st_size (work_bufs_block rndr') = st_size (work_bufs_block rndr);
  sim_span_ok : pool_ok BUFFER_SPAN (work_bufs_span rndr);
  sim_span_ok' : pool_ok BUFFER_SPAN (work_bufs_span rndr');
  sim_block_ok : pool_ok BUFFER_BLOCK (work_bufs_block rndr);
  sim_block_ok' : pool_ok BUFFER_BLOCK (work_bufs_block rndr')
}.

(** The results of two runs of a parsing function: the same value, output
    buffers related by [R] and contexts that differ by their pools only. *)
Definition res_rel {A : Type} (R : sd_buf → sd_buf → Prop) (cbs : sd_callbacks opaque_t)
    (r r' : A * sd_buf * sd_markdown opaque_t) : Prop :=
  r'.1.1 = r.1.1 ∧ R r.1.2 r'.1.2 ∧ md_sim cbs r.2 r'.2.

(** The same for a function that writes to a buffer only. *)
Definition put_rel {A : Type} (R : sd_buf → sd_buf → Prop) (r r' : A * sd_buf) : Prop :=
  r'.1 = r.1 ∧ R r.2 r'.2.

Definition out_rel (R : sd_buf → sd_buf → Prop) (cbs : sd_callbacks opaque_t)
    (r r' : sd_buf * sd_markdown opaque_t) : Prop :=
  R r.1 r'.1 ∧ md_sim cbs r.2 r'.2.

(** The buffers that [char_link] holds in two runs: the same entries of the
    pool, with the same contents. *)
Definition held_sim (held held' : list (nat * sd_buf)) : Prop :=
  Forall2 (λ h h', h'.1 = h.1 ∧ scratch_rel BUFFER_SPAN h.2 h'.2) held held'.

(** The states of the loop of [parse_listitem] in two runs. *)
Definition li_sim (st st' : listitem_state) : Prop :=
  li_beg st' = li_beg st ∧ li_end st' = li_end st
  ∧ li_in_empty st' = li_in_empty st
  ∧ li_has_inside_empty st' = li_has_inside_empty st
  ∧ li_in_fence st' = li_in_fence st ∧ li_sublist st' = li_sublist st
  ∧ li_flags st' = li_flags st
  ∧ scratch_rel BUFFER_SPAN (li_work st) (li_work st').

(** A renderer that can be run again: its callbacks treat alike two
    scratch buffers with the same contents. *)
Definition rerunnable (cbs : sd_callbacks opaque_t) : Prop :=
  ∀ type, callbacks_respect (scratch_rel type) cbs.

(** A context as [sd_markdown_new] makes it and [sd_markdown_render] leaves
    it: nothing taken from the pools, which are in order, and
    [in_link_body] not set. *)
Definition context_ok (md : sd_markdown opaque_t) : Prop :=
  pools_idle md
  ∧ pool_ok BUFFER_SPAN (work_bufs_span md)
  ∧ pool_ok BUFFER_BLOCK (work_bufs_block md)
  ∧ in_link_body md = 0%Z.

End Respect.

(** ** Escapes *)

(** What [unscape_text] leaves of a text: each backslash is dropped and the
    byte after it kept. *)
Fixpoint unescaped (src : list ascii) : list ascii :=
  match src with
  | [] => []
  | c :: rest =>
      if Ascii.eqb c "\" then
        match rest with
        | [] => []
        | d :: rest' => d :: unescaped rest'
        end
      else c :: unescaped rest
  end.

(** ** The stack *)

(** A stack that [stack_init] has set up: the array is not empty and [size]
    is within it. *)
Definition stack_ok (st : stack) : Prop :=
  0 < length (st_item st) ∧ st_size st ≤ length (st_item st).

(** ** Block tags *)

(** The names in the table of the perfect hash. *)
Definition block_tags : list string :=
  List.filter (λ s, negb (String.eqb s EmptyString)) wordlist.

(** ** HTML escapes *)

(** The escape of one byte in HTML text; the slash is escaped in secure mode
    only. *)
Definition html_escaped_byte (secure : bool) (c : ascii) : list ascii :=
  if Ascii.eqb c "&" then bytes "&amp;"
  else if Ascii.eqb c "<" then bytes "&lt;"
  else if Ascii.eqb c ">" then bytes "&gt;"
  else if Ascii.eqb c DQUOTE then bytes "&quot;"
  else if Ascii.eqb c "'" then bytes "&#39;"
  else if Ascii.eqb c "/" && secure then bytes "&#47;"
  else [c].

Definition html_escaped (secure : bool) (src : list ascii) : list ascii :=
  flat_map (html_escaped_byte secure) src.

(** The bytes that a URL keeps in an [href]: letters, digits and
    [-_.+!*(),%#@?=;:/,+$]. *)
Definition url_byte (c : ascii) : bool :=
  isalnum c || existsb (Ascii.eqb c) (bytes "-_.+!*(),%#@?=;:/,+$").

Definition href_escaped_byte (c : ascii) : list ascii :=
  if url_byte c then [c]
  else if Ascii.eqb c "&" then bytes "&amp;"
  else if Ascii.eqb c "'" then bytes "&#x27;"
  else
    ["%"%char;
     byte_at (bytes "0123456789ABCDEF") (nat_of_ascii c / 16);
     byte_at (bytes "0123456789ABCDEF") (nat_of_ascii c mod 16)].

Definition href_escaped (src : list ascii) : list ascii :=
  flat_map href_escaped_byte src.

(** [ob'] is [ob] with bytes appended that all satisfy [P]. *)
Definition appended (P : ascii → Prop) (ob ob' : sd_buf) : Prop :=
  buf_unit ob' = buf_unit ob
  ∧ ∃ out, buf_data ob' = buf_data ob ++ out ∧ Forall P out.

(** The test of the first byte that [find_block_tag] makes before it
    compares the strings. *)
Definition same_letter (a b : ascii) : bool :=
  (Z.land (Z.lxor (Z.of_nat (nat_of_ascii a)) (Z.of_nat (nat_of_ascii b)))
          (Z.lnot 32) =? 0)%Z.

(** The hash as a function of the length and of the first two bytes. *)
Definition tag_hash (len : nat) (c0 c1 : ascii) : nat :=
  match len with
  | 1 => len + nth (nat_of_ascii c0) asso_values 0
  | _ => len + nth (nat_of_ascii c1 + 1) asso_values 0
             + nth (nat_of_ascii c0) asso_values 0
  end.

Definition lower_word (w : string) : Prop :=
  Forall (λ c, gperf_downcase c = c ∧ c ≠ NUL) (bytes w).

(** What the escape leaves of the bytes that HTML gives a meaning to. *)
Definition html_inert (c : ascii) : Prop :=
  c ≠ "<"%char ∧ c ≠ ">"%char ∧ c ≠ DQUOTE ∧ c ≠ "'"%char.

(** The bytes that the escape can write. *)
Definition href_inert (c : ascii) : Prop := url_byte c = true ∨ c = "&"%char.

(** The entry [key] of the table is empty, or a word of 1 to 10 lower-case
    letters and digits that the hash sends to [key]. *)
Definition word_ok (key : nat) : bool :=
  let w := nth key wordlist EmptyString in
  String.eqb w EmptyString
  || ((1 <=? String.length w) && (String.length w <=? 10)
      && (tag_hash (String.length w) (byte_at (bytes w) 0) (byte_at (bytes w) 1) =? key)
      && forallb (λ c, Ascii.eqb (gperf_downcase c) c && negb (Ascii.eqb c NUL))
                 (bytes w)).

Definition ascii_text (name : list ascii) : Prop :=
  Forall (λ c, c ≠ NUL ∧ nat_of_ascii c < 128) name.

(** What a tag that the function accepts looks like: [<], a slash when it
    closes, the name, and a byte that ends the name. *)
Definition tag_shape (closed : bool) (name : string) (data : list ascii) : Prop :=
  3 ≤ length data
  ∧ ∃ c rest,
      data = "<"%char :: (if closed then ["/"%char] else []) ++ bytes name ++ c :: rest
      ∧ (isspace c = true ∨ c = ">"%char).

(** ** The depth of the recursion *)

(** [agree m m' Q]: the two computations have the same outcome, and [Q]
    holds of the result when there is one. *)
Definition agree {A : Type} (m m' : option A) (Q : A → Prop) : Prop :=
  m' = m ∧ wp m Q.

(** A context with the nesting limit [limit] in which [depth] scratch
    buffers at least are in use. *)
Definition at_depth {opaque_t : Type} (limit depth : nat)
    (rndr : sd_markdown opaque_t) : Prop :=
  max_nesting rndr = limit ∧ depth ≤ span_size rndr + block_size rndr.

(** ** A line of plain text as a document *)

(** A byte of plain text: a letter, a digit, a space or one of the
    punctuation marks [. , ; : ! ? ( ) -]. *)
Definition plain_byte (c : ascii) : bool :=
  isalnum c || existsb (Ascii.eqb c) (bytes " .,;:!?()-").

(** A line of plain text: bytes of plain text, the first of which is a
    letter. *)
Definition plain_text (text : list ascii) : Prop :=
  isalpha (byte_at text 0) = true ∧ Forall (λ c, plain_byte c = true) text.

(** The context that an application makes for the HTML renderer without
    extensions: [sdhtml_renderer(&callbacks, &options, render_flags);
    sd_markdown_new(0, max_nesting, &callbacks, &options);]. *)
Definition html_context (render_flags : Z) (max_nesting : nat)
    : option (sd_markdown html_renderopt) :=
  let '(callbacks, options) := sdhtml_renderer render_flags in
  sd_markdown_new 0 max_nesting callbacks options.

(** The bytes that the first byte of a line is compared with on its way
    through the parser. *)
Definition marks : list ascii :=
  [" "; LF; CR; TAB; "#"; "<"; ">"; "*"; "-"; "_"; "="; "+"; "["; "]"; "`"; "~";
   "\"; "&"; ":"; "@"; "^"; "|"; "/"; "'"; DQUOTE; "239"]%char.

(** The bytes that a byte within a line is compared with: the ends of
    lines, the tabulation and the bytes that start a span. *)
Definition inner_marks : list ascii :=
  [LF; CR; TAB; "*"; "_"; "`"; "["; "<"; "\"; "&"]%char.

(** The text of a document that is one line, as the second pass is given
    it. *)
Definition line_text (line : list ascii) : ptr := mk_ptr (line ++ [LF]) 0.

(** A buffer that takes [n] bytes more. *)
Definition has_room (ob : sd_buf) (n : nat) : Prop :=
  (0 < buf_unit ob)%Z ∧ (buf_size ob + Z.of_nat n ≤ BUFFER_MAX_ALLOC_SIZE)%Z.

(** The separator that the block callbacks write first. *)
Definition separator (ob : sd_buf) : list ascii :=
  if length (buf_data ob) =? 0 then [] else [LF].

(** ** The text of the second pass *)

(** A document as the first pass of [sd_markdown_render] stages it when it
    holds no reference: each tabulation is replaced by the spaces that lead
    to the next multiple of 4 of the column [col] in its line, and each
    line ending ([\n], [\r\n], or [\r] before another byte) is one [\n]; a
    [\r] that ends the document is dropped. *)
Fixpoint normalised (col : nat) (document : list ascii) : list ascii :=
  match document with
  | [] => []
  | c :: rest =>
      if Ascii.eqb c LF then LF :: normalised 0 rest
      else if Ascii.eqb c CR then
        match rest with
        | [] => []
        | d :: _ => if Ascii.eqb d LF then normalised 0 rest else LF :: normalised 0 rest
        end
      else if Ascii.eqb c TAB
      then repeat " "%char (4 - col mod 4) ++ normalised (col + (4 - col mod 4)) rest
      else c :: normalised (S col) rest
  end.

(** ** The contents of a buffer and its allocation *)

(** The contents of a buffer lie within the memory allocated for it. *)
Definition within_allocation (buf : sd_buf) : Prop :=
  (buf_size buf ≤ buf_asize buf)%Z.

(** ** Horizontal rules *)

(** The line that begins at [data]: the bytes before the first newline. *)
Definition first_line (data : ptr) (size : nat) : list ascii :=
  view data (while_lt size (λ i, negb (Ascii.eqb (rd data i) LF)) 0).

(** A horizontal rule: up to three spaces, then three marks or more of one
    kind ([*], [-] or [_]) with any number of spaces between and after
    them. *)
Definition hrule_line (line : list ascii) : Prop :=
  ∃ k c body,
    line = repeat " "%char k ++ c :: body ∧ k ≤ 3
    ∧ In c ["*"; "-"; "_"]%char
    ∧ Forall (λ x, x = c ∨ x = " "%char) body
    ∧ 2 ≤ count_occ ascii_dec body c.

(** The test of a byte in the loop of [is_hrule]. *)
Definition rule_byte (c x : ascii) : bool := Ascii.eqb x c || Ascii.eqb x " ".

(** ** Blank documents *)

(** A byte of a blank document: a space, a tabulation or a byte of a line
    ending. *)
Definition blank_byte (c : ascii) : Prop :=
  c = " "%char ∨ c = TAB ∨ c = LF ∨ c = CR.

(** What the first pass makes of them: spaces and newlines. *)
Definition blank_text_byte (c : ascii) : Prop := c = " "%char ∨ c = LF.

(** * Theorems *)

(** ** Buffers *)

Lemma buf_size_nonneg buf : (0 ≤ buf_size buf)%Z.
Proof. unfold buf_size. lia. Qed.

Lemma grow_asize_reaches fuel unit neosz neoasz :
  (0 < unit)%Z → (neosz - neoasz ≤ Z.of_nat fuel)%Z →
  (neosz ≤ grow_asize fuel unit neosz neoasz)%Z.
Proof.
  revert neoasz. induction fuel as [|fuel IH]; intros neoasz Hu Hf; simpl.
  - lia.
  - destruct (Z.ltb_spec neoasz neosz); [apply IH|]; lia.
Qed.

Lemma sd_bufgrow_enomem buf neosz :
  buf_unit buf ≠ 0%Z → (neosz > BUFFER_MAX_ALLOC_SIZE)%Z →
  sd_bufgrow buf neosz = Some (BUF_ENOMEM, buf).
Proof.
  intros Hu Hn. unfold sd_bufgrow.
  destruct (Z.eqb_spec (buf_unit buf) 0); [done|].
  destruct (Z.gtb_spec neosz BUFFER_MAX_ALLOC_SIZE); [done|lia].
Qed.

Lemma sd_bufgrow_ok buf neosz :
  (0 < buf_unit buf)%Z → (neosz ≤ BUFFER_MAX_ALLOC_SIZE)%Z →
  ∃ buf', sd_bufgrow buf neosz = Some (BUF_OK, buf')
    ∧ buf_data buf' = buf_data buf ∧ buf_unit buf' = buf_unit buf
    ∧ (neosz ≤ buf_asize buf')%Z.
Proof.
  intros Hu Hn. unfold sd_bufgrow.
  destruct (Z.eqb_spec (buf_unit buf) 0); [lia|].
  destruct (Z.gtb_spec neosz BUFFER_MAX_ALLOC_SIZE); [lia|].
  destruct (Z.geb_spec (buf_asize buf) neosz).
  - eexists; repeat split; lia.
  - eexists; repeat split; simpl.
    apply grow_asize_reaches; lia.
Qed.

Lemma sd_bufput_fits buf src :
  buf_unit buf ≠ 0%Z →
  (buf_size buf + Z.of_nat (length src) ≤ buf_asize buf)%Z →
  sd_bufput buf src = Some (buf_append buf src).
Proof.
  intros Hu Hs. unfold sd_bufput.
  destruct (Z.eqb_spec (buf_unit buf) 0); [done|].
  destruct (Z.gtb_spec (buf_size buf + Z.of_nat (length src)) (buf_asize buf));
    [lia|done].
Qed.

Lemma sd_bufputc_fits buf c :
  buf_unit buf ≠ 0%Z → (buf_size buf + 1 ≤ buf_asize buf)%Z →
  sd_bufputc buf c = Some (buf_append buf [c]).
Proof.
  intros Hu Hs. unfold sd_bufputc.
  destruct (Z.eqb_spec (buf_unit buf) 0); [done|].
  destruct (Z.gtb_spec (buf_size buf + 1) (buf_asize buf)); [lia|done].
Qed.

Lemma sd_bufput_refused buf src :
  buf_unit buf ≠ 0%Z →
  (buf_size buf + Z.of_nat (length src) > buf_asize buf)%Z →
  (buf_size buf + Z.of_nat (length src) > BUFFER_MAX_ALLOC_SIZE)%Z →
  sd_bufput buf src = Some buf.
Proof.
  intros Hu Ha Hm. unfold sd_bufput.
  destruct (Z.eqb_spec (buf_unit buf) 0); [done|].
  destruct (Z.gtb_spec (buf_size buf + Z.of_nat (length src)) (buf_asize buf));
    [|lia].
  rewrite sd_bufgrow_enomem by done. reflexivity.
Qed.

Lemma sd_bufputc_refused buf c :
  buf_unit buf ≠ 0%Z →
  (buf_size buf + 1 > buf_asize buf)%Z →
  (buf_size buf + 1 > BUFFER_MAX_ALLOC_SIZE)%Z →
  sd_bufputc buf c = Some buf.
Proof.
  intros Hu Ha Hm. unfold sd_bufputc.
  destruct (Z.eqb_spec (buf_unit buf) 0); [done|].
  destruct (Z.gtb_spec (buf_size buf + 1) (buf_asize buf)); [|lia].
  rewrite sd_bufgrow_enomem by done. reflexivity.
Qed.

(** An append that stays within the cap always goes through. *)
Lemma sd_bufput_within_cap buf src :
  (0 < buf_unit buf)%Z →
  (buf_size buf + Z.of_nat (length src) ≤ BUFFER_MAX_ALLOC_SIZE)%Z →
  ∃ buf', sd_bufput buf src = Some buf'
    ∧ buf_data buf' = buf_data buf ++ src ∧ buf_unit buf' = buf_unit buf.
Proof.
  intros Hu Hs. unfold sd_bufput.
  destruct (Z.eqb_spec (buf_unit buf) 0); [lia|].
  destruct (Z.gtb_spec (buf_size buf + Z.of_nat (length src)) (buf_asize buf)).
  - destruct (sd_bufgrow_ok buf _ Hu Hs) as (buf' & -> & Hd & Hu' & _).
    simpl. eexists; split; [reflexivity|]. simpl. rewrite Hd. done.
  - eexists; split; [reflexivity|]. done.
Qed.

Lemma sd_bufputc_within_cap buf c :
  (0 < buf_unit buf)%Z →
  (buf_size buf + 1 ≤ BUFFER_MAX_ALLOC_SIZE)%Z →
  ∃ buf', sd_bufputc buf c = Some buf'
    ∧ buf_data buf' = buf_data buf ++ [c] ∧ buf_unit buf' = buf_unit buf.
Proof.
  intros Hu Hs. unfold sd_bufputc.
  destruct (Z.eqb_spec (buf_unit buf) 0); [lia|].
  destruct (Z.gtb_spec (buf_size buf + 1) (buf_asize buf)).
  - destruct (sd_bufgrow_ok buf _ Hu Hs) as (buf' & -> & Hd & Hu' & _).
    simpl. eexists; split; [reflexivity|]. simpl. rewrite Hd. done.
  - eexists; split; [reflexivity|]. done.
Qed.

(** C8 (as amended).  For a growable buffer, [sd_bufgrow] answers
    [BUF_ENOMEM] and leaves the buffer as it is whenever the requested
    capacity exceeds 16 MiB; an append ([sd_bufput], [sd_bufputc]) whose
    required capacity exceeds both that cap and the capacity already
    allocated to the buffer leaves the buffer as it is. *)
Theorem sd_bufgrow_cap buf neosz :
  buf_unit buf ≠ 0%Z → (neosz > BUFFER_MAX_ALLOC_SIZE)%Z →
  sd_bufgrow buf neosz = Some (BUF_ENOMEM, buf)
  ∧ (∀ src, (buf_size buf + Z.of_nat (length src))%Z = neosz →
       (neosz > buf_asize buf)%Z → sd_bufput buf src = Some buf)
  ∧ (∀ c, (buf_size buf + 1)%Z = neosz →
       (neosz > buf_asize buf)%Z → sd_bufputc buf c = Some buf).
Proof.
  intros Hu Hn. split; [by apply sd_bufgrow_enomem|]. split.
  - intros src <- Ha. by apply sd_bufput_refused.
  - intros c <- Ha. by apply sd_bufputc_refused.
Qed.

Lemma sd_bufgrow_cap_witness :
  buf_unit (sd_bufnew 64) ≠ 0%Z
  ∧ (16777217 > BUFFER_MAX_ALLOC_SIZE)%Z
  ∧ sd_bufgrow (sd_bufnew 64) 16777217 = Some (BUF_ENOMEM, sd_bufnew 64)
  ∧ sd_bufputc (mk_buf [] 0 64) "x" = Some (mk_buf ["x"%char] 64 64).
Proof.
  assert (Hu : buf_unit (sd_bufnew 64) ≠ 0%Z) by (simpl; lia).
  assert (Hn : (16777217 > BUFFER_MAX_ALLOC_SIZE)%Z)
    by (unfold BUFFER_MAX_ALLOC_SIZE; lia).
  split; [exact Hu|]. split; [exact Hn|]. split.
  - exact (proj1 (sd_bufgrow_cap (sd_bufnew 64) 16777217 Hu Hn)).
  - reflexivity.
Defined.

(** A buffer whose capacity is above the cap is reached through the API:
    created with unit 1000 and grown to exactly 16 MiB, it is given the next
    multiple of its unit. *)
Lemma sd_bufgrow_above_cap :
  sd_bufgrow (sd_bufnew 1000) 16777216
  = Some (BUF_OK, mk_buf [] 16778000 1000).
Proof. lazy. reflexivity. Qed.

(** C8, counterexample to the claim as stated: a buffer of unit 1000 grown
    to 16 MiB has capacity 16778000; once it holds 16 MiB, appending one more
    byte needs a capacity above the cap, and the byte is appended all the
    same, since no growth is asked for. *)
Lemma sd_bufputc_past_cap_counterexample :
  let buf := mk_buf (repeat "a"%char (Z.to_nat 16777216)) 16778000 1000 in
  buf_unit buf ≠ 0%Z
  ∧ (buf_size buf + 1 > BUFFER_MAX_ALLOC_SIZE)%Z
  ∧ sd_bufputc buf "x" = Some (buf_append buf ["x"%char])
  ∧ sd_bufputc buf "x" ≠ Some buf.
Proof.
  cbv zeta. generalize (repeat_length "a"%char (Z.to_nat 16777216)).
  generalize (repeat "a"%char (Z.to_nat 16777216)). intros l Hl.
  assert (Hsz : buf_size (mk_buf l 16778000 1000) = 16777216%Z)
    by (unfold buf_size; simpl; lia).
  assert (Hput : sd_bufputc (mk_buf l 16778000 1000) "x"
                 = Some (buf_append (mk_buf l 16778000 1000) ["x"%char]))
    by (apply sd_bufputc_fits; [simpl; lia|rewrite Hsz; simpl; lia]).
  split; [simpl; lia|]. split.
  - rewrite Hsz. unfold BUFFER_MAX_ALLOC_SIZE. lia.
  - split; [exact Hput|]. rewrite Hput. intros Heq.
    apply (f_equal (λ o, match o with Some b => buf_size b | None => 0%Z end)) in Heq.
    rewrite Hsz in Heq. unfold buf_size, buf_append in Heq. simpl in Heq.
    rewrite length_app in Heq. simpl in Heq. lia.
Qed.

(** ** Tab expansion *)

#[local] Arguments Nat.modulo : simpl never.

Lemma byte_at_skipn data i :
  i < length data → skipn i data = byte_at data i :: skipn (S i) data.
Proof.
  revert i. induction data as [|c data IH]; intros i Hi; simpl in *; [lia|].
  destruct i as [|i]; [done|]. simpl. apply IH. lia.
Qed.

Lemma slice_skipn data i j :
  i ≤ j → j ≤ length data →
  skipn i data = slice data i (j - i) ++ skipn j data.
Proof.
  intros Hij Hj. unfold slice.
  replace (skipn j data) with (skipn (j - i) (skipn i data)).
  - symmetry. apply firstn_skipn.
  - rewrite skipn_skipn. f_equal. lia.
Qed.

Lemma slice_length data i n :
  i + n ≤ length data → length (slice data i n) = n.
Proof.
  intros H. unfold slice. rewrite length_firstn, length_skipn. lia.
Qed.

Lemma byte_at_slice data i n k :
  k < n → byte_at (slice data i n) k = byte_at data (i + k).
Proof.
  intros Hk. unfold byte_at, slice.
  rewrite nth_firstn. destruct (Nat.ltb_spec k n); [|lia].
  rewrite nth_skipn. done.
Qed.

Lemma skip_to_tab_spec fuel line i tab :
  i ≤ length line → length line - i ≤ fuel →
  ∃ j, skip_to_tab fuel line i tab = (j, tab + (j - i))
    ∧ i ≤ j ≤ length line
    ∧ (∀ k, i ≤ k < j → byte_at line k ≠ TAB)
    ∧ (j < length line → byte_at line j = TAB).
Proof.
  revert i tab. induction fuel as [|fuel IH]; intros i tab Hi Hf; simpl.
  - exists i. split; [f_equal; lia|]. repeat split; lia.
  - destruct (Nat.ltb_spec i (length line)) as [Hlt|Hge]; simpl.
    + destruct (Ascii.eqb_spec (byte_at line i) TAB) as [Heq|Hne]; simpl.
      * exists i. split; [f_equal; lia|]. repeat split; try lia. done.
      * destruct (IH (S i) (S tab)) as (j & Hj & Hr & Hno & Htab); [lia..|].
        exists j. split; [rewrite Hj; f_equal; lia|].
        repeat split; try lia; [|done].
        intros k Hk. destruct (Nat.eq_dec k i) as [->|]; [done|].
        apply Hno. lia.
    + exists i. split; [f_equal; lia|]. repeat split; lia.
Qed.

Lemma tab_expand_no_tab col seg rest :
  Forall (λ c, c ≠ TAB) seg →
  tab_expand col (seg ++ rest) = seg ++ tab_expand (col + length seg) rest.
Proof.
  revert col. induction seg as [|c seg IH]; intros col Hseg; simpl.
  - by rewrite Nat.add_0_r.
  - inversion Hseg as [|? ? Hc Hseg']; subst.
    destruct (Ascii.eqb_spec c TAB); [done|].
    rewrite IH by done. simpl.
    replace (S (col + length seg)) with (col + S (length seg)) by lia. done.
Qed.

Lemma slice_no_tab line i j :
  i ≤ j → j ≤ length line →
  (∀ k, i ≤ k < j → byte_at line k ≠ TAB) →
  Forall (λ c, c ≠ TAB) (slice line i (j - i)).
Proof.
  intros Hij Hj Hno. apply Forall_forall. intros c Hc.
  apply list_elem_of_In in Hc. apply (In_nth _ _ NUL) in Hc. destruct Hc as (k & Hk & <-).
  rewrite slice_length in Hk by lia.
  change (nth k (slice line i (j - i)) NUL) with (byte_at (slice line i (j - i)) k).
  rewrite byte_at_slice by done. apply Hno. lia.
Qed.

Lemma pad_to_stop_spec fuel ob tab :
  (0 < buf_unit ob)%Z → 4 - tab mod 4 ≤ fuel →
  (buf_size ob + Z.of_nat (4 - tab mod 4) ≤ BUFFER_MAX_ALLOC_SIZE)%Z →
  ∃ ob', pad_to_stop fuel ob tab = Some (ob', tab + (4 - tab mod 4))
    ∧ buf_data ob' = buf_data ob ++ repeat " "%char (4 - tab mod 4)
    ∧ buf_unit ob' = buf_unit ob.
Proof.
  revert ob tab. induction fuel as [|fuel IH]; intros ob tab Hu Hf Hroom.
  - pose proof (Nat.mod_upper_bound tab 4). lia.
  - simpl. pose proof (Nat.mod_upper_bound tab 4 ltac:(lia)) as Hm.
    destruct (sd_bufputc_within_cap ob " " Hu ltac:(lia)) as (ob1 & -> & Hd1 & Hu1).
    simpl.
    assert (Hs : S tab mod 4 = if tab mod 4 =? 3 then 0 else S (tab mod 4)).
    { pose proof (Nat.div_mod_eq tab 4). pose proof (Nat.div_mod_eq (S tab) 4).
      pose proof (Nat.mod_upper_bound (S tab) 4 ltac:(lia)).
      destruct (Nat.eqb_spec (tab mod 4) 3); lia. }
    destruct (Nat.eqb_spec (tab mod 4) 3) as [H3|H3].
    + rewrite Hs. simpl. exists ob1. rewrite H3. simpl.
      split; [f_equal; f_equal; lia|]. by rewrite Hd1.
    + rewrite Hs. simpl.
      destruct (IH ob1 (S tab)) as (ob' & Hp & Hd & Hu'); [lia|rewrite Hs; lia| |].
      { unfold buf_size in *. rewrite Hd1, length_app, Hs. simpl. lia. }
      rewrite Hs in Hp, Hd.
      exists ob'. rewrite Hp. split; [do 2 f_equal; lia|].
      rewrite Hd, Hd1, Hu', Hu1. split; [|reflexivity].
      rewrite <- app_assoc. f_equal.
      replace (4 - tab mod 4) with (S (4 - S (tab mod 4))) by lia. reflexivity.
Qed.

Lemma bind_Some {A B} (x : A) (f : A → option B) : Some x ≫= f = f x.
Proof. reflexivity. Qed.

Lemma expand_tabs_loop_S fuel ob line i tab :
  expand_tabs_loop (S fuel) ob line i tab =
  if i <? length line then
    let '(j, tab') := skip_to_tab (length line) line i tab in
    ob ← (if i <? j then sd_bufput ob (slice line i (j - i)) else Some ob);
    if length line <=? j then Some ob
    else '(ob, tab'') ← pad_to_stop 4 ob tab';
         expand_tabs_loop fuel ob line (S j) tab''
  else Some ob.
Proof. reflexivity. Qed.

Lemma expand_tabs_loop_spec fuel ob line i tab :
  (0 < buf_unit ob)%Z → i ≤ length line → length line - i < fuel →
  (buf_size ob + Z.of_nat (length (tab_expand tab (skipn i line)))
   ≤ BUFFER_MAX_ALLOC_SIZE)%Z →
  ∃ ob', expand_tabs_loop fuel ob line i tab = Some ob'
    ∧ buf_data ob' = buf_data ob ++ tab_expand tab (skipn i line)
    ∧ buf_unit ob' = buf_unit ob.
Proof.
  revert ob i tab. induction fuel as [|fuel IH]; intros ob i tab Hu Hi Hf Hroom;
    [lia|].
  rewrite expand_tabs_loop_S.
  destruct (Nat.ltb_spec i (length line)) as [Hlt|Hge].
  2: { exists ob. rewrite skipn_all2 by lia. simpl. by rewrite app_nil_r. }
  destruct (skip_to_tab_spec (length line) line i tab) as (j & -> & Hj & Hno & Htab);
    [lia..|].
  pose proof (slice_no_tab line i j ltac:(lia) ltac:(lia) Hno) as Hseg.
  rewrite (slice_skipn line i j) in Hroom |- * by lia.
  rewrite tab_expand_no_tab in Hroom |- * by done.
  rewrite slice_length in Hroom |- * by lia.
  rewrite length_app, slice_length in Hroom by lia.
  assert (∃ ob1, (if i <? j then sd_bufput ob (slice line i (j - i)) else Some ob)
                 = Some ob1
            ∧ buf_data ob1 = buf_data ob ++ slice line i (j - i)
            ∧ buf_unit ob1 = buf_unit ob) as (ob1 & -> & Hd1 & Hu1).
  { destruct (Nat.ltb_spec i j).
    - apply sd_bufput_within_cap; [done|]. rewrite slice_length by lia. lia.
    - exists ob. replace (j - i) with 0 by lia. unfold slice; simpl.
      by rewrite app_nil_r. }
  rewrite bind_Some. destruct (Nat.leb_spec (length line) j) as [Hend|Hmore].
  - exists ob1. rewrite skipn_all2 by lia. simpl. rewrite app_nil_r. done.
  - rewrite (byte_at_skipn line j) in Hroom |- * by lia.
    rewrite Htab in Hroom |- * by lia.
    change (tab_expand ?c (TAB :: ?l))
      with (repeat " "%char (4 - c mod 4) ++ tab_expand (c + (4 - c mod 4)) l)
      in Hroom |- *.
    rewrite length_app, repeat_length in Hroom.
    destruct (pad_to_stop_spec 4 ob1 (tab + (j - i))) as (ob2 & -> & Hd2 & Hu2).
    { lia. }
    { pose proof (Nat.mod_upper_bound (tab + (j - i)) 4). lia. }
    { unfold buf_size in *. rewrite Hd1, length_app, slice_length by lia. lia. }
    rewrite bind_Some.
    destruct (IH ob2 (S j) (tab + (j - i) + (4 - (tab + (j - i)) mod 4)))
      as (ob' & -> & Hd & Hu'); [lia..| |].
    { unfold buf_size in *.
      rewrite Hd2, Hd1, !length_app, repeat_length, slice_length by lia. lia. }
    exists ob'. split; [done|]. rewrite Hd, Hd2, Hd1, Hu', Hu2, Hu1.
    split; [|done]. by rewrite <- !app_assoc.
Qed.

(** C6.  [expand_tabs] appends to the buffer the line with every byte other
    than a tab copied in order and every tab, met at output column [c]
    (counted from 0 in the bytes emitted for the line), replaced by
    [4 - c mod 4] spaces: the appended bytes are [tab_expand 0 line].  The
    buffer is one that can grow and has room for them under the 16 MiB cap. *)
Theorem expand_tabs_law ob line :
  (0 < buf_unit ob)%Z →
  (buf_size ob + Z.of_nat (length (tab_expand 0 line)) ≤ BUFFER_MAX_ALLOC_SIZE)%Z →
  ∃ ob', expand_tabs ob line = Some ob'
    ∧ buf_data ob' = buf_data ob ++ tab_expand 0 line
    ∧ buf_unit ob' = buf_unit ob.
Proof.
  intros Hu Hroom. unfold expand_tabs.
  apply (expand_tabs_loop_spec (S (length line)) ob line 0 0); [done|lia|lia|done].
Qed.

Lemma expand_tabs_law_witness :
  let ob := sd_bufnew 64 in
  let line := "a"%char :: TAB :: "b"%char :: "c"%char :: TAB :: [] in
  (0 < buf_unit ob)%Z
  ∧ (buf_size ob + Z.of_nat (length (tab_expand 0 line)) ≤ BUFFER_MAX_ALLOC_SIZE)%Z
  ∧ ∃ ob', expand_tabs ob line = Some ob'
      ∧ buf_data ob' = buf_data ob ++ bytes "a   bc  "
      ∧ buf_unit ob' = buf_unit ob.
Proof.
  cbv zeta.
  assert (Hu : (0 < buf_unit (sd_bufnew 64))%Z) by (simpl; lia).
  assert (Hroom : (buf_size (sd_bufnew 64)
                   + Z.of_nat (length (tab_expand 0
                       ("a"%char :: TAB :: "b"%char :: "c"%char :: TAB :: [])))
                   ≤ BUFFER_MAX_ALLOC_SIZE)%Z) by (vm_compute; discriminate).
  split; [exact Hu|]. split; [exact Hroom|].
  exact (expand_tabs_law (sd_bufnew 64)
           ("a"%char :: TAB :: "b"%char :: "c"%char :: TAB :: []) Hu Hroom).
Defined.

(** C6, counterexample to the claim as stated.  The law needs room in the
    buffer: one that holds all but one byte of its 16 MiB, as the text
    buffer of [sd_markdown_render] does on a long document, takes the first
    space of the tab and nothing else of the line [ab<TAB>c]; the bytes
    appended are one space where the law gives [ab], two spaces and [c]. *)
Lemma expand_tabs_full_buffer_counterexample :
  let ob := mk_buf (repeat "x"%char (Z.to_nat 16777215)) 16777216 64 in
  let line := "a"%char :: "b"%char :: TAB :: "c"%char :: [] in
  (0 < buf_unit ob)%Z
  ∧ tab_expand 0 line = bytes "ab  c"
  ∧ expand_tabs ob line = Some (buf_append ob [" "%char])
  ∧ ¬ ∃ ob', expand_tabs ob line = Some ob'
           ∧ buf_data ob' = buf_data ob ++ tab_expand 0 line.
Proof.
  cbv zeta. generalize (repeat_length "x"%char (Z.to_nat 16777215)).
  generalize (repeat "x"%char (Z.to_nat 16777215)). intros l Hl.
  set (ob := mk_buf l 16777216 64).
  set (line := "a"%char :: "b"%char :: TAB :: "c"%char :: []).
  assert (Hu : buf_unit ob ≠ 0%Z) by done.
  assert (Hsz : buf_size ob = 16777215%Z) by (unfold buf_size, ob; simpl; lia).
  assert (Hsz1 : buf_size (buf_append ob [" "%char]) = 16777216%Z).
  { unfold buf_size, buf_append. cbn [buf_data]. rewrite length_app.
    unfold ob. simpl. lia. }
  assert (Hab : sd_bufput ob (slice line 0 (2 - 0)) = Some ob).
  { apply sd_bufput_refused; [done|rewrite Hsz; simpl; lia|].
    rewrite Hsz. unfold BUFFER_MAX_ALLOC_SIZE. simpl. lia. }
  assert (Hsp1 : sd_bufputc ob " " = Some (buf_append ob [" "%char])).
  { apply sd_bufputc_fits; [done|]. rewrite Hsz. simpl. lia. }
  assert (Hsp2 : sd_bufputc (buf_append ob [" "%char]) " "
                 = Some (buf_append ob [" "%char])).
  { apply sd_bufputc_refused; [done|rewrite Hsz1; simpl; lia|].
    rewrite Hsz1. unfold BUFFER_MAX_ALLOC_SIZE. lia. }
  assert (Hc : sd_bufput (buf_append ob [" "%char]) (slice line 3 (4 - 3))
               = Some (buf_append ob [" "%char])).
  { apply sd_bufput_refused; [done|rewrite Hsz1; simpl; lia|].
    rewrite Hsz1. unfold BUFFER_MAX_ALLOC_SIZE. simpl. lia. }
  assert (Hrun : expand_tabs ob line = Some (buf_append ob [" "%char])).
  { unfold expand_tabs. change (length line) with 4.
    rewrite expand_tabs_loop_S. change (length line) with 4.
    change (skip_to_tab 4 line 0 0) with (2, 2).
    change (0 <? 4) with true. cbv iota beta.
    change (0 <? 2) with true. cbv iota.
    rewrite Hab, bind_Some. cbv beta. change (4 <=? 2) with false. cbv iota.
    cbn [pad_to_stop]. rewrite Hsp1, bind_Some. cbv beta zeta.
    change (negb (3 mod 4 =? 0)) with true. cbv iota.
    rewrite Hsp2, bind_Some. cbv beta.
    change (negb (4 mod 4 =? 0)) with false. cbv iota. rewrite bind_Some.
    cbv beta iota.
    rewrite expand_tabs_loop_S. change (length line) with 4.
    change (skip_to_tab 4 line 3 4) with (4, 5).
    change (3 <? 4) with true. cbv iota beta.
    change (3 <? 4) with true. cbv iota.
    rewrite Hc, bind_Some. cbv beta. by change (4 <=? 4) with true. }
  split; [done|]. split; [reflexivity|]. split; [exact Hrun|].
  intros (ob' & Hob' & Hd). rewrite Hrun in Hob'. injection Hob' as <-.
  apply (f_equal (@length ascii)) in Hd. unfold buf_append in Hd.
  cbn [buf_data] in Hd. rewrite !length_app in Hd. simpl in Hd. lia.
Qed.

(** ** Safe links *)

Lemma bytes_length (s : string) : length (bytes s) = String.length s.
Proof. induction s as [|c s IH]; simpl; [done|]. by rewrite IH. Qed.

Lemma strncasecmp_eq_spec link prefix :
  strncasecmp_eq link prefix = true ↔
  ∃ pre rest, link = pre ++ rest ∧ map tolower pre = map tolower prefix.
Proof.
  revert link. induction prefix as [|p prefix IH]; intros link; simpl.
  - destruct link; simpl; (split; [|done]); intros _; by eexists [], _.
  - destruct link as [|c link].
    + simpl. split; [done|]. intros (pre & rest & Hl & Hm).
      destruct pre; [done|]. discriminate Hl.
    + simpl. rewrite andb_true_iff, IH. split.
      * intros [Hc (pre & rest & -> & Hm)].
        exists (c :: pre), rest. split; [done|]. simpl.
        apply Ascii.eqb_eq in Hc. by rewrite Hc, Hm.
      * intros (pre & rest & Hl & Hm). destruct pre as [|c' pre]; [done|].
        simpl in Hl, Hm. injection Hl as <- ->. injection Hm as Hc Hm.
        split; [by apply Ascii.eqb_eq|]. by exists pre, rest.
Qed.

Lemma issafe_uri_spec link uri :
  issafe_uri link uri = true ↔
  ∃ pre c rest, link = pre ++ c :: rest
    ∧ map tolower pre = map tolower (bytes uri) ∧ isalnum c = true.
Proof.
  unfold issafe_uri. rewrite !andb_true_iff, strncasecmp_eq_spec. split.
  - intros [[Hlen (pre & rest & -> & Hm)] Hc].
    assert (Hpre : length pre = String.length uri).
    { rewrite <- bytes_length, <- (length_map tolower pre), Hm. apply length_map. }
    apply Nat.ltb_lt in Hlen. rewrite length_app in Hlen.
    destruct rest as [|c rest]; [simpl in Hlen; lia|].
    exists pre, c, rest. split; [done|]. split; [done|].
    unfold byte_at in Hc. rewrite <- Hpre, nth_middle in Hc. done.
  - intros (pre & c & rest & -> & Hm & Hc).
    assert (Hpre : length pre = String.length uri).
    { rewrite <- bytes_length, <- (length_map tolower pre), Hm. apply length_map. }
    split; [split|].
    + apply Nat.ltb_lt. rewrite length_app. simpl. lia.
    + by exists pre, (c :: rest).
    + unfold byte_at. by rewrite <- Hpre, nth_middle.
Qed.

(** C4.  [sd_autolink_issafe] answers 1 exactly for the links that begin,
    letter case apart, with one of "/", "http://", "https://", "ftp://",
    "mailto:" and have, within their [link_len] bytes, a next byte, which is
    alphanumeric. *)
Theorem sd_autolink_issafe_spec link :
  sd_autolink_issafe link = true ↔
  ∃ uri pre c rest,
    In uri ["/"%string; "http://"%string; "https://"%string; "ftp://"%string;
            "mailto:"%string]
    ∧ link = pre ++ c :: rest
    ∧ map tolower pre = map tolower (bytes uri)
    ∧ isalnum c = true.
Proof.
  unfold sd_autolink_issafe. rewrite existsb_exists. split.
  - intros (uri & Hin & Hsafe). apply issafe_uri_spec in Hsafe.
    destruct Hsafe as (pre & c & rest & H). by exists uri, pre, c, rest.
  - intros (uri & pre & c & rest & Hin & H). exists uri. split; [done|].
    apply issafe_uri_spec. by exists pre, c, rest.
Qed.

Example issafe_mixed_case : sd_autolink_issafe (bytes "HtTp://example.com") = true.
Proof. reflexivity. Qed.

Example issafe_needs_next_byte : sd_autolink_issafe (bytes "http://") = false.
Proof. reflexivity. Qed.

Example issafe_other_scheme : sd_autolink_issafe (bytes "javascript:alert(1)") = false.
Proof. reflexivity. Qed.

(** ** The reference table *)

Lemma hash_step_closed hash c :
  hash_step hash c =
  ((Z.shiftl hash 6 + Z.shiftl hash 16 - hash
    + Z.of_nat (nat_of_ascii (tolower c))) mod 2 ^ 32)%Z.
Proof.
  unfold hash_step, u32. change (2 ^ 32)%Z with 4294967296%Z.
  generalize (Z.shiftl hash 6) (Z.shiftl hash 16)
    (Z.of_nat (nat_of_ascii (tolower c))).
  intros a b t. Z.div_mod_to_equations. lia.
Qed.

Lemma hash_loop_fold fuel link_ref i hash :
  length link_ref - i ≤ fuel →
  hash_loop fuel link_ref i (length link_ref) hash
  = fold_left hash_step (skipn i link_ref) hash.
Proof.
  revert i hash. induction fuel as [|fuel IH]; intros i hash Hf; simpl.
  - by rewrite skipn_all2 by lia.
  - destruct (Nat.ltb_spec i (length link_ref)) as [Hlt|Hge].
    + rewrite IH by lia. by rewrite (byte_at_skipn link_ref i) by done.
    + by rewrite skipn_all2 by lia.
Qed.

Lemma hash_link_ref_fingerprint name : hash_link_ref name = fingerprint name.
Proof.
  unfold hash_link_ref, fingerprint. rewrite hash_loop_fold by lia. simpl.
  generalize 0%Z. induction name as [|c name IH]; intros h; simpl; [done|].
  by rewrite IH, hash_step_closed.
Qed.

Lemma ref_slot_lt id : ref_slot id < REF_TABLE_SIZE.
Proof.
  unfold ref_slot, REF_TABLE_SIZE.
  pose proof (Z.mod_pos_bound id (Z.of_nat 8) ltac:(lia)). lia.
Qed.

Lemma bucket_insert_eq (references : list (list link_ref)) i chain :
  i < length references → bucket (<[i := chain]> references) i = chain.
Proof. intros Hi. unfold bucket. by rewrite list_lookup_insert_eq. Qed.

Lemma bucket_insert_ne (references : list (list link_ref)) i j chain :
  i ≠ j → bucket (<[i := chain]> references) j = bucket references j.
Proof. intros Hi. unfold bucket. by rewrite list_lookup_insert_ne. Qed.

Lemma find_in_chain_Some chain hash ref :
  find_in_chain chain hash = Some ref → In ref chain ∧ ref_id ref = hash.
Proof.
  induction chain as [|r next IH]; simpl; [done|].
  destruct (Z.eqb_spec (ref_id r) hash) as [Heq|Hne].
  - intros [= <-]. auto.
  - intros H. destruct (IH H). auto.
Qed.

Lemma find_in_chain_None chain hash :
  find_in_chain chain hash = None → ∀ ref, In ref chain → ref_id ref ≠ hash.
Proof.
  induction chain as [|r next IH]; simpl; [done|].
  destruct (Z.eqb_spec (ref_id r) hash) as [Heq|Hne]; [done|].
  intros H ref [<-|Hin]; [done|]. by apply IH.
Qed.

Lemma find_in_chain_is_Some chain hash :
  (∃ ref, find_in_chain chain hash = Some ref)
  ↔ ∃ ref, In ref chain ∧ ref_id ref = hash.
Proof.
  split.
  - intros [ref H]. exists ref. by apply find_in_chain_Some.
  - intros (ref & Hin & Hid).
    destruct (find_in_chain chain hash) as [r|] eqn:E; [by exists r|].
    by destruct (find_in_chain_None _ _ E ref Hin).
Qed.

(** C5.  The fingerprint of a label is the left fold of
    [hash = (hash<<6) + (hash<<16) - hash + lower(b)] over its bytes, from 0,
    modulo 2^32; [add_link_ref] puts the new record, which carries that
    fingerprint, at the head of entry [hash mod 8] and leaves the other
    entries alone; [find_link_ref] finds a record exactly when the chain of
    that entry holds one with the same fingerprint, the record it returns is
    one of them, and its answer depends on the label through the fingerprint
    only. *)
Theorem reference_table_spec (references : list (list link_ref)) name :
  length references = REF_TABLE_SIZE →
  hash_link_ref name = fingerprint name
  ∧ ref_slot (hash_link_ref name) = Z.to_nat (hash_link_ref name mod 8)
  ∧ (∀ ref references', add_link_ref references name = (ref, references') →
       ref_id ref = hash_link_ref name
       ∧ bucket references' (ref_slot (hash_link_ref name))
         = ref :: bucket references (ref_slot (hash_link_ref name))
       ∧ ∀ i, i ≠ ref_slot (hash_link_ref name) →
           bucket references' i = bucket references i)
  ∧ ((∃ ref, find_link_ref references name = Some ref)
     ↔ ∃ ref, In ref (bucket references (ref_slot (hash_link_ref name)))
              ∧ ref_id ref = hash_link_ref name)
  ∧ (∀ ref, find_link_ref references name = Some ref →
       In ref (bucket references (ref_slot (hash_link_ref name)))
       ∧ ref_id ref = hash_link_ref name)
  ∧ (∀ name', hash_link_ref name' = hash_link_ref name →
       find_link_ref references name' = find_link_ref references name).
Proof.
  intros Hlen. split; [apply hash_link_ref_fingerprint|]. split; [done|].
  split; [|split; [|split]].
  - intros ref references' [= <- <-]. simpl. split; [done|].
    pose proof (ref_slot_lt (hash_link_ref name)). split.
    + apply bucket_insert_eq. lia.
    + intros i Hi. by apply bucket_insert_ne.
  - apply find_in_chain_is_Some.
  - intros ref. apply find_in_chain_Some.
  - intros name' Heq. unfold find_link_ref. by rewrite Heq.
Qed.

Lemma reference_table_spec_witness :
  let references : list (list link_ref) := replicate REF_TABLE_SIZE [] in
  length references = REF_TABLE_SIZE
  ∧ hash_link_ref (bytes "Foo") = fingerprint (bytes "Foo")
  ∧ (∀ name', hash_link_ref name' = hash_link_ref (bytes "Foo") →
       find_link_ref references name' = find_link_ref references (bytes "Foo")).
Proof.
  cbv zeta.
  assert (Hlen : length (replicate REF_TABLE_SIZE ([] : list link_ref))
                 = REF_TABLE_SIZE) by reflexivity.
  pose proof (reference_table_spec _ (bytes "Foo") Hlen) as (H1 & _ & _ & _ & _ & H6).
  split; [exact Hlen|]. split; [exact H1|exact H6].
Defined.

Example fingerprint_folds_case :
  hash_link_ref (bytes "Ab") = 6363201%Z ∧ hash_link_ref (bytes "aB") = 6363201%Z.
Proof. split; reflexivity. Qed.

(** ** Definitions with equal fingerprints *)

Lemma insert_table_length (references : list (list link_ref)) i chain :
  length (<[i := chain]> references) = length references.
Proof. apply length_insert. Qed.

(** What one definition does to the table: a new record with the label's
    fingerprint, holding the buffers built from the link and the title, is
    the new head of its entry. *)
Lemma store_ref_spec (references references' : list (list link_ref)) name link title :
  length references = REF_TABLE_SIZE →
  store_ref references name link title = Some references' →
  ∃ ref,
    ref_id ref = hash_link_ref name
    ∧ ref_link ref = sd_bufput (sd_bufnew (Z.of_nat (length link))) link
    ∧ ref_title ref
      = (t ← title; sd_bufput (sd_bufnew (Z.of_nat (length t))) t)
    ∧ bucket references' (ref_slot (hash_link_ref name))
      = ref :: bucket references (ref_slot (hash_link_ref name))
    ∧ (∀ i, i ≠ ref_slot (hash_link_ref name) →
         bucket references' i = bucket references i)
    ∧ length references' = REF_TABLE_SIZE.
Proof.
  intros Hlen. unfold store_ref, add_link_ref, fill_link_ref. simpl.
  pose proof (ref_slot_lt (hash_link_ref name)) as Hslot.
  rewrite bucket_insert_eq by lia.
  destruct (sd_bufput (sd_bufnew (Z.of_nat (length link))) link) as [lb|] eqn:El;
    [|done].
  simpl.
  destruct title as [t|]; simpl.
  - destruct (sd_bufput (sd_bufnew (Z.of_nat (length t))) t) as [tb|] eqn:Et;
      [|done].
    simpl. intros [= <-].
    exists (mk_link_ref (hash_link_ref name) (Some lb) (Some tb)). simpl.
    rewrite list_insert_insert_eq, bucket_insert_eq by lia.
    repeat split; try done.
    + intros i Hi. by rewrite bucket_insert_ne.
    + by rewrite length_insert.
  - intros [= <-].
    exists (mk_link_ref (hash_link_ref name) (Some lb) None). simpl.
    rewrite list_insert_insert_eq, bucket_insert_eq by lia.
    repeat split; try done.
    + intros i Hi. by rewrite bucket_insert_ne.
    + by rewrite length_insert.
Qed.

(** Definitions with other fingerprints leave the lookup of a fingerprint
    as it is. *)
Lemma store_refs_other (references references' : list (list link_ref)) defs name :
  length references = REF_TABLE_SIZE →
  store_refs references defs = Some references' →
  Forall (λ d, hash_link_ref d.1.1 ≠ hash_link_ref name) defs →
  find_link_ref references' name = find_link_ref references name.
Proof.
  revert references. induction defs as [|[[n l] t] defs IH];
    intros references Hlen Hst Hne; simpl in Hst.
  - by injection Hst as <-.
  - destruct (store_ref references n l t) as [references1|] eqn:E; [|done].
    simpl in Hst. inversion Hne as [|? ? Hn Hne']; subst. simpl in Hn.
    destruct (store_ref_spec _ _ _ _ _ Hlen E)
      as (ref & Hid & _ & _ & Hhead & Hother & Hlen1).
    rewrite (IH references1) by done.
    unfold find_link_ref.
    destruct (Nat.eq_dec (ref_slot (hash_link_ref name)) (ref_slot (hash_link_ref n)))
      as [Heq|Hneq].
    + rewrite Heq, Hhead. simpl. rewrite Hid.
      by destruct (Z.eqb_spec (hash_link_ref n) (hash_link_ref name)).
    + by rewrite Hother.
Qed.

(** C10.  When two definitions whose labels have the same fingerprint are
    stored, the second record stands before the first in their chain, and
    every lookup of a label with that fingerprint made afterwards (other
    definitions, of other fingerprints, may have been stored in between)
    returns the second record, which holds the link and title of the second
    definition. *)
Theorem latest_definition_wins
    (references references1 references2 references3 : list (list link_ref))
    name1 link1 title1 name2 link2 title2 later name :
  length references = REF_TABLE_SIZE →
  hash_link_ref name1 = hash_link_ref name2 →
  store_ref references name1 link1 title1 = Some references1 →
  store_ref references1 name2 link2 title2 = Some references2 →
  store_refs references2 later = Some references3 →
  Forall (λ d, hash_link_ref d.1.1 ≠ hash_link_ref name2) later →
  hash_link_ref name = hash_link_ref name2 →
  ∃ ref1 ref2,
    bucket references2 (ref_slot (hash_link_ref name2))
    = ref2 :: ref1 :: bucket references (ref_slot (hash_link_ref name2))
    ∧ ref_link ref1 = sd_bufput (sd_bufnew (Z.of_nat (length link1))) link1
    ∧ ref_link ref2 = sd_bufput (sd_bufnew (Z.of_nat (length link2))) link2
    ∧ ref_title ref2
      = (t ← title2; sd_bufput (sd_bufnew (Z.of_nat (length t))) t)
    ∧ find_link_ref references3 name = Some ref2.
Proof.
  intros Hlen Hh H1 H2 H3 Hne Hname.
  destruct (store_ref_spec _ _ _ _ _ Hlen H1)
    as (ref1 & Hid1 & Hl1 & _ & Hhead1 & _ & Hlen1).
  destruct (store_ref_spec _ _ _ _ _ Hlen1 H2)
    as (ref2 & Hid2 & Hl2 & Ht2 & Hhead2 & _ & Hlen2).
  exists ref1, ref2. rewrite Hh in Hhead1. rewrite Hhead2, Hhead1.
  repeat split; try done.
  rewrite (store_refs_other references2 references3 later name Hlen2 H3).
  - unfold find_link_ref. rewrite Hname, Hhead2. simpl. rewrite Hid2.
    by rewrite Z.eqb_refl.
  - by rewrite Hname.
Qed.

Lemma latest_definition_wins_witness :
  let references : list (list link_ref) := replicate REF_TABLE_SIZE [] in
  let references1 :=
    default [] (store_ref references (bytes "Foo") (bytes "/a") None) in
  let references2 :=
    default [] (store_ref references1 (bytes "FOO") (bytes "/b") (Some (bytes "t"))) in
  let later := [(bytes "bar", bytes "/c", None)] in
  let references3 := default [] (store_refs references2 later) in
  length references = REF_TABLE_SIZE
  ∧ hash_link_ref (bytes "Foo") = hash_link_ref (bytes "FOO")
  ∧ store_ref references (bytes "Foo") (bytes "/a") None = Some references1
  ∧ store_ref references1 (bytes "FOO") (bytes "/b") (Some (bytes "t"))
    = Some references2
  ∧ store_refs references2 later = Some references3
  ∧ Forall (λ d, hash_link_ref d.1.1 ≠ hash_link_ref (bytes "FOO")) later
  ∧ hash_link_ref (bytes "foo") = hash_link_ref (bytes "FOO")
  ∧ ∃ ref1 ref2,
      bucket references2 (ref_slot (hash_link_ref (bytes "FOO")))
      = ref2 :: ref1 :: bucket references (ref_slot (hash_link_ref (bytes "FOO")))
      ∧ ref_link ref1 = sd_bufput (sd_bufnew 2) (bytes "/a")
      ∧ ref_link ref2 = sd_bufput (sd_bufnew 2) (bytes "/b")
      ∧ ref_title ref2 = sd_bufput (sd_bufnew 1) (bytes "t")
      ∧ find_link_ref references3 (bytes "foo") = Some ref2.
Proof.
  cbv zeta.
  set (references := replicate REF_TABLE_SIZE [] : list (list link_ref)).
  set (references1 := default [] (store_ref references (bytes "Foo") (bytes "/a") None)).
  set (references2 :=
         default [] (store_ref references1 (bytes "FOO") (bytes "/b") (Some (bytes "t")))).
  set (later := [(bytes "bar", bytes "/c", @None (list ascii))]).
  set (references3 := default [] (store_refs references2 later)).
  assert (H0 : length references = REF_TABLE_SIZE) by reflexivity.
  assert (Hh : hash_link_ref (bytes "Foo") = hash_link_ref (bytes "FOO"))
    by reflexivity.
  assert (H1 : store_ref references (bytes "Foo") (bytes "/a") None = Some references1)
    by reflexivity.
  assert (H2 : store_ref references1 (bytes "FOO") (bytes "/b") (Some (bytes "t"))
               = Some references2) by reflexivity.
  assert (H3 : store_refs references2 later = Some references3) by reflexivity.
  assert (Hne : Forall (λ d, hash_link_ref d.1.1 ≠ hash_link_ref (bytes "FOO")) later).
  { repeat constructor. vm_compute. discriminate. }
  assert (Hn : hash_link_ref (bytes "foo") = hash_link_ref (bytes "FOO"))
    by reflexivity.
  repeat (split; [assumption|]).
  exact (latest_definition_wins references references1 references2 references3
           (bytes "Foo") (bytes "/a") None (bytes "FOO") (bytes "/b")
           (Some (bytes "t")) later (bytes "foo") H0 Hh H1 H2 H3 Hne Hn).
Defined.

Example redefined_label_resolves_to_last :
  let references := replicate REF_TABLE_SIZE [] in
  (references ← store_refs references
     [(bytes "Foo", bytes "/a", None); (bytes "FOO", bytes "/b", None)];
   ref ← find_link_ref references (bytes "foo");
   link ← ref_link ref;
   Some (buf_data link))
  = Some (bytes "/b").
Proof. reflexivity. Qed.

(** ** Entities *)

Lemma byte_at_app_r (l1 l2 : list ascii) i :
  byte_at (l1 ++ l2) (length l1 + i) = byte_at l2 i.
Proof. unfold byte_at. rewrite app_nth2 by lia. f_equal. lia. Qed.

Lemma byte_at_app_l (l1 l2 : list ascii) i :
  i < length l1 → byte_at (l1 ++ l2) i = byte_at l1 i.
Proof. intros H. unfold byte_at. by rewrite app_nth1. Qed.

Lemma skip_alnum_run fuel pre name c rest :
  Forall (λ c, isalnum c = true) name → isalnum c = false →
  length name ≤ fuel →
  skip_alnum fuel (pre ++ name ++ c :: rest) (length pre)
  = length pre + length name.
Proof.
  revert pre fuel. induction name as [|a name IH]; intros pre fuel Hn Hc Hf.
  - simpl. rewrite Nat.add_0_r. destruct fuel as [|fuel]; [done|]. simpl.
    replace (byte_at (pre ++ c :: rest) (length pre)) with c.
    + by rewrite Hc, andb_false_r.
    + rewrite <- (Nat.add_0_r (length pre)) at 1. by rewrite byte_at_app_r.
  - inversion Hn as [|? ? Ha Hn']; subst.
    destruct fuel as [|fuel]; [simpl in Hf; lia|]. simpl.
    replace (byte_at (pre ++ a :: name ++ c :: rest) (length pre)) with a.
    2: { rewrite <- (Nat.add_0_r (length pre)) at 1. by rewrite byte_at_app_r. }
    rewrite Ha, andb_true_r.
    destruct (Nat.ltb_spec (length pre) (length (pre ++ a :: name ++ c :: rest)))
      as [_|Hge]; [|rewrite length_app in Hge; simpl in Hge; lia].
    specialize (IH (pre ++ [a]) fuel Hn' Hc ltac:(simpl in Hf; lia)).
    rewrite <- app_assoc, length_app in IH. simpl in IH.
    rewrite Nat.add_1_r in IH. rewrite IH. lia.
Qed.

(** What [char_entity] takes for an entity: '&', an optional '#', any
    number of alphanumeric bytes, none included, and ';'.  It hands the bytes
    up to the ';' to the [entity] callback, or copies them when there is
    none, and returns their number. *)
Lemma char_entity_accepts {opaque_t} ob (rndr : sd_markdown opaque_t)
    data offset hash name rest :
  entity_shape data hash name rest →
  char_entity ob rndr data offset =
  let end_ := 2 + length hash + length name in
  match cb_entity (cb rndr) with
  | Some entity =>
      '(ob', o') ← entity ob (Some (firstn end_ data)) (opaque rndr);
      Some (end_, ob', set_opaque rndr o')
  | None => ob' ← sd_bufput ob (firstn end_ data); Some (end_, ob', rndr)
  end.
Proof.
  intros (-> & Hhash & Hname). unfold char_entity.
  set (data := "&"%char :: hash ++ name ++ ";"%char :: rest).
  assert (Hlen : length data = 2 + length hash + length name + length rest).
  { subst data. simpl. rewrite !length_app. simpl. lia. }
  assert (Hsemi : isalnum ";" = false) by reflexivity.
  assert (Hskip : skip_alnum (length data) data (1 + length hash)
                  = 1 + length hash + length name).
  { subst data.
    change ("&"%char :: hash ++ name ++ ";"%char :: rest)
      with (("&"%char :: hash) ++ name ++ ";"%char :: rest).
    change (1 + length hash) with (length ("&"%char :: hash)).
    apply skip_alnum_run; [done..|]. rewrite !length_app. simpl. lia. }
  assert (Hat : byte_at data (1 + length hash + length name) = ";"%char).
  { subst data. unfold byte_at. simpl.
    rewrite app_nth2 by lia. rewrite app_nth2 by lia.
    replace (length hash + length name - length hash - length name) with 0 by lia.
    done. }
  assert (Hhead : (if (1 <? length data) && Ascii.eqb (byte_at data 1) "#"
                   then 2 else 1) = 1 + length hash).
  { destruct (Nat.ltb_spec 1 (length data)) as [_|?]; [|lia].
    destruct Hhash as [->| ->]; simpl; [|done].
    subst data. unfold byte_at. simpl.
    destruct name as [|a name]; simpl; [done|].
    inversion Hname as [|? ? Ha _]; subst.
    destruct (Ascii.eqb_spec a "#") as [->|]; [discriminate Ha|done]. }
  rewrite Hhead, Hskip, Hat.
  destruct (Nat.ltb_spec (1 + length hash + length name) (length data)) as [_|?];
    [|lia].
  simpl. unfold slice. simpl. done.
Qed.

(** C3, evaluation at the failing input: "&;" holds no alphanumeric byte
    between '&' and ';', so it does not match [&#?[A-Za-z0-9]+;]; still
    [char_entity] consumes its two bytes and hands them to the [entity]
    callback. *)
Theorem char_entity_empty_name :
  ¬ matches_entity (bytes "&;")
  ∧ char_entity (sd_bufnew 64) (recording_rndr []) (bytes "&;") 0
    = Some (2, sd_bufnew 64, recording_rndr [Some (bytes "&;")]).
Proof.
  split; [|reflexivity].
  intros (hash & name & rest & (Hd & Hh & _) & Hne).
  destruct name as [|a name]; [done|].
  destruct Hh as [->| ->]; simpl in Hd.
  - injection Hd as Ha Hd. destruct name; discriminate Hd.
  - injection Hd as Ha Hd. discriminate Ha.
Qed.

Example char_entity_numeric_without_digits :
  char_entity (sd_bufnew 64) (recording_rndr []) (bytes "&#;") 0
  = Some (3, sd_bufnew 64, recording_rndr [Some (bytes "&#;")]).
Proof. reflexivity. Qed.

Example char_entity_named :
  char_entity (sd_bufnew 64) (recording_rndr []) (bytes "&amp; b") 0
  = Some (5, sd_bufnew 64, recording_rndr [Some (bytes "&amp;")]).
Proof. reflexivity. Qed.

Example char_entity_lone_ampersand :
  char_entity (sd_bufnew 64) (recording_rndr []) (bytes "& b;") 0
  = Some (0, sd_bufnew 64, recording_rndr []).
Proof. reflexivity. Qed.

(** ** Autolink delimiters *)

Lemma cut_langle_none fuel data i link_end :
  (∀ k, i ≤ k < link_end → byte_at data k ≠ "<"%char) →
  cut_langle fuel data i link_end = link_end.
Proof.
  revert i. induction fuel as [|fuel IH]; intros i Hno; simpl; [done|].
  destruct (Nat.ltb_spec i link_end) as [Hlt|Hge]; [|done].
  destruct (Ascii.eqb_spec (byte_at data i) "<") as [Heq|Hne].
  - by destruct (Hno i ltac:(lia)).
  - apply IH. intros k Hk. apply Hno. lia.
Qed.

Lemma entity_back_le fuel data new_end : entity_back fuel data new_end ≤ new_end.
Proof.
  revert new_end. induction fuel as [|fuel IH]; intros new_end; simpl; [lia|].
  destruct ((0 <? new_end) && isalpha (byte_at data new_end)); [|lia].
  specialize (IH (new_end - 1)). lia.
Qed.

(** The peeling loop never needs more fuel than the length of the span. *)
Lemma peel_trailing_fuel fuel fuel' data link_end :
  link_end ≤ fuel → link_end ≤ fuel' →
  peel_trailing fuel data link_end = peel_trailing fuel' data link_end.
Proof.
  revert fuel' link_end. induction fuel as [|fuel IH]; intros fuel' link_end Hf Hf'.
  - replace link_end with 0 by lia. destruct fuel'; reflexivity.
  - destruct fuel' as [|fuel'].
    + replace link_end with 0 by lia. reflexivity.
    + simpl. destruct (Nat.ltb_spec 0 link_end) as [Hpos|]; [|done].
      destruct (strchr "?!.," (byte_at data (link_end - 1))); [apply IH; lia|].
      destruct (Ascii.eqb (byte_at data (link_end - 1)) ";"); [|done].
      pose proof (entity_back_le (link_end - 2) data (link_end - 2)).
      destruct ((entity_back (link_end - 2) data (link_end - 2) <? link_end - 2)
                && Ascii.eqb (byte_at data
                     (entity_back (link_end - 2) data (link_end - 2))) "&");
        apply IH; lia.
Qed.

Lemma peel_trailing_punct data link_end :
  0 < link_end → strchr "?!.," (byte_at data (link_end - 1)) = true →
  peel_trailing link_end data link_end
  = peel_trailing (link_end - 1) data (link_end - 1).
Proof.
  intros Hpos Hp. destruct link_end as [|n]; [lia|]. simpl in *.
  rewrite Nat.sub_0_r in *. by rewrite Hp.
Qed.

Lemma peel_trailing_stop data link_end :
  0 < link_end → strchr "?!.," (byte_at data (link_end - 1)) = false →
  Ascii.eqb (byte_at data (link_end - 1)) ";" = false →
  peel_trailing link_end data link_end = link_end.
Proof.
  intros Hpos Hp Hs. destruct link_end as [|n]; [lia|]. simpl in *.
  rewrite Nat.sub_0_r in *. by rewrite Hp, Hs.
Qed.

Lemma firstn_snoc (data : list ascii) j :
  j < length data → firstn (S j) data = firstn j data ++ [byte_at data j].
Proof.
  revert j. induction data as [|c data IH]; intros j Hj; simpl in *; [lia|].
  destruct j as [|j]; [done|]. simpl. rewrite IH by lia. done.
Qed.

Lemma openings_snoc copen span c :
  openings copen (span ++ [c])
  = openings copen span + (if Ascii.eqb c copen then 1 else 0).
Proof.
  unfold openings. rewrite count_occ_app. simpl.
  destruct (ascii_dec c copen) as [->|Hne].
  - by rewrite Ascii.eqb_refl.
  - by destruct (Ascii.eqb_spec c copen).
Qed.

Lemma closings_snoc copen cclose span c :
  closings copen cclose (span ++ [c])
  = closings copen cclose span
    + (if Ascii.eqb c copen then 0 else if Ascii.eqb c cclose then 1 else 0).
Proof.
  unfold closings. destruct (Ascii.eqb_spec copen cclose) as [->|Hne].
  - by destruct (Ascii.eqb cclose cclose), (Ascii.eqb c cclose).
  - rewrite count_occ_app. simpl.
    destruct (ascii_dec c cclose) as [->|Hc].
    + rewrite Ascii.eqb_refl. by destruct (Ascii.eqb_spec cclose copen).
    + destruct (Ascii.eqb_spec c cclose); [done|].
      by destruct (Ascii.eqb c copen).
Qed.

(** The counting loop counts the openings and closings of the span. *)
Lemma count_delims_spec fuel data copen cclose j link_end opening closing :
  link_end ≤ length data → j ≤ link_end → link_end - j ≤ fuel →
  opening = openings copen (firstn j data) →
  closing = closings copen cclose (firstn j data) →
  count_delims fuel data copen cclose j link_end opening closing
  = (openings copen (firstn link_end data),
     closings copen cclose (firstn link_end data)).
Proof.
  revert j opening closing.
  induction fuel as [|fuel IH]; intros j opening closing Hl Hj Hf Ho Hc; simpl.
  - replace link_end with j by lia. by subst.
  - destruct (Nat.ltb_spec j link_end) as [Hlt|Hge].
    2: { replace link_end with j by lia. by subst. }
    pose proof (openings_snoc copen (firstn j data) (byte_at data j)) as Ho'.
    pose proof (closings_snoc copen cclose (firstn j data) (byte_at data j)) as Hc'.
    rewrite <- firstn_snoc in Ho', Hc' by lia.
    destruct (Ascii.eqb (byte_at data j) copen).
    + apply IH; [lia..| |]; lia.
    + destruct (Ascii.eqb (byte_at data j) cclose); apply IH; lia.
Qed.

Lemma closer_not_peeled c :
  In c [DQUOTE; "'"%char; ")"%char; "]"%char; "}"%char] →
  strchr "?!.," c = false ∧ Ascii.eqb c ";" = false
  ∧ Ascii.eqb (copen_of c) NUL = false.
Proof.
  intros Hin. simpl in Hin.
  destruct Hin as [<-|[<-|[<-|[<-|[<-|[]]]]]]; repeat split; reflexivity.
Qed.

(** C2 (as amended).  For a span without '<' (the function first cuts the
    span at its first '<'): when the last byte is one of ? ! . , it is
    peeled, the result being that for the span without it; when the last byte
    is one of the closing signs, the opening and closing signs of its pair
    are counted across the span and, when the counts disagree, the span is
    shrunk by one byte, once.  A quote sign is its own opening sign. *)
Theorem autolink_delim_balance data link_end max_rewind size :
  0 < link_end ≤ length data →
  (∀ i, i < link_end → byte_at data i ≠ "<"%char) →
  let c := byte_at data (link_end - 1) in
  let span := firstn link_end data in
  (In c ["?"%char; "!"%char; "."%char; ","%char] →
     autolink_delim data link_end max_rewind size
     = autolink_delim data (link_end - 1) max_rewind size)
  ∧ (In c [DQUOTE; "'"%char; ")"%char; "]"%char; "}"%char] →
     autolink_delim data link_end max_rewind size
     = if openings (copen_of c) span =? closings (copen_of c) c span
       then link_end else link_end - 1).
Proof.
  intros Hle Hno c span. split.
  - intros Hin. unfold autolink_delim.
    rewrite !cut_langle_none by (intros k Hk; apply Hno; lia).
    rewrite peel_trailing_punct; [done|lia|].
    fold c. simpl in Hin.
    destruct Hin as [<-|[<-|[<-|[<-|[]]]]]; reflexivity.
  - intros Hin. destruct (closer_not_peeled c Hin) as (Hp & Hs & Hop).
    unfold autolink_delim.
    rewrite cut_langle_none by (intros k Hk; apply Hno; lia).
    rewrite peel_trailing_stop by (done || lia).
    destruct (Nat.eqb_spec link_end 0) as [|_]; [lia|].
    fold c. rewrite Hop. simpl negb. cbv iota.
    rewrite (count_delims_spec link_end data (copen_of c) c 0 link_end 0 0);
      [|lia|lia|lia|reflexivity
       |unfold closings; simpl; by destruct (Ascii.eqb (copen_of c) c)].
    fold span. rewrite (Nat.eqb_sym (closings _ _ _)).
    by destruct (openings (copen_of c) span =? closings (copen_of c) c span).
Qed.

Lemma autolink_delim_balance_witness :
  let data := bytes "a(b))" in
  let data' := bytes "a.b." in
  (0 < 5 ≤ length data
   ∧ (∀ i, i < 5 → byte_at data i ≠ "<"%char)
   ∧ autolink_delim data 5 0 5 = 4)
  ∧ (0 < 4 ≤ length data'
     ∧ (∀ i, i < 4 → byte_at data' i ≠ "<"%char)
     ∧ autolink_delim data' 4 0 4 = autolink_delim data' 3 0 4).
Proof.
  cbv zeta.
  assert (Hle : 0 < 5 ≤ length (bytes "a(b))")) by (simpl; lia).
  assert (Hno : ∀ i, i < 5 → byte_at (bytes "a(b))") i ≠ "<"%char).
  { intros i Hi. do 5 (destruct i as [|i]; [discriminate|]). lia. }
  assert (Hle' : 0 < 4 ≤ length (bytes "a.b.")) by (simpl; lia).
  assert (Hno' : ∀ i, i < 4 → byte_at (bytes "a.b.") i ≠ "<"%char).
  { intros i Hi. do 4 (destruct i as [|i]; [discriminate|]). lia. }
  split; (split; [assumption|split; [assumption|]]).
  - apply (proj2 (autolink_delim_balance (bytes "a(b))") 5 0 5 Hle Hno)).
    simpl. auto.
  - apply (proj1 (autolink_delim_balance (bytes "a.b.") 4 0 4 Hle' Hno')).
    simpl. auto.
Defined.

(** C2, counterexample to the claim as stated: of "a))" one ')' is dropped
    and the span "a)", whose counts still disagree, is returned; testing
    again would leave "a". *)
Lemma autolink_delim_retest_counterexample :
  let data := bytes "a))" in
  autolink_delim data 3 0 3 = 2
  ∧ autolink_delim_retest data 3 = 1
  ∧ autolink_delim data 3 0 3 ≠ autolink_delim_retest data 3.
Proof. cbv zeta. repeat split; [reflexivity..|]. vm_compute. discriminate. Qed.

Example autolink_delim_quote_always_dropped :
  autolink_delim (DQUOTE :: "a"%char :: DQUOTE :: []) 3 0 3 = 2.
Proof. reflexivity. Qed.

Example autolink_delim_balanced_paren_kept :
  autolink_delim (bytes "http://www.pokemon.com/Pikachu_(Electric)") 41 0 41 = 41.
Proof. reflexivity. Qed.

Example autolink_delim_entity_peeled :
  autolink_delim (bytes "://a.b/c&amp;") 13 0 13 = 8.
Proof. reflexivity. Qed.

(** ** Code spans *)

Lemma count_backticks_spec fuel data n nb :
  opening_run data n → nb ≤ n → n - nb ≤ fuel →
  count_backticks fuel data nb = n.
Proof.
  intros [[Hlen Hrun] Hstop]. simpl in Hlen.
  revert nb. induction fuel as [|fuel IH]; intros nb Hnb Hf; simpl; [lia|].
  destruct (Nat.ltb_spec nb (length data)) as [Hlt|Hge]; simpl.
  - destruct (Ascii.eqb_spec (byte_at data nb) "`") as [Heq|Hne].
    + destruct (Nat.eq_dec nb n) as [->|]; [by destruct (Hstop Hlt)|].
      apply IH; lia.
    + destruct (Nat.eq_dec nb n) as [->|]; [done|].
      destruct Hne. apply Hrun. lia.
  - lia.
Qed.

Lemma find_delim_spec fuel data nb end_ i :
  1 ≤ nb → end_ ≤ length data → length data - end_ ≤ fuel → i < nb →
  delim_inv data nb end_ i →
  ∃ e i', find_delim fuel data nb end_ i = (e, i')
    ∧ ((i' = nb ∧ nb + nb ≤ e ∧ first_close data nb (e - nb))
       ∨ (i' < nb ∧ length data ≤ e
          ∧ ∀ k, nb ≤ k → ¬ backticks_at data k nb)).
Proof.
  intros Hnb. revert end_ i.
  induction fuel as [|fuel IH]; intros end_ i Hend Hf Hi (Ha & Hb & Hc & Hd).
  - exists end_, i. split; [done|]. right. split; [done|]. split; [lia|].
    intros k Hk [Hkl Hrun]. apply (Hd k Hk); [lia|]. by split.
  - simpl. destruct (Nat.ltb_spec end_ (length data)) as [Hlt|Hge].
    2: { exists end_, i. split; [done|]. right. split; [done|]. split; [lia|].
         intros k Hk [Hkl Hrun]. apply (Hd k Hk); [lia|]. by split. }
    destruct (Nat.ltb_spec i nb) as [_|?]; [|lia]. simpl.
    destruct (Ascii.eqb_spec (byte_at data end_) "`") as [Heq|Hne].
    + assert (Hrun : ∀ j, S end_ - S i ≤ j < S end_ → byte_at data j = "`"%char).
      { intros j Hj. destruct (Nat.eq_dec j end_) as [->|]; [done|].
        apply Hb. lia. }
      assert (Hnowin : ∀ k, nb ≤ k → k + nb ≤ end_ → ¬ backticks_at data k nb)
        by done.
      destruct (Nat.eq_dec (S i) nb) as [Hfull|Hpart].
      * exists (S end_), (S i). split.
        { destruct fuel; simpl; [done|].
          destruct (Nat.ltb_spec (S i) nb); [lia|]. by rewrite andb_false_r. }
        left. split; [done|]. split; [lia|].
        split; [lia|]. split.
        { split; [lia|]. intros j Hj. apply Hrun. lia. }
        intros k' Hk'. apply Hnowin; lia.
      * destruct (IH (S end_) (S i)) as (e & i' & Hfd & Hres); [lia..| |].
        { split; [lia|]. split; [done|]. split.
          - destruct Hc as [Hc|Hc]; [left; lia|right].
            by replace (S end_ - S i - 1) with (end_ - i - 1) by lia.
          - intros k Hk Hkn [_ Hwin].
            destruct (Nat.eq_dec (k + nb) (S end_)) as [Hlast|];
              [|by apply (Hnowin k Hk ltac:(lia)); split; [lia|]].
            destruct Hc as [Hc|Hc]; [lia|].
            apply Hc, Hwin. lia. }
        by exists e, i'.
    + destruct (IH (S end_) 0) as (e & i' & Hfd & Hres); [lia..| |].
      { split; [lia|]. split; [intros j Hj; lia|]. split.
        - right. by replace (S end_ - 0 - 1) with end_ by lia.
        - intros k Hk Hkn [_ Hwin].
          destruct (Nat.eq_dec (k + nb) (S end_)) as [Hlast|].
          + apply Hne, Hwin. lia.
          + apply (Hd k Hk ltac:(lia)). split; [lia|done]. }
      by exists e, i'.
Qed.

Lemma trim_begin_spec fuel data f_begin end_ :
  f_begin ≤ end_ → end_ - f_begin ≤ fuel →
  ∃ b, trim_begin fuel data f_begin end_ = b ∧ f_begin ≤ b ≤ end_
    ∧ (∀ j, f_begin ≤ j < b → byte_at data j = " "%char)
    ∧ (b < end_ → byte_at data b ≠ " "%char).
Proof.
  revert f_begin. induction fuel as [|fuel IH]; intros f_begin Hle Hf; simpl.
  - exists f_begin. repeat split; intros; lia.
  - destruct (Nat.ltb_spec f_begin end_) as [Hlt|Hge]; simpl.
    + destruct (Ascii.eqb_spec (byte_at data f_begin) " ") as [Heq|Hne].
      * destruct (IH (S f_begin)) as (b & -> & Hb & Hsp & Hstop); [lia..|].
        exists b. split; [done|]. split; [lia|]. split; [|done].
        intros j Hj. destruct (Nat.eq_dec j f_begin) as [->|]; [done|].
        apply Hsp. lia.
      * exists f_begin. split; [done|]. split; [lia|]. split; [|done].
        intros j Hj. lia.
    + exists f_begin. repeat split; intros; lia.
Qed.

Lemma trim_end_spec fuel data f_end nb :
  nb ≤ f_end → f_end - nb ≤ fuel →
  ∃ e, trim_end fuel data f_end nb = e ∧ nb ≤ e ≤ f_end
    ∧ (∀ j, e ≤ j < f_end → byte_at data j = " "%char)
    ∧ (nb < e → byte_at data (e - 1) ≠ " "%char).
Proof.
  revert f_end. induction fuel as [|fuel IH]; intros f_end Hle Hf; simpl.
  - exists f_end. repeat split; intros; lia.
  - destruct (Nat.ltb_spec nb f_end) as [Hlt|Hge]; simpl.
    + destruct (Ascii.eqb_spec (byte_at data (f_end - 1)) " ") as [Heq|Hne].
      * destruct (IH (f_end - 1)) as (e & -> & Hb & Hsp & Hstop); [lia..|].
        exists e. split; [done|]. split; [lia|]. split; [|done].
        intros j Hj. destruct (Nat.eq_dec j (f_end - 1)) as [->|]; [done|].
        apply Hsp. lia.
      * exists f_end. split; [done|]. split; [lia|]. split; [|done].
        intros j Hj. lia.
    + exists f_end. repeat split; intros; lia.
Qed.

Lemma drop_spaces_skipn l a :
  a ≤ length l →
  (∀ j, j < a → byte_at l j = " "%char) →
  (a < length l → byte_at l a ≠ " "%char) →
  drop_spaces l = skipn a l.
Proof.
  revert a. induction l as [|c l IH]; intros a Ha Hsp Hstop; simpl in *.
  - by destruct a.
  - destruct a as [|a].
    + simpl. destruct (Ascii.eqb_spec c " ") as [->|]; [|done].
      by destruct (Hstop ltac:(lia)).
    + pose proof (Hsp 0 ltac:(lia)) as H0. unfold byte_at in H0. simpl in H0.
      subst c. simpl. apply IH; [lia| |].
      * intros j Hj. apply (Hsp (S j)). lia.
      * intros Hlt. apply Hstop. lia.
Qed.

Lemma byte_at_rev (l : list ascii) j :
  j < length l → byte_at (rev l) j = byte_at l (length l - S j).
Proof. intros Hj. unfold byte_at. by apply rev_nth. Qed.

Lemma drop_spaces_end l c :
  c ≤ length l →
  (∀ j, c ≤ j < length l → byte_at l j = " "%char) →
  (0 < c → byte_at l (c - 1) ≠ " "%char) →
  rev (drop_spaces (rev l)) = firstn c l.
Proof.
  intros Hc Hsp Hstop.
  rewrite (drop_spaces_skipn (rev l) (length l - c)).
  - rewrite skipn_rev, rev_involutive. f_equal. lia.
  - rewrite length_rev. lia.
  - intros j Hj. rewrite byte_at_rev by lia. apply Hsp. lia.
  - rewrite length_rev. intros Hlt. rewrite byte_at_rev by lia.
    replace (length l - S (length l - c)) with (c - 1) by lia.
    apply Hstop. lia.
Qed.

Lemma byte_at_skipn_add (l : list ascii) a j :
  byte_at (skipn a l) j = byte_at l (a + j).
Proof. unfold byte_at. apply nth_skipn. Qed.

Lemma trim_spaces_slice l a c :
  a ≤ length l → c ≤ length l →
  (∀ j, j < a → byte_at l j = " "%char) →
  (a < length l → byte_at l a ≠ " "%char) →
  (∀ j, c ≤ j < length l → byte_at l j = " "%char) →
  (0 < c → byte_at l (c - 1) ≠ " "%char) →
  trim_spaces l = firstn (c - a) (skipn a l).
Proof.
  intros Ha Hc Hlead Hfirst Htrail Hlast. unfold trim_spaces.
  rewrite (drop_spaces_skipn l a) by done.
  destruct (Nat.eq_dec a (length l)) as [->|Hne].
  - rewrite skipn_all. simpl. by rewrite firstn_nil.
  - assert (a < c).
    { destruct (Nat.lt_ge_cases a c) as [|Hge]; [done|].
      destruct (Hfirst ltac:(lia)). apply Htrail. lia. }
    apply drop_spaces_end.
    + rewrite length_skipn. lia.
    + intros j Hj. rewrite length_skipn in Hj. rewrite byte_at_skipn_add.
      apply Htrail. lia.
    + intros _. rewrite byte_at_skipn_add.
      replace (a + (c - a - 1)) with (c - 1) by lia. apply Hlast. lia.
Qed.

Lemma slice_slice data off len a n :
  a + n ≤ len → slice (slice data off len) a n = slice data (off + a) n.
Proof.
  intros H. unfold slice.
  rewrite skipn_firstn_comm, firstn_firstn, skipn_skipn.
  rewrite Nat.min_l by lia. f_equal. f_equal. lia.
Qed.

(** The text between the delimiters as the code cuts it out. *)
Lemma codespan_work_spec data nb k :
  1 ≤ nb → nb ≤ k → backticks_at data k nb →
  let end_ := k + nb in
  let f_begin := trim_begin end_ data nb end_ in
  let f_end := trim_end (end_ - nb) data (end_ - nb) nb in
  (if f_begin <? f_end then Some (slice data f_begin (f_end - f_begin)) else None)
  = span_text (trim_spaces (slice data nb (k - nb))).
Proof.
  intros Hnb Hk [Hlen Hrun] end_ f_begin f_end.
  destruct (trim_begin_spec end_ data nb end_) as (b & Hb & Hbr & Hlead & Hfirst);
    [lia..|].
  destruct (trim_end_spec (end_ - nb) data (end_ - nb) nb)
    as (e & He & Her & Htrail & Hlast); [lia..|].
  subst f_begin f_end. rewrite Hb, He. subst end_.
  replace (k + nb - nb) with k in * by lia.
  assert (Hbk : b ≤ k).
  { destruct (Nat.le_gt_cases b k) as [|Hgt]; [done|].
    pose proof (Hlead k ltac:(lia)) as Hsp.
    rewrite (Hrun k ltac:(lia)) in Hsp. discriminate Hsp. }
  set (l := slice data nb (k - nb)).
  assert (Hl : length l = k - nb) by (apply slice_length; lia).
  assert (Hat : ∀ j, j < k - nb → byte_at l j = byte_at data (nb + j))
    by (intros j Hj; by apply byte_at_slice).
  rewrite (trim_spaces_slice l (b - nb) (e - nb)).
  - replace (e - nb - (b - nb)) with (e - b) by lia.
    change (firstn (e - b) (skipn (b - nb) l)) with (slice l (b - nb) (e - b)).
    destruct (Nat.ltb_spec b e) as [Hlt|Hge].
    + subst l. rewrite slice_slice by lia.
      replace (nb + (b - nb)) with b by lia.
      assert (Hn : length (slice data b (e - b)) = e - b)
        by (apply slice_length; lia).
      destruct (slice data b (e - b)); [simpl in Hn; lia|done].
    + replace (e - b) with 0 by lia. done.
  - lia.
  - lia.
  - intros j Hj. rewrite Hat by lia. apply Hlead. lia.
  - intros Hlt. rewrite Hat by lia. replace (nb + (b - nb)) with b by lia.
    apply Hfirst. lia.
  - intros j Hj. rewrite Hat by lia. apply Htrail. lia.
  - intros Hpos. rewrite Hat by lia.
    replace (nb + (e - nb - 1)) with (e - 1) by lia. apply Hlast. lia.
Qed.

Lemma first_close_unique data n k k' :
  first_close data n k → first_close data n k' → k = k'.
Proof.
  intros (Hk & Hw & Hmin) (Hk' & Hw' & Hmin').
  destruct (Nat.lt_trichotomy k k') as [Hlt|[Heq|Hgt]]; [|done|].
  - destruct (Hmin' k ltac:(lia) Hw).
  - destruct (Hmin k' ltac:(lia) Hw').
Qed.

(** C1 (as amended).  For an input that begins with a run of exactly
    [n >= 1] backticks: the opening run is matched with the first later
    place [k] where [n] backticks stand in a row, whether or not more
    backticks follow them; the callback is given the bytes between the two
    delimiters with all space bytes removed at both ends (NULL when none is
    left); the result is [k + n], the offset past the closing delimiter, or 0
    when the callback returns 0.  When [n] backticks in a row occur nowhere
    later, the result is 0 and the callback is not called. *)
Theorem char_codespan_spec {opaque_t} ob (rndr : sd_markdown opaque_t)
    data offset n codespan :
  1 ≤ n → opening_run data n → cb_codespan (cb rndr) = Some codespan →
  (∀ k, first_close data n k →
     char_codespan ob rndr data offset =
     '(r, ob', o') ←
        codespan ob (span_text (trim_spaces (slice data n (k - n)))) (opaque rndr);
     Some (if (r =? 0)%Z then 0 else k + n, ob', set_opaque rndr o'))
  ∧ ((∀ k, n ≤ k → ¬ backticks_at data k n) →
     char_codespan ob rndr data offset = Some (0, ob, rndr)).
Proof.
  intros Hn Hopen Hcb. unfold char_codespan.
  pose proof Hopen as [[Hlen _] _]. simpl in Hlen.
  rewrite (count_backticks_spec (length data) data n 0 Hopen) by lia.
  destruct (find_delim_spec (length data) data n n 0) as (e & i' & -> & Hres);
    [lia..| |].
  { split; [lia|]. split; [intros j Hj; lia|]. split; [left; lia|].
    intros k Hk Hkn. lia. }
  destruct Hres as [(-> & He & Hfirst)|(Hi' & He & Hnone)]; split.
  - intros k Hk. pose proof (first_close_unique _ _ _ _ Hfirst Hk) as Hke.
    assert (He' : e = k + n) by lia. subst e. clear Hke Hfirst.
    rewrite Nat.ltb_irrefl. simpl. rewrite Hcb. simpl.
    destruct Hk as (Hk1 & Hw & _).
    pose proof (codespan_work_spec data n k Hn Hk1 Hw) as Hwork.
    cbv zeta in Hwork. rewrite Hwork. done.
  - intros Hno. destruct Hfirst as (Hk1 & Hw & _). by destruct (Hno (e - n) Hk1).
  - intros k (Hk1 & Hw & _). by destruct (Hnone k Hk1).
  - intros _. destruct (Nat.ltb_spec i' n) as [_|?]; [|lia].
    destruct (Nat.leb_spec (length data) e) as [_|?]; [|lia]. done.
Qed.

Lemma char_codespan_spec_witness :
  let data := bytes "``  a ` b  `` c" in
  1 ≤ 2
  ∧ opening_run data 2
  ∧ cb_codespan (cb (recording_rndr []))
    = Some (λ ob text o, Some (1%Z, ob, o ++ [text]))
  ∧ first_close data 2 11
  ∧ char_codespan (sd_bufnew 64) (recording_rndr []) data 0
    = Some (13, sd_bufnew 64, recording_rndr [Some (bytes "a ` b")]).
Proof.
  cbv zeta. set (data := bytes "``  a ` b  `` c").
  assert (Hn : 1 ≤ 2) by lia.
  assert (Hopen : opening_run data 2).
  { split; [split; [simpl; lia|]|discriminate].
    intros j Hj. assert (j = 0 ∨ j = 1) as [-> | ->] by lia; reflexivity. }
  assert (Hclose : first_close data 2 11).
  { split; [lia|]. split.
    - split; [simpl; lia|]. intros j Hj.
      assert (j = 11 ∨ j = 12) as [-> | ->] by lia; reflexivity.
    - intros k' Hk' [_ Hw].
      pose proof (Hw k' ltac:(lia)) as H1. pose proof (Hw (S k') ltac:(lia)) as H2.
      assert (k' = 2 ∨ k' = 3 ∨ k' = 4 ∨ k' = 5 ∨ k' = 6 ∨ k' = 7 ∨ k' = 8
              ∨ k' = 9 ∨ k' = 10) as Hcases by lia.
      repeat (destruct Hcases as [-> | Hcases]; [try discriminate H1;
                                                  discriminate H2|]).
      subst k'. discriminate H1. }
  split; [exact Hn|]. split; [exact Hopen|]. split; [reflexivity|].
  split; [exact Hclose|].
  exact (proj1 (char_codespan_spec (sd_bufnew 64) (recording_rndr []) data 0 2 _
                  Hn Hopen eq_refl) 11 Hclose).
Defined.

(** C1, counterexample to the claim as stated.  In "`a``b`" the first later
    run of exactly one backtick is the last byte, so that the specification
    has all six bytes consumed with the text "a``b"; the code stops at the
    first backtick of the run of two, consumes three bytes and passes "a".
    In "`  a  `" the specification removes one space at each end; the code
    removes them all. *)
Lemma char_codespan_exact_run_counterexample :
  let data := bytes "`a``b`" in
  let data' := bytes "`  a  `" in
  codespan_as_specified data = Some (6, Some (bytes "a``b"))
  ∧ char_codespan (sd_bufnew 64) (recording_rndr []) data 0
    = Some (3, sd_bufnew 64, recording_rndr [Some (bytes "a")])
  ∧ codespan_as_specified data' = Some (7, Some (bytes " a "))
  ∧ char_codespan (sd_bufnew 64) (recording_rndr []) data' 0
    = Some (7, sd_bufnew 64, recording_rndr [Some (bytes "a")]).
Proof. cbv zeta. repeat split; reflexivity. Qed.

Example char_codespan_unclosed :
  char_codespan (sd_bufnew 64) (recording_rndr []) (bytes "``a`b") 0
  = Some (0, sd_bufnew 64, recording_rndr []).
Proof. reflexivity. Qed.

Example char_codespan_only_spaces :
  char_codespan (sd_bufnew 64) (recording_rndr []) (bytes "`  `") 0
  = Some (4, sd_bufnew 64, recording_rndr [None]).
Proof. reflexivity. Qed.

(** ** Pool balance *)

Lemma wp_bind {A B : Type} (m : option A) (k : A → option B) (Q : B → Prop) :
  wp m (λ a, wp (k a) Q) → wp (m ≫= k) Q.
Proof. by destruct m. Qed.

Lemma wp_mono {A : Type} (m : option A) (P Q : A → Prop) :
  wp m P → (∀ a, P a → Q a) → wp m Q.
Proof. destruct m; simpl; auto. Qed.

Lemma wp_Some {A : Type} (m : option A) (Q : A → Prop) a :
  wp m Q → m = Some a → Q a.
Proof. by intros H ->. Qed.

Lemma wp_True {A : Type} (m : option A) : wp m (λ _, True).
Proof. by destruct m. Qed.

Create HintDb pools.
#[local] Hint Resolve wp_True | 20 : pools.

(** One step through a monadic body: a call with a known effect on the
    pools is replaced by this effect, a test is decided both ways. *)
Ltac wp_call :=
  eapply wp_mono; [solve [eauto with pools] | cbv beta; intros; simpl in * |-].

Ltac wp_tuples :=
  repeat match goal with
         | x : (_ * _)%type |- _ => destruct x
         end;
  simpl fst in *; simpl snd in *.

Ltac wp_step :=
  lazymatch goal with
  | |- wp (Some _) _ => cbn [wp]
  | |- wp None _ => exact I
  | |- wp (mbind _ _) _ => apply wp_bind
  | |- wp (if ?b then _ else _) _ => destruct b eqn:?
  | |- wp (match ?x with _ => _ end) _ => destruct x eqn:?
  | |- wp _ _ => wp_call; wp_tuples
  end.

Ltac pools_done :=
  unfold restored, same_setup, span_size, block_size, in_link in *; simpl in *;
  repeat match goal with
         | H : _ ∧ _ |- _ => destruct H
         end;
  try (repeat split; (lia || congruence)).

Ltac wp_auto := cbv beta iota zeta; repeat (wp_step; cbv beta iota zeta); pools_done.

Section PoolBalance.
Context {opaque_t : Type}.
Implicit Types (rndr : sd_markdown opaque_t) (ob : sd_buf).

Lemma stack_grow_size (st : stack) (n : nat) :
  st_size st ≤ n → st_size (stack_grow st n) = st_size st.
Proof.
  intros Hn. unfold stack_grow. case_match; [done|]. simpl.
  case_match; [|done]. apply Nat.ltb_lt in H0. lia.
Qed.

Lemma stack_push_size (st st' : stack) (item : sd_buf) :
  stack_push st item = Some st' → st_size st' = S (st_size st).
Proof.
  unfold stack_push. intros H. case_match; [|done].
  injection H as <-. simpl. by rewrite stack_grow_size by lia.
Qed.

Lemma rndr_newbuf_pools rndr type :
  wp (rndr_newbuf rndr type)
     (λ r, match type with
           | BUFFER_SPAN =>
               span_size r.2 = S (span_size rndr) ∧ block_size r.2 = block_size rndr
           | BUFFER_BLOCK =>
               span_size r.2 = span_size rndr ∧ block_size r.2 = S (block_size rndr)
           end ∧ in_link r.2 = in_link rndr ∧ same_setup rndr r.2).
Proof.
  unfold rndr_newbuf.
  destruct (if st_size (work_bufs rndr type) <? length (st_item (work_bufs rndr type))
            then st_item (work_bufs rndr type) !! st_size (work_bufs rndr type)
            else None) as [[work|]|].
  - by destruct type.
  - destruct (stack_push _ _) as [pool|] eqn:Hpush; [|done].
    apply stack_push_size in Hpush. by destruct type.
  - destruct (stack_push _ _) as [pool|] eqn:Hpush; [|done].
    apply stack_push_size in Hpush. by destruct type.
Qed.

Lemma rndr_popbuf_pools rndr type work :
  wp (rndr_popbuf rndr type work)
     (λ r, match type with
           | BUFFER_SPAN =>
               S (span_size r) = span_size rndr ∧ block_size r = block_size rndr
           | BUFFER_BLOCK =>
               span_size r = span_size rndr ∧ S (block_size r) = block_size rndr
           end ∧ in_link r = in_link rndr ∧ same_setup rndr r).
Proof.
  unfold rndr_popbuf. destruct type; simpl; case_match; simpl; try done;
    unfold span_size, block_size; simpl; auto.
Qed.

Lemma run_int_pools (r : @cb_int opaque_t) rndr :
  wp (run_int r rndr) (λ r, restored rndr r.2).
Proof. unfold run_int. destruct r as [[[? ?] ?]|]; simpl; by repeat split. Qed.

Lemma run_void_pools (r : @cb_void opaque_t) rndr :
  wp (run_void r rndr) (λ r, restored rndr r.2).
Proof. unfold run_void. destruct r as [[? ?]|]; simpl; by repeat split. Qed.


#[local] Hint Resolve rndr_newbuf_pools rndr_popbuf_pools run_int_pools
  run_void_pools : pools.

Lemma put_normal_text_pools ob rndr text :
  wp (put_normal_text ob rndr text) (λ r, restored rndr r.2).
Proof. unfold put_normal_text. wp_auto. Qed.

Lemma char_codespan_pools ob rndr data offset :
  wp (char_codespan ob rndr data offset) (λ r, restored rndr r.2).
Proof. unfold char_codespan. wp_auto. Qed.

Lemma char_entity_pools ob rndr data offset :
  wp (char_entity ob rndr data offset) (λ r, restored rndr r.2).
Proof. unfold char_entity. wp_auto. Qed.

Lemma char_linebreak_pools ob rndr data offset size :
  wp (char_linebreak ob rndr data offset size) (λ r, restored rndr r.2).
Proof. unfold char_linebreak. wp_auto. Qed.

Lemma char_escape_pools ob rndr data offset size :
  wp (char_escape ob rndr data offset size) (λ r, restored rndr r.2).
Proof. unfold char_escape. wp_auto. Qed.

Lemma char_langle_tag_pools ob rndr data offset size :
  wp (char_langle_tag ob rndr data offset size) (λ r, restored rndr r.2).
Proof. unfold char_langle_tag. wp_auto. Qed.

Lemma char_autolink_www_pools ob rndr data offset size :
  wp (char_autolink_www ob rndr data offset size) (λ r, restored rndr r.2).
Proof. unfold char_autolink_www. wp_auto. Qed.

Lemma char_autolink_with_pools scanner type ob rndr data offset size :
  wp (char_autolink_with scanner type ob rndr data offset size)
     (λ r, restored rndr r.2).
Proof. unfold char_autolink_with. wp_auto. Qed.

#[local] Hint Resolve put_normal_text_pools char_codespan_pools char_entity_pools
  char_linebreak_pools char_escape_pools char_langle_tag_pools
  char_autolink_www_pools char_autolink_with_pools : pools.

(** The calls of [parse_inline] and [parse_block] one level down are taken
    to be balanced. *)
Variable parse_inline parse_block :
  sd_buf → sd_markdown opaque_t → ptr → nat → option (sd_buf * sd_markdown opaque_t).
Hypothesis parse_inline_pools :
  ∀ ob rndr data size, wp (parse_inline ob rndr data size) (λ r, restored rndr r.2).
Hypothesis parse_block_pools :
  ∀ ob rndr data size, wp (parse_block ob rndr data size) (λ r, restored rndr r.2).

Lemma render_emph_pools cb_emph ob rndr data i n :
  wp (render_emph parse_inline cb_emph ob rndr data i n) (λ r, restored rndr r.2).
Proof. unfold render_emph. wp_auto. Qed.

#[local] Hint Resolve render_emph_pools : pools.

Lemma parse_emph1_loop_pools fuel cb_emph ob rndr data size c i :
  wp (parse_emph1_loop parse_inline fuel cb_emph ob rndr data size c i)
     (λ r, restored rndr r.2).
Proof.
  revert i. induction fuel as [|fuel IH]; intros i; simpl; [done|]. wp_auto.
Qed.

#[local] Hint Resolve parse_emph1_loop_pools : pools.

Lemma parse_emph1_pools ob rndr data size c :
  wp (parse_emph1 parse_inline ob rndr data size c) (λ r, restored rndr r.2).
Proof. unfold parse_emph1. wp_auto. Qed.

Lemma parse_emph2_loop_pools fuel cb_emph ob rndr data size c i :
  wp (parse_emph2_loop parse_inline fuel cb_emph ob rndr data size c i)
     (λ r, restored rndr r.2).
Proof.
  revert i. induction fuel as [|fuel IH]; intros i; simpl; [done|]. wp_auto.
Qed.

#[local] Hint Resolve parse_emph1_pools parse_emph2_loop_pools : pools.

Lemma parse_emph2_pools ob rndr data size c :
  wp (parse_emph2 parse_inline ob rndr data size c) (λ r, restored rndr r.2).
Proof. unfold parse_emph2. wp_auto. Qed.

#[local] Hint Resolve parse_emph2_pools : pools.

Lemma parse_emph3_loop_pools fuel ob rndr data size c i :
  wp (parse_emph3_loop parse_inline fuel ob rndr data size c i)
     (λ r, restored rndr r.2).
Proof.
  revert i. induction fuel as [|fuel IH]; intros i; simpl; [done|]. wp_auto.
Qed.

#[local] Hint Resolve parse_emph3_loop_pools : pools.

Lemma parse_emph3_pools ob rndr data size c :
  wp (parse_emph3 parse_inline ob rndr data size c) (λ r, restored rndr r.2).
Proof. unfold parse_emph3. wp_auto. Qed.

#[local] Hint Resolve parse_emph3_pools : pools.

Lemma char_emphasis_pools ob rndr data offset size :
  wp (char_emphasis parse_inline ob rndr data offset size) (λ r, restored rndr r.2).
Proof. unfold char_emphasis. wp_auto. Qed.

Lemma char_superscript_pools ob rndr data offset size :
  wp (char_superscript parse_inline ob rndr data offset size)
     (λ r, restored rndr r.2).
Proof. unfold char_superscript. wp_auto. Qed.

#[local] Hint Resolve char_emphasis_pools char_superscript_pools : pools.

(** [char_link] takes up to four buffers and drops them all at once. *)
Lemma link_newbuf_pools rndr held :
  wp (link_newbuf rndr held)
     (λ r, span_size r.2 = S (span_size rndr) ∧ block_size r.2 = block_size rndr
           ∧ in_link r.2 = in_link rndr ∧ same_setup rndr r.2).
Proof. unfold link_newbuf. wp_auto. Qed.

Lemma link_cleanup_span rndr org held : span_size (link_cleanup rndr org held) = org.
Proof. done. Qed.

Lemma link_cleanup_block rndr org held :
  block_size (link_cleanup rndr org held) = block_size rndr.
Proof. done. Qed.

#[local] Hint Resolve link_newbuf_pools : pools.

Lemma link_text_id_pools rndr held data txt_e text_has_nl :
  wp (link_text_id rndr held data txt_e text_has_nl)
     (λ r, block_size r.2 = block_size rndr ∧ in_link r.2 = in_link rndr
           ∧ same_setup rndr r.2).
Proof. unfold link_text_id. wp_auto. Qed.

Lemma link_render_pools ob rndr data is_img org held txt_e i link title :
  wp (link_render parse_inline ob rndr data is_img org held txt_e i link title)
     (λ r, span_size r.2 = org ∧ block_size r.2 = block_size rndr
           ∧ in_link r.2 ≤ in_link rndr ∧ same_setup rndr r.2).
Proof. unfold link_render. wp_auto. Qed.

#[local] Hint Resolve link_text_id_pools link_render_pools : pools.

Lemma link_by_ref_pools ob rndr data is_img org held txt_e i id :
  wp (link_by_ref parse_inline ob rndr data is_img org held txt_e i id)
     (λ r, span_size r.2 = org ∧ block_size r.2 = block_size rndr
           ∧ in_link r.2 ≤ in_link rndr ∧ same_setup rndr r.2).
Proof. unfold link_by_ref. wp_auto. Qed.

#[local] Hint Resolve link_by_ref_pools : pools.

Lemma char_link_pools ob rndr data offset size :
  wp (char_link parse_inline ob rndr data offset size) (λ r, restored rndr r.2).
Proof. unfold char_link. wp_auto. Qed.

#[local] Hint Resolve char_link_pools : pools.

Lemma char_trigger_pools action ob rndr data offset size :
  wp (char_trigger parse_inline action ob rndr data offset size)
     (λ r, restored rndr r.2).
Proof.
  destruct action; simpl; try done; unfold char_autolink_url, char_autolink_email;
    eauto with pools.
Qed.

#[local] Hint Resolve char_trigger_pools : pools.

Lemma parse_inline_loop_pools fuel ob rndr data size i end_ :
  wp (parse_inline_loop parse_inline fuel ob rndr data size i end_)
     (λ r, restored rndr r.2).
Proof.
  revert ob rndr i end_.
  induction fuel as [|fuel IH]; intros ob rndr i end_; simpl; [done|]. wp_auto.
Qed.

#[local] Hint Resolve parse_inline_loop_pools : pools.

Lemma parse_inline_body_pools ob rndr data size :
  wp (parse_inline_body parse_inline ob rndr data size) (λ r, restored rndr r.2).
Proof. unfold parse_inline_body. wp_auto. Qed.

#[local] Hint Resolve parse_inline_body_pools : pools.

Lemma parse_htmlblock_pools ob rndr data size do_render :
  wp (parse_htmlblock ob rndr data size do_render) (λ r, restored rndr r.2).
Proof. unfold parse_htmlblock. wp_auto. Qed.

Lemma parse_blockquote_pools ob rndr data size :
  wp (parse_blockquote parse_block ob rndr data size) (λ r, restored rndr r.2).
Proof. unfold parse_blockquote. wp_auto. Qed.

Lemma render_paragraph_pools ob rndr data size :
  wp (render_paragraph parse_inline ob rndr data size) (λ r, restored rndr r.2).
Proof. unfold render_paragraph. wp_auto. Qed.

Lemma render_header_pools ob rndr data size level :
  wp (render_header parse_inline ob rndr data size level) (λ r, restored rndr r.2).
Proof. unfold render_header. wp_auto. Qed.

#[local] Hint Resolve parse_htmlblock_pools parse_blockquote_pools
  render_paragraph_pools render_header_pools : pools.

Lemma parse_paragraph_pools ob rndr data size :
  wp (parse_paragraph parse_inline ob rndr data size) (λ r, restored rndr r.2).
Proof. unfold parse_paragraph. wp_auto. Qed.

Lemma parse_fencedcode_pools ob rndr data size :
  wp (parse_fencedcode ob rndr data size) (λ r, restored rndr r.2).
Proof. unfold parse_fencedcode. wp_auto. Qed.

Lemma parse_blockcode_pools ob rndr data size :
  wp (parse_blockcode ob rndr data size) (λ r, restored rndr r.2).
Proof. unfold parse_blockcode. wp_auto. Qed.

Lemma parse_listitem_pools ob rndr data size flags :
  wp (parse_listitem parse_inline parse_block ob rndr data size flags)
     (λ r, restored rndr r.2).
Proof. unfold parse_listitem. wp_auto. Qed.

#[local] Hint Resolve parse_paragraph_pools parse_fencedcode_pools
  parse_blockcode_pools parse_listitem_pools : pools.

Lemma list_loop_pools fuel work rndr data size i flags :
  wp (list_loop parse_inline parse_block fuel work rndr data size i flags)
     (λ r, restored rndr r.2).
Proof.
  revert work rndr i flags.
  induction fuel as [|fuel IH]; intros work rndr i flags; simpl; [done|]. wp_auto.
Qed.

#[local] Hint Resolve list_loop_pools : pools.

Lemma parse_list_pools ob rndr data size flags :
  wp (parse_list parse_inline parse_block ob rndr data size flags)
     (λ r, restored rndr r.2).
Proof. unfold parse_list. wp_auto. Qed.

Lemma parse_atxheader_pools ob rndr data size :
  wp (parse_atxheader parse_inline ob rndr data size) (λ r, restored rndr r.2).
Proof. unfold parse_atxheader. wp_auto. Qed.

Lemma table_cells_loop_pools fuel row_work rndr data size columns col_data
    header_flag i col :
  wp (table_cells_loop parse_inline fuel row_work rndr data size columns col_data
        header_flag i col)
     (λ r, restored rndr r.2).
Proof.
  revert row_work rndr i col.
  induction fuel as [|fuel IH]; intros row_work rndr i col; simpl; [done|]. wp_auto.
Qed.

Lemma table_empty_cells_pools fuel row_work rndr col_data header_flag col :
  wp (table_empty_cells fuel row_work rndr col_data header_flag col)
     (λ r, restored rndr r.2).
Proof.
  revert row_work rndr col.
  induction fuel as [|fuel IH]; intros row_work rndr col; simpl; [done|]. wp_auto.
Qed.

#[local] Hint Resolve parse_list_pools parse_atxheader_pools table_cells_loop_pools
  table_empty_cells_pools : pools.

Lemma parse_table_row_pools ob rndr data size columns col_data header_flag :
  wp (parse_table_row parse_inline ob rndr data size columns col_data header_flag)
     (λ r, restored rndr r.2).
Proof. unfold parse_table_row. wp_auto. Qed.

#[local] Hint Resolve parse_table_row_pools : pools.

Lemma parse_table_header_pools ob rndr data size :
  wp (parse_table_header parse_inline ob rndr data size) (λ r, restored rndr r.2).
Proof. unfold parse_table_header. wp_auto. Qed.

Lemma table_rows_loop_pools fuel body_work rndr data size columns col_data i :
  wp (table_rows_loop parse_inline fuel body_work rndr data size columns col_data i)
     (λ r, restored rndr r.2).
Proof.
  revert body_work rndr i.
  induction fuel as [|fuel IH]; intros body_work rndr i; simpl; [done|]. wp_auto.
Qed.

#[local] Hint Resolve parse_table_header_pools table_rows_loop_pools : pools.

Lemma parse_table_pools ob rndr data size :
  wp (parse_table parse_inline ob rndr data size) (λ r, restored rndr r.2).
Proof. unfold parse_table. wp_auto. Qed.

#[local] Hint Resolve parse_table_pools : pools.

Lemma parse_one_block_pools ob rndr data size :
  wp (parse_one_block parse_inline parse_block ob rndr data size)
     (λ r, restored rndr r.2).
Proof. unfold parse_one_block. wp_auto. Qed.

#[local] Hint Resolve parse_one_block_pools : pools.

Lemma parse_block_loop_pools fuel ob rndr data size beg :
  wp (parse_block_loop parse_inline parse_block fuel ob rndr data size beg)
     (λ r, restored rndr r.2).
Proof.
  revert ob rndr beg.
  induction fuel as [|fuel IH]; intros ob rndr beg; simpl; [done|]. wp_auto.
Qed.

#[local] Hint Resolve parse_block_loop_pools : pools.

Lemma parse_block_body_pools ob rndr data size :
  wp (parse_block_body parse_inline parse_block ob rndr data size)
     (λ r, restored rndr r.2).
Proof. unfold parse_block_body. wp_auto. Qed.

End PoolBalance.

(** Every level of the recursion is balanced. *)
Lemma parse_pools {opaque_t : Type} (fuel : nat) :
  balanced (@parse_inline opaque_t fuel) ∧ balanced (@parse_block opaque_t fuel).
Proof.
  induction fuel as [|fuel [IHi IHb]]; [by split|].
  split; intros ob rndr data size; simpl.
  - by apply parse_inline_body_pools.
  - by apply parse_block_body_pools.
Qed.

Lemma render_passes_pools {opaque_t : Type} ob document (md : sd_markdown opaque_t) :
  wp (render_passes ob document md) (λ r, restored md r.2).
Proof.
  pose proof (parse_pools (opaque_t := opaque_t)) as Hparse.
  assert (∀ fuel ob rndr data size,
            wp (parse_block (opaque_t := opaque_t) fuel ob rndr data size)
               (λ r, restored rndr r.2)) as Hblock
    by (intros fuel; apply (Hparse fuel)).
  clear Hparse. unfold render_passes.
  pose proof (@run_void_pools opaque_t).
  wp_auto.
Qed.

(** The pools of a new context are idle. *)
Lemma sd_markdown_new_idle {opaque_t : Type} extensions nesting callbacks
    (opaque : opaque_t) md :
  sd_markdown_new extensions nesting callbacks opaque = Some md → pools_idle md.
Proof.
  unfold sd_markdown_new. destruct (nesting =? 0); [done|].
  by intros [= <-].
Qed.

(** The two assertions that end [sd_markdown_render] do what they are for:
    whatever the pools were, they are idle in a context that it returns. *)
Lemma sd_markdown_render_asserts {opaque_t : Type} ob document
    (md : sd_markdown opaque_t) ob' md' :
  sd_markdown_render ob document md = Some (ob', md') → pools_idle md'.
Proof.
  unfold sd_markdown_render, pools_idle, span_size, block_size.
  destruct (render_passes ob document md) as [[ob1 md1]|]; simpl; [|done].
  destruct (st_size (work_bufs_span md1)) eqn:Hs; simpl; [|done].
  destruct (st_size (work_bufs_block md1)) eqn:Hb; simpl; [|done].
  by intros [= <- <-].
Qed.



(** What the sample document renders to. *)
Example render_sample :
  (λ r, (string_of_list_ascii (buf_data r.1), span_size r.2, block_size r.2))
    <$> (md ← sd_markdown_new 511 16 tagging_callbacks tt;
         sd_markdown_render (sd_bufnew 64) sample_document md)
  = Some (String.append
            "<blockquote><p><em>a</em> <a href=c>b</a></p></blockquote><ul><li>x <code>y</code>"%string
            (String LF "</li></ul>"%string), 0, 0).
Proof. vm_compute. reflexivity. Qed.

(** ** Rendering again *)

Lemma wp2_bind {A A' B B' : Type} (m : option A) (m' : option A')
    (k : A → option B) (k' : A' → option B') (Q : B → B' → Prop) :
  wp2 m m' (λ a a', wp2 (k a) (k' a') Q) → wp2 (m ≫= k) (m' ≫= k') Q.
Proof. by destruct m, m'. Qed.

Lemma wp2_mono {A A' : Type} (m : option A) (m' : option A') (P Q : A → A' → Prop) :
  wp2 m m' P → (∀ a a', P a a' → Q a a') → wp2 m m' Q.
Proof. destruct m, m'; simpl; auto. Qed.

Lemma wp2_refl {A : Type} (m : option A) : wp2 m m eq.
Proof. by destruct m. Qed.

Lemma wp2_Some {A A' : Type} (m : option A) (m' : option A') (Q : A → A' → Prop) a :
  wp2 m m' Q → m = Some a → ∃ a', m' = Some a' ∧ Q a a'.
Proof. intros H ->. destruct m'; [eauto|done]. Qed.

(** *** Scratch buffers *)

Lemma pool_unit_pos type : (0 < pool_unit type)%Z.
Proof. by destruct type. Qed.

Lemma pool_unit_divides_max type : (pool_unit type | BUFFER_MAX_ALLOC_SIZE)%Z.
Proof.
  destruct type; [exists 65536%Z|exists 262144%Z]; reflexivity.
Qed.

(** The capacity that [sd_bufgrow] reaches from a multiple of the unit is a
    multiple of it, the least one that holds [neosz] bytes. *)
Lemma grow_asize_multiple fuel unit neosz neoasz :
  (0 < unit)%Z → (unit | neoasz)%Z → (neoasz - unit < neosz)%Z →
  (neosz - neoasz ≤ Z.of_nat fuel)%Z →
  let r := grow_asize fuel unit neosz neoasz in
  (unit | r)%Z ∧ (neosz ≤ r)%Z ∧ (r - unit < neosz)%Z.
Proof.
  revert neoasz. induction fuel as [|fuel IH]; intros neoasz Hu Hd Hlo Hf; simpl.
  - repeat split; [done|lia|lia].
  - destruct (Z.ltb_spec neoasz neosz).
    + apply IH; [done| |lia|lia]. by apply Z.divide_add_r, Z.divide_refl.
    + repeat split; [done|lia|lia].
Qed.

Lemma multiple_le unit a b :
  (0 < unit)%Z → (unit | a)%Z → (unit | b)%Z → (a - unit < b)%Z → (a ≤ b)%Z.
Proof.
  intros Hu [x ->] [y ->] Hlt.
  assert (x - 1 < y)%Z by nia. nia.
Qed.

Lemma sd_bufgrow_scratch type b neosz :
  scratch type b →
  ∃ err b', sd_bufgrow b neosz = Some (err, b')
    ∧ buf_data b' = buf_data b ∧ scratch type b'
    ∧ ((buferror_code err <? 0)%Z = (neosz >? BUFFER_MAX_ALLOC_SIZE)%Z)
    ∧ ((neosz ≤ BUFFER_MAX_ALLOC_SIZE)%Z → (neosz ≤ buf_asize b')%Z).
Proof.
  intros (Hu & Ha & Hd). pose proof (pool_unit_pos type) as Hpos.
  unfold sd_bufgrow. rewrite Hu.
  destruct (Z.eqb_spec (pool_unit type) 0); [lia|].
  destruct (Z.gtb_spec neosz BUFFER_MAX_ALLOC_SIZE).
  - exists BUF_ENOMEM, b. repeat split; try done; lia.
  - destruct (Z.geb_spec (buf_asize b) neosz).
    + exists BUF_OK, b. repeat split; try done; lia.
    + eexists BUF_OK, _. split; [reflexivity|]. simpl.
      destruct (grow_asize_multiple (Z.to_nat (neosz - buf_asize b)) (pool_unit type)
                  neosz (buf_asize b + pool_unit type)) as (Hm & Hge & Hlt);
        [done|by apply Z.divide_add_r, Z.divide_refl|lia|lia|].
      assert (grow_asize (Z.to_nat (neosz - buf_asize b)) (pool_unit type) neosz
                (buf_asize b + pool_unit type) ≤ BUFFER_MAX_ALLOC_SIZE)%Z as Hmax.
      { apply (multiple_le (pool_unit type)); [done|done| |lia].
        apply pool_unit_divides_max. }
      split; [done|]. split; [split; [done|split; [simpl; lia|done]]|].
      done.
Qed.

(** An append to a scratch buffer is done if and only if the bytes fit
    under the limit. *)
Lemma sd_bufput_scratch type b src :
  scratch type b →
  ∃ b', sd_bufput b src = Some b' ∧ scratch type b'
    ∧ buf_data b' =
        if (buf_size b + Z.of_nat (length src) >? BUFFER_MAX_ALLOC_SIZE)%Z
        then buf_data b else buf_data b ++ src.
Proof.
  intros Hb. pose proof Hb as (Hu & Ha & Hd). pose proof (pool_unit_pos type) as Hpos.
  unfold sd_bufput. rewrite Hu.
  destruct (Z.eqb_spec (pool_unit type) 0); [lia|].
  destruct (Z.gtb_spec (buf_size b + Z.of_nat (length src)) (buf_asize b)).
  - destruct (sd_bufgrow_scratch type b (buf_size b + Z.of_nat (length src)) Hb)
      as (err & b' & -> & Hdata & Hb' & Herr & _).
    simpl. rewrite Herr.
    destruct (Z.gtb_spec (buf_size b + Z.of_nat (length src)) BUFFER_MAX_ALLOC_SIZE).
    + by exists b.
    + exists (buf_append b' src). split; [done|]. simpl. by rewrite Hdata.
  - exists (buf_append b src). split; [done|]. split; [done|]. simpl.
    destruct (Z.gtb_spec (buf_size b + Z.of_nat (length src)) BUFFER_MAX_ALLOC_SIZE);
      [lia|done].
Qed.

Lemma sd_bufputc_scratch type b c :
  scratch type b →
  ∃ b', sd_bufputc b c = Some b' ∧ scratch type b'
    ∧ buf_data b' =
        if (buf_size b + 1 >? BUFFER_MAX_ALLOC_SIZE)%Z
        then buf_data b else buf_data b ++ [c].
Proof.
  intros Hb. pose proof Hb as (Hu & Ha & Hd). pose proof (pool_unit_pos type) as Hpos.
  unfold sd_bufputc. rewrite Hu.
  destruct (Z.eqb_spec (pool_unit type) 0); [lia|].
  destruct (Z.gtb_spec (buf_size b + 1) (buf_asize b)).
  - destruct (sd_bufgrow_scratch type b (buf_size b + 1) Hb)
      as (err & b' & -> & Hdata & Hb' & Herr & _).
    simpl. rewrite Herr.
    destruct (Z.gtb_spec (buf_size b + 1) BUFFER_MAX_ALLOC_SIZE).
    + by exists b.
    + exists (buf_append b' [c]). split; [done|]. simpl. by rewrite Hdata.
  - exists (buf_append b [c]). split; [done|]. split; [done|]. simpl.
    destruct (Z.gtb_spec (buf_size b + 1) BUFFER_MAX_ALLOC_SIZE); [lia|done].
Qed.

Lemma scratch_rel_data type b b' : scratch_rel type b b' → buf_data b' = buf_data b.
Proof. by intros [? ?]. Qed.

Lemma sd_bufput_scratch_rel type b b' src :
  scratch_rel type b b' → wp2 (sd_bufput b src) (sd_bufput b' src) (scratch_rel type).
Proof.
  intros (Hdata & Hb & Hb').
  destruct (sd_bufput_scratch type b src Hb) as (b1 & -> & Hb1 & Hd1).
  destruct (sd_bufput_scratch type b' src Hb') as (b1' & -> & Hb1' & Hd1').
  simpl. split; [|done]. rewrite Hd1, Hd1'. unfold buf_size. by rewrite Hdata.
Qed.

Lemma sd_bufputc_scratch_rel type b b' c :
  scratch_rel type b b' → wp2 (sd_bufputc b c) (sd_bufputc b' c) (scratch_rel type).
Proof.
  intros (Hdata & Hb & Hb').
  destruct (sd_bufputc_scratch type b c Hb) as (b1 & -> & Hb1 & Hd1).
  destruct (sd_bufputc_scratch type b' c Hb') as (b1' & -> & Hb1' & Hd1').
  simpl. split; [|done]. rewrite Hd1, Hd1'. unfold buf_size. by rewrite Hdata.
Qed.

Lemma buf_truncate_scratch_rel type b b' n :
  scratch_rel type b b' → scratch_rel type (buf_truncate b n) (buf_truncate b' n).
Proof.
  intros (Hdata & Hb & Hb'). split; [simpl; by rewrite Hdata|done].
Qed.

Lemma sd_bufnew_scratch type : scratch type (sd_bufnew (pool_unit type)).
Proof.
  split; [done|]. split; [simpl; unfold BUFFER_MAX_ALLOC_SIZE; lia|].
  simpl. apply Z.divide_0_r.
Qed.

Create HintDb sim.

Lemma set_in_link_body_cb {opaque_t : Type} (rndr : sd_markdown opaque_t) v :
  cb (set_in_link_body rndr v) = cb rndr.
Proof. done. Qed.

Lemma set_in_link_body_opaque {opaque_t : Type} (rndr : sd_markdown opaque_t) v :
  opaque (set_in_link_body rndr v) = opaque rndr.
Proof. done. Qed.

Lemma buf_ptr_scratch_rel type b b' : scratch_rel type b b' → buf_ptr b' = buf_ptr b.
Proof. intros [H _]. unfold buf_ptr. by rewrite H. Qed.

Lemma is_atxheader_sim {opaque_t : Type} cbs (rndr rndr' : sd_markdown opaque_t) :
  md_sim cbs rndr rndr' →
  ∀ data size, is_atxheader rndr' data size = is_atxheader rndr data size.
Proof. intros H data size. unfold is_atxheader. by rewrite (sim_ext_flags _ _ _ H). Qed.

Lemma nesting_exceeded_sim {opaque_t : Type} cbs (rndr rndr' : sd_markdown opaque_t) :
  md_sim cbs rndr rndr' → nesting_exceeded rndr' = nesting_exceeded rndr.
Proof.
  intros H. unfold nesting_exceeded.
  by rewrite (sim_max_nesting _ _ _ H), (sim_span_size _ _ _ H),
    (sim_block_size _ _ _ H).
Qed.

Lemma paragraph_loop_sim {opaque_t : Type} cbs (rndr rndr' : sd_markdown opaque_t) :
  md_sim cbs rndr rndr' →
  ∀ fuel data size i end_,
    paragraph_loop fuel rndr' data size i end_
    = paragraph_loop fuel rndr data size i end_.
Proof.
  intros H fuel data size. induction fuel as [|fuel IH]; intros i end_; simpl; [done|].
  rewrite (is_atxheader_sim _ _ _ H), (sim_ext_flags _ _ _ H), (sim_cb _ _ _ H),
    (sim_cb' _ _ _ H).
  by rewrite IH.
Qed.

(** What the second of two related contexts and buffers holds is written in
    terms of the first. *)
Ltac sim_rewrite :=
  repeat match goal with
         | H : md_sim _ ?r ?r' |- context [is_atxheader ?r'] =>
             rewrite (is_atxheader_sim _ _ _ H)
         | H : md_sim _ ?r ?r' |- context [nesting_exceeded ?r'] =>
             rewrite (nesting_exceeded_sim _ _ _ H)
         | H : md_sim _ ?r ?r' |- context [paragraph_loop _ ?r'] =>
             rewrite (paragraph_loop_sim _ _ _ H)
         | |- context [cb (set_in_link_body _ _)] => rewrite set_in_link_body_cb
         | |- context [opaque (set_in_link_body _ _)] =>
             rewrite set_in_link_body_opaque
         | H : md_sim _ _ ?r' |- context [cb ?r'] => rewrite (sim_cb' _ _ _ H)
         | H : md_sim _ ?r _ |- context [cb ?r] => rewrite (sim_cb _ _ _ H)
         | H : md_sim _ _ ?r' |- context [opaque ?r'] => rewrite (sim_opaque _ _ _ H)
         | H : md_sim _ _ ?r' |- context [refs ?r'] => rewrite (sim_refs _ _ _ H)
         | H : md_sim _ _ ?r' |- context [active_char ?r'] =>
             rewrite (sim_active_char _ _ _ H)
         | H : md_sim _ _ ?r' |- context [ext_flags ?r'] =>
             rewrite (sim_ext_flags _ _ _ H)
         | H : md_sim _ _ ?r' |- context [max_nesting ?r'] =>
             rewrite (sim_max_nesting _ _ _ H)
         | H : md_sim _ _ ?r' |- context [in_link_body ?r'] =>
             rewrite (sim_in_link_body _ _ _ H)
         | H : md_sim _ _ ?r' |- context [st_size (work_bufs_span ?r')] =>
             rewrite (sim_span_size _ _ _ H)
         | H : md_sim _ _ ?r' |- context [st_size (work_bufs_block ?r')] =>
             rewrite (sim_block_size _ _ _ H)
         | H : scratch_rel _ _ ?b' |- context [buf_data ?b'] =>
             rewrite (scratch_rel_data _ _ _ H)
         | H : scratch_rel _ _ ?b' |- context [buf_ptr ?b'] =>
             rewrite (buf_ptr_scratch_rel _ _ _ H)
         | HR : closed _ ?R, H : ?R _ ?b' |- context [buf_data ?b'] =>
             rewrite (closed_data _ _ HR _ _ H)
         end.

Ltac sim_intro :=
  intros;
  repeat match goal with
         | x : (_ * _)%type |- _ => destruct x
         | x : listitem_state |- _ => destruct x
         end;
  unfold res_rel, out_rel, put_rel, int_rel, void_rel in * |-;
  repeat match goal with
         | H : li_sim _ _ |- _ => unfold li_sim in H
         end;
  cbn [fst snd li_beg li_end li_in_empty li_has_inside_empty li_in_fence
       li_sublist li_flags li_work] in * |-;
  repeat match goal with
         | H : _ ∧ _ |- _ => destruct H
         end;
  simplify_eq;
  sim_rewrite.

Ltac sim_call := solve [eauto 6 with sim].

Ltac sim_result :=
  unfold res_rel, out_rel, put_rel, int_rel, void_rel, li_sim;
  cbn [fst snd li_beg li_end li_in_empty li_has_inside_empty li_in_fence
       li_sublist li_flags li_work];
  repeat match goal with
         | |- _ ∧ _ => split
         end;
  try reflexivity; try assumption;
  try (eapply closed_truncate; [sim_call|assumption]);
  try sim_call.

Ltac sim_step :=
  lazymatch goal with
  | |- wp2 (Some _) (Some _) _ => cbn [wp2]
  | |- wp2 None None _ => exact I
  | |- wp2 (mbind _ _) (mbind _ _) _ => apply wp2_bind
  | |- wp2 (if ?b then _ else _) (if ?b then _ else _) _ => destruct b eqn:?
  | |- wp2 (match ?x with _ => _ end) (match ?x with _ => _ end) _ =>
      destruct x eqn:?
  | |- wp2 ?m ?m _ => destruct m eqn:?; [cbn [wp2]|exact I]
  | |- wp2 _ _ _ =>
      first [ eapply wp2_mono; [sim_call | sim_intro]
            | match goal with
              | |- context [if ?b then _ else _] => destruct b eqn:?
              end ]
  | |- _ => sim_result
  end.

Ltac sim_reduce :=
  cbv beta iota zeta;
  cbn [li_beg li_end li_in_empty li_has_inside_empty li_in_fence li_sublist
       li_flags li_work].

Ltac sim_auto :=
  intros; sim_reduce; sim_rewrite;
  repeat (sim_step; sim_reduce; sim_rewrite).

Section Sim.
Context {opaque_t : Type}.
Variable cbs : sd_callbacks opaque_t.
Hypothesis cbs_rerunnable : rerunnable cbs.
Implicit Types (rndr : sd_markdown opaque_t) (ob : sd_buf)
  (R : sd_buf → sd_buf → Prop).

(** Equality is closed, whatever the callbacks: they are functions. *)
Lemma eq_respected : callbacks_respect eq cbs.
Proof.
  split; intros f _ ob ob'; intros; subst ob';
    (eapply wp2_mono; [apply wp2_refl|]); by intros ? ? ->.
Qed.

Lemma eq_closed : closed cbs eq.
Proof.
  split; [by intros ? ? ->|by intros ? ? ? ->; apply wp2_refl
         |by intros ? ? ? ->; apply wp2_refl|by intros ? ? ? ->|apply eq_respected].
Qed.

Lemma scratch_rel_closed type : closed cbs (scratch_rel type).
Proof.
  split; [apply scratch_rel_data|intros; by apply sd_bufput_scratch_rel
         |intros; by apply sd_bufputc_scratch_rel
         |intros; by apply buf_truncate_scratch_rel|apply cbs_rerunnable].
Qed.

(** *** The pools *)

Lemma pool_ok_insert type pool n work size :
  pool_ok type pool → scratch type work →
  pool_ok type (mk_stack (<[n := Some work]> (st_item pool)) size).
Proof.
  intros [Hlen Hall] Hwork. split; simpl.
  - by rewrite length_insert.
  - intros i b Hi. destruct (decide (n = i)) as [->|Hne].
    + destruct (decide (i < length (st_item pool))) as [Hlt|Hge].
      * rewrite list_lookup_insert_eq in Hi by done. by injection Hi as <-.
      * rewrite list_insert_ge in Hi by lia. eauto.
    + rewrite list_lookup_insert_ne in Hi by done. eauto.
Qed.

Lemma pool_ok_size type pool size :
  pool_ok type pool → pool_ok type (mk_stack (st_item pool) size).
Proof. done. Qed.

Lemma stack_grow_ok type pool n : pool_ok type pool → pool_ok type (stack_grow pool n).
Proof.
  intros [Hlen Hall]. unfold stack_grow. case_match; [done|].
  split; simpl.
  - rewrite length_app. lia.
  - intros i b Hi. apply lookup_app_Some in Hi as [Hi|[_ Hi]]; [eauto|].
    apply lookup_replicate in Hi as [? _]. done.
Qed.

Lemma stack_grow_length pool n : n ≤ length (st_item (stack_grow pool n)).
Proof.
  unfold stack_grow. case_match eqn:Hn; simpl.
  - by apply Nat.leb_le in Hn.
  - apply Nat.leb_gt in Hn. rewrite length_app, length_replicate. lia.
Qed.

(** [stack_push] on a pool in order does not fail. *)
Lemma stack_push_ok type pool work :
  pool_ok type pool → scratch type work →
  ∃ pool', stack_push pool work = Some pool'
    ∧ st_size pool' = S (st_size pool) ∧ pool_ok type pool'.
Proof.
  intros Hok Hwork. unfold stack_push.
  pose proof (stack_grow_ok type pool (st_size pool * 2) Hok) as Hok'.
  pose proof (stack_grow_length pool (st_size pool * 2)) as Hlen.
  pose proof (stack_grow_size pool (st_size pool * 2) ltac:(lia)) as Hsize.
  destruct Hok' as [Hpos Hall'].
  destruct (Nat.ltb_spec (st_size (stack_grow pool (st_size pool * 2)))
              (length (st_item (stack_grow pool (st_size pool * 2))))) as [Hlt|Hge].
  - eexists. split; [done|]. split; [simpl; by rewrite Hsize|].
    by apply pool_ok_insert.
  - lia.
Qed.

Lemma rndr_newbuf_ok rndr type :
  pool_ok type (work_bufs rndr type) →
  ∃ work pool,
    rndr_newbuf rndr type = Some (work, set_work_bufs rndr type pool)
    ∧ buf_data work = [] ∧ scratch type work
    ∧ st_size pool = S (st_size (work_bufs rndr type)) ∧ pool_ok type pool.
Proof.
  intros Hok. unfold rndr_newbuf.
  destruct (if st_size (work_bufs rndr type) <? length (st_item (work_bufs rndr type))
            then st_item (work_bufs rndr type) !! st_size (work_bufs rndr type)
            else None) as [[work|]|] eqn:Hlook.
  - assert (scratch type work) as Hwork.
    { destruct (st_size _ <? _); [|done]. destruct Hok as [_ Hall]. eauto. }
    eexists _, _. split; [done|]. split; [done|]. split; [exact Hwork|].
    split; [done|]. by apply pool_ok_size.
  - destruct (stack_push_ok type _ (sd_bufnew (pool_unit type)) Hok
                (sd_bufnew_scratch type)) as (pool & -> & Hsize & Hok').
    eexists _, _. split; [done|]. split; [done|].
    split; [apply sd_bufnew_scratch|done].
  - destruct (stack_push_ok type _ (sd_bufnew (pool_unit type)) Hok
                (sd_bufnew_scratch type)) as (pool & -> & Hsize & Hok').
    eexists _, _. split; [done|]. split; [done|].
    split; [apply sd_bufnew_scratch|done].
Qed.

Lemma md_sim_pool_ok rndr rndr' type :
  md_sim cbs rndr rndr' →
  pool_ok type (work_bufs rndr type) ∧ pool_ok type (work_bufs rndr' type)
  ∧ st_size (work_bufs rndr' type) = st_size (work_bufs rndr type).
Proof. intros []. by destruct type. Qed.

Lemma md_sim_set_work_bufs rndr rndr' type pool pool' :
  md_sim cbs rndr rndr' → pool_ok type pool → pool_ok type pool' →
  st_size pool' = st_size pool →
  md_sim cbs (set_work_bufs rndr type pool) (set_work_bufs rndr' type pool').
Proof. intros [] ? ? ?. by destruct type. Qed.

Lemma rndr_newbuf_sim rndr rndr' type :
  md_sim cbs rndr rndr' →
  wp2 (rndr_newbuf rndr type) (rndr_newbuf rndr' type)
      (λ r r', scratch_rel type r.1 r'.1 ∧ md_sim cbs r.2 r'.2).
Proof.
  intros Hsim. destruct (md_sim_pool_ok _ _ type Hsim) as (Hok & Hok' & Hsize).
  destruct (rndr_newbuf_ok rndr type Hok) as (w & p & -> & Hd & Hw & Hs & Hp).
  destruct (rndr_newbuf_ok rndr' type Hok') as (w' & p' & -> & Hd' & Hw' & Hs' & Hp').
  simpl. split.
  - split; [by rewrite Hd, Hd'|done].
  - apply md_sim_set_work_bufs; try done. lia.
Qed.

Lemma rndr_popbuf_sim rndr rndr' type work work' :
  scratch_rel type work work' → md_sim cbs rndr rndr' →
  wp2 (rndr_popbuf rndr type work) (rndr_popbuf rndr' type work') (md_sim cbs).
Proof.
  intros (_ & Hw & Hw') Hsim.
  destruct (md_sim_pool_ok _ _ type Hsim) as (Hok & Hok' & Hsize).
  unfold rndr_popbuf. rewrite Hsize.
  destruct (st_size (work_bufs rndr type)) as [|n]; [done|]. simpl.
  apply md_sim_set_work_bufs; try done; by apply pool_ok_insert.
Qed.

(** *** Callbacks *)

Lemma md_sim_set_opaque rndr rndr' o :
  md_sim cbs rndr rndr' → md_sim cbs (set_opaque rndr o) (set_opaque rndr' o).
Proof. by intros []. Qed.

Lemma md_sim_set_in_link_body rndr rndr' v :
  md_sim cbs rndr rndr' →
  md_sim cbs (set_in_link_body rndr v) (set_in_link_body rndr' v).
Proof. by intros []. Qed.

Lemma run_void_sim R (m m' : @cb_void opaque_t) rndr rndr' :
  wp2 m m' (void_rel R) → md_sim cbs rndr rndr' →
  wp2 (run_void m rndr) (run_void m' rndr') (out_rel R cbs).
Proof.
  intros Hm Hsim. unfold run_void.
  destruct m as [[ob o]|], m' as [[ob' o']|]; try done. simpl in *.
  destruct Hm as [HR Ho]. simpl in *. subst o'.
  split; [done|]. by apply md_sim_set_opaque.
Qed.

Lemma run_int_sim R (m m' : @cb_int opaque_t) rndr rndr' :
  wp2 m m' (int_rel R) → md_sim cbs rndr rndr' →
  wp2 (run_int m rndr) (run_int m' rndr') (res_rel R cbs).
Proof.
  intros Hm Hsim. unfold run_int.
  destruct m as [[[r ob] o]|], m' as [[[r' ob'] o']|]; try done. simpl in *.
  destruct Hm as (Hr & HR & Ho). simpl in *. subst o' r'.
  split; [done|]. split; [done|]. by apply md_sim_set_opaque.
Qed.

#[local] Hint Resolve eq_closed scratch_rel_closed rndr_newbuf_sim rndr_popbuf_sim
  run_void_sim run_int_sim md_sim_set_opaque md_sim_set_in_link_body : sim.
#[local] Hint Resolve closed_put closed_putc closed_callbacks
  buf_truncate_scratch_rel : sim.
#[local] Hint Extern 4 =>
  match goal with
  | |- _ (buf_truncate _ _) (buf_truncate _ _) =>
      eapply closed_truncate; [eassumption|]
  end : sim.
#[local] Hint Resolve respect_blockcode respect_blockquote respect_blockhtml
  respect_header respect_hrule respect_list respect_listitem respect_paragraph
  respect_table respect_table_row respect_table_cell respect_autolink
  respect_codespan respect_double_emphasis respect_emphasis respect_image
  respect_linebreak respect_link respect_raw_html_tag respect_triple_emphasis
  respect_strikethrough respect_superscript respect_entity respect_normal_text
  respect_doc_header respect_doc_footer : sim.

Lemma put_normal_text_sim R ob ob' rndr rndr' text :
  R ob ob' → md_sim cbs rndr rndr' → closed cbs R →
  wp2 (put_normal_text ob rndr text) (put_normal_text ob' rndr' text) (out_rel R cbs).
Proof. unfold put_normal_text. sim_auto. Qed.

Lemma buf_rewind_sim R ob ob' rewind :
  R ob ob' → closed cbs R → wp2 (buf_rewind ob rewind) (buf_rewind ob' rewind) R.
Proof. unfold buf_rewind. sim_auto. Qed.

Lemma unscape_loop_sim R fuel ob ob' src i :
  R ob ob' → closed cbs R →
  wp2 (unscape_loop fuel ob src i) (unscape_loop fuel ob' src i) R.
Proof.
  revert ob ob' i. induction fuel as [|fuel IH]; intros ob ob' i HR Hc; simpl; [done|].
  sim_auto.
Qed.

Lemma unscape_text_sim R ob ob' src :
  R ob ob' → closed cbs R → wp2 (unscape_text ob src) (unscape_text ob' src) R.
Proof. intros. by apply unscape_loop_sim. Qed.

Lemma sd_autolink__www_sim R link link' data max_rewind size flags :
  R link link' → closed cbs R →
  wp2 (sd_autolink__www link data max_rewind size flags)
      (sd_autolink__www link' data max_rewind size flags) (put_rel R).
Proof. unfold sd_autolink__www. sim_auto. Qed.

Lemma sd_autolink__email_sim R link link' data max_rewind size flags :
  R link link' → closed cbs R →
  wp2 (sd_autolink__email link data max_rewind size flags)
      (sd_autolink__email link' data max_rewind size flags) (put_rel R).
Proof. unfold sd_autolink__email. sim_auto. Qed.

Lemma sd_autolink__url_sim R link link' data max_rewind size flags :
  R link link' → closed cbs R →
  wp2 (sd_autolink__url link data max_rewind size flags)
      (sd_autolink__url link' data max_rewind size flags) (put_rel R).
Proof. unfold sd_autolink__url. sim_auto. Qed.

#[local] Hint Resolve put_normal_text_sim buf_rewind_sim unscape_text_sim
  sd_autolink__www_sim sd_autolink__email_sim sd_autolink__url_sim : sim.

Lemma char_codespan_sim R ob ob' rndr rndr' data offset :
  R ob ob' → md_sim cbs rndr rndr' → closed cbs R →
  wp2 (char_codespan ob rndr data offset) (char_codespan ob' rndr' data offset)
      (res_rel R cbs).
Proof. unfold char_codespan. sim_auto. Qed.

Lemma char_entity_sim R ob ob' rndr rndr' data offset :
  R ob ob' → md_sim cbs rndr rndr' → closed cbs R →
  wp2 (char_entity ob rndr data offset) (char_entity ob' rndr' data offset)
      (res_rel R cbs).
Proof. unfold char_entity. sim_auto. Qed.

Lemma char_linebreak_sim R ob ob' rndr rndr' data offset size :
  R ob ob' → md_sim cbs rndr rndr' → closed cbs R →
  wp2 (char_linebreak ob rndr data offset size)
      (char_linebreak ob' rndr' data offset size) (res_rel R cbs).
Proof. unfold char_linebreak. sim_auto. Qed.

Lemma char_escape_sim R ob ob' rndr rndr' data offset size :
  R ob ob' → md_sim cbs rndr rndr' → closed cbs R →
  wp2 (char_escape ob rndr data offset size)
      (char_escape ob' rndr' data offset size) (res_rel R cbs).
Proof. unfold char_escape. sim_auto. Qed.

Lemma char_langle_tag_sim R ob ob' rndr rndr' data offset size :
  R ob ob' → md_sim cbs rndr rndr' → closed cbs R →
  wp2 (char_langle_tag ob rndr data offset size)
      (char_langle_tag ob' rndr' data offset size) (res_rel R cbs).
Proof. unfold char_langle_tag. sim_auto. Qed.

Lemma char_autolink_www_sim R ob ob' rndr rndr' data offset size :
  R ob ob' → md_sim cbs rndr rndr' → closed cbs R →
  wp2 (char_autolink_www ob rndr data offset size)
      (char_autolink_www ob' rndr' data offset size) (res_rel R cbs).
Proof. unfold char_autolink_www. sim_auto. Qed.

Lemma char_autolink_with_sim R scanner type ob ob' rndr rndr' data offset size :
  (∀ R link link' data max_rewind size flags,
     R link link' → closed cbs R →
     wp2 (scanner link data max_rewind size flags)
         (scanner link' data max_rewind size flags) (put_rel R)) →
  R ob ob' → md_sim cbs rndr rndr' → closed cbs R →
  wp2 (char_autolink_with scanner type ob rndr data offset size)
      (char_autolink_with scanner type ob' rndr' data offset size) (res_rel R cbs).
Proof. unfold char_autolink_with. sim_auto. Qed.

#[local] Hint Resolve char_codespan_sim char_entity_sim char_linebreak_sim
  char_escape_sim char_langle_tag_sim char_autolink_www_sim : sim.

(** The calls of [parse_inline] and [parse_block] one level down are taken
    to treat two runs alike. *)
Variable parse_inline parse_block :
  sd_buf → sd_markdown opaque_t → ptr → nat → option (sd_buf * sd_markdown opaque_t).
Hypothesis parse_inline_sim :
  ∀ R ob ob' rndr rndr' data size,
    R ob ob' → md_sim cbs rndr rndr' → closed cbs R →
    wp2 (parse_inline ob rndr data size) (parse_inline ob' rndr' data size)
        (out_rel R cbs).
Hypothesis parse_block_sim :
  ∀ R ob ob' rndr rndr' data size,
    R ob ob' → md_sim cbs rndr rndr' → closed cbs R →
    wp2 (parse_block ob rndr data size) (parse_block ob' rndr' data size)
        (out_rel R cbs).

Lemma render_emph_sim R cb_emph ob ob' rndr rndr' data i n :
  (∀ ob ob' text o, R ob ob' →
     wp2 (cb_emph ob text o) (cb_emph ob' text o) (int_rel R)) →
  R ob ob' → md_sim cbs rndr rndr' → closed cbs R →
  wp2 (render_emph parse_inline cb_emph ob rndr data i n)
      (render_emph parse_inline cb_emph ob' rndr' data i n) (res_rel R cbs).
Proof. unfold render_emph. sim_auto. Qed.

#[local] Hint Resolve render_emph_sim : sim.

Lemma parse_emph1_loop_sim R fuel cb_emph ob ob' rndr rndr' data size c i :
  (∀ ob ob' text o, R ob ob' →
     wp2 (cb_emph ob text o) (cb_emph ob' text o) (int_rel R)) →
  R ob ob' → md_sim cbs rndr rndr' → closed cbs R →
  wp2 (parse_emph1_loop parse_inline fuel cb_emph ob rndr data size c i)
      (parse_emph1_loop parse_inline fuel cb_emph ob' rndr' data size c i)
      (res_rel R cbs).
Proof.
  intros Hcb HR Hsim Hc. revert i.
  induction fuel as [|fuel IH]; intros i; simpl; sim_auto.
Qed.

#[local] Hint Resolve parse_emph1_loop_sim : sim.

Lemma parse_emph1_sim R ob ob' rndr rndr' data size c :
  R ob ob' → md_sim cbs rndr rndr' → closed cbs R →
  wp2 (parse_emph1 parse_inline ob rndr data size c)
      (parse_emph1 parse_inline ob' rndr' data size c) (res_rel R cbs).
Proof. unfold parse_emph1. sim_auto. Qed.

Lemma parse_emph2_loop_sim R fuel cb_emph ob ob' rndr rndr' data size c i :
  (∀ ob ob' text o, R ob ob' →
     wp2 (cb_emph ob text o) (cb_emph ob' text o) (int_rel R)) →
  R ob ob' → md_sim cbs rndr rndr' → closed cbs R →
  wp2 (parse_emph2_loop parse_inline fuel cb_emph ob rndr data size c i)
      (parse_emph2_loop parse_inline fuel cb_emph ob' rndr' data size c i)
      (res_rel R cbs).
Proof.
  intros Hcb HR Hsim Hc. revert i.
  induction fuel as [|fuel IH]; intros i; simpl; sim_auto.
Qed.

#[local] Hint Resolve parse_emph1_sim parse_emph2_loop_sim : sim.

Lemma parse_emph2_sim R ob ob' rndr rndr' data size c :
  R ob ob' → md_sim cbs rndr rndr' → closed cbs R →
  wp2 (parse_emph2 parse_inline ob rndr data size c)
      (parse_emph2 parse_inline ob' rndr' data size c) (res_rel R cbs).
Proof.
  unfold parse_emph2. intros. sim_rewrite.
  destruct (Ascii.eqb c "~"); sim_auto.
Qed.

#[local] Hint Resolve parse_emph2_sim : sim.

Lemma parse_emph3_loop_sim R fuel ob ob' rndr rndr' data size c i :
  R ob ob' → md_sim cbs rndr rndr' → closed cbs R →
  wp2 (parse_emph3_loop parse_inline fuel ob rndr data size c i)
      (parse_emph3_loop parse_inline fuel ob' rndr' data size c i) (res_rel R cbs).
Proof.
  intros HR Hsim Hc. revert i.
  induction fuel as [|fuel IH]; intros i; simpl; sim_auto.
Qed.

#[local] Hint Resolve parse_emph3_loop_sim : sim.

Lemma parse_emph3_sim R ob ob' rndr rndr' data size c :
  R ob ob' → md_sim cbs rndr rndr' → closed cbs R →
  wp2 (parse_emph3 parse_inline ob rndr data size c)
      (parse_emph3 parse_inline ob' rndr' data size c) (res_rel R cbs).
Proof. unfold parse_emph3. sim_auto. Qed.

#[local] Hint Resolve parse_emph3_sim : sim.

Lemma char_emphasis_sim R ob ob' rndr rndr' data offset size :
  R ob ob' → md_sim cbs rndr rndr' → closed cbs R →
  wp2 (char_emphasis parse_inline ob rndr data offset size)
      (char_emphasis parse_inline ob' rndr' data offset size) (res_rel R cbs).
Proof. unfold char_emphasis. sim_auto. Qed.

Lemma char_superscript_sim R ob ob' rndr rndr' data offset size :
  R ob ob' → md_sim cbs rndr rndr' → closed cbs R →
  wp2 (char_superscript parse_inline ob rndr data offset size)
      (char_superscript parse_inline ob' rndr' data offset size) (res_rel R cbs).
Proof. unfold char_superscript. sim_auto. Qed.

#[local] Hint Resolve char_emphasis_sim char_superscript_sim : sim.

(** *** char_link *)

Lemma held_sim_nil : held_sim [] [].
Proof. constructor. Qed.

Lemma held_sim_one slot work work' :
  scratch_rel BUFFER_SPAN work work' → held_sim [(slot, work)] [(slot, work')].
Proof. intros. unfold held_sim. constructor; [by split|constructor]. Qed.

Lemma held_sim_snoc held held' slot work work' :
  held_sim held held' → scratch_rel BUFFER_SPAN work work' →
  held_sim (held ++ [(slot, work)]) (held' ++ [(slot, work')]).
Proof. intros. apply Forall2_app; [done|]. by apply held_sim_one. Qed.

Lemma held_written_ok held held' pool pool' size :
  held_sim held held' →
  pool_ok BUFFER_SPAN pool → pool_ok BUFFER_SPAN pool' →
  let write := fold_left (λ item '(slot, work), <[slot := Some work]> item) in
  pool_ok BUFFER_SPAN (mk_stack (write held (st_item pool)) size)
  ∧ pool_ok BUFFER_SPAN (mk_stack (write held' (st_item pool')) size).
Proof.
  intros Hheld. revert pool pool'.
  induction Hheld as [|[slot work] [slot' work'] held held' [Hslot Hwork] _ IH];
    intros pool pool' Hok Hok'; simpl.
  - split; by apply pool_ok_size.
  - simpl in Hslot. subst slot'. destruct Hwork as (_ & Hw & Hw').
    apply (IH (mk_stack (<[slot := Some work]> (st_item pool)) size)
              (mk_stack (<[slot := Some work']> (st_item pool')) size));
      by apply pool_ok_insert.
Qed.

Lemma link_cleanup_sim rndr rndr' org held held' :
  md_sim cbs rndr rndr' → held_sim held held' →
  md_sim cbs (link_cleanup rndr org held) (link_cleanup rndr' org held').
Proof.
  intros Hsim Hheld. unfold link_cleanup.
  destruct (held_written_ok held held' _ _ org Hheld
              (sim_span_ok _ _ _ Hsim) (sim_span_ok' _ _ _ Hsim)) as [Hok Hok'].
  destruct Hsim. by split.
Qed.

Lemma link_newbuf_sim rndr rndr' held held' :
  md_sim cbs rndr rndr' →
  wp2 (link_newbuf rndr held) (link_newbuf rndr' held')
      (λ r r', scratch_rel BUFFER_SPAN r.1.1 r'.1.1 ∧ r'.1.2 = r.1.2
               ∧ md_sim cbs r.2 r'.2).
Proof. unfold link_newbuf. sim_auto. Qed.

Lemma link_id_loop_sim R fuel b b' data txt_e j :
  R b b' → closed cbs R →
  wp2 (link_id_loop fuel b data txt_e j) (link_id_loop fuel b' data txt_e j) R.
Proof.
  revert b b' j. induction fuel as [|fuel IH]; intros b b' j HR Hc; simpl; sim_auto.
Qed.

#[local] Hint Resolve held_sim_nil held_sim_one held_sim_snoc link_cleanup_sim
  link_newbuf_sim link_id_loop_sim : sim.

Lemma link_text_id_sim rndr rndr' held held' data txt_e text_has_nl :
  md_sim cbs rndr rndr' → held_sim held held' →
  wp2 (link_text_id rndr held data txt_e text_has_nl)
      (link_text_id rndr' held' data txt_e text_has_nl)
      (λ r r', r'.1.1 = r.1.1 ∧ held_sim r.1.2 r'.1.2 ∧ md_sim cbs r.2 r'.2).
Proof. unfold link_text_id. sim_auto. Qed.

Lemma link_render_sim R ob ob' rndr rndr' data is_img org held held' txt_e i
    link title :
  R ob ob' → md_sim cbs rndr rndr' → closed cbs R → held_sim held held' →
  wp2 (link_render parse_inline ob rndr data is_img org held txt_e i link title)
      (link_render parse_inline ob' rndr' data is_img org held' txt_e i link title)
      (res_rel R cbs).
Proof. unfold link_render. sim_auto. Qed.

#[local] Hint Resolve link_text_id_sim link_render_sim : sim.

Lemma link_by_ref_sim R ob ob' rndr rndr' data is_img org held held' txt_e i id :
  R ob ob' → md_sim cbs rndr rndr' → closed cbs R → held_sim held held' →
  wp2 (link_by_ref parse_inline ob rndr data is_img org held txt_e i id)
      (link_by_ref parse_inline ob' rndr' data is_img org held' txt_e i id)
      (res_rel R cbs).
Proof. unfold link_by_ref. sim_auto. Qed.

#[local] Hint Resolve link_by_ref_sim : sim.

Lemma char_link_sim R ob ob' rndr rndr' data offset size :
  R ob ob' → md_sim cbs rndr rndr' → closed cbs R →
  wp2 (char_link parse_inline ob rndr data offset size)
      (char_link parse_inline ob' rndr' data offset size) (res_rel R cbs).
Proof. unfold char_link. sim_auto. Qed.

#[local] Hint Resolve char_link_sim : sim.

Lemma char_trigger_sim R action ob ob' rndr rndr' data offset size :
  R ob ob' → md_sim cbs rndr rndr' → closed cbs R →
  wp2 (char_trigger parse_inline action ob rndr data offset size)
      (char_trigger parse_inline action ob' rndr' data offset size) (res_rel R cbs).
Proof.
  intros. destruct action; simpl; try done;
    unfold char_autolink_url, char_autolink_email;
    try (apply char_autolink_with_sim; try done;
         intros; by (apply sd_autolink__url_sim || apply sd_autolink__email_sim));
    eauto with sim.
Qed.

#[local] Hint Resolve char_trigger_sim : sim.

Lemma parse_inline_loop_sim R fuel ob ob' rndr rndr' data size i end_ :
  R ob ob' → md_sim cbs rndr rndr' → closed cbs R →
  wp2 (parse_inline_loop parse_inline fuel ob rndr data size i end_)
      (parse_inline_loop parse_inline fuel ob' rndr' data size i end_)
      (out_rel R cbs).
Proof.
  intros HR Hsim Hc. revert ob ob' rndr rndr' i end_ HR Hsim.
  induction fuel as [|fuel IH]; intros ob ob' rndr rndr' i end_ HR Hsim; simpl;
    sim_auto.
Qed.

#[local] Hint Resolve parse_inline_loop_sim : sim.

Lemma parse_inline_body_sim R ob ob' rndr rndr' data size :
  R ob ob' → md_sim cbs rndr rndr' → closed cbs R →
  wp2 (parse_inline_body parse_inline ob rndr data size)
      (parse_inline_body parse_inline ob' rndr' data size) (out_rel R cbs).
Proof. unfold parse_inline_body. sim_auto. Qed.

(** *** Blocks *)

Lemma parse_htmlblock_sim R ob ob' rndr rndr' data size do_render :
  R ob ob' → md_sim cbs rndr rndr' → closed cbs R →
  wp2 (parse_htmlblock ob rndr data size do_render)
      (parse_htmlblock ob' rndr' data size do_render) (res_rel R cbs).
Proof. unfold parse_htmlblock. sim_auto. Qed.

Lemma parse_blockquote_sim R ob ob' rndr rndr' data size :
  R ob ob' → md_sim cbs rndr rndr' → closed cbs R →
  wp2 (parse_blockquote parse_block ob rndr data size)
      (parse_blockquote parse_block ob' rndr' data size) (res_rel R cbs).
Proof. unfold parse_blockquote. sim_auto. Qed.

Lemma render_paragraph_sim R ob ob' rndr rndr' data size :
  R ob ob' → md_sim cbs rndr rndr' → closed cbs R →
  wp2 (render_paragraph parse_inline ob rndr data size)
      (render_paragraph parse_inline ob' rndr' data size) (out_rel R cbs).
Proof. unfold render_paragraph. sim_auto. Qed.

Lemma render_header_sim R ob ob' rndr rndr' data size level :
  R ob ob' → md_sim cbs rndr rndr' → closed cbs R →
  wp2 (render_header parse_inline ob rndr data size level)
      (render_header parse_inline ob' rndr' data size level) (out_rel R cbs).
Proof. unfold render_header. sim_auto. Qed.

#[local] Hint Resolve parse_htmlblock_sim parse_blockquote_sim render_paragraph_sim
  render_header_sim : sim.

Lemma parse_paragraph_sim R ob ob' rndr rndr' data size :
  R ob ob' → md_sim cbs rndr rndr' → closed cbs R →
  wp2 (parse_paragraph parse_inline ob rndr data size)
      (parse_paragraph parse_inline ob' rndr' data size) (res_rel R cbs).
Proof. unfold parse_paragraph. sim_auto. Qed.

Lemma put_code_line_sim R work work' data beg end_ :
  R work work' → closed cbs R →
  wp2 (put_code_line work data beg end_) (put_code_line work' data beg end_) R.
Proof. unfold put_code_line. sim_auto. Qed.

#[local] Hint Resolve put_code_line_sim : sim.

Lemma fencedcode_loop_sim R fuel work work' data size beg :
  R work work' → closed cbs R →
  wp2 (fencedcode_loop fuel work data size beg)
      (fencedcode_loop fuel work' data size beg) (put_rel R).
Proof.
  intros HR Hc. revert work work' beg HR.
  induction fuel as [|fuel IH]; intros work work' beg HR; simpl; sim_auto.
Qed.

Lemma blockcode_loop_sim R fuel work work' data size beg :
  R work work' → closed cbs R →
  wp2 (blockcode_loop fuel work data size beg)
      (blockcode_loop fuel work' data size beg) (put_rel R).
Proof.
  intros HR Hc. revert work work' beg HR.
  induction fuel as [|fuel IH]; intros work work' beg HR; simpl; sim_auto.
Qed.

#[local] Hint Resolve fencedcode_loop_sim blockcode_loop_sim : sim.

Lemma parse_fencedcode_sim R ob ob' rndr rndr' data size :
  R ob ob' → md_sim cbs rndr rndr' → closed cbs R →
  wp2 (parse_fencedcode ob rndr data size)
      (parse_fencedcode ob' rndr' data size) (res_rel R cbs).
Proof. unfold parse_fencedcode. sim_auto. Qed.

Lemma parse_blockcode_sim R ob ob' rndr rndr' data size :
  R ob ob' → md_sim cbs rndr rndr' → closed cbs R →
  wp2 (parse_blockcode ob rndr data size)
      (parse_blockcode ob' rndr' data size) (res_rel R cbs).
Proof. unfold parse_blockcode. sim_auto. Qed.

#[local] Hint Resolve parse_paragraph_sim parse_fencedcode_sim parse_blockcode_sim
  : sim.

#[local] Hint Extern 2 (li_sim _ _) =>
  unfold li_sim; cbn;
  repeat match goal with
         | |- _ ∧ _ => split
         end; try reflexivity; try assumption : sim.

Lemma listitem_loop_sim fuel rndr rndr' data size orgpre st st' :
  md_sim cbs rndr rndr' → li_sim st st' →
  wp2 (listitem_loop fuel rndr data size orgpre st)
      (listitem_loop fuel rndr' data size orgpre st') li_sim.
Proof.
  intros Hsim. revert st st'.
  induction fuel as [|fuel IH]; intros st st' Hst; simpl; [done|].
  sim_intro. sim_auto.
Qed.

#[local] Hint Resolve listitem_loop_sim : sim.

Lemma parse_listitem_sim R ob ob' rndr rndr' data size flags :
  R ob ob' → md_sim cbs rndr rndr' → closed cbs R →
  wp2 (parse_listitem parse_inline parse_block ob rndr data size flags)
      (parse_listitem parse_inline parse_block ob' rndr' data size flags)
      (res_rel R cbs).
Proof. unfold parse_listitem. sim_auto. Qed.

#[local] Hint Resolve parse_listitem_sim : sim.

Lemma list_loop_sim R fuel work work' rndr rndr' data size i flags :
  R work work' → md_sim cbs rndr rndr' → closed cbs R →
  wp2 (list_loop parse_inline parse_block fuel work rndr data size i flags)
      (list_loop parse_inline parse_block fuel work' rndr' data size i flags)
      (res_rel R cbs).
Proof.
  intros HR Hsim Hc. revert work work' rndr rndr' i flags HR Hsim.
  induction fuel as [|fuel IH]; intros work work' rndr rndr' i flags HR Hsim; simpl;
    sim_auto.
Qed.

#[local] Hint Resolve list_loop_sim : sim.

Lemma parse_list_sim R ob ob' rndr rndr' data size flags :
  R ob ob' → md_sim cbs rndr rndr' → closed cbs R →
  wp2 (parse_list parse_inline parse_block ob rndr data size flags)
      (parse_list parse_inline parse_block ob' rndr' data size flags)
      (res_rel R cbs).
Proof. unfold parse_list. sim_auto. Qed.

Lemma parse_atxheader_sim R ob ob' rndr rndr' data size :
  R ob ob' → md_sim cbs rndr rndr' → closed cbs R →
  wp2 (parse_atxheader parse_inline ob rndr data size)
      (parse_atxheader parse_inline ob' rndr' data size) (res_rel R cbs).
Proof. unfold parse_atxheader. sim_auto. Qed.

#[local] Hint Resolve parse_list_sim parse_atxheader_sim : sim.

(** *** Tables *)

Lemma table_cells_loop_sim R fuel row_work row_work' rndr rndr' data size columns
    col_data header_flag i col :
  R row_work row_work' → md_sim cbs rndr rndr' → closed cbs R →
  wp2 (table_cells_loop parse_inline fuel row_work rndr data size columns col_data
         header_flag i col)
      (table_cells_loop parse_inline fuel row_work' rndr' data size columns col_data
         header_flag i col)
      (res_rel R cbs).
Proof.
  intros HR Hsim Hc. revert row_work row_work' rndr rndr' i col HR Hsim.
  induction fuel as [|fuel IH]; intros row_work row_work' rndr rndr' i col HR Hsim;
    simpl; sim_auto.
Qed.

Lemma table_empty_cells_sim R fuel row_work row_work' rndr rndr' col_data
    header_flag col :
  R row_work row_work' → md_sim cbs rndr rndr' → closed cbs R →
  wp2 (table_empty_cells fuel row_work rndr col_data header_flag col)
      (table_empty_cells fuel row_work' rndr' col_data header_flag col)
      (out_rel R cbs).
Proof.
  intros HR Hsim Hc. revert row_work row_work' rndr rndr' col HR Hsim.
  induction fuel as [|fuel IH]; intros row_work row_work' rndr rndr' col HR Hsim;
    simpl; sim_auto.
Qed.

#[local] Hint Resolve table_cells_loop_sim table_empty_cells_sim : sim.

Lemma parse_table_row_sim R ob ob' rndr rndr' data size columns col_data
    header_flag :
  R ob ob' → md_sim cbs rndr rndr' → closed cbs R →
  wp2 (parse_table_row parse_inline ob rndr data size columns col_data header_flag)
      (parse_table_row parse_inline ob' rndr' data size columns col_data header_flag)
      (out_rel R cbs).
Proof. unfold parse_table_row. sim_auto. Qed.

#[local] Hint Resolve parse_table_row_sim : sim.

Lemma parse_table_header_sim R ob ob' rndr rndr' data size :
  R ob ob' → md_sim cbs rndr rndr' → closed cbs R →
  wp2 (parse_table_header parse_inline ob rndr data size)
      (parse_table_header parse_inline ob' rndr' data size) (res_rel R cbs).
Proof. unfold parse_table_header. sim_auto. Qed.

Lemma table_rows_loop_sim R fuel body_work body_work' rndr rndr' data size columns
    col_data i :
  R body_work body_work' → md_sim cbs rndr rndr' → closed cbs R →
  wp2 (table_rows_loop parse_inline fuel body_work rndr data size columns col_data i)
      (table_rows_loop parse_inline fuel body_work' rndr' data size columns col_data i)
      (res_rel R cbs).
Proof.
  intros HR Hsim Hc. revert body_work body_work' rndr rndr' i HR Hsim.
  induction fuel as [|fuel IH]; intros body_work body_work' rndr rndr' i HR Hsim;
    simpl; sim_auto.
Qed.

#[local] Hint Resolve parse_table_header_sim table_rows_loop_sim : sim.

Lemma parse_table_sim R ob ob' rndr rndr' data size :
  R ob ob' → md_sim cbs rndr rndr' → closed cbs R →
  wp2 (parse_table parse_inline ob rndr data size)
      (parse_table parse_inline ob' rndr' data size) (res_rel R cbs).
Proof. unfold parse_table. sim_auto. Qed.

#[local] Hint Resolve parse_table_sim : sim.

(** *** parse_block *)

Lemma parse_one_block_sim R ob ob' rndr rndr' data size :
  R ob ob' → md_sim cbs rndr rndr' → closed cbs R →
  wp2 (parse_one_block parse_inline parse_block ob rndr data size)
      (parse_one_block parse_inline parse_block ob' rndr' data size) (res_rel R cbs).
Proof. unfold parse_one_block. sim_auto. Qed.

#[local] Hint Resolve parse_one_block_sim : sim.

Lemma parse_block_loop_sim R fuel ob ob' rndr rndr' data size beg :
  R ob ob' → md_sim cbs rndr rndr' → closed cbs R →
  wp2 (parse_block_loop parse_inline parse_block fuel ob rndr data size beg)
      (parse_block_loop parse_inline parse_block fuel ob' rndr' data size beg)
      (out_rel R cbs).
Proof.
  intros HR Hsim Hc. revert ob ob' rndr rndr' beg HR Hsim.
  induction fuel as [|fuel IH]; intros ob ob' rndr rndr' beg HR Hsim; simpl; sim_auto.
Qed.

#[local] Hint Resolve parse_block_loop_sim : sim.

Lemma parse_block_body_sim R ob ob' rndr rndr' data size :
  R ob ob' → md_sim cbs rndr rndr' → closed cbs R →
  wp2 (parse_block_body parse_inline parse_block ob rndr data size)
      (parse_block_body parse_inline parse_block ob' rndr' data size) (out_rel R cbs).
Proof. unfold parse_block_body. sim_auto. Qed.

End Sim.

Section Rerender.
Context {opaque_t : Type}.
Variable cbs : sd_callbacks opaque_t.
Hypothesis cbs_rerunnable : rerunnable cbs.
Implicit Types (md rndr : sd_markdown opaque_t) (ob : sd_buf)
  (R : sd_buf → sd_buf → Prop).

(** Every level of the recursion treats two runs alike. *)
Lemma parse_sim (fuel : nat) :
  (∀ R ob ob' rndr rndr' data size,
     R ob ob' → md_sim cbs rndr rndr' → closed cbs R →
     wp2 (parse_inline fuel ob rndr data size) (parse_inline fuel ob' rndr' data size)
         (out_rel R cbs))
  ∧ (∀ R ob ob' rndr rndr' data size,
       R ob ob' → md_sim cbs rndr rndr' → closed cbs R →
       wp2 (parse_block fuel ob rndr data size) (parse_block fuel ob' rndr' data size)
           (out_rel R cbs)).
Proof.
  induction fuel as [|fuel [IHi IHb]]; [by split|].
  split; intros R ob ob' rndr rndr' data size HR Hsim Hc; simpl.
  - by apply parse_inline_body_sim.
  - by apply parse_block_body_sim.
Qed.

Lemma refs_set_refs md references : refs (set_refs md references) = references.
Proof. done. Qed.

Lemma set_refs_set_refs md references references' :
  set_refs (set_refs md references) references' = set_refs md references'.
Proof. done. Qed.

#[local] Hint Resolve eq_closed run_void_sim closed_callbacks respect_doc_header
  respect_doc_footer : sim.

(** Two renders of a document from contexts that differ by their pools and
    by their tables of references, which the render begins by clearing,
    write the same output. *)
Lemma render_passes_sim ob document md md' :
  (∀ references,
     md_sim cbs (set_refs md references) (set_refs md' references)) →
  wp2 (render_passes ob document md) (render_passes ob document md') (out_rel eq cbs).
Proof.
  intros Hsim. unfold render_passes. cbv zeta.
  rewrite !refs_set_refs.
  apply wp2_bind.
  match goal with
  | |- wp2 ?m ?m _ => destruct m as [[err text]|]; [cbn [wp2]; sim_reduce|exact I]
  end.
  apply wp2_bind.
  match goal with
  | |- wp2 ?m ?m _ =>
      destruct m as [[text' references]|]; [cbn [wp2]; sim_reduce|exact I]
  end.
  rewrite !set_refs_set_refs.
  pose proof (Hsim references) as Hsim'.
  apply wp2_bind.
  match goal with
  | |- wp2 ?m ?m _ => destruct m as [[err' ob1]|]; [cbn [wp2]; sim_reduce|exact I]
  end.
  pose proof (λ fuel ob rndr rndr' data size Hs,
                proj2 (parse_sim fuel) eq ob ob rndr rndr' data size eq_refl Hs
                  (eq_closed cbs)) as Hblock.
  sim_auto.
Qed.

End Rerender.

(** *** The contexts of the library *)

Lemma stack_init_ok type initial_size : pool_ok type (stack_init initial_size).
Proof.
  unfold stack_init.
  set (n := if initial_size =? 0 then 8 else initial_size).
  assert (0 < n) as Hn by (subst n; destruct (Nat.eqb_spec initial_size 0); lia).
  clearbody n. unfold stack_grow. cbn [st_item length].
  destruct (Nat.leb_spec n 0) as [|_]; [lia|].
  split; cbn [st_item app].
  - rewrite length_replicate. lia.
  - intros i b Hi. apply lookup_replicate in Hi as [? _]. done.
Qed.

Lemma sd_markdown_new_ok {opaque_t : Type} extensions nesting callbacks
    (o : opaque_t) md :
  sd_markdown_new extensions nesting callbacks o = Some md →
  context_ok md ∧ cb md = callbacks ∧ opaque md = o.
Proof.
  unfold sd_markdown_new. destruct (nesting =? 0); [done|].
  intros [= <-]. split; [|done]. split; [done|].
  split; [apply stack_init_ok|]. split; [apply stack_init_ok|done].
Qed.

Lemma in_link_0 {opaque_t : Type} (md : sd_markdown opaque_t) :
  in_link md = 0 ↔ in_link_body md = 0%Z.
Proof.
  unfold in_link. destruct (Z.eqb_spec (in_link_body md) 0); split; done.
Qed.

(** [sd_markdown_render] leaves a context in order as it found it. *)
Lemma render_keeps_context {opaque_t : Type} ob document
    (md : sd_markdown opaque_t) ob1 md1 :
  rerunnable (cb md) → context_ok md →
  sd_markdown_render ob document md = Some (ob1, md1) →
  render_passes ob document md = Some (ob1, md1)
  ∧ context_ok md1 ∧ same_setup md md1.
Proof.
  intros Hcbs (Hidle & Hspan & Hblock & Hlink) Hrender.
  pose proof (sd_markdown_render_asserts _ _ _ _ _ Hrender) as Hidle1.
  unfold sd_markdown_render in Hrender.
  destruct (render_passes ob document md) as [[ob1' md1']|] eqn:Hpasses; [|done].
  simpl in Hrender.
  destruct (negb (st_size (work_bufs_span md1') =? 0)); [done|].
  destruct (negb (st_size (work_bufs_block md1') =? 0)); [done|].
  injection Hrender as -> ->. split; [done|].
  pose proof (render_passes_pools ob document md) as Hkept.
  rewrite Hpasses in Hkept. destruct Hkept as (_ & _ & Hin & Hsetup).
  simpl in Hin, Hsetup.
  assert (∀ references,
            md_sim (cb md) (set_refs md references) (set_refs md references)) as Hdiag
    by (by split).
  pose proof (render_passes_sim (cb md) Hcbs ob document md md Hdiag) as Hsim.
  rewrite Hpasses in Hsim. destruct Hsim as [_ Hsim]. simpl in Hsim.
  split; [|done]. split; [done|].
  split; [apply (sim_span_ok _ _ _ Hsim)|].
  split; [apply (sim_block_ok _ _ _ Hsim)|].
  apply in_link_0. apply in_link_0 in Hlink. lia.
Qed.


(** *** The tagging renderer can be run again *)

Lemma tagged_sim type open_ close ob ob' text :
  scratch_rel type ob ob' →
  wp2 (tagged open_ close ob text) (tagged open_ close ob' text) (scratch_rel type).
Proof.
  intros HR. unfold tagged.
  pose proof (sd_bufput_scratch_rel type) as Hput.
  sim_auto.
Qed.

Lemma tagging_rerunnable : rerunnable tagging_callbacks.
Proof.
  intros type.
  pose proof (sd_bufput_scratch_rel type) as Hput.
  pose proof (tagged_sim type) as Htagged.
  split; intros f Hf; simpl in Hf; try discriminate; injection Hf as <-; sim_auto.
Qed.



(** The empty document through [doc_header_callbacks]: the header is put
    into the output buffer. *)
Lemma render_doc_header (ob : sd_buf) (md : sd_markdown unit) :
  buf_unit ob ≠ 0%Z → (0 ≤ buf_asize ob)%Z → pools_idle md →
  cb md = doc_header_callbacks →
  sd_markdown_render ob [] md
  = ob' ← sd_bufput ob (bytes "<html>");
    Some (ob', set_opaque (set_refs (set_refs md (replicate REF_TABLE_SIZE []))
                             (replicate REF_TABLE_SIZE [])) (opaque md)).
Proof.
  intros Hu Ha [Hspan Hblock] Hcb. unfold span_size, block_size in *.
  unfold sd_markdown_render, render_passes. cbv zeta.
  change (sd_bufgrow (sd_bufnew 64) (Z.of_nat (length (@nil ascii))))
    with (Some (BUF_OK, sd_bufnew 64)).
  rewrite bind_Some. cbv beta iota. cbn [length Nat.leb andb first_pass Nat.ltb].
  rewrite bind_Some. cbv beta iota.
  assert (Hgrow : sd_bufgrow ob (MARKDOWN_GROW (buf_size (sd_bufnew 64)))
                  = Some (BUF_OK, ob)).
  { unfold sd_bufgrow. destruct (Z.eqb_spec (buf_unit ob) 0); [done|].
    change (MARKDOWN_GROW (buf_size (sd_bufnew 64))) with 0%Z.
    change (0 >? BUFFER_MAX_ALLOC_SIZE)%Z with false. cbv iota.
    by destruct (Z.geb_spec (buf_asize ob) 0); [|lia]. }
  rewrite Hgrow, bind_Some. cbv beta iota.
  cbn [cb set_refs]. rewrite Hcb. cbn [cb_doc_header cb_doc_footer doc_header_callbacks].
  unfold run_void.
  destruct (sd_bufput ob (bytes "<html>")) as [ob'|]; [|done].
  rewrite !bind_Some. cbv beta iota. cbn [buf_data sd_bufnew length Nat.eqb negb].
  rewrite bind_Some. cbv beta iota.
  cbn [cb set_opaque set_refs]. rewrite Hcb.
  cbn [cb_doc_footer doc_header_callbacks]. rewrite bind_Some. cbv beta iota.
  change (work_bufs_span (set_opaque _ _)) with (work_bufs_span md).
  change (work_bufs_block (set_opaque _ _)) with (work_bufs_block md).
  by rewrite Hspan, Hblock.
Qed.

(** The output buffer has to be the same in the two renders, and not only
    its contents: at the limit of 16 MiB what is appended depends on the
    capacity.  A buffer of unit 64 that is full at 16 MiB takes nothing
    more, while a buffer of unit 1000 with the same contents, whose capacity
    is the next multiple of its unit, takes the header. *)
Lemma render_output_capacity :
  let full := repeat "x"%char (Z.to_nat 16777216) in
  let ob := mk_buf full 16777216 64 in
  let ob' := mk_buf full 16778000 1000 in
  ∃ md md1 md2,
    sd_markdown_new 0 16 doc_header_callbacks tt = Some md
    ∧ sd_markdown_render ob [] md = Some (ob, md1)
    ∧ sd_markdown_render ob' [] md1 = Some (buf_append ob' (bytes "<html>"), md2)
    ∧ buf_data ob' = buf_data ob.
Proof.
  cbv zeta. generalize (repeat_length "x"%char (Z.to_nat 16777216)).
  generalize (repeat "x"%char (Z.to_nat 16777216)). intros l Hl.
  destruct (sd_markdown_new 0 16 doc_header_callbacks tt) as [md|] eqn:Hnew; [|done].
  destruct (sd_markdown_new_ok _ _ _ _ _ Hnew) as ((Hidle & _) & Hcb & _).
  assert (Hsz : ∀ a u, buf_size (mk_buf l a u) = 16777216%Z)
    by (intros; unfold buf_size; simpl; lia).
  eexists md, _, _. split; [done|].
  rewrite (render_doc_header (mk_buf l 16777216 64) md) by done.
  rewrite sd_bufput_refused;
    [|done|rewrite Hsz; simpl; lia|rewrite Hsz; unfold BUFFER_MAX_ALLOC_SIZE; simpl; lia].
  rewrite bind_Some. split; [reflexivity|].
  rewrite render_doc_header; [|done|done|done|done].
  rewrite sd_bufput_fits; [|done|rewrite Hsz; simpl; lia].
  rewrite bind_Some. split; [reflexivity|done].
Qed.

(** ** Scans *)

Lemma scan_fwd_spec fuel (p : nat → bool) i :
  let j := scan_fwd fuel p i in
  i ≤ j ∧ j ≤ i + fuel ∧ (∀ k, i ≤ k → k < j → p k = true)
  ∧ (j < i + fuel → p j = false).
Proof.
  revert i. induction fuel as [|fuel IH]; intros i; simpl.
  - repeat split; intros; lia.
  - destruct (p i) eqn:Hp.
    + destruct (IH (S i)) as (H1 & H2 & H3 & H4).
      repeat split; try lia.
      * intros k Hk1 Hk2. destruct (decide (k = i)) as [->|]; [done|].
        apply H3; lia.
      * intros. apply H4. lia.
    + repeat split; intros; try lia. done.
Qed.

Lemma while_lt_spec size (p : nat → bool) i :
  i ≤ size →
  let j := while_lt size p i in
  i ≤ j ∧ j ≤ size ∧ (∀ k, i ≤ k → k < j → p k = true)
  ∧ (j < size → p j = false).
Proof.
  intros Hi. unfold while_lt.
  destruct (scan_fwd_spec (size - i) (λ i, (i <? size) && p i) i)
    as (H1 & H2 & H3 & H4).
  cbv zeta. repeat split; try lia.
  - intros k Hk1 Hk2. specialize (H3 k Hk1 Hk2). simpl in H3.
    by apply andb_true_iff in H3 as [_ ?].
  - intros Hj. assert (Hlt : scan_fwd (size - i) (λ i, (i <? size) && p i) i < i + (size - i)) by lia.
    specialize (H4 Hlt). simpl in H4.
    apply andb_false_iff in H4 as [H4|H4]; [|done].
    apply Nat.ltb_ge in H4. lia.
Qed.

Lemma slice_Forall (P : ascii → Prop) data i j :
  i ≤ j → j ≤ length data →
  (∀ k, i ≤ k → k < j → P (byte_at data k)) →
  Forall P (slice data i (j - i)).
Proof.
  intros Hij Hj HP. apply Forall_forall. intros c Hc.
  apply list_elem_of_In in Hc. apply (In_nth _ _ NUL) in Hc.
  destruct Hc as (k & Hk & <-).
  rewrite slice_length in Hk by lia.
  change (nth k (slice data i (j - i)) NUL) with (byte_at (slice data i (j - i)) k).
  rewrite byte_at_slice by done. apply HP; lia.
Qed.

(** ** unscape_text *)

Lemma unescaped_app seg rest :
  Forall (λ c, c ≠ "\"%char) seg → unescaped (seg ++ rest) = seg ++ unescaped rest.
Proof.
  induction 1 as [|c seg Hc _ IH]; [done|]. simpl.
  destruct (Ascii.eqb_spec c "\"); [done|]. by rewrite IH.
Qed.

Lemma unscape_loop_spec fuel ob src i :
  length src - i ≤ fuel →
  (0 < buf_unit ob)%Z →
  (buf_size ob + Z.of_nat (length src - i) ≤ BUFFER_MAX_ALLOC_SIZE)%Z →
  ∃ ob', unscape_loop fuel ob src i = Some ob'
    ∧ buf_data ob' = buf_data ob ++ unescaped (skipn i src)
    ∧ buf_unit ob' = buf_unit ob.
Proof.
  revert ob i. induction fuel as [|fuel IH]; intros ob i Hfuel Hu Hroom; simpl.
  { exists ob. rewrite skipn_all2 by lia. by rewrite app_nil_r. }
  destruct (Nat.ltb_spec i (length src)) as [Hi|Hi]; cycle 1.
  { exists ob. rewrite skipn_all2 by lia. by rewrite app_nil_r. }
  destruct (while_lt_spec (length src)
              (λ i, negb (Ascii.eqb (byte_at src i) "\")) i) as (Hj1 & Hj2 & Hj3 & Hj4);
    [lia|].
  set (j := while_lt _ _ i) in *.
  assert (Hseg : Forall (λ c, c ≠ "\"%char) (slice src i (j - i))).
  { apply slice_Forall; [done..|]. intros k Hk1 Hk2. specialize (Hj3 k Hk1 Hk2).
    simpl in Hj3. by destruct (Ascii.eqb_spec (byte_at src k) "\"). }
  rewrite (slice_skipn src i j) by done. rewrite unescaped_app by done.
  assert (Hput : ∃ ob1, (if i <? j then sd_bufput ob (slice src i (j - i)) else Some ob)
                        = Some ob1
                        ∧ buf_data ob1 = buf_data ob ++ slice src i (j - i)
                        ∧ buf_unit ob1 = buf_unit ob).
  { destruct (Nat.ltb_spec i j).
    - apply sd_bufput_within_cap; [done|]. rewrite slice_length by lia. lia.
    - exists ob. replace (j - i) with 0 by lia. unfold slice. simpl.
      by rewrite app_nil_r. }
  destruct Hput as (ob1 & -> & Hd1 & Hu1). simpl.
  assert (Hsz1 : buf_size ob1 = (buf_size ob + Z.of_nat (j - i))%Z).
  { unfold buf_size. rewrite Hd1, length_app, slice_length by lia. lia. }
  destruct (Nat.leb_spec (length src) (j + 1)) as [Hend|Hmore].
  - exists ob1. split; [done|]. split; [|done]. rewrite Hd1.
    destruct (decide (j = length src)) as [->|Hne].
    + rewrite skipn_all2 by lia. simpl. by rewrite app_nil_r.
    + assert (Hjl : j < length src) by lia.
      rewrite (byte_at_skipn src j) by done.
      specialize (Hj4 Hjl). simpl in Hj4.
      destruct (Ascii.eqb_spec (byte_at src j) "\") as [->|]; [|done].
      rewrite skipn_all2 by lia. simpl. by rewrite app_nil_r.
  - assert (Hjl : j < length src) by lia.
    specialize (Hj4 Hjl). simpl in Hj4.
    destruct (Ascii.eqb_spec (byte_at src j) "\") as [Hbs|]; [|done].
    destruct (sd_bufputc_within_cap ob1 (byte_at src (j + 1))) as (ob2 & -> & Hd2 & Hu2);
      [lia|lia|]. simpl.
    destruct (IH ob2 (j + 2)) as (ob3 & -> & Hd3 & Hu3).
    + lia.
    + lia.
    + unfold buf_size in *. rewrite Hd2, length_app. simpl. lia.
    + exists ob3. split; [done|]. split; [|congruence].
      rewrite Hd3, Hd2, Hd1.
      rewrite (byte_at_skipn src j) by done. rewrite Hbs.
      replace (S j) with (j + 1) by lia.
      rewrite (byte_at_skipn src (j + 1)) by lia.
      replace (S (j + 1)) with (j + 2) by lia. simpl.
      by rewrite <- !app_assoc.
Qed.

(** X1.  [unscape_text] appends to [ob] the text without its backslash
    escapes: each backslash is dropped and the byte after it is kept as it
    is; a backslash that ends the text is dropped.  This holds whenever the
    text fits below the 16 MiB limit of the buffer. *)
Theorem unscape_text_spec ob src :
  (0 < buf_unit ob)%Z →
  (buf_size ob + Z.of_nat (length src) ≤ BUFFER_MAX_ALLOC_SIZE)%Z →
  ∃ ob', unscape_text ob src = Some ob'
    ∧ buf_data ob' = buf_data ob ++ unescaped src
    ∧ buf_unit ob' = buf_unit ob.
Proof.
  intros Hu Hroom. unfold unscape_text.
  destruct (unscape_loop_spec (length src) ob src 0) as (ob' & H & Hd & Hu');
    [lia|done|by rewrite Nat.sub_0_r|].
  exists ob'. by rewrite skipn_O in Hd.
Qed.

Lemma unscape_text_spec_witness :
  let ob := sd_bufnew 64 in
  let src := bytes "a\*b\\c\" in
  (0 < buf_unit ob)%Z
  ∧ (buf_size ob + Z.of_nat (length src) ≤ BUFFER_MAX_ALLOC_SIZE)%Z
  ∧ ∃ ob', unscape_text ob src = Some ob' ∧ buf_data ob' = bytes "a*b\c".
Proof.
  cbv zeta.
  assert (Hu : (0 < buf_unit (sd_bufnew 64))%Z) by done.
  assert (Hroom : (buf_size (sd_bufnew 64) + Z.of_nat (length (bytes "a\*b\\c\"))
                   ≤ BUFFER_MAX_ALLOC_SIZE)%Z) by (vm_compute; by intros [=]).
  split; [exact Hu|]. split; [exact Hroom|].
  destruct (unscape_text_spec (sd_bufnew 64) (bytes "a\*b\\c\") Hu Hroom)
    as (ob' & H & Hd & _).
  exists ob'. split; [exact H|exact Hd].
Defined.

(** ** Blank lines *)

Lemma is_empty_blank data size k :
  k ≤ size →
  (∀ j, j < k → rd data j = " "%char) →
  k = size ∨ rd data k = LF →
  is_empty data size = k + 1.
Proof.
  intros Hk Hsp Hend. unfold is_empty.
  destruct (while_lt_spec size
              (λ i, negb (Ascii.eqb (rd data i) LF) && Ascii.eqb (rd data i) " ") 0)
    as (_ & Hi2 & Hi3 & Hi4); [lia|].
  set (i := while_lt _ _ 0) in *.
  assert (Hik : i = k).
  { destruct (Nat.lt_trichotomy i k) as [Hlt|[->|Hgt]]; [|done|].
    - assert (i < size) by lia. specialize (Hi4 H). simpl in Hi4.
      rewrite (Hsp i Hlt) in Hi4. done.
    - specialize (Hi3 k ltac:(lia) Hgt). simpl in Hi3.
      destruct Hend as [->|Hlf]; [lia|]. rewrite Hlf in Hi3. done. }
  rewrite Hik. destruct Hend as [->|Hlf].
  - destruct (Nat.ltb_spec size size); [lia|done].
  - rewrite Hlf. simpl. by rewrite andb_false_r.
Qed.

Lemma is_empty_not_blank data size j :
  j < size →
  (∀ j', j' < j → rd data j' = " "%char) →
  rd data j ≠ " "%char → rd data j ≠ LF →
  is_empty data size = 0.
Proof.
  intros Hj Hsp Hns Hnl. unfold is_empty.
  destruct (while_lt_spec size
              (λ i, negb (Ascii.eqb (rd data i) LF) && Ascii.eqb (rd data i) " ") 0)
    as (_ & Hi2 & Hi3 & Hi4); [lia|].
  set (i := while_lt _ _ 0) in *.
  assert (Hij : i = j).
  { destruct (Nat.lt_trichotomy i j) as [Hlt|[->|Hgt]]; [|done|].
    - assert (i < size) by lia. specialize (Hi4 H). simpl in Hi4.
      rewrite (Hsp i Hlt) in Hi4. done.
    - specialize (Hi3 j ltac:(lia) Hgt). simpl in Hi3.
      apply andb_true_iff in Hi3 as [_ Hi3].
      by destruct (Ascii.eqb_spec (rd data j) " "). }
  rewrite Hij. destruct (Nat.ltb_spec j size); [|lia].
  by destruct (Ascii.eqb_spec (rd data j) LF).
Qed.

(** X2.  [is_empty] tells whether a line is blank and how long it is.  When
    the line is made of spaces up to its newline or to the end of the data,
    the result is the length of the line with its newline ([k + 1], also
    when the data end without a newline); when a byte other than a space
    comes first, the result is 0; and a result that is not 0 means that
    only spaces stand before the end of the line. *)
Theorem is_empty_spec data size :
  (∀ k, k ≤ size → (∀ j, j < k → rd data j = " "%char) →
        k = size ∨ rd data k = LF → is_empty data size = k + 1)
  ∧ (∀ j, j < size → (∀ j', j' < j → rd data j' = " "%char) →
        rd data j ≠ " "%char → rd data j ≠ LF → is_empty data size = 0)
  ∧ (is_empty data size ≠ 0 →
     ∀ j, j + 1 < is_empty data size → rd data j = " "%char).
Proof.
  split; [apply is_empty_blank|]. split; [apply is_empty_not_blank|].
  unfold is_empty.
  destruct (while_lt_spec size
              (λ i, negb (Ascii.eqb (rd data i) LF) && Ascii.eqb (rd data i) " ") 0)
    as (_ & Hi2 & Hi3 & Hi4); [lia|].
  set (i := while_lt _ _ 0) in *.
  destruct ((i <? size) && negb (Ascii.eqb (rd data i) LF)); [done|].
  intros _ j Hj. specialize (Hi3 j ltac:(lia) ltac:(lia)). simpl in Hi3.
  apply andb_true_iff in Hi3 as [_ Hi3].
  by destruct (Ascii.eqb_spec (rd data j) " ").
Qed.

(** ** The stack *)

Lemma stack_grow_items st new_size :
  st_size st ≤ length (st_item st) →
  let st' := stack_grow st new_size in
  st_size st' = st_size st
  ∧ length (st_item st') = Nat.max new_size (length (st_item st))
  ∧ ∀ i, i < length (st_item st) → st_item st' !! i = st_item st !! i.
Proof.
  intros Hok. unfold stack_grow.
  destruct (Nat.leb_spec new_size (length (st_item st))); simpl.
  - split_and!; [done|lia|done].
  - destruct (Nat.ltb_spec new_size (st_size st)); [lia|].
    split_and!; [done| |].
    + rewrite length_app, length_replicate. lia.
    + intros i Hi. by rewrite lookup_app_l.
Qed.

(** X3.  On a stack that [stack_init] has set up, [stack_push] succeeds,
    growing the array when it is full; the item pushed is the one that
    [stack_top] and [stack_pop] then return, [stack_pop] gives the size
    back as it was, and the items below are the same as before. *)
Theorem stack_push_pop st item :
  stack_ok st →
  ∃ st', stack_push st item = Some st'
    ∧ stack_ok st'
    ∧ st_size st' = S (st_size st)
    ∧ stack_top st' = Some item
    ∧ stack_pop st' = (Some item, mk_stack (st_item st') (st_size st))
    ∧ ∀ i, i < st_size st → st_item st' !! i = st_item st !! i.
Proof.
  intros [Hpos Hsize]. unfold stack_push.
  destruct (stack_grow_items st (st_size st * 2) Hsize) as (Hs & Hl & Hi).
  set (st1 := stack_grow st (st_size st * 2)) in *.
  assert (Hlt : st_size st1 < length (st_item st1)) by lia.
  destruct (Nat.ltb_spec (st_size st1) (length (st_item st1))); [|lia].
  eexists. split; [reflexivity|].
  unfold stack_ok, stack_top, stack_pop. simpl.
  rewrite length_insert, Hs, list_lookup_insert_eq by lia. simpl.
  split_and!; try done; try lia.
  intros i Hlti. rewrite list_lookup_insert_ne by lia. apply Hi. lia.
Qed.

Lemma stack_init_stack_ok initial_size : stack_ok (stack_init initial_size).
Proof.
  unfold stack_init, stack_grow, stack_ok. simpl.
  destruct (initial_size =? 0) eqn:E; simpl.
  - lia.
  - apply Nat.eqb_neq in E.
    destruct (Nat.leb_spec initial_size 0); [lia|]. simpl.
    rewrite length_replicate.
    destruct (Nat.ltb_spec initial_size 0); simpl; lia.
Qed.

Lemma stack_push_pop_witness :
  let st := stack_init 4 in
  let item := sd_bufnew 64 in
  stack_ok st
  ∧ ∃ st', stack_push st item = Some st'
      ∧ stack_top st' = Some item
      ∧ stack_pop st' = (Some item, mk_stack (st_item st') (st_size st)).
Proof.
  cbv zeta. pose proof (stack_init_stack_ok 4) as Hok. split; [exact Hok|].
  destruct (stack_push_pop (stack_init 4) (sd_bufnew 64) Hok)
    as (st' & Hpush & _ & _ & Htop & Hpop & _).
  exists st'. exact (conj Hpush (conj Htop Hpop)).
Defined.

(** ** sd_bufprefix *)

Lemma char_value_ascii c : nat_of_ascii c < 128 → char_value c = uint8_value c.
Proof.
  intros H. unfold char_value, uint8_value.
  destruct (Nat.leb_spec 128 (nat_of_ascii c)); [lia|done].
Qed.

Lemma uint8_value_inj c d : uint8_value c = uint8_value d → c = d.
Proof.
  unfold uint8_value. intros H. apply Nat2Z.inj in H.
  rewrite <- (ascii_nat_embedding c), <- (ascii_nat_embedding d). by rewrite H.
Qed.

Lemma uint8_value_NUL c : uint8_value c = 0%Z → c = NUL.
Proof. intros H. by apply uint8_value_inj. Qed.

Lemma byte_at_lookup (l : list ascii) i c : l !! i = Some c → byte_at l i = c.
Proof. intros H. unfold byte_at. by apply nth_lookup_Some with (d := NUL) in H. Qed.

Lemma byte_at_beyond (l : list ascii) i : length l ≤ i → byte_at l i = NUL.
Proof. intros H. unfold byte_at. by apply nth_overflow. Qed.

Lemma take_S_byte_at (l : list ascii) i :
  i < length l → take (S i) l = take i l ++ [byte_at l i].
Proof. apply firstn_snoc. Qed.

Lemma bufprefix_loop_spec fuel data pre i :
  Forall (λ c, c ≠ NUL ∧ nat_of_ascii c < 128) pre →
  length data - i ≤ fuel → i ≤ length data → i ≤ length pre →
  take i data = take i pre →
  bufprefix_loop fuel data pre i = 0%Z ↔ (pre `prefix_of` data ∨ data `prefix_of` pre).
Proof.
  intros Hpre. revert i. induction fuel as [|fuel IH]; intros i Hfuel Hid Hip Heq; simpl.
  { split; [intros _|done]. right. exists (drop i pre).
    rewrite <- (take_drop i pre) at 1. rewrite <- Heq. by rewrite take_ge by lia. }
  destruct (Nat.ltb_spec i (length data)) as [Hlt|Hge]; cycle 1.
  { split; [intros _|done]. right. exists (drop i pre).
    rewrite <- (take_drop i pre) at 1. rewrite <- Heq. by rewrite take_ge by lia. }
  destruct (decide (i = length pre)) as [->|Hne].
  { rewrite byte_at_beyond by lia. simpl. split; [intros _|done]. left.
    exists (drop (length pre) data). rewrite <- (take_drop (length pre) data) at 1.
    rewrite Heq. by rewrite take_ge by lia. }
  assert (Hlp : i < length pre) by lia.
  destruct (lookup_lt_is_Some_2 pre i Hlp) as [p Hp].
  pose proof (proj1 (Forall_lookup _ _) Hpre i p Hp) as [Hnz Hascii].
  rewrite (byte_at_lookup pre i p Hp), (char_value_ascii p Hascii).
  destruct (Z.eqb_spec (uint8_value p) 0) as [Hz|_]; [by apply uint8_value_NUL in Hz|].
  destruct (lookup_lt_is_Some_2 data i Hlt) as [d Hd].
  rewrite (byte_at_lookup data i d Hd).
  destruct (Z.eqb_spec (uint8_value d) (uint8_value p)) as [Hdp|Hdp]; simpl.
  - apply uint8_value_inj in Hdp as ->. apply IH; [lia..|].
    rewrite (take_S_r data i p Hd), (take_S_r pre i p Hp). by rewrite Heq.
  - split; [lia|]. intros [[k Hk]|[k Hk]]; exfalso; apply Hdp; f_equal.
    + rewrite Hk in Hd. rewrite lookup_app_l in Hd by done. congruence.
    + rewrite Hk in Hp. rewrite lookup_app_l in Hp by done. congruence.
Qed.

(** X4.  [sd_bufprefix] compares a buffer with a C string of ASCII bytes.
    It returns 0 exactly when the string is a prefix of the contents of the
    buffer or the contents are a prefix of the string: a buffer shorter
    than the string also gives 0 when it agrees with the string as far as
    it goes. *)
Theorem sd_bufprefix_zero buf (p : string) :
  buf_unit buf ≠ 0%Z →
  Forall (λ c, c ≠ NUL ∧ nat_of_ascii c < 128) (bytes p) →
  ∃ r, sd_bufprefix buf p = Some r
    ∧ (r = 0%Z ↔ (bytes p `prefix_of` buf_data buf ∨ buf_data buf `prefix_of` bytes p)).
Proof.
  intros Hu Hp. unfold sd_bufprefix.
  destruct (Z.eqb_spec (buf_unit buf) 0); [done|].
  eexists. split; [reflexivity|]. unfold bufprefix.
  apply bufprefix_loop_spec; [done|lia|lia|lia|done].
Qed.

Lemma sd_bufprefix_zero_witness :
  let buf := mk_buf (bytes "htt") 64 64 in
  buf_unit buf ≠ 0%Z
  ∧ Forall (λ c, c ≠ NUL ∧ nat_of_ascii c < 128) (bytes "http://")
  ∧ sd_bufprefix buf "http://" = Some 0%Z
  ∧ buf_data buf `prefix_of` bytes "http://".
Proof.
  cbv zeta.
  assert (Hu : buf_unit (mk_buf (bytes "htt") 64 64) ≠ 0%Z) by done.
  assert (Hp : Forall (λ c, c ≠ NUL ∧ nat_of_ascii c < 128) (bytes "http://")).
  { repeat constructor; (done || (vm_compute; lia)). }
  split; [exact Hu|]. split; [exact Hp|].
  destruct (sd_bufprefix_zero (mk_buf (bytes "htt") 64 64) "http://" Hu Hp)
    as (r & Hr & Hzero).
  assert (Hpre : buf_data (mk_buf (bytes "htt") 64 64) `prefix_of` bytes "http://")
    by (by exists (bytes "p://")).
  split; [|exact Hpre].
  rewrite Hr. f_equal. apply Hzero. right. exact Hpre.
Defined.

(** ** Labels and letter case *)

Lemma tolower_idemp c : tolower (tolower c) = tolower c.
Proof. destruct c as [[] [] [] [] [] [] [] []]; reflexivity. Qed.

Lemma fingerprint_fold_tolower name hash :
  fold_left
    (λ hash b,
       ((Z.shiftl hash 6 + Z.shiftl hash 16 - hash
         + Z.of_nat (nat_of_ascii (tolower b))) mod 2 ^ 32)%Z)
    (map tolower name) hash
  = fold_left
    (λ hash b,
       ((Z.shiftl hash 6 + Z.shiftl hash 16 - hash
         + Z.of_nat (nat_of_ascii (tolower b))) mod 2 ^ 32)%Z)
    name hash.
Proof.
  revert hash. induction name as [|c name IH]; intros hash; [done|].
  simpl. rewrite tolower_idemp. apply IH.
Qed.

(** X5.  The reference table ignores the case of the letters of a label:
    a label and the same label in lower case have the same fingerprint, so
    that [find_link_ref] finds the same reference for both. *)
Theorem labels_ignore_case (references : list (list link_ref)) name :
  hash_link_ref (map tolower name) = hash_link_ref name
  ∧ find_link_ref references (map tolower name) = find_link_ref references name.
Proof.
  assert (H : hash_link_ref (map tolower name) = hash_link_ref name).
  { rewrite !hash_link_ref_fingerprint. apply fingerprint_fold_tolower. }
  split; [done|]. unfold find_link_ref. by rewrite H.
Qed.

(** ** The block tags *)

Lemma asso_values_case c :
  nth (nat_of_ascii c) asso_values 0
  = nth (nat_of_ascii (gperf_downcase c)) asso_values 0
  ∧ nth (nat_of_ascii c + 1) asso_values 0
    = nth (nat_of_ascii (gperf_downcase c) + 1) asso_values 0.
Proof. destruct c as [[] [] [] [] [] [] [] []]; split; reflexivity. Qed.

Lemma same_letter_downcase a : same_letter a (gperf_downcase a) = true.
Proof. destruct a as [[] [] [] [] [] [] [] []]; reflexivity. Qed.

Lemma same_letter_NUL a : same_letter a NUL = true → nth (nat_of_ascii a) asso_values 0 = 38.
Proof. destruct a as [[] [] [] [] [] [] [] []]; vm_compute; congruence. Qed.

Lemma downcase_NUL a : gperf_downcase a = NUL → a = NUL.
Proof. destruct a as [[] [] [] [] [] [] [] []]; vm_compute; congruence. Qed.

Lemma hash_block_tag_eq str len :
  hash_block_tag str len = tag_hash len (rd str 0) (rd str 1).
Proof. done. Qed.

Lemma tag_hash_case len c0 c1 :
  tag_hash len c0 c1 = tag_hash len (gperf_downcase c0) (gperf_downcase c1).
Proof.
  unfold tag_hash.
  destruct (asso_values_case c0) as [-> _], (asso_values_case c1) as [_ ->]. done.
Qed.

Lemma rd_c_str w i :
  rd (c_str w) i = byte_at (bytes w) i.
Proof.
  unfold rd, c_str; simpl. unfold byte_at.
  destruct (Nat.lt_ge_cases i (length (bytes w))).
  - by rewrite app_nth1.
  - rewrite app_nth2 by done. rewrite (nth_overflow (bytes w)) by done.
    destruct (i - length (bytes w)) as [|[|]]; done.
Qed.

Lemma wordlist_ok : forallb word_ok (seq 0 38) = true.
Proof. vm_compute. reflexivity. Qed.

Lemma wordlist_perfect key :
  key ≤ 37 →
  let w := nth key wordlist EmptyString in
  w ≠ EmptyString →
  1 ≤ String.length w ∧ String.length w ≤ 10
  ∧ tag_hash (String.length w) (rd (c_str w) 0) (rd (c_str w) 1) = key
  ∧ lower_word w.
Proof.
  intros Hkey w Hw.
  pose proof (proj1 (forallb_forall _ _) wordlist_ok key) as Hok.
  specialize (Hok ltac:(apply in_seq; lia)). unfold word_ok in Hok. fold w in Hok.
  apply orb_true_iff in Hok as [Hok|Hok].
  { by apply String.eqb_eq in Hok. }
  apply andb_true_iff in Hok as [Hok Hlow].
  apply andb_true_iff in Hok as [Hok Hhash].
  apply andb_true_iff in Hok as [H1 H10].
  apply Nat.leb_le in H1, H10. apply Nat.eqb_eq in Hhash.
  rewrite !rd_c_str. split_and!; [done..|].
  unfold lower_word. apply Forall_forall. intros c Hc.
  apply list_elem_of_In in Hc.
  pose proof (proj1 (forallb_forall _ _) Hlow c Hc) as Hcc.
  apply andb_true_iff in Hcc as [Hd Hnz]. apply Ascii.eqb_eq in Hd.
  split; [done|]. intros ->. done.
Qed.

Lemma lower_word_at w i :
  lower_word w → i < String.length w →
  gperf_downcase (byte_at (bytes w) i) = byte_at (bytes w) i
  ∧ byte_at (bytes w) i ≠ NUL.
Proof.
  intros Hw Hi. rewrite <- bytes_length in Hi.
  destruct (lookup_lt_is_Some_2 _ _ Hi) as [c Hc].
  rewrite (byte_at_lookup _ _ _ Hc).
  exact (proj1 (Forall_lookup _ _) Hw i c Hc).
Qed.

(** What a successful comparison by [gperf_case_strncmp] says. *)
Lemma gperf_case_strncmp_eq_true n s1 s2 :
  gperf_case_strncmp_eq s1 s2 n = true →
  ∃ k, k ≤ n
    ∧ (∀ i, i < k → gperf_downcase (rd s1 i) = gperf_downcase (rd s2 i)
                    ∧ gperf_downcase (rd s1 i) ≠ NUL)
    ∧ (k = n ∨ (gperf_downcase (rd s1 k) = NUL ∧ gperf_downcase (rd s2 k) = NUL)).
Proof.
  revert s1 s2. induction n as [|n IH]; intros s1 s2; simpl.
  { intros _. exists 0. split_and!; [lia| |by left]. intros; lia. }
  destruct (Ascii.eqb_spec (gperf_downcase (rd s1 0)) NUL) as [Hz|Hnz]; simpl.
  - intros H. apply Ascii.eqb_eq in H. exists 0. split_and!; [lia| |].
    + intros; lia.
    + right. split; [done|]. by rewrite <- H.
  - destruct (Ascii.eqb_spec (gperf_downcase (rd s1 0)) (gperf_downcase (rd s2 0)))
      as [He|Hne]; [|done].
    intros H. destruct (IH _ _ H) as (k & Hk & Hpre & Hend).
    assert (Hrd : ∀ s i, rd (shift s 1) i = rd s (S i)).
    { intros s i. unfold rd, shift. simpl. f_equal. lia. }
    exists (S k). split_and!; [lia| |].
    + intros [|i] Hi; [done|]. rewrite <- !Hrd. apply Hpre. lia.
    + destruct Hend as [->|Hend]; [by left|right]. by rewrite <- !Hrd.
Qed.

Lemma gperf_case_strncmp_eq_intro n s1 s2 :
  (∀ i, i < n → gperf_downcase (rd s1 i) = gperf_downcase (rd s2 i)
                ∧ gperf_downcase (rd s1 i) ≠ NUL) →
  gperf_case_strncmp_eq s1 s2 n = true.
Proof.
  revert s1 s2. induction n as [|n IH]; intros s1 s2 H; simpl; [done|].
  destruct (H 0 ltac:(lia)) as [He Hnz].
  destruct (Ascii.eqb_spec (gperf_downcase (rd s1 0)) NUL); [done|]. simpl.
  rewrite He, Ascii.eqb_refl. apply IH. intros i Hi.
  assert (Hrd : ∀ s i, rd (shift s 1) i = rd s (S i)).
  { intros s j. unfold rd, shift. simpl. f_equal. lia. }
  rewrite !Hrd. apply H. lia.
Qed.

Lemma tag_hash_longer len len' c0 c1 :
  2 ≤ len → 2 ≤ len' →
  tag_hash len c0 c1 + len' = tag_hash len' c0 c1 + len.
Proof.
  intros H1 H2. unfold tag_hash.
  destruct len as [|[|len]]; [lia..|]. destruct len' as [|[|len']]; [lia..|]. lia.
Qed.

Lemma view_downcase str len (w : list ascii) :
  length w = len →
  (∀ i, i < len → gperf_downcase (rd str i) = byte_at w i ∧ byte_at w i ≠ NUL) →
  map tolower (view str len) = w.
Proof.
  intros Hlen H.
  assert (Hmem : len = 0 ∨ off str + len ≤ length (mem str)).
  { destruct len as [|len]; [by left|right].
    destruct (H len ltac:(lia)) as [He Hnz].
    destruct (Nat.le_gt_cases (off str + S len) (length (mem str))); [done|].
    exfalso. apply Hnz. rewrite <- He. unfold rd.
    rewrite byte_at_beyond by lia. done. }
  destruct Hmem as [->|Hmem].
  { destruct w; [|done]. unfold view, slice. done. }
  assert (Hvl : length (view str len) = len) by (by apply slice_length).
  apply (nth_ext _ _ NUL NUL).
  - rewrite length_map. lia.
  - intros i Hi. rewrite length_map, Hvl in Hi.
    change NUL with (tolower NUL) at 1. rewrite map_nth.
    change (nth i (view str len) NUL) with (byte_at (view str len) i).
    unfold view. rewrite byte_at_slice by done.
    apply (H i Hi).
Qed.

Lemma view_downcase_inv str len (w : list ascii) :
  Forall (λ c, gperf_downcase c = c ∧ c ≠ NUL) w →
  map tolower (view str len) = w → length w = len →
  ∀ i, i < len → gperf_downcase (rd str i) = byte_at w i ∧ byte_at w i ≠ NUL.
Proof.
  intros Hw Hmap Hlen i Hi.
  assert (Hvl : length (view str len) = len).
  { rewrite <- Hmap in Hlen. by rewrite length_map in Hlen. }
  assert (Hwi : byte_at w i = tolower (byte_at (view str len) i)).
  { rewrite <- Hmap. unfold byte_at. change NUL with (tolower NUL) at 1.
    by rewrite map_nth. }
  assert (Hnz : byte_at w i ≠ NUL).
  { rewrite <- Hlen in Hi. destruct (lookup_lt_is_Some_2 _ _ Hi) as [c Hc].
    rewrite (byte_at_lookup _ _ _ Hc).
    exact (proj2 (proj1 (Forall_lookup _ _) Hw i c Hc)). }
  split; [|done]. rewrite Hwi. unfold view. by rewrite byte_at_slice.
Qed.

Lemma In_block_tags w :
  In w block_tags ↔ w ≠ EmptyString ∧ ∃ key, key ≤ 37 ∧ nth key wordlist EmptyString = w.
Proof.
  unfold block_tags. rewrite filter_In. split.
  - intros [Hin Hne]. split.
    + intros ->. done.
    + apply (In_nth _ _ EmptyString) in Hin as (key & Hkey & <-).
      exists key. split; [|done]. change (length wordlist) with 38 in Hkey. lia.
  - intros [Hne (key & Hkey & <-)]. split.
    + apply nth_In. change (length wordlist) with 38. lia.
    + destruct (nth key wordlist EmptyString); done.
Qed.

Lemma find_block_tag_eq str len :
  find_block_tag str len
  = if (len <=? 10) && (1 <=? len) then
      if tag_hash len (rd str 0) (rd str 1) <=? 37 then
        let s := nth (tag_hash len (rd str 0) (rd str 1)) wordlist EmptyString in
        if same_letter (rd str 0) (rd (c_str s) 0)
           && gperf_case_strncmp_eq str (c_str s) len
           && Ascii.eqb (rd (c_str s) len) NUL
        then Some s else None
      else None
    else None.
Proof. reflexivity. Qed.

(** X6.  [find_block_tag] is a lookup without false hits or misses: it
    returns a name exactly when the [len] bytes at [str] are, letter case
    apart, one of the names of the block tags, and the name it returns is
    that one. *)
Theorem find_block_tag_spec str len w :
  find_block_tag str len = Some w
  ↔ In w block_tags ∧ String.length w = len ∧ map tolower (view str len) = bytes w.
Proof.
  rewrite In_block_tags. split.
  - rewrite find_block_tag_eq.
    destruct (Nat.leb_spec len 10) as [Hl10|]; [|done].
    destruct (Nat.leb_spec 1 len) as [Hl1|]; [|done]. cbn [andb].
    destruct (Nat.leb_spec (tag_hash len (rd str 0) (rd str 1)) 37) as [Hkey|]; [|done].
    cbv zeta. set (key := tag_hash len (rd str 0) (rd str 1)) in *.
    set (w0 := nth key wordlist EmptyString).
    destruct (same_letter _ _) eqn:Hfirst; [|done].
    destruct (gperf_case_strncmp_eq _ _ _) eqn:Hcmp; [|done].
    destruct (Ascii.eqb_spec (rd (c_str w0) len) NUL) as [Hterm|]; [|done].
    cbn [andb]. intros [= Hw]. subst w. rename w0 into w.
    assert (Hne : w ≠ EmptyString).
    { intros Hw. rewrite Hw in Hfirst. change (rd (c_str EmptyString) 0) with NUL in Hfirst.
      apply same_letter_NUL in Hfirst. subst key. unfold tag_hash in Hkey.
      destruct len as [|[|len]]; lia. }
    split; [split; [done|by exists key]|].
    destruct (wordlist_perfect key Hkey Hne) as (Hw1 & Hw10 & Hhash & Hlow).
    fold w in Hw1, Hw10, Hhash, Hlow.
    rewrite !rd_c_str in Hhash. rewrite rd_c_str in Hterm.
    assert (Hge : String.length w ≤ len).
    { destruct (Nat.le_gt_cases (String.length w) len); [done|].
      by destruct (lower_word_at w len Hlow). }
    destruct (gperf_case_strncmp_eq_true _ _ _ Hcmp) as (k & Hk & Hpre & Hend).
    assert (Hkw : k ≤ String.length w).
    { destruct (Nat.le_gt_cases k (String.length w)) as [|Hgt]; [done|].
      destruct (Hpre (String.length w) Hgt) as [He Hnz].
      rewrite rd_c_str, byte_at_beyond in He by (rewrite bytes_length; lia).
      done. }
    assert (Hpre' : ∀ i, i < k → gperf_downcase (rd str i) = byte_at (bytes w) i
                                 ∧ byte_at (bytes w) i ≠ NUL).
    { intros i Hi. destruct (Hpre i Hi) as [He _]. rewrite rd_c_str in He.
      destruct (lower_word_at w i Hlow ltac:(lia)) as [Hd Hnz].
      rewrite Hd in He. done. }
    assert (Hlen : String.length w = len).
    { destruct Hend as [->|[_ Hz]]; [lia|].
      rewrite rd_c_str in Hz. apply downcase_NUL in Hz.
      assert (Hkeq : k = String.length w).
      { destruct (Nat.lt_ge_cases k (String.length w)); [|lia].
        by destruct (lower_word_at w k Hlow). }
      subst k. destruct (Nat.eq_dec (String.length w) len) as [|Hneq]; [done|].
      exfalso. assert (Hlt : String.length w < len) by lia.
      unfold key in Hhash. rewrite tag_hash_case in Hhash.
      rewrite (tag_hash_case len) in Hhash.
      destruct (Hpre' 0 ltac:(lia)) as [H0 _].
      destruct (lower_word_at w 0 Hlow ltac:(lia)) as [Hd0 _].
      rewrite Hd0, <- H0 in Hhash.
      destruct (Nat.eq_dec (String.length w) 1) as [H1|H1].
      - rewrite H1 in Hhash. unfold tag_hash in Hhash.
        destruct len as [|[|len]]; lia.
      - destruct (Hpre' 1 ltac:(lia)) as [H1' _].
        destruct (lower_word_at w 1 Hlow ltac:(lia)) as [Hd1 _].
        rewrite Hd1, <- H1' in Hhash.
        pose proof (tag_hash_longer (String.length w) len
                      (gperf_downcase (rd str 0)) (gperf_downcase (rd str 1))
                      ltac:(lia) ltac:(lia)).
        lia. }
    split; [done|].
    apply view_downcase; [by rewrite bytes_length|].
    intros i Hi. apply Hpre'.
    destruct Hend as [->|[_ Hz]]; [done|].
    rewrite rd_c_str in Hz. apply downcase_NUL in Hz.
    destruct (Nat.lt_ge_cases k (String.length w)); [|lia].
    by destruct (lower_word_at w k Hlow).
  - intros ((Hne & key & Hkey & Hnth) & Hlen & Hmap).
    destruct (wordlist_perfect key Hkey) as (Hw1 & Hw10 & Hhash & Hlow);
      [by rewrite Hnth|].
    rewrite Hnth in Hw1, Hw10, Hhash, Hlow. rewrite !rd_c_str in Hhash.
    pose proof (view_downcase_inv str len (bytes w) Hlow Hmap
                  ltac:(by rewrite bytes_length)) as Hpre.
    rewrite find_block_tag_eq.
    destruct (Nat.leb_spec len 10); [|lia].
    destruct (Nat.leb_spec 1 len); [|lia]. cbn [andb].
    assert (Hh : tag_hash len (rd str 0) (rd str 1) = key).
    { rewrite tag_hash_case.
      destruct (Hpre 0 ltac:(lia)) as [-> _].
      destruct (Nat.eq_dec len 1) as [->|].
      - by rewrite Hlen in Hhash.
      - destruct (Hpre 1 ltac:(lia)) as [-> _]. by rewrite <- Hlen. }
    rewrite Hh. destruct (Nat.leb_spec key 37); [|lia]. cbv zeta. rewrite Hnth.
    destruct (Hpre 0 ltac:(lia)) as [Hfirst _].
    rewrite rd_c_str, <- Hfirst, same_letter_downcase.
    rewrite gperf_case_strncmp_eq_intro; cycle 1.
    { intros i Hi. destruct (Hpre i Hi) as [He Hnz]. rewrite rd_c_str.
      destruct (lower_word_at w i Hlow ltac:(lia)) as [Hd _].
      rewrite Hd, He. done. }
    rewrite rd_c_str, byte_at_beyond by (rewrite bytes_length; lia). done.
Qed.

(** ** Appending to a buffer *)

Lemma sd_bufgrow_any buf neosz :
  (0 < buf_unit buf)%Z →
  ∃ err buf', sd_bufgrow buf neosz = Some (err, buf')
    ∧ buf_data buf' = buf_data buf ∧ buf_unit buf' = buf_unit buf.
Proof.
  intros Hu. unfold sd_bufgrow.
  destruct (Z.eqb_spec (buf_unit buf) 0); [lia|].
  destruct (neosz >? BUFFER_MAX_ALLOC_SIZE)%Z; [by eexists _, _|].
  destruct (buf_asize buf >=? neosz)%Z; by eexists _, _.
Qed.

Lemma appended_refl P ob : appended P ob ob.
Proof. split; [done|]. exists []. by rewrite app_nil_r. Qed.

Lemma appended_trans P ob1 ob2 ob3 :
  appended P ob1 ob2 → appended P ob2 ob3 → appended P ob1 ob3.
Proof.
  intros [Hu1 (o1 & Hd1 & Hp1)] [Hu2 (o2 & Hd2 & Hp2)]. split; [congruence|].
  exists (o1 ++ o2). split.
  - by rewrite Hd2, Hd1, app_assoc.
  - by apply Forall_app.
Qed.

Lemma sd_bufgrow_appended P buf neosz :
  (0 < buf_unit buf)%Z →
  ∃ err buf', sd_bufgrow buf neosz = Some (err, buf') ∧ appended P buf buf'.
Proof.
  intros Hu. destruct (sd_bufgrow_any buf neosz Hu) as (err & buf' & -> & Hd & Hu').
  exists err, buf'. split; [done|]. split; [done|]. exists [].
  by rewrite app_nil_r.
Qed.

Lemma sd_bufput_appended P buf src :
  (0 < buf_unit buf)%Z → Forall P src →
  ∃ buf', sd_bufput buf src = Some buf' ∧ appended P buf buf'.
Proof.
  intros Hu Hsrc. unfold sd_bufput.
  destruct (Z.eqb_spec (buf_unit buf) 0); [lia|].
  destruct (_ >? _)%Z.
  - destruct (sd_bufgrow_any buf (buf_size buf + Z.of_nat (length src)) Hu)
      as (err & buf' & -> & Hd & Hu').
    simpl. destruct (_ <? _)%Z.
    + exists buf. split; [done|]. apply appended_refl.
    + eexists. split; [done|]. split; [done|]. exists src. simpl. by rewrite Hd.
  - eexists. split; [done|]. split; [done|]. by exists src.
Qed.

Lemma sd_bufputc_appended P buf c :
  (0 < buf_unit buf)%Z → P c →
  ∃ buf', sd_bufputc buf c = Some buf' ∧ appended P buf buf'.
Proof.
  intros Hu Hc. unfold sd_bufputc.
  destruct (Z.eqb_spec (buf_unit buf) 0); [lia|].
  destruct (_ >? _)%Z.
  - destruct (sd_bufgrow_any buf (buf_size buf + 1) Hu)
      as (err & buf' & -> & Hd & Hu').
    simpl. destruct (_ <? _)%Z.
    + exists buf. split; [done|]. apply appended_refl.
    + eexists. split; [done|]. split; [done|]. exists [c]. simpl. rewrite Hd.
      split; [done|]. by constructor.
  - eexists. split; [done|]. split; [done|]. exists [c]. split; [done|].
    by constructor.
Qed.

Lemma appended_unit P ob ob' :
  appended P ob ob' → (0 < buf_unit ob)%Z → (0 < buf_unit ob')%Z.
Proof. intros [-> _]. done. Qed.

(** ** houdini_escape_html0 *)

Lemma html_escape_code_0 secure c :
  html_escape_code c = 0 → html_escaped_byte secure c = [c].
Proof.
  destruct secure, c as [[] [] [] [] [] [] [] []]; vm_compute; congruence.
Qed.

Lemma html_escape_code_entity secure c :
  html_escape_code c ≠ 0 →
  (if Ascii.eqb c "/" && negb secure then ["/"%char]
   else bytes (nth (html_escape_code c) HTML_ESCAPES EmptyString))
  = html_escaped_byte secure c.
Proof.
  destruct secure, c as [[] [] [] [] [] [] [] []]; vm_compute; congruence.
Qed.

Lemma html_escaped_plain secure seg :
  Forall (λ c, html_escape_code c = 0) seg → html_escaped secure seg = seg.
Proof.
  induction 1 as [|c seg Hc _ IH]; [done|]. unfold html_escaped in *. simpl.
  rewrite html_escape_code_0 by done. simpl. by rewrite IH.
Qed.

Lemma html_escaped_app secure l1 l2 :
  html_escaped secure (l1 ++ l2) = html_escaped secure l1 ++ html_escaped secure l2.
Proof. unfold html_escaped. by rewrite flat_map_app. Qed.

Lemma escape_html_loop_S fuel ob src secure i :
  escape_html_loop (S fuel) ob src secure i
  = if i <? length src then
      let org := i in
      let i :=
        while_lt (length src) (λ i, html_escape_code (byte_at src i) =? 0) i in
      ob ← (if org <? i then sd_bufput ob (slice src org (i - org)) else Some ob);
      if length src <=? i then Some ob
      else
        let esc := html_escape_code (byte_at src i) in
        ob ←
          (if Ascii.eqb (byte_at src i) "/" && negb secure then sd_bufputc ob "/"
           else sd_bufputs ob (nth esc HTML_ESCAPES EmptyString));
        escape_html_loop fuel ob src secure (S i)
    else Some ob.
Proof. reflexivity. Qed.

Lemma escape_html_loop_spec fuel ob src secure i :
  length src - i ≤ fuel →
  (0 < buf_unit ob)%Z →
  (buf_size ob + Z.of_nat (length (html_escaped secure (skipn i src)))
   ≤ BUFFER_MAX_ALLOC_SIZE)%Z →
  ∃ ob', escape_html_loop fuel ob src secure i = Some ob'
    ∧ buf_data ob' = buf_data ob ++ html_escaped secure (skipn i src)
    ∧ buf_unit ob' = buf_unit ob.
Proof.
  revert ob i. induction fuel as [|fuel IH]; intros ob i Hfuel Hu Hroom.
  { exists ob. rewrite skipn_all2 by lia. by rewrite app_nil_r. }
  rewrite escape_html_loop_S. cbv zeta.
  destruct (Nat.ltb_spec i (length src)) as [Hi|Hi]; cycle 1.
  { exists ob. rewrite skipn_all2 by lia. by rewrite app_nil_r. }
  destruct (while_lt_spec (length src)
              (λ i, html_escape_code (byte_at src i) =? 0) i) as (Hj1 & Hj2 & Hj3 & Hj4);
    [lia|].
  set (j := while_lt _ _ i) in *.
  assert (Hseg : Forall (λ c, html_escape_code c = 0) (slice src i (j - i))).
  { apply slice_Forall; [done..|]. intros k Hk1 Hk2. specialize (Hj3 k Hk1 Hk2).
    simpl in Hj3. by apply Nat.eqb_eq in Hj3. }
  rewrite (slice_skipn src i j) in Hroom |- * by done.
  rewrite html_escaped_app, html_escaped_plain in Hroom |- * by done.
  rewrite length_app, slice_length in Hroom by lia.
  assert (Hput : ∃ ob1, (if i <? j then sd_bufput ob (slice src i (j - i)) else Some ob)
                        = Some ob1
                        ∧ buf_data ob1 = buf_data ob ++ slice src i (j - i)
                        ∧ buf_unit ob1 = buf_unit ob).
  { destruct (Nat.ltb_spec i j).
    - apply sd_bufput_within_cap; [done|]. rewrite slice_length by lia. lia.
    - exists ob. replace (j - i) with 0 by lia. unfold slice. simpl.
      by rewrite app_nil_r. }
  destruct Hput as (ob1 & -> & Hd1 & Hu1). rewrite bind_Some. cbv beta.
  assert (Hsz1 : buf_size ob1 = (buf_size ob + Z.of_nat (j - i))%Z).
  { unfold buf_size. rewrite Hd1, length_app, slice_length by lia. lia. }
  destruct (Nat.leb_spec (length src) j) as [Hend|Hmore].
  - exists ob1. split; [done|]. split; [|done]. rewrite Hd1.
    rewrite (skipn_all2 src) by lia. unfold html_escaped. simpl.
    by rewrite app_nil_r.
  - specialize (Hj4 Hmore). simpl in Hj4. apply Nat.eqb_neq in Hj4.
    rewrite (byte_at_skipn src j) in Hroom |- * by done.
    change (byte_at src j :: skipn (S j) src)
      with ([byte_at src j] ++ skipn (S j) src) in Hroom |- *.
    rewrite html_escaped_app in Hroom |- *.
    rewrite length_app in Hroom.
    assert (Hone : html_escaped secure [byte_at src j]
                   = html_escaped_byte secure (byte_at src j)).
    { unfold html_escaped. simpl. by rewrite app_nil_r. }
    rewrite Hone in Hroom |- *.
    assert (Hesc : ∃ ob2,
              (if Ascii.eqb (byte_at src j) "/" && negb secure then sd_bufputc ob1 "/"
               else sd_bufputs ob1 (nth (html_escape_code (byte_at src j))
                                        HTML_ESCAPES EmptyString))
              = Some ob2
              ∧ buf_data ob2 = buf_data ob1 ++ html_escaped_byte secure (byte_at src j)
              ∧ buf_unit ob2 = buf_unit ob1).
    { rewrite <- (html_escape_code_entity secure (byte_at src j)) in Hroom |- * by done.
      destruct (Ascii.eqb (byte_at src j) "/" && negb secure).
      - apply sd_bufputc_within_cap; [lia|]. simpl in Hroom. lia.
      - unfold sd_bufputs. apply sd_bufput_within_cap; [lia|]. lia. }
    destruct Hesc as (ob2 & -> & Hd2 & Hu2). rewrite bind_Some. cbv beta.
    destruct (IH ob2 (S j)) as (ob3 & -> & Hd3 & Hu3).
    + lia.
    + lia.
    + unfold buf_size in *. rewrite Hd2, length_app. lia.
    + exists ob3. split; [done|]. split; [|congruence].
      rewrite Hd3, Hd2, Hd1. by rewrite <- !app_assoc.
Qed.

Lemma escape_html0_appends ob src secure :
  (0 < buf_unit ob)%Z →
  (buf_size ob + Z.of_nat (length (html_escaped secure src)) ≤ BUFFER_MAX_ALLOC_SIZE)%Z →
  ∃ ob', houdini_escape_html0 ob src secure = Some ob'
    ∧ buf_data ob' = buf_data ob ++ html_escaped secure src
    ∧ buf_unit ob' = buf_unit ob.
Proof.
  intros Hu Hroom. unfold houdini_escape_html0.
  destruct (sd_bufgrow_any ob (ESCAPE_GROW_FACTOR (Z.of_nat (length src))) Hu)
    as (err & ob1 & -> & Hd1 & Hu1).
  simpl.
  destruct (escape_html_loop_spec (length src) ob1 src secure 0) as (ob2 & -> & Hd2 & Hu2).
  - lia.
  - lia.
  - unfold buf_size. rewrite Hd1. done.
  - exists ob2. split; [done|]. rewrite Hd2, Hd1, Hu2, Hu1. done.
Qed.

(** X7.  [houdini_escape_html0] appends the source with each of the bytes
    [&], [<], [>], the double quote and the apostrophe, and [/] when
    [secure] is set, replaced by its entity, and every other byte as it is.
    This holds whenever the escaped text fits below the 16 MiB limit of the
    buffer. *)
Theorem houdini_escape_html0_spec ob src secure :
  (0 < buf_unit ob)%Z →
  (buf_size ob + Z.of_nat (length (html_escaped secure src)) ≤ BUFFER_MAX_ALLOC_SIZE)%Z →
  ∃ ob', houdini_escape_html0 ob src secure = Some ob'
    ∧ buf_data ob' = buf_data ob ++ html_escaped secure src
    ∧ buf_unit ob' = buf_unit ob.
Proof. apply escape_html0_appends. Qed.

Lemma houdini_escape_html0_spec_witness :
  let ob := sd_bufnew 64 in
  let src := bytes "a<b>&c/" in
  (0 < buf_unit ob)%Z
  ∧ (buf_size ob + Z.of_nat (length (html_escaped false src))
     ≤ BUFFER_MAX_ALLOC_SIZE)%Z
  ∧ ∃ ob', houdini_escape_html0 ob src false = Some ob'
      ∧ buf_data ob' = bytes "a&lt;b&gt;&amp;c/".
Proof.
  cbv zeta.
  assert (Hu : (0 < buf_unit (sd_bufnew 64))%Z) by done.
  assert (Hroom : (buf_size (sd_bufnew 64)
                   + Z.of_nat (length (html_escaped false (bytes "a<b>&c/")))
                   ≤ BUFFER_MAX_ALLOC_SIZE)%Z) by (vm_compute; by intros [=]).
  split; [exact Hu|]. split; [exact Hroom|].
  destruct (houdini_escape_html0_spec (sd_bufnew 64) (bytes "a<b>&c/") false Hu Hroom)
    as (ob' & H & Hd & _).
  exists ob'. split; [exact H|exact Hd].
Defined.

Lemma html_inert_plain c : html_escape_code c = 0 → html_inert c.
Proof.
  destruct c as [[] [] [] [] [] [] [] []]; vm_compute; intros H;
    first [discriminate H | split_and!; discriminate].
Qed.

Lemma html_inert_entity c :
  Forall html_inert (bytes (nth (html_escape_code c) HTML_ESCAPES EmptyString)).
Proof.
  destruct c as [[] [] [] [] [] [] [] []]; vm_compute;
    repeat (constructor; [split_and!; discriminate|]); constructor.
Qed.

Lemma escape_html_loop_inert fuel ob src secure i :
  (0 < buf_unit ob)%Z →
  ∃ ob', escape_html_loop fuel ob src secure i = Some ob' ∧ appended html_inert ob ob'.
Proof.
  revert ob i. induction fuel as [|fuel IH]; intros ob i Hu.
  { exists ob. split; [done|]. apply appended_refl. }
  rewrite escape_html_loop_S. cbv zeta.
  destruct (Nat.ltb_spec i (length src)) as [Hi|Hi]; cycle 1.
  { exists ob. split; [done|]. apply appended_refl. }
  destruct (while_lt_spec (length src)
              (λ i, html_escape_code (byte_at src i) =? 0) i) as (Hj1 & Hj2 & Hj3 & Hj4);
    [lia|].
  set (j := while_lt _ _ i) in *.
  assert (Hseg : Forall html_inert (slice src i (j - i))).
  { apply slice_Forall; [done..|]. intros k Hk1 Hk2. specialize (Hj3 k Hk1 Hk2).
    simpl in Hj3. apply Nat.eqb_eq in Hj3. by apply html_inert_plain. }
  assert (Hput : ∃ ob1, (if i <? j then sd_bufput ob (slice src i (j - i)) else Some ob)
                        = Some ob1 ∧ appended html_inert ob ob1).
  { destruct (i <? j).
    - by apply sd_bufput_appended.
    - exists ob. split; [done|]. apply appended_refl. }
  destruct Hput as (ob1 & -> & Ha1). rewrite bind_Some. cbv beta.
  pose proof (appended_unit _ _ _ Ha1 Hu) as Hu1.
  destruct (length src <=? j).
  { by exists ob1. }
  assert (Hesc : ∃ ob2,
            (if Ascii.eqb (byte_at src j) "/" && negb secure then sd_bufputc ob1 "/"
             else sd_bufputs ob1 (nth (html_escape_code (byte_at src j))
                                      HTML_ESCAPES EmptyString))
            = Some ob2 ∧ appended html_inert ob1 ob2).
  { destruct (Ascii.eqb (byte_at src j) "/" && negb secure).
    - apply sd_bufputc_appended; [done|]. split_and!; discriminate.
    - unfold sd_bufputs. apply sd_bufput_appended; [done|]. apply html_inert_entity. }
  destruct Hesc as (ob2 & -> & Ha2). rewrite bind_Some. cbv beta.
  pose proof (appended_unit _ _ _ Ha2 Hu1) as Hu2.
  destruct (IH ob2 (S j) Hu2) as (ob3 & -> & Ha3).
  exists ob3. split; [done|]. eauto using appended_trans.
Qed.

(** X8.  Whatever the source and the room left in the buffer,
    [houdini_escape_html0] returns and appends none of the bytes [<], [>],
    double quote and apostrophe: escaped text cannot open or close a tag or
    an attribute value. *)
Theorem houdini_escape_html0_inert ob src secure :
  (0 < buf_unit ob)%Z →
  ∃ ob' out, houdini_escape_html0 ob src secure = Some ob'
    ∧ buf_data ob' = buf_data ob ++ out
    ∧ Forall (λ c, c ≠ "<"%char ∧ c ≠ ">"%char ∧ c ≠ DQUOTE ∧ c ≠ "'"%char) out.
Proof.
  intros Hu. unfold houdini_escape_html0.
  destruct (sd_bufgrow_appended html_inert ob
              (ESCAPE_GROW_FACTOR (Z.of_nat (length src))) Hu)
    as (err & ob1 & -> & Ha1).
  simpl. pose proof (appended_unit _ _ _ Ha1 Hu) as Hu1.
  destruct (escape_html_loop_inert (length src) ob1 src secure 0 Hu1) as (ob2 & -> & Ha2).
  destruct (appended_trans _ _ _ _ Ha1 Ha2) as [_ (out & Hd & Hout)].
  by exists ob2, out.
Qed.

Lemma houdini_escape_html0_inert_witness :
  let ob := sd_bufnew 64 in
  (0 < buf_unit ob)%Z
  ∧ ∃ ob' out, houdini_escape_html0 ob (bytes "<a href='x'>") true = Some ob'
      ∧ buf_data ob' = buf_data ob ++ out
      ∧ Forall (λ c, c ≠ "<"%char ∧ c ≠ ">"%char ∧ c ≠ DQUOTE ∧ c ≠ "'"%char) out.
Proof.
  cbv zeta. assert (Hu : (0 < buf_unit (sd_bufnew 64))%Z) by done.
  split; [exact Hu|].
  exact (houdini_escape_html0_inert (sd_bufnew 64) (bytes "<a href='x'>") true Hu).
Defined.

(** ** houdini_escape_href *)

Lemma href_safe_url_byte c : href_safe c = url_byte c.
Proof. destruct c as [[] [] [] [] [] [] [] []]; reflexivity. Qed.

Lemma href_escaped_unsafe c :
  href_safe c = false →
  (if Ascii.eqb c "&" then bytes "&amp;"
   else if Ascii.eqb c "'" then bytes "&#x27;"
   else hex_str c)
  = href_escaped_byte c.
Proof.
  destruct c as [[] [] [] [] [] [] [] []]; vm_compute; congruence.
Qed.

Lemma href_escaped_plain seg :
  Forall (λ c, href_safe c = true) seg → href_escaped seg = seg.
Proof.
  induction 1 as [|c seg Hc _ IH]; [done|]. unfold href_escaped in *. simpl.
  unfold href_escaped_byte at 1. rewrite <- href_safe_url_byte, Hc. simpl.
  by rewrite IH.
Qed.

Lemma href_escaped_app l1 l2 :
  href_escaped (l1 ++ l2) = href_escaped l1 ++ href_escaped l2.
Proof. unfold href_escaped. by rewrite flat_map_app. Qed.

Lemma escape_href_loop_S fuel ob src i :
  escape_href_loop (S fuel) ob src i
  = if i <? length src then
      let org := i in
      let i := while_lt (length src) (λ i, href_safe (byte_at src i)) i in
      ob ← (if org <? i then sd_bufput ob (slice src org (i - org)) else Some ob);
      if length src <=? i then Some ob
      else
        ob ←
          (if Ascii.eqb (byte_at src i) "&" then sd_bufput ob (bytes "&amp;")
           else if Ascii.eqb (byte_at src i) "'" then sd_bufput ob (bytes "&#x27;")
           else sd_bufput ob (hex_str (byte_at src i)));
        escape_href_loop fuel ob src (S i)
    else Some ob.
Proof. reflexivity. Qed.

Lemma escape_href_loop_spec fuel ob src i :
  length src - i ≤ fuel →
  (0 < buf_unit ob)%Z →
  (buf_size ob + Z.of_nat (length (href_escaped (skipn i src)))
   ≤ BUFFER_MAX_ALLOC_SIZE)%Z →
  ∃ ob', escape_href_loop fuel ob src i = Some ob'
    ∧ buf_data ob' = buf_data ob ++ href_escaped (skipn i src)
    ∧ buf_unit ob' = buf_unit ob.
Proof.
  revert ob i. induction fuel as [|fuel IH]; intros ob i Hfuel Hu Hroom.
  { exists ob. rewrite skipn_all2 by lia. by rewrite app_nil_r. }
  rewrite escape_href_loop_S. cbv zeta.
  destruct (Nat.ltb_spec i (length src)) as [Hi|Hi]; cycle 1.
  { exists ob. rewrite skipn_all2 by lia. by rewrite app_nil_r. }
  destruct (while_lt_spec (length src)
              (λ i, href_safe (byte_at src i)) i) as (Hj1 & Hj2 & Hj3 & Hj4);
    [lia|].
  set (j := while_lt _ _ i) in *.
  assert (Hseg : Forall (λ c, href_safe c = true) (slice src i (j - i))).
  { apply slice_Forall; [done..|]. intros k Hk1 Hk2. exact (Hj3 k Hk1 Hk2). }
  rewrite (slice_skipn src i j) in Hroom |- * by done.
  rewrite href_escaped_app, href_escaped_plain in Hroom |- * by done.
  rewrite length_app, slice_length in Hroom by lia.
  assert (Hput : ∃ ob1, (if i <? j then sd_bufput ob (slice src i (j - i)) else Some ob)
                        = Some ob1
                        ∧ buf_data ob1 = buf_data ob ++ slice src i (j - i)
                        ∧ buf_unit ob1 = buf_unit ob).
  { destruct (Nat.ltb_spec i j).
    - apply sd_bufput_within_cap; [done|]. rewrite slice_length by lia. lia.
    - exists ob. replace (j - i) with 0 by lia. unfold slice. simpl.
      by rewrite app_nil_r. }
  destruct Hput as (ob1 & -> & Hd1 & Hu1). rewrite bind_Some. cbv beta.
  assert (Hsz1 : buf_size ob1 = (buf_size ob + Z.of_nat (j - i))%Z).
  { unfold buf_size. rewrite Hd1, length_app, slice_length by lia. lia. }
  destruct (Nat.leb_spec (length src) j) as [Hend|Hmore].
  - exists ob1. split; [done|]. split; [|done]. rewrite Hd1.
    rewrite (skipn_all2 src) by lia. unfold href_escaped. simpl.
    by rewrite app_nil_r.
  - specialize (Hj4 Hmore). simpl in Hj4.
    rewrite (byte_at_skipn src j) in Hroom |- * by done.
    change (byte_at src j :: skipn (S j) src)
      with ([byte_at src j] ++ skipn (S j) src) in Hroom |- *.
    rewrite href_escaped_app in Hroom |- *.
    rewrite length_app in Hroom.
    assert (Hone : href_escaped [byte_at src j] = href_escaped_byte (byte_at src j)).
    { unfold href_escaped. simpl. by rewrite app_nil_r. }
    rewrite Hone in Hroom |- *.
    assert (Hesc : ∃ ob2,
              (if Ascii.eqb (byte_at src j) "&" then sd_bufput ob1 (bytes "&amp;")
               else if Ascii.eqb (byte_at src j) "'" then sd_bufput ob1 (bytes "&#x27;")
               else sd_bufput ob1 (hex_str (byte_at src j)))
              = Some ob2
              ∧ buf_data ob2 = buf_data ob1 ++ href_escaped_byte (byte_at src j)
              ∧ buf_unit ob2 = buf_unit ob1).
    { rewrite <- (href_escaped_unsafe (byte_at src j)) in Hroom |- * by done.
      destruct (Ascii.eqb (byte_at src j) "&");
        [|destruct (Ascii.eqb (byte_at src j) "'")];
        (apply sd_bufput_within_cap; [lia|]; lia). }
    destruct Hesc as (ob2 & -> & Hd2 & Hu2). rewrite bind_Some. cbv beta.
    destruct (IH ob2 (S j)) as (ob3 & -> & Hd3 & Hu3).
    + lia.
    + lia.
    + unfold buf_size in *. rewrite Hd2, length_app. lia.
    + exists ob3. split; [done|]. split; [|congruence].
      rewrite Hd3, Hd2, Hd1. by rewrite <- !app_assoc.
Qed.

(** X9.  [houdini_escape_href] appends the source with the bytes that a
    URL may hold kept as they are, [&] and the apostrophe replaced by
    [&amp;] and [&#x27;], and every other byte replaced by [%] and its two
    upper-case hexadecimal digits.  This holds whenever the escaped text
    fits below the 16 MiB limit of the buffer. *)
Theorem houdini_escape_href_spec ob src :
  (0 < buf_unit ob)%Z →
  (buf_size ob + Z.of_nat (length (href_escaped src)) ≤ BUFFER_MAX_ALLOC_SIZE)%Z →
  ∃ ob', houdini_escape_href ob src = Some ob'
    ∧ buf_data ob' = buf_data ob ++ href_escaped src
    ∧ buf_unit ob' = buf_unit ob.
Proof.
  intros Hu Hroom. unfold houdini_escape_href.
  destruct (sd_bufgrow_any ob (ESCAPE_GROW_FACTOR (Z.of_nat (length src))) Hu)
    as (err & ob1 & -> & Hd1 & Hu1).
  simpl.
  destruct (escape_href_loop_spec (length src) ob1 src 0) as (ob2 & -> & Hd2 & Hu2).
  - lia.
  - lia.
  - unfold buf_size. rewrite Hd1. done.
  - exists ob2. split; [done|]. rewrite Hd2, Hd1, Hu2, Hu1. done.
Qed.

Lemma houdini_escape_href_spec_witness :
  let ob := sd_bufnew 64 in
  let src := bytes "/a b?x=1&y='z'" in
  (0 < buf_unit ob)%Z
  ∧ (buf_size ob + Z.of_nat (length (href_escaped src)) ≤ BUFFER_MAX_ALLOC_SIZE)%Z
  ∧ ∃ ob', houdini_escape_href ob src = Some ob'
      ∧ buf_data ob' = bytes "/a%20b?x=1&amp;y=&#x27;z&#x27;".
Proof.
  cbv zeta.
  assert (Hu : (0 < buf_unit (sd_bufnew 64))%Z) by done.
  assert (Hroom : (buf_size (sd_bufnew 64)
                   + Z.of_nat (length (href_escaped (bytes "/a b?x=1&y='z'")))
                   ≤ BUFFER_MAX_ALLOC_SIZE)%Z) by (vm_compute; by intros [=]).
  split; [exact Hu|]. split; [exact Hroom|].
  destruct (houdini_escape_href_spec (sd_bufnew 64) (bytes "/a b?x=1&y='z'") Hu Hroom)
    as (ob' & H & Hd & _).
  exists ob'. split; [exact H|exact Hd].
Defined.

Lemma href_inert_escape c :
  Forall href_inert
    (if Ascii.eqb c "&" then bytes "&amp;"
     else if Ascii.eqb c "'" then bytes "&#x27;"
     else hex_str c).
Proof.
  assert (H : forallb (λ c, url_byte c || Ascii.eqb c "&")
                (if Ascii.eqb c "&" then bytes "&amp;"
                 else if Ascii.eqb c "'" then bytes "&#x27;"
                 else hex_str c) = true).
  { destruct c as [[] [] [] [] [] [] [] []]; vm_compute; reflexivity. }
  apply Forall_forall. intros b Hb. apply list_elem_of_In in Hb.
  pose proof (proj1 (forallb_forall _ _) H b Hb) as Hbb.
  apply orb_true_iff in Hbb as [Hbb|Hbb]; [by left|right].
  by apply Ascii.eqb_eq in Hbb.
Qed.

Lemma escape_href_loop_inert fuel ob src i :
  (0 < buf_unit ob)%Z →
  ∃ ob', escape_href_loop fuel ob src i = Some ob' ∧ appended href_inert ob ob'.
Proof.
  revert ob i. induction fuel as [|fuel IH]; intros ob i Hu.
  { exists ob. split; [done|]. apply appended_refl. }
  rewrite escape_href_loop_S. cbv zeta.
  destruct (Nat.ltb_spec i (length src)) as [Hi|Hi]; cycle 1.
  { exists ob. split; [done|]. apply appended_refl. }
  destruct (while_lt_spec (length src)
              (λ i, href_safe (byte_at src i)) i) as (Hj1 & Hj2 & Hj3 & Hj4);
    [lia|].
  set (j := while_lt _ _ i) in *.
  assert (Hseg : Forall href_inert (slice src i (j - i))).
  { apply slice_Forall; [done..|]. intros k Hk1 Hk2. specialize (Hj3 k Hk1 Hk2).
    simpl in Hj3. left. by rewrite <- href_safe_url_byte. }
  assert (Hput : ∃ ob1, (if i <? j then sd_bufput ob (slice src i (j - i)) else Some ob)
                        = Some ob1 ∧ appended href_inert ob ob1).
  { destruct (i <? j).
    - by apply sd_bufput_appended.
    - exists ob. split; [done|]. apply appended_refl. }
  destruct Hput as (ob1 & -> & Ha1). rewrite bind_Some. cbv beta.
  pose proof (appended_unit _ _ _ Ha1 Hu) as Hu1.
  destruct (length src <=? j).
  { by exists ob1. }
  assert (Hesc : ∃ ob2,
            (if Ascii.eqb (byte_at src j) "&" then sd_bufput ob1 (bytes "&amp;")
             else if Ascii.eqb (byte_at src j) "'" then sd_bufput ob1 (bytes "&#x27;")
             else sd_bufput ob1 (hex_str (byte_at src j)))
            = Some ob2 ∧ appended href_inert ob1 ob2).
  { pose proof (href_inert_escape (byte_at src j)) as Hin.
    destruct (Ascii.eqb (byte_at src j) "&");
      [|destruct (Ascii.eqb (byte_at src j) "'")];
      by apply sd_bufput_appended. }
  destruct Hesc as (ob2 & -> & Ha2). rewrite bind_Some. cbv beta.
  pose proof (appended_unit _ _ _ Ha2 Hu1) as Hu2.
  destruct (IH ob2 (S j) Hu2) as (ob3 & -> & Ha3).
  exists ob3. split; [done|]. eauto using appended_trans.
Qed.

(** X10.  Whatever the source and the room left in the buffer,
    [houdini_escape_href] returns and appends only bytes that a URL may
    hold and [&]: no space, quote, angle bracket or byte above 127 comes
    out of it. *)
Theorem houdini_escape_href_inert ob src :
  (0 < buf_unit ob)%Z →
  ∃ ob' out, houdini_escape_href ob src = Some ob'
    ∧ buf_data ob' = buf_data ob ++ out
    ∧ Forall (λ c, url_byte c = true ∨ c = "&"%char) out.
Proof.
  intros Hu. unfold houdini_escape_href.
  destruct (sd_bufgrow_appended href_inert ob
              (ESCAPE_GROW_FACTOR (Z.of_nat (length src))) Hu)
    as (err & ob1 & -> & Ha1).
  simpl. pose proof (appended_unit _ _ _ Ha1 Hu) as Hu1.
  destruct (escape_href_loop_inert (length src) ob1 src 0 Hu1) as (ob2 & -> & Ha2).
  destruct (appended_trans _ _ _ _ Ha1 Ha2) as [_ (out & Hd & Hout)].
  by exists ob2, out.
Qed.

Lemma houdini_escape_href_inert_witness :
  let ob := sd_bufnew 64 in
  (0 < buf_unit ob)%Z
  ∧ ∃ ob' out, houdini_escape_href ob (bytes "a b<c>") = Some ob'
      ∧ buf_data ob' = buf_data ob ++ out
      ∧ Forall (λ c, url_byte c = true ∨ c = "&"%char) out.
Proof.
  cbv zeta. assert (Hu : (0 < buf_unit (sd_bufnew 64))%Z) by done.
  split; [exact Hu|].
  exact (houdini_escape_href_inert (sd_bufnew 64) (bytes "a b<c>") Hu).
Defined.

(** ** sdhtml_is_tag *)

Lemma is_tag_loop_match fuel data name i k rest :
  ascii_text name →
  length (drop k name) + 1 ≤ fuel →
  drop i data = drop k name ++ rest → rest ≠ [] →
  is_tag_loop fuel data name i k = Some (i + length (drop k name)).
Proof.
  intros Hname. revert i k. induction fuel as [|fuel IH]; intros i k Hfuel Hd Hrest;
    [lia|]. simpl.
  assert (Hlen : length (drop i data) = length (drop k name) + length rest).
  { by rewrite Hd, length_app. }
  assert (0 < length rest) by (destruct rest; [done|simpl; lia]).
  rewrite length_drop in Hlen.
  destruct (Nat.ltb_spec i (length data)); [|lia].
  destruct (decide (length name ≤ k)) as [Hk|Hk].
  - rewrite byte_at_beyond by done. simpl. rewrite drop_ge by done. simpl.
    f_equal. lia.
  - assert (Hkl : k < length name) by lia.
    destruct (lookup_lt_is_Some_2 name k Hkl) as [p Hp].
    pose proof (proj1 (Forall_lookup _ _) Hname k p Hp) as [Hnz Hascii].
    rewrite (byte_at_lookup name k p Hp), (char_value_ascii p Hascii).
    destruct (Z.eqb_spec (uint8_value p) 0) as [Hz|_]; [by apply uint8_value_NUL in Hz|].
    rewrite (drop_S name p k Hp) in Hd, Hfuel |- *.
    assert (Hdi : data !! i = Some p).
    { rewrite <- (Nat.add_0_r i), <- lookup_drop, Hd. done. }
    rewrite (byte_at_lookup data i p Hdi), Z.eqb_refl. simpl.
    rewrite (IH (S i) (S k)).
    + f_equal. simpl. lia.
    + simpl in Hfuel. lia.
    + rewrite (drop_S data p i Hdi) in Hd. by injection Hd.
    + done.
Qed.

Lemma is_tag_loop_Some fuel data name i k i' :
  ascii_text name →
  length data - i ≤ fuel → i ≤ length data →
  is_tag_loop fuel data name i k = Some i' → i' < length data →
  i' = i + length (drop k name) ∧ drop i data = drop k name ++ drop i' data.
Proof.
  intros Hname. revert i k. induction fuel as [|fuel IH]; intros i k Hfuel Hi; simpl.
  { intros [= <-] ?. lia. }
  destruct (Nat.ltb_spec i (length data)) as [Hlt|]; [|intros [= <-] ?; lia].
  destruct (decide (length name ≤ k)) as [Hk|Hk].
  - rewrite byte_at_beyond by done. simpl. intros [= <-] _.
    rewrite drop_ge by done. simpl. split; [lia|done].
  - assert (Hkl : k < length name) by lia.
    destruct (lookup_lt_is_Some_2 name k Hkl) as [p Hp].
    pose proof (proj1 (Forall_lookup _ _) Hname k p Hp) as [Hnz Hascii].
    rewrite (byte_at_lookup name k p Hp), (char_value_ascii p Hascii).
    destruct (Z.eqb_spec (uint8_value p) 0) as [Hz|_]; [by apply uint8_value_NUL in Hz|].
    destruct (lookup_lt_is_Some_2 data i Hlt) as [d Hd].
    rewrite (byte_at_lookup data i d Hd).
    destruct (Z.eqb_spec (uint8_value d) (uint8_value p)) as [Hdp|]; [|done]. simpl.
    apply uint8_value_inj in Hdp as ->.
    intros Hloop Hi'. destruct (IH (S i) (S k) ltac:(lia) ltac:(lia) Hloop Hi') as [-> Hdrop].
    rewrite (drop_S name p k Hp), (drop_S data p i Hd). simpl. split; [lia|].
    by rewrite Hdrop.
Qed.

Lemma sdhtml_is_tag_eq tag_data tagname :
  sdhtml_is_tag tag_data tagname
  = if (length tag_data <? 3) || negb (Ascii.eqb (byte_at tag_data 0) "<")
    then HTML_TAG_NONE
    else
      let closed := Ascii.eqb (byte_at tag_data 1) "/" in
      let i := if closed then 2 else 1 in
      match is_tag_loop (length tag_data) tag_data (bytes tagname) i 0 with
      | None => HTML_TAG_NONE
      | Some i =>
          if i =? length tag_data then HTML_TAG_NONE
          else if isspace (byte_at tag_data i) || Ascii.eqb (byte_at tag_data i) ">"
          then (if closed then HTML_TAG_CLOSE else HTML_TAG_OPEN)
          else HTML_TAG_NONE
      end.
Proof. reflexivity. Qed.

Lemma is_tag_loop_le fuel data name i k i' :
  i ≤ length data → is_tag_loop fuel data name i k = Some i' → i' ≤ length data.
Proof.
  revert i k. induction fuel as [|fuel IH]; intros i k Hi; simpl.
  { by intros [= <-]. }
  destruct (Nat.ltb_spec i (length data)); [|by intros [= <-]].
  destruct (_ =? _)%Z; [intros [= <-]; lia|].
  destruct (negb _); [done|]. apply IH. lia.
Qed.

(** X11.  [sdhtml_is_tag] recognises a tag by its name, for a name of
    ASCII bytes: it answers HTML_TAG_CLOSE exactly for [</], the name and
    then a byte of white space or [>], and HTML_TAG_OPEN exactly for [<],
    the name and then a byte of white space or [>], when no slash follows
    the [<].  White space is what [isspace] accepts: the space, the
    tabulation, the newline, the vertical tabulation, the form feed and the
    carriage return.  The letters are compared as they are, with their
    case. *)
Theorem sdhtml_is_tag_spec data (name : string) :
  ascii_text (bytes name) →
  (sdhtml_is_tag data name = HTML_TAG_CLOSE ↔ tag_shape true name data)
  ∧ (sdhtml_is_tag data name = HTML_TAG_OPEN
     ↔ tag_shape false name data ∧ byte_at data 1 ≠ "/"%char).
Proof.
  intros Hname. rewrite sdhtml_is_tag_eq. cbv zeta. split.
  - split.
    + destruct (Nat.ltb_spec (length data) 3) as [|Hlen]; [done|].
      destruct (Ascii.eqb_spec (byte_at data 0) "<") as [H0|]; [|done]. simpl.
      destruct (Ascii.eqb_spec (byte_at data 1) "/") as [H1|]; cycle 1.
      { repeat case_match; done. }
      destruct (is_tag_loop _ _ _ 2 0) as [i'|] eqn:Hloop; [|done].
      assert (Hle : i' ≤ length data) by (eapply is_tag_loop_le; [|exact Hloop]; lia).
      destruct (Nat.eqb_spec i' (length data)); [done|].
      destruct (isspace (byte_at data i') || Ascii.eqb (byte_at data i') ">") eqn:Hend;
        [|done].
      intros _.
      destruct (is_tag_loop_Some (length data) data (bytes name) 2 0 i' Hname)
        as [Hi' Hdrop]; [lia|lia|done|lia|].
      split; [done|]. exists (byte_at data i'), (drop (S i') data). split.
      * rewrite <- (take_drop 2 data) at 1. rewrite Hdrop. simpl drop.
        rewrite (byte_at_skipn data i') by lia.
        destruct data as [|d0 [|d1 data]]; simpl in Hlen; [lia..|].
        simpl in H0, H1. unfold byte_at in H0, H1. simpl in H0, H1. subst. done.
      * apply orb_true_iff in Hend as [?|Hgt]; [by left|right].
        by apply Ascii.eqb_eq in Hgt.
    + intros [Hlen (c & rest & Hdata & Hc)]. cbn [app] in Hdata.
      assert (H0 : byte_at data 0 = "<"%char) by (by rewrite Hdata).
      assert (H1 : byte_at data 1 = "/"%char) by (by rewrite Hdata).
      assert (Hdrop : drop 2 data = drop 0 (bytes name) ++ c :: rest)
        by (by rewrite Hdata).
      assert (Hl : length data = 2 + length (bytes name) + S (length rest)).
      { rewrite Hdata. simpl. rewrite length_app. simpl. lia. }
      assert (Hc' : byte_at data (2 + length (bytes name)) = c).
      { rewrite Hdata. unfold byte_at. simpl.
        rewrite <- (Nat.add_0_r (length (bytes name))). by rewrite app_nth2_plus. }
      destruct (Nat.ltb_spec (length data) 3); [lia|].
      rewrite H0, H1, !Ascii.eqb_refl. cbn [negb orb].
      rewrite (is_tag_loop_match _ _ _ 2 0 (c :: rest) Hname);
        [|rewrite skipn_O; lia|done|done].
      rewrite skipn_O. destruct (Nat.eqb_spec (2 + length (bytes name)) (length data)); [lia|].
      rewrite Hc'. destruct Hc as [->| ->]; [done|]. by rewrite orb_true_r.
  - split.
    + destruct (Nat.ltb_spec (length data) 3) as [|Hlen]; [done|].
      destruct (Ascii.eqb_spec (byte_at data 0) "<") as [H0|]; [|done]. simpl.
      destruct (Ascii.eqb_spec (byte_at data 1) "/") as [H1|H1].
      { repeat case_match; done. }
      destruct (is_tag_loop _ _ _ 1 0) as [i'|] eqn:Hloop; [|done].
      assert (Hle : i' ≤ length data) by (eapply is_tag_loop_le; [|exact Hloop]; lia).
      destruct (Nat.eqb_spec i' (length data)); [done|].
      destruct (isspace (byte_at data i') || Ascii.eqb (byte_at data i') ">") eqn:Hend;
        [|done].
      intros _.
      destruct (is_tag_loop_Some (length data) data (bytes name) 1 0 i' Hname)
        as [Hi' Hdrop]; [lia|lia|done|lia|].
      split; [|done].
      split; [done|]. exists (byte_at data i'), (drop (S i') data). split.
      * rewrite <- (take_drop 1 data) at 1. rewrite Hdrop. simpl drop.
        rewrite (byte_at_skipn data i') by lia.
        destruct data as [|d0 data]; simpl in Hlen; [lia|].
        unfold byte_at in H0. simpl in H0. subst. done.
      * apply orb_true_iff in Hend as [?|Hgt]; [by left|right].
        by apply Ascii.eqb_eq in Hgt.
    + intros [[Hlen (c & rest & Hdata & Hc)] H1]. cbn [app] in Hdata.
      assert (H0 : byte_at data 0 = "<"%char) by (by rewrite Hdata).
      assert (Hdrop : drop 1 data = drop 0 (bytes name) ++ c :: rest)
        by (by rewrite Hdata).
      assert (Hl : length data = 1 + length (bytes name) + S (length rest)).
      { rewrite Hdata. simpl. rewrite length_app. simpl. lia. }
      assert (Hc' : byte_at data (1 + length (bytes name)) = c).
      { rewrite Hdata. unfold byte_at. simpl.
        rewrite <- (Nat.add_0_r (length (bytes name))). by rewrite app_nth2_plus. }
      destruct (Nat.ltb_spec (length data) 3); [lia|].
      rewrite H0, Ascii.eqb_refl. cbn [negb orb].
      destruct (Ascii.eqb_spec (byte_at data 1) "/"); [done|].
      rewrite (is_tag_loop_match _ _ _ 1 0 (c :: rest) Hname);
        [|rewrite skipn_O; lia|done|done].
      rewrite skipn_O. destruct (Nat.eqb_spec (1 + length (bytes name)) (length data)); [lia|].
      rewrite Hc'. destruct Hc as [->| ->]; [done|]. by rewrite orb_true_r.
Qed.

Lemma sdhtml_is_tag_spec_witness :
  ascii_text (bytes "style")
  ∧ sdhtml_is_tag (bytes "</style>") "style" = HTML_TAG_CLOSE
  ∧ tag_shape true "style" (bytes "</style>").
Proof.
  assert (Hname : ascii_text (bytes "style")).
  { repeat constructor; (done || (vm_compute; lia)). }
  split; [exact Hname|]. split; [reflexivity|].
  apply (proj1 (sdhtml_is_tag_spec (bytes "</style>") "style" Hname)). reflexivity.
Defined.

(** ** Tags and autolinks *)

Lemma while_lt_ge size (p : nat → bool) i : size ≤ i → while_lt size p i = i.
Proof. intros H. unfold while_lt. by replace (size - i) with 0 by lia. Qed.

Lemma is_mail_autolink_loop_spec fuel data size i nb :
  let r := is_mail_autolink_loop fuel data size i nb in
  r ≠ 0 → i < r ∧ r ≤ size ∧ rd data (r - 1) = ">"%char.
Proof.
  revert i nb. induction fuel as [|fuel IH]; intros i nb; simpl; [done|].
  destruct (Nat.ltb_spec i size) as [Hi|]; [|done].
  destruct (isalnum (rd data i)).
  { intros H. destruct (IH _ _ H) as (? & ? & ?). split_and!; [lia|done..]. }
  destruct (Ascii.eqb (rd data i) "@").
  { intros H. destruct (IH _ _ H) as (? & ? & ?). split_and!; [lia|done..]. }
  destruct (_ || _).
  { intros H. destruct (IH _ _ H) as (? & ? & ?). split_and!; [lia|done..]. }
  destruct (Ascii.eqb_spec (rd data i) ">") as [Hgt|]; [|done].
  destruct (nb =? 1); [|done]. intros _.
  replace (i + 1 - 1) with i by lia. split_and!; [lia|lia|done].
Qed.

Lemma tag_close_spec data size i :
  let i' := while_lt size (λ i, negb (Ascii.eqb (rd data i) ">")) i in
  i' < size → i ≤ i' ∧ rd data i' = ">"%char.
Proof.
  intros i' Hi'. subst i'.
  destruct (Nat.le_gt_cases i size) as [Hle|Hgt].
  - destruct (while_lt_spec size (λ i, negb (Ascii.eqb (rd data i) ">")) i Hle)
      as (H1 & _ & _ & H4).
    split; [done|]. specialize (H4 Hi'). simpl in H4.
    by destruct (Ascii.eqb_spec (rd data (while_lt size (λ i, negb (Ascii.eqb (rd data i) ">")) i)) ">").
  - rewrite while_lt_ge in Hi' by lia. lia.
Qed.

Ltac tag_trivial := cbv beta iota; split_and!; first [done | lia].

(** X12.  The length that [tag_length] returns for a tag or an autolink
    between angle brackets is within the data: it is at most [size], and
    when it is not 0 it is 3 at least, the data begin with [<] and the
    byte that ends the tag is [>].  An e-mail autolink is never reported
    with length 0. *)
Theorem tag_length_bounds data size :
  let '(n, autolink) := tag_length data size in
  n ≤ size
  ∧ (n ≠ 0 → 3 ≤ n ∧ rd data 0 = "<"%char ∧ rd data (n - 1) = ">"%char)
  ∧ (autolink = MKDA_EMAIL → n ≠ 0).
Proof.
  unfold tag_length.
  destruct (Nat.ltb_spec size 3) as [|Hsize]; [tag_trivial|].
  destruct (Ascii.eqb_spec (rd data 0) "<") as [H0|]; [|tag_trivial]. cbn [negb].
  set (i0 := if Ascii.eqb (rd data 1) "/" then 2 else 1).
  assert (Hi0 : 1 ≤ i0 ∧ i0 ≤ 2) by (subst i0; destruct (Ascii.eqb _ _); lia).
  destruct (isalnum (rd data i0)) eqn:Halnum; [|tag_trivial]. cbn [negb].
  destruct (while_lt_spec size
              (λ i, isalnum (rd data i) || Ascii.eqb (rd data i) "."
                    || Ascii.eqb (rd data i) "+" || Ascii.eqb (rd data i) "-") i0)
    as (Hi1 & Hi2 & Hi3 & Hi4); [lia|].
  set (i := while_lt size _ i0) in *.
  assert (Hi : 2 ≤ i).
  { destruct (Nat.eq_dec i i0) as [He|]; [|lia].
    assert (Hlt : i < size) by lia. specialize (Hi4 Hlt). simpl in Hi4.
    rewrite He, Halnum in Hi4. done. }
  assert (Hend : ∀ (k : nat) (a : mkd_autolink),
            let r := (let k' := while_lt size (λ i, negb (Ascii.eqb (rd data i) ">")) k in
                      if size <=? k' then (0, a) else (k' + 1, a)) in
            2 ≤ k →
            r.1 ≤ size
            ∧ (r.1 ≠ 0 → 3 ≤ r.1 ∧ rd data 0 = "<"%char ∧ rd data (r.1 - 1) = ">"%char)
            ∧ r.2 = a).
  { intros k a r Hk. subst r. cbv zeta.
    destruct (Nat.leb_spec size
                (while_lt size (λ i, negb (Ascii.eqb (rd data i) ">")) k)) as [|Hlt];
      simpl; [tag_trivial|].
    destruct (tag_close_spec data size k Hlt) as [Hle Hgt].
    split_and!; [lia| |done]. intros _.
    replace (_ + 1 - 1) with (while_lt size (λ i, negb (Ascii.eqb (rd data i) ">")) k)
      by lia.
    split_and!; [lia|done|done]. }
  set (j := if (1 <? i) && Ascii.eqb (rd data i) "@"
            then is_mail_autolink (shift data i) (size - i) else 0).
  destruct (Nat.eqb_spec j 0) as [Hj|Hj]; cbn [negb].
  - assert (Hfin : ∀ (k : nat) (a : mkd_autolink) (r : nat * mkd_autolink),
              2 ≤ k →
              r = (let k' := while_lt size (λ i, negb (Ascii.eqb (rd data i) ">")) k in
                   if size <=? k' then (0, a) else (k' + 1, a)) →
              a ≠ MKDA_EMAIL →
              let '(n, autolink) := r in
              n ≤ size
              ∧ (n ≠ 0 → 3 ≤ n ∧ rd data 0 = "<"%char ∧ rd data (n - 1) = ">"%char)
              ∧ (autolink = MKDA_EMAIL → n ≠ 0)).
    { intros k a r Hk -> Ha. destruct (Hend k a Hk) as (H1 & H2 & H3).
      cbv zeta in *. destruct (if size <=? _ then _ else _) as [n a'].
      simpl in *. subst a'. by split_and!. }
    destruct ((2 <? i) && Ascii.eqb (rd data i) ":") eqn:Hcolon; cbv zeta.
    + destruct (Nat.leb_spec size (S i)).
      { by apply (Hfin (S i) MKDA_NOT_AUTOLINK); [lia|done|]. }
      set (i2 := tag_scan size data size (S i)).
      destruct (Nat.leb_spec size i2); [tag_trivial|].
      destruct ((S i <? i2) && Ascii.eqb (rd data i2) ">") eqn:Hgt.
      * apply andb_true_iff in Hgt as [Hlt Hgt]. apply Nat.ltb_lt in Hlt.
        apply Ascii.eqb_eq in Hgt. replace (i2 + 1 - 1) with i2 by lia.
        split_and!; [lia| |done]. intros _.
        replace (i2 + 1 - 1) with i2 by lia. split_and!; [lia|done|done].
      * assert (Hscan : S i ≤ i2).
        { subst i2. clear. generalize (S i) as k. generalize size at 1 as fuel.
          induction fuel as [|fuel IH]; intros k; simpl; [lia|].
          destruct (k <? size); [|lia].
          destruct (Ascii.eqb (rd data k) "\").
          { specialize (IH (k + 2)). lia. }
          destruct (_ || _); [lia|]. specialize (IH (S k)). lia. }
        by apply (Hfin i2 MKDA_NOT_AUTOLINK); [lia|done|].
    + destruct (Nat.leb_spec size i).
      * by apply (Hfin i MKDA_NOT_AUTOLINK); [lia|done|].
      * by apply (Hfin i MKDA_NOT_AUTOLINK); [lia|done|].
  - subst j. destruct ((1 <? i) && Ascii.eqb (rd data i) "@"); [|done].
    unfold is_mail_autolink in *.
    destruct (is_mail_autolink_loop_spec (size - i) (shift data i) (size - i) 0 0 Hj)
      as (Hm1 & Hm2 & Hm3).
    set (m := is_mail_autolink_loop _ _ _ _ _) in *.
    split_and!; [lia| |lia]. intros _. split_and!; [lia|done|].
    unfold rd, shift in Hm3 |- *. simpl in Hm3. rewrite <- Hm3. f_equal. lia.
Qed.

(** ** The depth of the recursion *)

Lemma agree_bind {A B : Type} (m m' : option A) (k k' : A → option B) (Q : B → Prop) :
  agree m m' (λ a, agree (k a) (k' a) Q) → agree (m ≫= k) (m' ≫= k') Q.
Proof. intros [-> H]. destruct m as [a|]; [|done]. exact H. Qed.

Lemma agree_refl {A : Type} (m : option A) (Q : A → Prop) : wp m Q → agree m m Q.
Proof. by split. Qed.

Lemma agree_mono {A : Type} (m m' : option A) (P Q : A → Prop) :
  agree m m' P → (∀ a, P a → Q a) → agree m m' Q.
Proof. intros [-> H] HPQ. split; [done|]. by eapply wp_mono. Qed.

Create HintDb depth.

Ltac depth_guard :=
  unfold at_depth, restored, same_setup, span_size, block_size, in_link in *;
  simpl in *;
  repeat match goal with
         | H : _ ∧ _ |- _ => destruct H
         end;
  first [lia | congruence | split; first [lia | congruence]].

#[export] Hint Extern 1 (at_depth _ _ _) => depth_guard : depth.
#[export] Hint Extern 1 (max_nesting _ = _) => depth_guard : depth.
#[export] Hint Extern 1 (_ < _) => depth_guard : depth.

Ltac agree_step :=
  lazymatch goal with
  | |- agree (Some _) (Some _) _ => split; [reflexivity|cbn [wp]]
  | |- agree None None _ => split; [reflexivity|exact I]
  | |- agree (mbind _ _) (mbind _ _) _ => apply agree_bind
  | |- agree (if ?b then _ else _) (if ?b then _ else _) _ => destruct b eqn:?
  | |- agree (match ?x with _ => _ end) (match ?x with _ => _ end) _ =>
      destruct x eqn:?
  | |- agree ?m ?m _ => apply agree_refl; wp_call; wp_tuples
  | |- agree _ _ _ =>
      eapply agree_mono;
      [solve [eauto with depth] | cbv beta; intros; simpl in * |-]; wp_tuples
  end.

Ltac agree_auto :=
  cbv beta iota zeta; repeat (agree_step; cbv beta iota zeta); pools_done.

Section Depth.
Context {opaque_t : Type}.
Implicit Types (rndr : sd_markdown opaque_t) (ob : sd_buf).

#[local] Hint Resolve rndr_newbuf_pools rndr_popbuf_pools run_int_pools
  run_void_pools put_normal_text_pools char_codespan_pools char_entity_pools
  char_linebreak_pools char_escape_pools char_langle_tag_pools
  char_autolink_www_pools char_autolink_with_pools link_newbuf_pools
  parse_htmlblock_pools parse_fencedcode_pools
  parse_blockcode_pools table_empty_cells_pools : pools.
#[local] Hint Resolve wp_True | 20 : pools.

Variables limit depth : nat.
Variables parse_inline1 parse_block1 parse_inline2 parse_block2 :
  sd_buf → sd_markdown opaque_t → ptr → nat → option (sd_buf * sd_markdown opaque_t).
Hypothesis parse_inline_depth :
  ∀ ob rndr data size,
    max_nesting rndr = limit → depth < span_size rndr + block_size rndr →
    agree (parse_inline1 ob rndr data size) (parse_inline2 ob rndr data size)
      (λ r, restored rndr r.2).
Hypothesis parse_block_depth :
  ∀ ob rndr data size,
    max_nesting rndr = limit → depth < span_size rndr + block_size rndr →
    agree (parse_block1 ob rndr data size) (parse_block2 ob rndr data size)
      (λ r, restored rndr r.2).

(** [link_text_id] takes a buffer at most. *)
Lemma link_text_id_grows rndr held data txt_e text_has_nl :
  wp (link_text_id rndr held data txt_e text_has_nl)
     (λ r, span_size rndr ≤ span_size r.2 ∧ block_size r.2 = block_size rndr
           ∧ in_link r.2 = in_link rndr ∧ same_setup rndr r.2).
Proof. unfold link_text_id. wp_auto. Qed.

#[local] Hint Resolve link_text_id_grows : pools.

Lemma render_emph_depth cb_emph ob rndr data i n :
  at_depth limit depth rndr →
  agree (render_emph parse_inline1 cb_emph ob rndr data i n)
        (render_emph parse_inline2 cb_emph ob rndr data i n)
        (λ r, restored rndr r.2).
Proof. intros Hd. unfold render_emph. agree_auto. Qed.

#[local] Hint Resolve render_emph_depth : depth.

Lemma parse_emph1_loop_depth fuel cb_emph ob rndr data size c i :
  at_depth limit depth rndr →
  agree (parse_emph1_loop parse_inline1 fuel cb_emph ob rndr data size c i)
        (parse_emph1_loop parse_inline2 fuel cb_emph ob rndr data size c i)
        (λ r, restored rndr r.2).
Proof.
  intros Hd. revert i.
  induction fuel as [|fuel IH]; intros i; simpl; [by agree_auto|].
  agree_auto.
Qed.

#[local] Hint Resolve parse_emph1_loop_depth : depth.

Lemma parse_emph1_depth ob rndr data size c :
  at_depth limit depth rndr →
  agree (parse_emph1 parse_inline1 ob rndr data size c)
        (parse_emph1 parse_inline2 ob rndr data size c)
        (λ r, restored rndr r.2).
Proof. intros Hd. unfold parse_emph1. agree_auto. Qed.

Lemma parse_emph2_loop_depth fuel cb_emph ob rndr data size c i :
  at_depth limit depth rndr →
  agree (parse_emph2_loop parse_inline1 fuel cb_emph ob rndr data size c i)
        (parse_emph2_loop parse_inline2 fuel cb_emph ob rndr data size c i)
        (λ r, restored rndr r.2).
Proof.
  intros Hd. revert i.
  induction fuel as [|fuel IH]; intros i; simpl; [by agree_auto|].
  agree_auto.
Qed.

#[local] Hint Resolve parse_emph1_depth parse_emph2_loop_depth : depth.

Lemma parse_emph2_depth ob rndr data size c :
  at_depth limit depth rndr →
  agree (parse_emph2 parse_inline1 ob rndr data size c)
        (parse_emph2 parse_inline2 ob rndr data size c)
        (λ r, restored rndr r.2).
Proof. intros Hd. unfold parse_emph2. agree_auto. Qed.

#[local] Hint Resolve parse_emph2_depth : depth.

Lemma parse_emph3_loop_depth fuel ob rndr data size c i :
  at_depth limit depth rndr →
  agree (parse_emph3_loop parse_inline1 fuel ob rndr data size c i)
        (parse_emph3_loop parse_inline2 fuel ob rndr data size c i)
        (λ r, restored rndr r.2).
Proof.
  intros Hd. revert i.
  induction fuel as [|fuel IH]; intros i; simpl; [by agree_auto|].
  agree_auto.
Qed.

#[local] Hint Resolve parse_emph3_loop_depth : depth.

Lemma parse_emph3_depth ob rndr data size c :
  at_depth limit depth rndr →
  agree (parse_emph3 parse_inline1 ob rndr data size c)
        (parse_emph3 parse_inline2 ob rndr data size c)
        (λ r, restored rndr r.2).
Proof. intros Hd. unfold parse_emph3. agree_auto. Qed.

#[local] Hint Resolve parse_emph3_depth : depth.

Lemma char_emphasis_depth ob rndr data offset size :
  at_depth limit depth rndr →
  agree (char_emphasis parse_inline1 ob rndr data offset size)
        (char_emphasis parse_inline2 ob rndr data offset size)
        (λ r, restored rndr r.2).
Proof. intros Hd. unfold char_emphasis. agree_auto. Qed.

Lemma char_superscript_depth ob rndr data offset size :
  at_depth limit depth rndr →
  agree (char_superscript parse_inline1 ob rndr data offset size)
        (char_superscript parse_inline2 ob rndr data offset size)
        (λ r, restored rndr r.2).
Proof. intros Hd. unfold char_superscript. agree_auto. Qed.

#[local] Hint Resolve char_emphasis_depth char_superscript_depth : depth.

Lemma link_render_depth ob rndr data is_img org held txt_e i link title :
  at_depth limit depth rndr →
  agree (link_render parse_inline1 ob rndr data is_img org held txt_e i link title)
        (link_render parse_inline2 ob rndr data is_img org held txt_e i link title)
        (λ r, span_size r.2 = org ∧ block_size r.2 = block_size rndr ∧ in_link r.2 ≤ in_link rndr ∧ same_setup rndr r.2).
Proof. intros Hd. unfold link_render. agree_auto. Qed.

#[local] Hint Resolve link_render_depth : depth.

Lemma link_by_ref_depth ob rndr data is_img org held txt_e i id :
  at_depth limit depth rndr →
  agree (link_by_ref parse_inline1 ob rndr data is_img org held txt_e i id)
        (link_by_ref parse_inline2 ob rndr data is_img org held txt_e i id)
        (λ r, span_size r.2 = org ∧ block_size r.2 = block_size rndr ∧ in_link r.2 ≤ in_link rndr ∧ same_setup rndr r.2).
Proof. intros Hd. unfold link_by_ref. agree_auto. Qed.

#[local] Hint Resolve link_by_ref_depth : depth.

Lemma char_link_depth ob rndr data offset size :
  at_depth limit depth rndr →
  agree (char_link parse_inline1 ob rndr data offset size)
        (char_link parse_inline2 ob rndr data offset size)
        (λ r, restored rndr r.2).
Proof. intros Hd. unfold char_link. agree_auto. Qed.

#[local] Hint Resolve char_link_depth : depth.

Lemma char_trigger_depth action ob rndr data offset size :
  at_depth limit depth rndr →
  agree (char_trigger parse_inline1 action ob rndr data offset size)
        (char_trigger parse_inline2 action ob rndr data offset size)
        (λ r, restored rndr r.2).
Proof.
  intros Hd. destruct action; simpl; try (by agree_auto);
    unfold char_autolink_url, char_autolink_email; try (by agree_auto);
    eauto with depth.
Qed.

#[local] Hint Resolve char_trigger_depth : depth.

Lemma parse_inline_loop_depth fuel ob rndr data size i end_ :
  at_depth limit depth rndr →
  agree (parse_inline_loop parse_inline1 fuel ob rndr data size i end_)
        (parse_inline_loop parse_inline2 fuel ob rndr data size i end_)
        (λ r, restored rndr r.2).
Proof.
  revert ob rndr i end_.
  induction fuel as [|fuel IH]; intros ob rndr i end_ Hd; simpl; [by agree_auto|].
  agree_auto.
Qed.

#[local] Hint Resolve parse_inline_loop_depth : depth.

Lemma parse_inline_body_depth ob rndr data size :
  at_depth limit depth rndr →
  agree (parse_inline_body parse_inline1 ob rndr data size)
        (parse_inline_body parse_inline2 ob rndr data size)
        (λ r, restored rndr r.2).
Proof. intros Hd. unfold parse_inline_body. agree_auto. Qed.

#[local] Hint Resolve parse_inline_body_depth : depth.

Lemma parse_blockquote_depth ob rndr data size :
  at_depth limit depth rndr →
  agree (parse_blockquote parse_block1 ob rndr data size)
        (parse_blockquote parse_block2 ob rndr data size)
        (λ r, restored rndr r.2).
Proof. intros Hd. unfold parse_blockquote. agree_auto. Qed.

Lemma render_paragraph_depth ob rndr data size :
  at_depth limit depth rndr →
  agree (render_paragraph parse_inline1 ob rndr data size)
        (render_paragraph parse_inline2 ob rndr data size)
        (λ r, restored rndr r.2).
Proof. intros Hd. unfold render_paragraph. agree_auto. Qed.

Lemma render_header_depth ob rndr data size level :
  at_depth limit depth rndr →
  agree (render_header parse_inline1 ob rndr data size level)
        (render_header parse_inline2 ob rndr data size level)
        (λ r, restored rndr r.2).
Proof. intros Hd. unfold render_header. agree_auto. Qed.

#[local] Hint Resolve parse_blockquote_depth render_paragraph_depth render_header_depth : depth.

Lemma parse_paragraph_depth ob rndr data size :
  at_depth limit depth rndr →
  agree (parse_paragraph parse_inline1 ob rndr data size)
        (parse_paragraph parse_inline2 ob rndr data size)
        (λ r, restored rndr r.2).
Proof. intros Hd. unfold parse_paragraph. agree_auto. Qed.

Lemma parse_blockcode_depth ob rndr data size :
  at_depth limit depth rndr →
  agree (parse_blockcode ob rndr data size)
        (parse_blockcode ob rndr data size)
        (λ r, restored rndr r.2).
Proof. intros Hd. unfold parse_blockcode. agree_auto. Qed.

Lemma parse_listitem_depth ob rndr data size flags :
  at_depth limit depth rndr →
  agree (parse_listitem parse_inline1 parse_block1 ob rndr data size flags)
        (parse_listitem parse_inline2 parse_block2 ob rndr data size flags)
        (λ r, restored rndr r.2).
Proof. intros Hd. unfold parse_listitem. agree_auto. Qed.

#[local] Hint Resolve parse_paragraph_depth parse_blockcode_depth parse_listitem_depth : depth.

Lemma list_loop_depth fuel work rndr data size i flags :
  at_depth limit depth rndr →
  agree (list_loop parse_inline1 parse_block1 fuel work rndr data size i flags)
        (list_loop parse_inline2 parse_block2 fuel work rndr data size i flags)
        (λ r, restored rndr r.2).
Proof.
  revert work rndr i flags.
  induction fuel as [|fuel IH]; intros work rndr i flags Hd; simpl; [by agree_auto|].
  agree_auto.
Qed.

#[local] Hint Resolve list_loop_depth : depth.

Lemma parse_list_depth ob rndr data size flags :
  at_depth limit depth rndr →
  agree (parse_list parse_inline1 parse_block1 ob rndr data size flags)
        (parse_list parse_inline2 parse_block2 ob rndr data size flags)
        (λ r, restored rndr r.2).
Proof. intros Hd. unfold parse_list. agree_auto. Qed.

Lemma parse_atxheader_depth ob rndr data size :
  at_depth limit depth rndr →
  agree (parse_atxheader parse_inline1 ob rndr data size)
        (parse_atxheader parse_inline2 ob rndr data size)
        (λ r, restored rndr r.2).
Proof. intros Hd. unfold parse_atxheader. agree_auto. Qed.

Lemma table_cells_loop_depth fuel row_work rndr data size columns col_data header_flag i col :
  at_depth limit depth rndr →
  agree (table_cells_loop parse_inline1 fuel row_work rndr data size columns col_data header_flag i col)
        (table_cells_loop parse_inline2 fuel row_work rndr data size columns col_data header_flag i col)
        (λ r, restored rndr r.2).
Proof.
  revert row_work rndr i col.
  induction fuel as [|fuel IH]; intros row_work rndr i col Hd; simpl; [by agree_auto|].
  agree_auto.
Qed.

#[local] Hint Resolve parse_list_depth parse_atxheader_depth table_cells_loop_depth : depth.

Lemma parse_table_row_depth ob rndr data size columns col_data header_flag :
  at_depth limit depth rndr →
  agree (parse_table_row parse_inline1 ob rndr data size columns col_data header_flag)
        (parse_table_row parse_inline2 ob rndr data size columns col_data header_flag)
        (λ r, restored rndr r.2).
Proof. intros Hd. unfold parse_table_row. agree_auto. Qed.

#[local] Hint Resolve parse_table_row_depth : depth.

Lemma parse_table_header_depth ob rndr data size :
  at_depth limit depth rndr →
  agree (parse_table_header parse_inline1 ob rndr data size)
        (parse_table_header parse_inline2 ob rndr data size)
        (λ r, restored rndr r.2).
Proof. intros Hd. unfold parse_table_header. agree_auto. Qed.

Lemma table_rows_loop_depth fuel body_work rndr data size columns col_data i :
  at_depth limit depth rndr →
  agree (table_rows_loop parse_inline1 fuel body_work rndr data size columns col_data i)
        (table_rows_loop parse_inline2 fuel body_work rndr data size columns col_data i)
        (λ r, restored rndr r.2).
Proof.
  revert body_work rndr i.
  induction fuel as [|fuel IH]; intros body_work rndr i Hd; simpl; [by agree_auto|].
  agree_auto.
Qed.

#[local] Hint Resolve parse_table_header_depth table_rows_loop_depth : depth.

Lemma parse_table_depth ob rndr data size :
  at_depth limit depth rndr →
  agree (parse_table parse_inline1 ob rndr data size)
        (parse_table parse_inline2 ob rndr data size)
        (λ r, restored rndr r.2).
Proof. intros Hd. unfold parse_table. agree_auto. Qed.

#[local] Hint Resolve parse_table_depth : depth.

Lemma parse_one_block_depth ob rndr data size :
  at_depth limit depth rndr →
  agree (parse_one_block parse_inline1 parse_block1 ob rndr data size)
        (parse_one_block parse_inline2 parse_block2 ob rndr data size)
        (λ r, restored rndr r.2).
Proof. intros Hd. unfold parse_one_block. agree_auto. Qed.

#[local] Hint Resolve parse_one_block_depth : depth.

Lemma parse_block_loop_depth fuel ob rndr data size beg :
  at_depth limit depth rndr →
  agree (parse_block_loop parse_inline1 parse_block1 fuel ob rndr data size beg)
        (parse_block_loop parse_inline2 parse_block2 fuel ob rndr data size beg)
        (λ r, restored rndr r.2).
Proof.
  revert ob rndr beg.
  induction fuel as [|fuel IH]; intros ob rndr beg Hd; simpl; [by agree_auto|].
  agree_auto.
Qed.

#[local] Hint Resolve parse_block_loop_depth : depth.

Lemma parse_block_body_depth ob rndr data size :
  at_depth limit depth rndr →
  agree (parse_block_body parse_inline1 parse_block1 ob rndr data size)
        (parse_block_body parse_inline2 parse_block2 ob rndr data size)
        (λ r, restored rndr r.2).
Proof. intros Hd. unfold parse_block_body. agree_auto. Qed.

End Depth.

(** Past the depth at which the nesting limit stops it, the recursion does
    not depend on the bound of its depth. *)
Lemma parse_depth {opaque_t : Type} (fuel1 : nat) :
  ∀ fuel2 ob (rndr : sd_markdown opaque_t) data size,
    1 ≤ fuel1 → 1 ≤ fuel2 →
    max_nesting rndr + 2 ≤ fuel1 + (span_size rndr + block_size rndr) →
    max_nesting rndr + 2 ≤ fuel2 + (span_size rndr + block_size rndr) →
    agree (parse_inline fuel1 ob rndr data size) (parse_inline fuel2 ob rndr data size)
      (λ r, restored rndr r.2)
    ∧ agree (parse_block fuel1 ob rndr data size) (parse_block fuel2 ob rndr data size)
        (λ r, restored rndr r.2).
Proof.
  induction fuel1 as [|fuel1 IH]; intros fuel2 ob rndr data size H1 H2 Hf1 Hf2; [lia|].
  destruct fuel2 as [|fuel2]; [lia|]. simpl.
  destruct (nesting_exceeded rndr) eqn:Hex.
  - unfold parse_inline_body, parse_block_body. rewrite Hex.
    split; (split; [done|]); simpl; by split_and!.
  - pose proof Hex as Hle. unfold nesting_exceeded in Hle. apply Nat.ltb_ge in Hle.
    fold (span_size rndr) in Hle. fold (block_size rndr) in Hle.
    assert (Hrec : ∀ ob' (rndr' : sd_markdown opaque_t) data' size',
              max_nesting rndr' = max_nesting rndr →
              span_size rndr + block_size rndr < span_size rndr' + block_size rndr' →
              agree (parse_inline fuel1 ob' rndr' data' size')
                    (parse_inline fuel2 ob' rndr' data' size')
                    (λ r, restored rndr' r.2)
              ∧ agree (parse_block fuel1 ob' rndr' data' size')
                      (parse_block fuel2 ob' rndr' data' size')
                      (λ r, restored rndr' r.2)).
    { intros ob' rndr' data' size' Hmn Hlt. apply IH; lia. }
    split.
    + eapply (parse_inline_body_depth (max_nesting rndr)
                (span_size rndr + block_size rndr)).
      * intros. by apply Hrec.
      * by split.
    + eapply (parse_block_body_depth (max_nesting rndr)
                (span_size rndr + block_size rndr)).
      * intros. by apply Hrec.
      * intros. by apply Hrec.
      * by split.
Qed.

(** X13.  The nesting limit bounds the depth of the recursion of
    [parse_inline] and [parse_block]: each of them takes a scratch buffer
    before it calls the other and returns at once when more than
    [max_nesting] are taken, so that a call made with [d] buffers taken
    nests at most [max_nesting + 2 - d] deep.  Any depth allowed beyond
    that gives the same result; [sd_markdown_render], which starts with no
    buffer taken, never needs more than [max_nesting + 2]. *)
Theorem nesting_bounds_depth {opaque_t : Type} (fuel : nat) ob
    (rndr : sd_markdown opaque_t) data size :
  max_nesting rndr + 2 ≤ fuel + (span_size rndr + block_size rndr) → 1 ≤ fuel →
  parse_inline fuel ob rndr data size
  = parse_inline (max_nesting rndr + 2) ob rndr data size
  ∧ parse_block fuel ob rndr data size
    = parse_block (max_nesting rndr + 2) ob rndr data size.
Proof.
  intros Hfuel Hpos.
  destruct (parse_depth (max_nesting rndr + 2) fuel ob rndr data size)
    as [[Hi _] [Hb _]]; [lia..|].
  done.
Qed.

Lemma nesting_bounds_depth_witness :
  ∃ md,
    sd_markdown_new 0 16 tagging_callbacks tt = Some md
    ∧ parse_block 40 (sd_bufnew 64) md (buf_ptr (mk_buf sample_document 0 64))
        (length sample_document)
      = parse_block (max_nesting md + 2) (sd_bufnew 64) md
          (buf_ptr (mk_buf sample_document 0 64)) (length sample_document).
Proof.
  eexists. split; [reflexivity|].
  refine (proj2 (nesting_bounds_depth 40 (sd_bufnew 64) _ _ _ _ _)).
  - cbn. lia.
  - lia.
Defined.

(** ** The contents of a buffer stay within its allocation *)

Lemma grow_asize_ge fuel unit neosz neoasz :
  (0 < unit)%Z → (neoasz ≤ grow_asize fuel unit neosz neoasz)%Z.
Proof.
  intros Hu. revert neoasz. induction fuel as [|fuel IH]; intros neoasz; simpl; [lia|].
  destruct (neoasz <? neosz)%Z; [|lia]. specialize (IH (neoasz + unit)%Z). lia.
Qed.

Lemma sd_bufgrow_within buf neosz err buf' :
  (0 < buf_unit buf)%Z → within_allocation buf →
  sd_bufgrow buf neosz = Some (err, buf') →
  within_allocation buf' ∧ buf_data buf' = buf_data buf
  ∧ buf_unit buf' = buf_unit buf
  ∧ ((buferror_code err <? 0)%Z = false → (neosz ≤ buf_asize buf')%Z).
Proof.
  intros Hu Hin. unfold sd_bufgrow, within_allocation in *.
  destruct (Z.eqb_spec (buf_unit buf) 0); [lia|].
  destruct (Z.gtb_spec neosz BUFFER_MAX_ALLOC_SIZE).
  { intros [= <- <-]. by split_and!. }
  destruct (Z.geb_spec (buf_asize buf) neosz).
  { intros [= <- <-]. split_and!; [done..|]. intros _. lia. }
  intros [= <- <-]. unfold buf_size in *. cbn [buf_data buf_asize buf_unit].
  pose proof (grow_asize_ge (Z.to_nat (neosz - buf_asize buf)) (buf_unit buf) neosz
                (buf_asize buf + buf_unit buf) Hu).
  split_and!; [lia|done..|]. intros _. apply grow_asize_reaches; lia.
Qed.

(** X14.  No function of BUFFER.C leaves more bytes in a buffer than are
    allocated for it: [size <= asize] holds after [sd_bufgrow],
    [sd_bufput], [sd_bufputc], [sd_bufprintf] and [sd_bufslurp] when it held
    before. *)
Theorem buffer_within_allocation (buf : sd_buf) :
  (0 < buf_unit buf)%Z → within_allocation buf →
  (∀ neosz err buf', sd_bufgrow buf neosz = Some (err, buf') → within_allocation buf')
  ∧ (∀ src buf', sd_bufput buf src = Some buf' → within_allocation buf')
  ∧ (∀ c buf', sd_bufputc buf c = Some buf' → within_allocation buf')
  ∧ (∀ formatted buf', sd_bufprintf buf formatted = Some buf' → within_allocation buf')
  ∧ (∀ len buf', sd_bufslurp buf len = Some buf' → within_allocation buf').
Proof.
  intros Hu Hin. split_and!.
  - intros neosz err buf' H. by destruct (sd_bufgrow_within _ _ _ _ Hu Hin H).
  - intros src buf'. unfold sd_bufput.
    destruct (Z.eqb_spec (buf_unit buf) 0); [lia|].
    destruct (Z.gtb_spec (buf_size buf + Z.of_nat (length src)) (buf_asize buf)).
    + destruct (sd_bufgrow buf _) as [[err buf1]|] eqn:Hgrow; [|done].
      destruct (sd_bufgrow_within _ _ _ _ Hu Hin Hgrow) as (Hin1 & Hd1 & _ & Hcap).
      rewrite bind_Some. cbv beta iota.
      destruct (buferror_code err <? 0)%Z; [by intros [= <-]|].
      intros [= <-]. specialize (Hcap eq_refl).
      unfold within_allocation, buf_size, buf_append in *.
      cbn [buf_data buf_asize]. rewrite length_app, Hd1. lia.
    + intros [= <-]. unfold within_allocation, buf_size, buf_append in *.
      cbn [buf_data buf_asize]. rewrite length_app. lia.
  - intros c buf'. unfold sd_bufputc.
    destruct (Z.eqb_spec (buf_unit buf) 0); [lia|].
    destruct (Z.gtb_spec (buf_size buf + 1) (buf_asize buf)).
    + destruct (sd_bufgrow buf _) as [[err buf1]|] eqn:Hgrow; [|done].
      destruct (sd_bufgrow_within _ _ _ _ Hu Hin Hgrow) as (Hin1 & Hd1 & _ & Hcap).
      rewrite bind_Some. cbv beta iota.
      destruct (buferror_code err <? 0)%Z; [by intros [= <-]|].
      intros [= <-]. specialize (Hcap eq_refl).
      unfold within_allocation, buf_size, buf_append in *.
      cbn [buf_data buf_asize]. rewrite length_app, Hd1. simpl. lia.
    + intros [= <-]. unfold within_allocation, buf_size, buf_append in *.
      cbn [buf_data buf_asize]. rewrite length_app. simpl. lia.
  - intros formatted buf'. unfold sd_bufprintf.
    destruct (Z.eqb_spec (buf_unit buf) 0); [lia|].
    assert (Hfirst : ∀ err buf1,
              (if (buf_size buf >=? buf_asize buf)%Z
               then sd_bufgrow buf (buf_size buf + 1) else Some (BUF_OK, buf))
              = Some (err, buf1) →
              within_allocation buf1 ∧ buf_data buf1 = buf_data buf
              ∧ buf_unit buf1 = buf_unit buf).
    { intros err buf1. destruct (buf_size buf >=? buf_asize buf)%Z.
      - intros Hgrow.
        by destruct (sd_bufgrow_within _ _ _ _ Hu Hin Hgrow) as (? & ? & ? & _).
      - by intros [= <- <-]. }
    destruct (if (buf_size buf >=? buf_asize buf)%Z then _ else _)
      as [[err buf1]|]; [|done].
    destruct (Hfirst err buf1 eq_refl) as (Hin1 & Hd1 & Hu1).
    rewrite bind_Some. cbv beta iota.
    destruct (buferror_code err <? 0)%Z; [by intros [= <-]|]. cbv zeta.
    destruct (Z.geb_spec (Z.of_nat (length formatted)) (buf_asize buf1 - buf_size buf1)).
    + destruct (sd_bufgrow buf1 _) as [[err2 buf2]|] eqn:Hgrow; [|done].
      assert (Hu1' : (0 < buf_unit buf1)%Z) by lia.
      destruct (sd_bufgrow_within _ _ _ _ Hu1' Hin1 Hgrow)
        as (Hin2 & Hd2 & _ & Hcap).
      rewrite bind_Some. cbv beta iota.
      destruct (buferror_code err2 <? 0)%Z; [by intros [= <-]|].
      intros [= <-]. specialize (Hcap eq_refl).
      unfold within_allocation, buf_size, buf_append in *.
      cbn [buf_data buf_asize]. rewrite length_app, Hd2. lia.
    + intros [= <-]. unfold within_allocation, buf_size, buf_append in *.
      cbn [buf_data buf_asize]. rewrite length_app. lia.
  - intros len buf'. unfold sd_bufslurp.
    destruct (Z.eqb_spec (buf_unit buf) 0); [lia|].
    unfold within_allocation, buf_size in *.
    destruct (Nat.leb_spec (length (buf_data buf)) len); intros [= <-];
      cbn [buf_data buf_asize].
    + simpl. lia.
    + rewrite slice_length by lia. lia.
Qed.

Lemma buffer_within_allocation_witness :
  let buf := sd_bufnew 64 in
  (0 < buf_unit buf)%Z ∧ within_allocation buf
  ∧ ∀ buf', sd_bufput buf (bytes "a paragraph") = Some buf' → within_allocation buf'.
Proof.
  cbv zeta. assert (Hu : (0 < buf_unit (sd_bufnew 64))%Z) by done.
  assert (Hin : within_allocation (sd_bufnew 64)) by (vm_compute; by intros [=]).
  split; [exact Hu|]. split; [exact Hin|].
  exact (proj1 (proj2 (buffer_within_allocation (sd_bufnew 64) Hu Hin))
           (bytes "a paragraph")).
Defined.

(** ** is_hrule *)

Lemma hrule_loop_spec fuel data size c line i n :
  length line ≤ size →
  (∀ k, k < length line → rd data k = byte_at line k ∧ byte_at line k ≠ LF) →
  (length line < size → rd data (length line) = LF) →
  i ≤ length line → length line - i ≤ fuel →
  hrule_loop fuel data size c i n
  = if forallb (rule_byte c) (skipn i line)
    then Some (n + count_occ ascii_dec (skipn i line) c) else None.
Proof.
  intros Hsize Hline Hend. revert i n.
  induction fuel as [|fuel IH]; intros i n Hi Hfuel.
  - rewrite skipn_all2 by lia. cbn. by rewrite Nat.add_0_r.
  - cbn [hrule_loop]. destruct (decide (i = length line)) as [->|Hne].
    + rewrite skipn_all2 by lia. cbn [forallb count_occ]. rewrite Nat.add_0_r.
      destruct (Nat.ltb_spec (length line) size) as [Hlt|]; [|done].
      rewrite (Hend Hlt). done.
    + assert (Hlt : i < length line) by lia.
      destruct (Hline i Hlt) as [Hrd Hnl].
      destruct (Nat.ltb_spec i size) as [_|]; [|lia].
      rewrite Hrd. destruct (Ascii.eqb_spec (byte_at line i) LF) as [|_]; [done|].
      cbn [andb negb]. rewrite (byte_at_skipn line i Hlt).
      cbn [forallb count_occ]. unfold rule_byte at 1.
      rewrite !IH by lia.
      destruct (Ascii.eqb_spec (byte_at line i) c) as [Hc|Hc].
      * cbn [orb andb]. destruct (ascii_dec (byte_at line i) c); [|done].
        destruct (forallb _ _); [|done]. f_equal. lia.
      * cbn [orb]. destruct (ascii_dec (byte_at line i) c); [done|].
        destruct (Ascii.eqb (byte_at line i) " "); cbn [negb andb]; done.
Qed.

Lemma first_line_spec data size :
  off data + size ≤ length (mem data) →
  let line := first_line data size in
  length line ≤ size
  ∧ (∀ k, k < length line → rd data k = byte_at line k ∧ byte_at line k ≠ LF)
  ∧ (length line < size → rd data (length line) = LF).
Proof.
  intros Hsize. unfold first_line.
  destruct (while_lt_spec size (λ i, negb (Ascii.eqb (rd data i) LF)) 0)
    as (_ & H2 & H3 & H4); [lia|].
  set (e := while_lt _ _ _) in *. cbv zeta.
  assert (Hlen : length (view data e) = e)
    by (unfold view; rewrite slice_length; lia).
  rewrite Hlen. split; [done|]. split.
  - intros k Hk. unfold view. rewrite byte_at_slice by done.
    split; [done|]. specialize (H3 k ltac:(lia) Hk). simpl in H3.
    apply negb_true_iff in H3. by apply Ascii.eqb_neq in H3.
  - intros He. specialize (H4 He). simpl in H4.
    apply negb_false_iff in H4. by apply Ascii.eqb_eq in H4.
Qed.

Lemma rule_mark c :
  In c ["*"; "-"; "_"]%char ↔
  negb (Ascii.eqb c "*") && negb (Ascii.eqb c "-") && negb (Ascii.eqb c "_") = false.
Proof.
  split.
  - by intros [<-|[<-|[<-|[]]]].
  - destruct (Ascii.eqb_spec c "*") as [->|]; [by left|].
    destruct (Ascii.eqb_spec c "-") as [->|]; [by right; left|].
    destruct (Ascii.eqb_spec c "_") as [->|]; [by right; right; left|]. done.
Qed.

Lemma forallb_rule_byte c body :
  forallb (rule_byte c) body = true ↔ Forall (λ x, x = c ∨ x = " "%char) body.
Proof.
  rewrite forallb_forall, Forall_forall. split; intros H x Hx.
  - apply list_elem_of_In in Hx. specialize (H x Hx). unfold rule_byte in H.
    apply orb_true_iff in H as [H|H]; apply Ascii.eqb_eq in H; tauto.
  - apply list_elem_of_In in Hx. specialize (H x Hx). unfold rule_byte.
    apply orb_true_iff. destruct H as [->| ->]; rewrite Ascii.eqb_refl; tauto.
Qed.

Lemma byte_at_after_spaces k (c : ascii) body :
  byte_at (repeat " "%char k ++ c :: body) k = c.
Proof.
  unfold byte_at. rewrite app_nth2 by (rewrite repeat_length; lia).
  by rewrite repeat_length, Nat.sub_diag.
Qed.

(** The leading spaces that [is_hrule] skips. *)
Lemma skip_3_spaces_line data line k c body :
  (∀ j, j < length line → rd data j = byte_at line j) →
  line = repeat " "%char k ++ c :: body → k ≤ 3 → c ≠ " "%char →
  skip_3_spaces data = k.
Proof.
  intros Hrd -> Hk Hc. unfold skip_3_spaces.
  assert (Hsp : ∀ j, j < k → rd data j = " "%char).
  { intros j Hj. rewrite Hrd by (rewrite length_app, repeat_length; simpl; lia).
    rewrite byte_at_app_l by (rewrite repeat_length; lia).
    unfold byte_at. by rewrite nth_repeat_lt. }
  assert (Hmark : rd data k = c).
  { rewrite Hrd by (rewrite length_app, repeat_length; simpl; lia).
    apply byte_at_after_spaces. }
  destruct k as [|[|[|[|k]]]]; [| | | |lia].
  - rewrite Hmark. by destruct (Ascii.eqb_spec c " ").
  - rewrite (Hsp 0), Hmark by lia. cbn. by destruct (Ascii.eqb_spec c " ").
  - rewrite (Hsp 0), (Hsp 1), Hmark by lia. cbn. by destruct (Ascii.eqb_spec c " ").
  - by rewrite (Hsp 0), (Hsp 1), (Hsp 2) by lia.
Qed.

(** The line up to the byte that [is_hrule] takes for the mark. *)
Lemma skip_3_spaces_prefix data line :
  (∀ j, j < length line → rd data j = byte_at line j) →
  skip_3_spaces data ≤ length line →
  firstn (skip_3_spaces data) line = repeat " "%char (skip_3_spaces data).
Proof.
  intros Hrd. unfold skip_3_spaces.
  destruct (Ascii.eqb_spec (rd data 0) " ") as [H0|]; [|done].
  destruct (Ascii.eqb_spec (rd data 1) " ") as [H1|].
  - destruct (Ascii.eqb_spec (rd data 2) " ") as [H2|].
    + intros Hlen. destruct line as [|a [|b [|d line]]]; simpl in Hlen; try lia.
      rewrite (Hrd 0) in H0 by (simpl; lia). rewrite (Hrd 1) in H1 by (simpl; lia).
      rewrite (Hrd 2) in H2 by (simpl; lia). cbn in H0, H1, H2. by subst.
    + intros Hlen. destruct line as [|a [|b line]]; simpl in Hlen; try lia.
      rewrite (Hrd 0) in H0 by (simpl; lia). rewrite (Hrd 1) in H1 by (simpl; lia).
      cbn in H0, H1. by subst.
  - intros Hlen. destruct line as [|a line]; simpl in Hlen; try lia.
    rewrite (Hrd 0) in H0 by (simpl; lia). cbn in H0. by subst.
Qed.

Lemma skip_3_spaces_spaces data j :
  j < skip_3_spaces data → rd data j = " "%char.
Proof.
  unfold skip_3_spaces.
  destruct (Ascii.eqb_spec (rd data 0) " "); [|lia].
  destruct (Ascii.eqb_spec (rd data 1) " ");
    [destruct (Ascii.eqb_spec (rd data 2) " ")|];
    intros Hj; destruct j as [|[|[|j]]]; done || lia.
Qed.

Lemma skip_3_spaces_le data : skip_3_spaces data ≤ 3.
Proof. unfold skip_3_spaces. repeat case_match; lia. Qed.

(** X15.  [is_hrule] accepts the lines that are horizontal rules: the line
    that begins at [data] is made of up to three spaces and then of three
    or more [*], [-] or [_], all the same, with nothing but spaces between
    and after them. *)
Theorem is_hrule_spec (data : ptr) (size : nat) :
  off data + size ≤ length (mem data) →
  is_hrule data size = true ↔ hrule_line (first_line data size).
Proof.
  intros Hmem. destruct (first_line_spec data size Hmem) as (Hsize & Hline & Hend).
  set (line := first_line data size) in *.
  assert (Hrd : ∀ j, j < length line → rd data j = byte_at line j)
    by (intros j Hj; by destruct (Hline j Hj)).
  unfold is_hrule. split.
  - destruct (Nat.ltb_spec size 3) as [|Hsize3]; [done|]. cbv zeta.
    pose proof (skip_3_spaces_le data) as Hle.
    set (i := skip_3_spaces data) in *.
    destruct (Nat.leb_spec size (i + 2)) as [|Hi2]; [done|]. cbn [orb].
    destruct (negb (Ascii.eqb (rd data i) "*") && _ && _) eqn:Hmark; [done|].
    apply rule_mark in Hmark.
    assert (Hi : i < length line).
    { destruct (Nat.lt_ge_cases i (length line)) as [|Hge]; [done|]. exfalso.
      specialize (Hend ltac:(lia)).
      destruct (decide (length line = i)) as [He|Hne].
      - rewrite He in Hend. rewrite Hend in Hmark.
        by destruct Hmark as [|[|[|[]]]].
      - pose proof (skip_3_spaces_spaces data (length line) ltac:(fold i; lia)) as Hsp.
        by rewrite Hend in Hsp. }
    rewrite (hrule_loop_spec size data size (rd data i) line i 0 Hsize Hline Hend)
      by lia.
    rewrite (byte_at_skipn line i Hi), <- (Hrd i Hi).
    cbn [forallb count_occ]. destruct (ascii_dec (rd data i) (rd data i)); [|done].
    destruct (forallb (rule_byte (rd data i)) (skipn (S i) line)) eqn:Hall;
      [|by rewrite andb_false_r].
    rewrite andb_true_r.
    replace (rule_byte (rd data i) (rd data i)) with true
      by (unfold rule_byte; by rewrite Ascii.eqb_refl).
    intros Hn. apply Nat.leb_le in Hn.
    exists i, (rd data i), (skipn (S i) line). split_and!; [|done..| |lia].
    + rewrite <- (firstn_skipn i line) at 1.
      pose proof (skip_3_spaces_prefix data line Hrd ltac:(fold i; lia)) as Hp.
      fold i in Hp. rewrite Hp.
      by rewrite (byte_at_skipn line i Hi), <- (Hrd i Hi).
    + by apply forallb_rule_byte.
  - intros (k & c & body & Hl & Hk & Hmark & Hall & Hcount).
    assert (Hsp : c ≠ " "%char) by (by destruct Hmark as [<-|[<-|[<-|[]]]]).
    pose proof (skip_3_spaces_line data line k c body Hrd Hl Hk Hsp) as Hskip.
    pose proof (count_occ_bound ascii_dec c body) as Hbound.
    assert (Hlen : length line = k + S (length body))
      by (rewrite Hl, length_app, repeat_length; done).
    assert (Hck : rd data k = c).
    { rewrite Hrd by lia. rewrite Hl. apply byte_at_after_spaces. }
    destruct (Nat.ltb_spec size 3) as [|_]; [lia|]. cbv zeta. rewrite Hskip.
    destruct (Nat.leb_spec size (k + 2)) as [|_]; [lia|]. cbn [orb].
    rewrite Hck. apply rule_mark in Hmark. rewrite Hmark.
    rewrite (hrule_loop_spec size data size c line k 0 Hsize Hline Hend) by lia.
    assert (Hdrop : skipn k line = c :: body).
    { rewrite Hl. rewrite skipn_app, repeat_length, Nat.sub_diag.
      rewrite skipn_all2 by (rewrite repeat_length; lia). done. }
    rewrite Hdrop. cbn [forallb count_occ].
    destruct (ascii_dec c c); [|done].
    replace (rule_byte c c) with true by (unfold rule_byte; by rewrite Ascii.eqb_refl).
    rewrite (proj2 (forallb_rule_byte c body) Hall). cbn [andb].
    apply Nat.leb_le. lia.
Qed.

Lemma is_hrule_spec_witness :
  let data := mk_ptr (bytes " * * *" ++ LF :: bytes "text") 0 in
  off data + 11 ≤ length (mem data)
  ∧ is_hrule data 11 = true
  ∧ hrule_line (first_line data 11).
Proof.
  cbv zeta.
  assert (Hmem : off (mk_ptr (bytes " * * *" ++ LF :: bytes "text") 0) + 11
                 ≤ length (mem (mk_ptr (bytes " * * *" ++ LF :: bytes "text") 0)))
    by (simpl; lia).
  split; [exact Hmem|]. split; [reflexivity|].
  apply (proj1 (is_hrule_spec _ 11 Hmem)). reflexivity.
Defined.

(** ** Blank documents *)

Lemma pad_to_stop_returns P fuel ob tab :
  (0 < buf_unit ob)%Z → P " "%char → 4 - tab mod 4 ≤ fuel →
  ∃ ob' tab', pad_to_stop fuel ob tab = Some (ob', tab') ∧ appended P ob ob'.
Proof.
  revert ob tab. induction fuel as [|fuel IH]; intros ob tab Hu Hsp Hf.
  - pose proof (Nat.mod_upper_bound tab 4). lia.
  - cbn [pad_to_stop]. pose proof (Nat.mod_upper_bound tab 4 ltac:(lia)) as Hm.
    destruct (sd_bufputc_appended P ob " " Hu Hsp) as (ob1 & -> & Ha1).
    rewrite bind_Some. cbv beta zeta.
    assert (Hs : S tab mod 4 = if tab mod 4 =? 3 then 0 else S (tab mod 4)).
    { pose proof (Nat.div_mod_eq tab 4). pose proof (Nat.div_mod_eq (S tab) 4).
      pose proof (Nat.mod_upper_bound (S tab) 4 ltac:(lia)).
      destruct (Nat.eqb_spec (tab mod 4) 3); lia. }
    rewrite Hs. destruct (Nat.eqb_spec (tab mod 4) 3) as [H3|H3].
    + cbn [Nat.eqb negb]. by eexists _, _.
    + cbn [Nat.eqb negb].
      destruct (IH ob1 (S tab)) as (ob' & tab' & -> & Ha');
        [by eapply appended_unit|done|rewrite Hs; destruct (Nat.eqb_spec (tab mod 4) 3); lia|].
      exists ob', tab'. split; [done|]. by eapply appended_trans.
Qed.

Lemma expand_tabs_loop_returns P fuel ob line i tab :
  (0 < buf_unit ob)%Z → P " "%char → Forall (λ c, c ≠ TAB → P c) line →
  length line - i < fuel →
  ∃ ob', expand_tabs_loop fuel ob line i tab = Some ob' ∧ appended P ob ob'.
Proof.
  intros Hu Hsp Hline. revert ob i tab Hu.
  induction fuel as [|fuel IH]; intros ob i tab Hu Hf; [lia|].
  rewrite expand_tabs_loop_S.
  destruct (Nat.ltb_spec i (length line)) as [Hlt|Hge];
    [|exists ob; split; [done|apply appended_refl]].
  destruct (skip_to_tab_spec (length line) line i tab) as (j & -> & Hj & Hno & _);
    [lia..|].
  assert (Hput : ∃ ob1, (if i <? j then sd_bufput ob (slice line i (j - i)) else Some ob)
                        = Some ob1 ∧ appended P ob ob1).
  { destruct (i <? j).
    - apply sd_bufput_appended; [done|].
      apply slice_Forall; [lia..|]. intros k Hk1 Hk2.
      destruct (lookup_lt_is_Some_2 line k ltac:(lia)) as [c Hc].
      pose proof (Hno k ltac:(lia)) as Hnt.
      rewrite (byte_at_lookup _ _ _ Hc) in Hnt |- *.
      exact (proj1 (Forall_lookup _ _) Hline k c Hc Hnt).
    - exists ob. split; [done|]. apply appended_refl. }
  destruct Hput as (ob1 & -> & Ha1). rewrite bind_Some. cbv beta.
  pose proof (appended_unit _ _ _ Ha1 Hu) as Hu1.
  destruct (length line <=? j); [by exists ob1|].
  destruct (pad_to_stop_returns P 4 ob1 (tab + (j - i)) Hu1 Hsp) as (ob2 & tab2 & -> & Ha2).
  { pose proof (Nat.mod_upper_bound (tab + (j - i)) 4). lia. }
  rewrite bind_Some. cbv beta iota.
  destruct (IH ob2 (S j) tab2) as (ob3 & -> & Ha3); [by eapply appended_unit|lia|].
  exists ob3. split; [done|]. eauto using appended_trans.
Qed.

Lemma put_newlines_returns P fuel text document doc_size end_ :
  (0 < buf_unit text)%Z → P LF → end_ ≤ doc_size →
  ∃ end' text',
    put_newlines fuel text document doc_size end_ = Some (end', text')
    ∧ appended P text text' ∧ end_ ≤ end' ≤ doc_size
    ∧ (0 < fuel → end_ < doc_size →
       rd document end_ = LF ∨ rd document end_ = CR → end_ < end').
Proof.
  revert text end_. induction fuel as [|fuel IH]; intros text end_ Hu Hnl Hle.
  { exists end_, text. split_and!; [done|apply appended_refl|lia..]. }
  cbn [put_newlines].
  destruct ((end_ <? doc_size) && _) eqn:Hcond.
  - apply andb_true_iff in Hcond as [Hlt _]. apply Nat.ltb_lt in Hlt.
    assert (Hput : ∃ text1,
              (if Ascii.eqb (rd document end_) LF
                  || ((end_ + 1 <? doc_size)
                      && negb (Ascii.eqb (rd document (end_ + 1)) LF))
               then sd_bufputc text LF else Some text) = Some text1
              ∧ appended P text text1).
    { destruct (_ || _).
      - by apply sd_bufputc_appended.
      - exists text. split; [done|]. apply appended_refl. }
    destruct Hput as (text1 & -> & Ha1). rewrite bind_Some. cbv beta.
    destruct (IH text1 (S end_)) as (end' & text' & -> & Ha' & Hend & _);
      [by eapply appended_unit|done|lia|].
    exists end', text'. split_and!; [done|by eapply appended_trans|lia..].
  - exists end_, text. split_and!; [done|apply appended_refl|lia..|].
    intros _ Hlt Hrd. exfalso.
    apply andb_false_iff in Hcond as [Hc|Hc]; [apply Nat.ltb_ge in Hc; lia|].
    apply orb_false_iff in Hc as [H1 H2].
    apply Ascii.eqb_neq in H1, H2. tauto.
Qed.

(** A line without [[] defines no reference. *)
Lemma is_ref_without_bracket data beg end_ refs :
  (∀ k, rd data k ≠ "["%char) → is_ref data beg end_ refs = Some None.
Proof.
  intros Hno. unfold is_ref, is_ref_scan. cbv zeta.
  destruct (end_ <=? beg + 3); [done|].
  destruct (_ && _ && _ && _); [done|].
  match goal with |- context [Ascii.eqb (rd data ?i) "["] =>
    destruct (Ascii.eqb_spec (rd data i) "[") as [H|_]; [by apply Hno in H|] end.
  done.
Qed.

Section BlankDocument.
Variable document : list ascii.
Hypothesis document_blank : Forall blank_byte document.

Lemma rd_blank k : k < length document → blank_byte (rd (mk_ptr document 0) k).
Proof.
  intros Hk. destruct (lookup_lt_is_Some_2 _ _ Hk) as [c Hc].
  unfold rd. cbn [mem off Nat.add]. rewrite (byte_at_lookup _ _ _ Hc).
  exact (proj1 (Forall_lookup _ _) document_blank k c Hc).
Qed.

Lemma rd_no_bracket k : rd (mk_ptr document 0) k ≠ "["%char.
Proof.
  destruct (Nat.lt_ge_cases k (length document)) as [Hk|Hk].
  - by destruct (rd_blank k Hk) as [->|[->|[->| ->]]].
  - unfold rd. cbn [mem off Nat.add]. by rewrite byte_at_beyond.
Qed.

Lemma blank_no_bom :
  (3 <=? length document) && bytes_eqb (view (mk_ptr document 0) 3) UTF8_BOM = false.
Proof.
  destruct document as [|c t] eqn:Hd; [done|]. apply andb_false_iff. right.
  assert (Hc : blank_byte c) by (by inversion document_blank).
  unfold view, slice, UTF8_BOM. cbn [mem off skipn firstn bytes_eqb].
  by destruct Hc as [->|[->|[->| ->]]].
Qed.

(** The first pass over a blank document: spaces and newlines. *)
Lemma first_pass_blank fuel text refs beg :
  (0 < buf_unit text)%Z → beg ≤ length document → length document - beg < fuel →
  ∃ text',
    first_pass fuel text refs (mk_ptr document 0) (length document) beg
    = Some (text', refs)
    ∧ appended blank_text_byte text text'.
Proof.
  revert text beg. induction fuel as [|fuel IH]; intros text beg Hu Hbeg Hf; [lia|].
  cbn [first_pass].
  destruct (Nat.ltb_spec beg (length document)) as [Hlt|];
    [|exists text; split; [done|apply appended_refl]].
  rewrite (is_ref_without_bracket _ _ _ _ rd_no_bracket), bind_Some. cbv beta iota zeta.
  set (p := λ e, negb (Ascii.eqb (rd (mk_ptr document 0) e) LF)
                 && negb (Ascii.eqb (rd (mk_ptr document 0) e) CR)).
  destruct (while_lt_spec (length document) p beg) as (H1 & H2 & H3 & H4); [lia|].
  set (end_ := while_lt (length document) p beg) in *.
  assert (Hexp : ∃ text1,
            (if beg <? end_
             then expand_tabs text (view (shift (mk_ptr document 0) beg) (end_ - beg))
             else Some text) = Some text1
            ∧ appended blank_text_byte text text1).
  { destruct (beg <? end_); [|exists text; split; [done|apply appended_refl]].
    apply expand_tabs_loop_returns; [done|by left| |lia].
    unfold view, shift. cbn [mem off Nat.add].
    apply slice_Forall; [lia..|]. intros k Hk1 Hk2 Hnt.
    specialize (H3 k Hk1 Hk2). unfold p in H3.
    apply andb_true_iff in H3 as [Hl Hc].
    apply negb_true_iff, Ascii.eqb_neq in Hl, Hc.
    pose proof (rd_blank k ltac:(lia)) as Hb. unfold rd in Hb, Hl, Hc.
    cbn [mem off Nat.add] in Hb, Hl, Hc.
    destruct Hb as [Hb|[Hb|[Hb|Hb]]]; [by left|done..]. }
  destruct Hexp as (text1 & -> & Ha1). rewrite bind_Some. cbv beta.
  pose proof (appended_unit _ _ _ Ha1 Hu) as Hu1.
  destruct (put_newlines_returns blank_text_byte (length document) text1
              (mk_ptr document 0) (length document) end_ Hu1)
    as (end' & text2 & -> & Ha2 & Hend & Hmove); [by right|lia|].
  rewrite bind_Some. cbv beta iota.
  assert (Hprogress : beg < end').
  { destruct (decide (beg = end_)) as [He|]; [|lia].
    assert (Hlt' : end_ < length document) by lia.
    specialize (H4 Hlt'). unfold p in H4.
    apply Hmove in Hlt'; [lia|lia|].
    apply andb_false_iff in H4 as [H4|H4]; apply negb_false_iff, Ascii.eqb_eq in H4;
      tauto. }
  destruct (IH text2 end') as (text3 & -> & Ha3);
    [by eapply appended_unit|lia|lia|].
  exists text3. split; [done|]. eauto using appended_trans.
Qed.

End BlankDocument.

(** A line of spaces is empty. *)
Lemma is_empty_of_blank data size :
  0 < size → (∀ k, k < size → blank_text_byte (rd data k)) → 0 < is_empty data size.
Proof.
  intros Hsize Hblank. unfold is_empty.
  destruct (while_lt_spec size
              (λ i, negb (Ascii.eqb (rd data i) LF) && Ascii.eqb (rd data i) " ") 0)
    as (_ & _ & _ & H4); [lia|].
  set (i := while_lt _ _ _) in *. cbv zeta.
  destruct (Nat.ltb_spec i size) as [Hlt|]; [|cbn [andb]; lia].
  specialize (H4 Hlt). cbv beta in H4.
  destruct (Hblank i Hlt) as [Hb|Hb]; rewrite Hb in H4 |- *; [done|].
  cbn. lia.
Qed.

(** The second pass over a text of spaces and newlines: every line is
    skipped. *)
Lemma parse_block_loop_blank {opaque_t : Type}
    (parse_inline parse_block :
       sd_buf → sd_markdown opaque_t → ptr → nat → option (sd_buf * sd_markdown opaque_t))
    fuel ob rndr text beg :
  Forall blank_text_byte text → length text - beg < fuel →
  parse_block_loop parse_inline parse_block fuel ob rndr (mk_ptr text 0) (length text) beg
  = Some (ob, rndr).
Proof.
  intros Htext. revert beg. induction fuel as [|fuel IH]; intros beg Hf; [lia|].
  cbn [parse_block_loop].
  destruct (Nat.ltb_spec beg (length text)) as [Hlt|]; [|done].
  assert (Hrd : ∀ k, k < length text - beg →
                     blank_text_byte (rd (shift (mk_ptr text 0) beg) k)).
  { intros k Hk. unfold rd, shift. cbn [mem off Nat.add].
    destruct (lookup_lt_is_Some_2 text (beg + k) ltac:(lia)) as [c Hc].
    rewrite (byte_at_lookup _ _ _ Hc).
    exact (proj1 (Forall_lookup _ _) Htext (beg + k) c Hc). }
  pose proof (is_empty_of_blank _ (length text - beg) ltac:(lia) Hrd) as Hempty.
  assert (H0 : blank_text_byte (rd (shift (mk_ptr text 0) beg) 0)) by (apply Hrd; lia).
  unfold parse_one_block, is_atxheader.
  replace (Ascii.eqb (rd (shift (mk_ptr text 0) beg) 0) "#") with false
    by (by destruct H0 as [-> | ->]).
  replace (Ascii.eqb (rd (shift (mk_ptr text 0) beg) 0) "<") with false
    by (by destruct H0 as [-> | ->]).
  cbn [negb andb]. rewrite bind_Some. cbv beta iota. cbn [Nat.eqb negb].
  destruct (Nat.eqb_spec (is_empty (shift (mk_ptr text 0) beg) (length text - beg)) 0)
    as [|_]; [lia|].
  cbn [negb]. rewrite bind_Some. cbv beta iota. apply IH. lia.
Qed.

(** X18.  A blank document renders to nothing.  When the document is made
    of spaces, tabulations and line endings only and the renderer has no
    callback for the header and the footer of the document,
    [sd_markdown_render] returns, whatever the other callbacks and the
    extensions are, and the contents of the output buffer and the state
    behind [opaque] are as they were. *)
Theorem blank_document_renders_nothing {opaque_t : Type} (ob : sd_buf)
    (document : list ascii) (md : sd_markdown opaque_t) :
  Forall blank_byte document →
  (0 < buf_unit ob)%Z → pools_idle md →
  cb_doc_header (cb md) = None → cb_doc_footer (cb md) = None →
  ∃ ob' md',
    sd_markdown_render ob document md = Some (ob', md')
    ∧ buf_data ob' = buf_data ob ∧ opaque md' = opaque md.
Proof.
  intros Hdoc Hu [Hspan Hblock] Hheader Hfooter.
  unfold span_size, block_size in *.
  unfold sd_markdown_render, render_passes. cbv zeta.
  destruct (sd_bufgrow_any (sd_bufnew 64) (Z.of_nat (length document)))
    as (err & text & -> & Hd & Hut); [done|].
  rewrite bind_Some. cbv beta iota.
  rewrite (blank_no_bom document Hdoc). cbv iota.
  destruct (first_pass_blank document Hdoc (S (length document)) text
              (refs (set_refs md (replicate REF_TABLE_SIZE []))) 0)
    as (text1 & -> & Ha1); [by rewrite Hut|lia|lia|].
  rewrite bind_Some. cbv beta iota.
  destruct (sd_bufgrow_any ob (MARKDOWN_GROW (buf_size text1)) Hu)
    as (err' & ob1 & -> & Hob1 & _).
  rewrite bind_Some. cbv beta iota.
  set (md1 := set_refs _ _).
  change (cb md1) with (cb md). rewrite Hheader, bind_Some. cbv beta iota.
  assert (Htext1 : Forall blank_text_byte (buf_data text1)).
  { destruct Ha1 as [_ (out & -> & Hout)]. by rewrite Hd, app_nil_l. }
  assert (Hparse :
            (if negb (length (buf_data text1) =? 0) then
               text ←
                 (if negb (Ascii.eqb (byte_at (buf_data text1)
                                        (length (buf_data text1) - 1)) LF)
                     && negb (Ascii.eqb (byte_at (buf_data text1)
                                           (length (buf_data text1) - 1)) CR)
                  then sd_bufputc text1 LF else Some text1);
               parse_block (max_nesting md1 + 2) ob1 md1 (buf_ptr text)
                 (length (buf_data text))
             else Some (ob1, md1)) = Some (ob1, md1)).
  { destruct (negb _); [|done].
    assert (Hput : ∃ text2,
              (if negb (Ascii.eqb (byte_at (buf_data text1) (length (buf_data text1) - 1)) LF)
                  && negb (Ascii.eqb (byte_at (buf_data text1)
                                        (length (buf_data text1) - 1)) CR)
               then sd_bufputc text1 LF else Some text1) = Some text2
              ∧ Forall blank_text_byte (buf_data text2)).
    { destruct (_ && _); [|by exists text1].
      destruct (sd_bufputc_appended blank_text_byte text1 LF)
        as (text2 & -> & _ & out & Hd2 & Hout);
        [destruct Ha1 as [-> _]; by rewrite Hut|by right|].
      exists text2. split; [done|]. rewrite Hd2. by apply Forall_app. }
    destruct Hput as (text2 & -> & Htext2). rewrite bind_Some. cbv beta.
    replace (max_nesting md1 + 2) with (S (S (max_nesting md1))) by lia.
    cbn [parse_block]. unfold parse_block_body, nesting_exceeded.
    change (work_bufs_span md1) with (work_bufs_span md).
    change (work_bufs_block md1) with (work_bufs_block md).
    rewrite Hspan, Hblock. cbn [Nat.add].
    replace (max_nesting md1 <? 0) with false by (symmetry; apply Nat.ltb_ge; lia).
    unfold buf_ptr. apply parse_block_loop_blank; [done|lia]. }
  rewrite Hparse, bind_Some. cbv beta iota.
  change (cb md1) with (cb md). rewrite Hfooter, bind_Some. cbv beta iota.
  change (work_bufs_span md1) with (work_bufs_span md).
  change (work_bufs_block md1) with (work_bufs_block md).
  rewrite Hspan, Hblock. cbn [Nat.eqb negb].
  by exists ob1, md1.
Qed.

Lemma blank_document_renders_nothing_witness :
  ∃ md ob' md',
    sd_markdown_new 511 16 tagging_callbacks tt = Some md
    ∧ Forall blank_byte (" "%char :: TAB :: CR :: LF :: LF :: bytes "  ")
    ∧ sd_markdown_render (sd_bufnew 64)
        (" "%char :: TAB :: CR :: LF :: LF :: bytes "  ") md
      = Some (ob', md')
    ∧ buf_data ob' = [].
Proof.
  assert (Hdoc : Forall blank_byte (" "%char :: TAB :: CR :: LF :: LF :: bytes "  "))
    by (repeat constructor; unfold blank_byte; tauto).
  destruct (sd_markdown_new 511 16 tagging_callbacks tt) as [md|] eqn:Hnew; [|done].
  pose proof (sd_markdown_new_idle _ _ _ _ _ Hnew) as Hidle.
  assert (Hcb : cb md = tagging_callbacks)
    by (unfold sd_markdown_new in Hnew; cbn in Hnew; by injection Hnew as <-).
  destruct (blank_document_renders_nothing (sd_bufnew 64)
              (" "%char :: TAB :: CR :: LF :: LF :: bytes "  ") md Hdoc)
    as (ob' & md' & Hr & Hd & _); [done|exact Hidle|by rewrite Hcb..|].
  exists md, ob', md'. exact (conj eq_refl (conj Hdoc (conj Hr Hd))).
Defined.

(** ** The first pass of sd_markdown_render *)

#[local] Arguments Nat.modulo : simpl never.

(** The column does not matter where a line ends. *)
Lemma normalised_at_end col rest :
  rest = [] ∨ byte_at rest 0 = LF ∨ byte_at rest 0 = CR →
  normalised col rest = normalised 0 rest.
Proof.
  destruct rest as [|c rest]; [done|]. cbn [byte_at nth].
  intros [|[-> | ->]]; done.
Qed.

(** A line before its end: the bytes of [tab_expand]. *)
Lemma normalised_line col line rest :
  Forall (λ c, c ≠ LF ∧ c ≠ CR) line →
  rest = [] ∨ byte_at rest 0 = LF ∨ byte_at rest 0 = CR →
  normalised col (line ++ rest) = tab_expand col line ++ normalised 0 rest.
Proof.
  intros Hline Hrest. revert col.
  induction Hline as [|c line [Hl Hc] _ IH]; intros col.
  - by apply normalised_at_end.
  - cbn [app normalised tab_expand].
    destruct (Ascii.eqb_spec c LF); [done|]. destruct (Ascii.eqb_spec c CR); [done|].
    destruct (Ascii.eqb c TAB); rewrite IH; [by rewrite <- app_assoc|done].
Qed.

Section Document.
Variable document : list ascii.

Lemma rd_document_at k :
  k < length document →
  skipn k document = rd (mk_ptr document 0) k :: skipn (S k) document.
Proof. intros Hk. unfold rd. cbn [mem off Nat.add]. by apply byte_at_skipn. Qed.

(** The [while] loop over the bytes that end a line. *)
Lemma put_newlines_spec fuel text end_ :
  (0 < buf_unit text)%Z → end_ ≤ length document → length document - end_ ≤ fuel →
  (buf_size text + Z.of_nat (length (normalised 0 (skipn end_ document)))
   ≤ BUFFER_MAX_ALLOC_SIZE)%Z →
  ∃ end' text' out,
    put_newlines fuel text (mk_ptr document 0) (length document) end_
    = Some (end', text')
    ∧ end_ ≤ end' ≤ length document
    ∧ (end_ < length document →
       rd (mk_ptr document 0) end_ = LF ∨ rd (mk_ptr document 0) end_ = CR →
       end_ < end')
    ∧ buf_data text' = buf_data text ++ out
    ∧ normalised 0 (skipn end_ document) = out ++ normalised 0 (skipn end' document)
    ∧ buf_unit text' = buf_unit text.
Proof.
  revert text end_. induction fuel as [|fuel IH]; intros text end_ Hu Hle Hf Hroom.
  { exists end_, text, []. rewrite app_nil_r. split_and!; [done|lia..|done|done|done]. }
  cbn [put_newlines].
  destruct (Nat.ltb_spec end_ (length document)) as [Hlt|Hge]; cycle 1.
  { exists end_, text, []. rewrite app_nil_r. split_and!; [done|lia..|done|done|done]. }
  cbn [andb]. set (c := rd (mk_ptr document 0) end_).
  pose proof (rd_document_at end_ Hlt) as Hskip. fold c in Hskip.
  destruct (Ascii.eqb_spec c LF) as [HLF|HnLF].
  - (* a newline *)
    cbn [orb]. rewrite Hskip, HLF in Hroom. cbn [normalised] in Hroom.
    change (Ascii.eqb LF LF) with true in Hroom. cbv iota in Hroom.
    cbn [length] in Hroom.
    destruct (sd_bufputc_within_cap text LF Hu ltac:(lia)) as (text1 & -> & Hd1 & Hu1).
    rewrite bind_Some. cbv beta.
    destruct (IH text1 (S end_)) as (end' & text' & out & -> & He & _ & Hd & Hn & Hu');
      [lia..| |].
    { unfold buf_size in *. rewrite Hd1, length_app. simpl. lia. }
    exists end', text', (LF :: out). split_and!; [done|lia..| | |congruence].
    + rewrite Hd, Hd1. by rewrite <- app_assoc.
    + rewrite Hskip, HLF. cbn [normalised]. change (Ascii.eqb LF LF) with true.
      cbv iota. by rewrite Hn.
  - destruct (Ascii.eqb_spec c CR) as [HCR|HnCR]; cycle 1.
    { cbn [orb]. exists end_, text, []. rewrite app_nil_r.
      split_and!; [done|lia..| |done|done|done]. intros _ [|]; done. }
    (* a carriage return *)
    cbn [orb].
    assert (Hnorm : normalised 0 (skipn end_ document)
                    = (if (end_ + 1 <? length document)
                          && negb (Ascii.eqb (rd (mk_ptr document 0) (end_ + 1)) LF)
                       then [LF] else [])
                      ++ normalised 0 (skipn (S end_) document)).
    { rewrite Hskip, HCR. cbn [normalised]. change (Ascii.eqb CR LF) with false.
      change (Ascii.eqb CR CR) with true. cbv iota.
      replace (end_ + 1) with (S end_) by lia.
      destruct (Nat.ltb_spec (S end_) (length document)) as [Hlt1|Hge1].
      - rewrite (rd_document_at (S end_) Hlt1).
        by destruct (Ascii.eqb (rd (mk_ptr document 0) (S end_)) LF).
      - by rewrite skipn_all2 by lia. }
    rewrite Hnorm in Hroom.
    assert (Hput : ∃ text1,
              (if (end_ + 1 <? length document)
                  && negb (Ascii.eqb (rd (mk_ptr document 0) (end_ + 1)) LF)
               then sd_bufputc text LF else Some text) = Some text1
              ∧ buf_data text1
                = buf_data text
                  ++ (if (end_ + 1 <? length document)
                         && negb (Ascii.eqb (rd (mk_ptr document 0) (end_ + 1)) LF)
                      then [LF] else [])
              ∧ buf_unit text1 = buf_unit text).
    { destruct (_ && _).
      - apply sd_bufputc_within_cap; [done|].
        rewrite length_app in Hroom. cbn [length] in Hroom. lia.
      - exists text. by rewrite app_nil_r. }
    destruct Hput as (text1 & -> & Hd1 & Hu1). rewrite bind_Some. cbv beta.
    destruct (IH text1 (S end_)) as (end' & text' & out & -> & He & _ & Hd & Hn & Hu');
      [lia..| |].
    { unfold buf_size in *. rewrite Hd1. rewrite !length_app in Hroom |- *. lia. }
    eexists end', text', (_ ++ out). split_and!; [done|lia..| | |congruence].
    + rewrite Hd, Hd1. by rewrite <- app_assoc.
    + rewrite Hnorm, Hn. by rewrite <- app_assoc.
Qed.

Hypothesis no_bracket : Forall (λ c, c ≠ "["%char) document.

Lemma document_no_bracket k : rd (mk_ptr document 0) k ≠ "["%char.
Proof.
  unfold rd. cbn [mem off Nat.add].
  destruct (Nat.lt_ge_cases k (length document)) as [Hk|Hk].
  - destruct (lookup_lt_is_Some_2 _ _ Hk) as [c Hc].
    rewrite (byte_at_lookup _ _ _ Hc).
    exact (proj1 (Forall_lookup _ _) no_bracket k c Hc).
  - by rewrite byte_at_beyond.
Qed.

(** The loop of the first pass from the line that begins at [beg]. *)
Lemma first_pass_spec fuel text refs beg :
  (0 < buf_unit text)%Z → beg ≤ length document → length document - beg < fuel →
  (buf_size text + Z.of_nat (length (normalised 0 (skipn beg document)))
   ≤ BUFFER_MAX_ALLOC_SIZE)%Z →
  ∃ text',
    first_pass fuel text refs (mk_ptr document 0) (length document) beg
    = Some (text', refs)
    ∧ buf_data text' = buf_data text ++ normalised 0 (skipn beg document)
    ∧ buf_unit text' = buf_unit text.
Proof.
  revert text beg. induction fuel as [|fuel IH]; intros text beg Hu Hbeg Hf Hroom; [lia|].
  cbn [first_pass].
  destruct (Nat.ltb_spec beg (length document)) as [Hlt|Hge]; cycle 1.
  { exists text. rewrite skipn_all2 by lia. by rewrite app_nil_r. }
  rewrite (is_ref_without_bracket _ _ _ _ document_no_bracket), bind_Some.
  cbv beta iota zeta.
  set (p := λ e, negb (Ascii.eqb (rd (mk_ptr document 0) e) LF)
                 && negb (Ascii.eqb (rd (mk_ptr document 0) e) CR)).
  destruct (while_lt_spec (length document) p beg) as (H1 & H2 & H3 & H4); [lia|].
  set (end_ := while_lt (length document) p beg) in *.
  set (line := slice document beg (end_ - beg)).
  assert (Hline : Forall (λ c, c ≠ LF ∧ c ≠ CR) line).
  { apply slice_Forall; [lia..|]. intros k Hk1 Hk2. specialize (H3 k Hk1 Hk2).
    unfold p, rd in H3. cbn [mem off Nat.add] in H3.
    apply andb_true_iff in H3 as [Hl Hc].
    apply negb_true_iff, Ascii.eqb_neq in Hl, Hc. done. }
  assert (Hrest : skipn end_ document = []
                  ∨ byte_at (skipn end_ document) 0 = LF
                  ∨ byte_at (skipn end_ document) 0 = CR).
  { destruct (Nat.lt_ge_cases end_ (length document)) as [He|He];
      [|left; by rewrite skipn_all2 by lia].
    right. rewrite (rd_document_at end_ He). cbn [byte_at nth].
    specialize (H4 He). unfold p in H4.
    apply andb_false_iff in H4 as [H4|H4]; apply negb_false_iff, Ascii.eqb_eq in H4;
      tauto. }
  assert (Hsplit : normalised 0 (skipn beg document)
                   = tab_expand 0 line ++ normalised 0 (skipn end_ document)).
  { rewrite (slice_skipn document beg end_) by lia. by apply normalised_line. }
  rewrite Hsplit, length_app in Hroom.
  assert (Hexp : ∃ text1,
            (if beg <? end_
             then expand_tabs text (view (shift (mk_ptr document 0) beg) (end_ - beg))
             else Some text) = Some text1
            ∧ buf_data text1 = buf_data text ++ tab_expand 0 line
            ∧ buf_unit text1 = buf_unit text).
  { destruct (Nat.ltb_spec beg end_) as [Hbe|Hbe].
    - change (view (shift (mk_ptr document 0) beg) (end_ - beg)) with line.
      unfold expand_tabs.
      apply (expand_tabs_loop_spec (S (length line)) text line 0 0); [done|lia|lia|].
      rewrite skipn_O. lia.
    - exists text. unfold line. replace (end_ - beg) with 0 by lia.
      unfold slice. cbn [firstn tab_expand]. by rewrite app_nil_r. }
  destruct Hexp as (text1 & -> & Hd1 & Hu1). rewrite bind_Some. cbv beta.
  destruct (put_newlines_spec (length document) text1 end_)
    as (end' & text2 & out & -> & Hend & Hmove & Hd2 & Hn & Hu2); [lia..| |].
  { unfold buf_size in *. rewrite Hd1, length_app. lia. }
  rewrite bind_Some. cbv beta iota.
  assert (Hprogress : beg < end').
  { destruct (decide (beg = end_)) as [He|]; [|lia].
    assert (Hlt' : end_ < length document) by lia.
    specialize (H4 Hlt'). unfold p in H4.
    assert (Hnl : rd (mk_ptr document 0) end_ = LF ∨ rd (mk_ptr document 0) end_ = CR).
    { apply andb_false_iff in H4 as [H4|H4];
        apply negb_false_iff, Ascii.eqb_eq in H4; tauto. }
    pose proof (Hmove Hlt' Hnl). lia. }
  rewrite Hn, length_app in Hroom.
  destruct (IH text2 end') as (text3 & -> & Hd3 & Hu3); [lia..| |].
  { unfold buf_size in *. rewrite Hd2, Hd1, !length_app. lia. }
  exists text3. split; [done|]. split; [|congruence].
  rewrite Hd3, Hd2, Hd1, Hsplit, Hn. by rewrite <- !app_assoc.
Qed.

End Document.

(** X16.  The first pass of [sd_markdown_render] stages the document for
    the parser.  On a document that holds no [[], and so no reference, the
    pass returns, and the text that it has appended to the staging buffer
    is the document with every tabulation expanded to the next multiple of
    4 columns of its line and every line ending ([\n], [\r\n], or [\r]
    before another byte) written as one [\n]; every other byte is kept as
    it is and in order, and a [\r] that is the last byte of the document is
    dropped.  The table of references is left as it was.  The staging buffer
    is taken to have room for the text below its 16 MiB limit. *)
Theorem first_pass_normalises text refs document :
  (0 < buf_unit text)%Z → Forall (λ c, c ≠ "["%char) document →
  (buf_size text + Z.of_nat (length (normalised 0 document))
   ≤ BUFFER_MAX_ALLOC_SIZE)%Z →
  ∃ text',
    first_pass (S (length document)) text refs (mk_ptr document 0) (length document) 0
    = Some (text', refs)
    ∧ buf_data text' = buf_data text ++ normalised 0 document
    ∧ buf_unit text' = buf_unit text.
Proof.
  intros Hu Hdoc Hroom.
  apply (first_pass_spec document Hdoc (S (length document)) text refs 0);
    [done|lia|lia|by rewrite skipn_O].
Qed.

Lemma first_pass_normalises_witness :
  let document :=
    "a"%char :: TAB :: "b"%char :: CR :: LF :: TAB :: "c"%char :: CR :: "d"%char
    :: LF :: LF :: "e"%char :: CR :: [] in
  let text := sd_bufnew 64 in
  (0 < buf_unit text)%Z
  ∧ Forall (λ c, c ≠ "["%char) document
  ∧ (buf_size text + Z.of_nat (length (normalised 0 document))
     ≤ BUFFER_MAX_ALLOC_SIZE)%Z
  ∧ ∃ text',
      first_pass (S (length document)) text (replicate REF_TABLE_SIZE [])
        (mk_ptr document 0) (length document) 0
      = Some (text', replicate REF_TABLE_SIZE [])
      ∧ buf_data text'
        = bytes "a   b" ++ LF :: bytes "    c" ++ LF :: "d"%char :: LF :: LF :: bytes "e".
Proof.
  cbv zeta.
  set (document :=
    "a"%char :: TAB :: "b"%char :: CR :: LF :: TAB :: "c"%char :: CR :: "d"%char
    :: LF :: LF :: "e"%char :: CR :: []).
  assert (Hu : (0 < buf_unit (sd_bufnew 64))%Z) by done.
  assert (Hdoc : Forall (λ c, c ≠ "["%char) document) by (by repeat constructor).
  assert (Hroom : (buf_size (sd_bufnew 64) + Z.of_nat (length (normalised 0 document))
                   ≤ BUFFER_MAX_ALLOC_SIZE)%Z) by (vm_compute; by intros [=]).
  split; [exact Hu|]. split; [exact Hdoc|]. split; [exact Hroom|].
  destruct (first_pass_normalises (sd_bufnew 64) (replicate REF_TABLE_SIZE [])
              document Hu Hdoc Hroom) as (text' & Hpass & Hd & _).
  exists text'. split; [exact Hpass|exact Hd].
Defined.

(** ** A line of plain text as a document *)

Lemma letter_marks c :
  isalpha c = true → forallb (λ m, negb (Ascii.eqb c m)) marks = true.
Proof. destruct c as [[] [] [] [] [] [] [] []]; vm_compute; congruence. Qed.

Lemma letter_not c m : isalpha c = true → In m marks → Ascii.eqb c m = false.
Proof.
  intros Hc Hm. pose proof (proj1 (forallb_forall _ _) (letter_marks c Hc) m Hm) as H.
  by apply negb_true_iff in H.
Qed.

Lemma letter_no_digit c : isalpha c = true → isdigit c = false.
Proof. destruct c as [[] [] [] [] [] [] [] []]; vm_compute; congruence. Qed.

Lemma letter_no_space c : isalpha c = true → isspace c = false.
Proof. destruct c as [[] [] [] [] [] [] [] []]; vm_compute; congruence. Qed.

Lemma letter_plain c : isalpha c = true → html_escape_code c = 0.
Proof. destruct c as [[] [] [] [] [] [] [] []]; vm_compute; congruence. Qed.

Lemma plain_marks c :
  plain_byte c = true → forallb (λ m, negb (Ascii.eqb c m)) inner_marks = true.
Proof. destruct c as [[] [] [] [] [] [] [] []]; vm_compute; congruence. Qed.

Lemma plain_not c m : plain_byte c = true → In m inner_marks → Ascii.eqb c m = false.
Proof.
  intros Hc Hm. pose proof (proj1 (forallb_forall _ _) (plain_marks c Hc) m Hm) as H.
  by apply negb_true_iff in H.
Qed.

Lemma plain_escape c : plain_byte c = true → html_escape_code c = 0.
Proof. destruct c as [[] [] [] [] [] [] [] []]; vm_compute; congruence. Qed.

(** Rewrites the comparisons of a letter with a mark. *)
Ltac letter H :=
  repeat match goal with
         | |- context [Ascii.eqb ?c ?m] =>
             rewrite (letter_not c m H) by (vm_compute; tauto)
         end.

Lemma has_room_unit ob n : has_room ob n → (0 < buf_unit ob)%Z.
Proof. by intros [? _]. Qed.

Lemma sd_bufput_room ob src n :
  has_room ob n → length src ≤ n →
  ∃ ob', sd_bufput ob src = Some ob'
    ∧ buf_data ob' = buf_data ob ++ src ∧ has_room ob' (n - length src)
    ∧ buf_unit ob' = buf_unit ob.
Proof.
  intros [Hu Hroom] Hlen.
  destruct (sd_bufput_within_cap ob src Hu) as (ob' & -> & Hd & Hu'); [lia|].
  exists ob'. split_and!; [done..| |done]. split; [lia|].
  unfold buf_size in *. rewrite Hd, length_app. lia.
Qed.

Lemma sd_bufputc_room ob c n :
  has_room ob n → 1 ≤ n →
  ∃ ob', sd_bufputc ob c = Some ob'
    ∧ buf_data ob' = buf_data ob ++ [c] ∧ has_room ob' (n - 1)
    ∧ buf_unit ob' = buf_unit ob.
Proof.
  intros [Hu Hroom] Hlen.
  destruct (sd_bufputc_within_cap ob c Hu) as (ob' & -> & Hd & Hu'); [lia|].
  exists ob'. split_and!; [done..| |done]. split; [lia|].
  unfold buf_size in *. rewrite Hd, length_app. simpl. lia.
Qed.

Lemma has_room_le ob n m : has_room ob n → m ≤ n → has_room ob m.
Proof. intros [Hu Hroom] Hle. split; [done|lia]. Qed.

Lemma slice_all (l : list ascii) : slice l 0 (length l) = l.
Proof. unfold slice. simpl. apply firstn_all. Qed.

Lemma put_separator_room ob n :
  has_room ob n → 1 ≤ n →
  ∃ ob', put_separator ob = Some ob'
    ∧ buf_data ob' = buf_data ob ++ separator ob ∧ has_room ob' (n - 1)
    ∧ buf_unit ob' = buf_unit ob.
Proof.
  intros Hroom Hn. unfold put_separator, separator.
  destruct (length (buf_data ob) =? 0); simpl.
  - exists ob. rewrite app_nil_r. split_and!; [done..| |done].
    eapply has_room_le; [done|lia].
  - by apply sd_bufputc_room.
Qed.

(** A paragraph of one line that begins with no space. *)
Lemma rndr_paragraph_line ob text options :
  text ≠ [] → isspace (byte_at text 0) = false →
  Forall (λ c, c ≠ LF) text →
  has_room ob (length text + 9) →
  ∃ ob', rndr_paragraph ob (Some text) options = Some (ob', options)
    ∧ buf_data ob'
      = buf_data ob ++ separator ob ++ bytes "<p>" ++ text ++ bytes "</p>" ++ [LF]
    ∧ buf_unit ob' = buf_unit ob.
Proof.
  intros Hne Hsp Hnl Hroom. unfold rndr_paragraph.
  destruct (put_separator_room ob _ Hroom ltac:(lia)) as (ob1 & -> & Hd1 & Hr1 & Hu1).
  rewrite bind_Some. cbv beta.
  destruct text as [|c t] eqn:Htext; [done|]. rewrite <- Htext in *. cbv iota beta.
  assert (Hlen : 0 < length text) by (rewrite Htext; simpl; lia).
  assert (Hi : while_lt (length text) (λ i, isspace (byte_at text i)) 0 = 0).
  { destruct (while_lt_spec (length text) (λ i, isspace (byte_at text i)) 0)
      as (_ & _ & H3 & _); [lia|].
    set (j := while_lt _ _ _) in *. destruct j as [|j]; [done|].
    specialize (H3 0 ltac:(lia) ltac:(lia)). simpl in H3. congruence. }
  rewrite Hi. destruct (Nat.eqb_spec 0 (length text)) as [|_]; [lia|].
  destruct (sd_bufput_room ob1 (bytes "<p>") _ Hr1 ltac:(simpl; lia))
    as (ob2 & -> & Hd2 & Hr2 & Hu2).
  rewrite bind_Some. cbv beta.
  assert (Hbody : ∃ ob3,
            (if has_flag (html_flags options) HTML_HARD_WRAP
             then paragraph_lines (length text) ob2 text options 0
             else sd_bufput ob2 (slice text 0 (length text - 0)))
            = Some ob3
            ∧ buf_data ob3 = buf_data ob2 ++ text
            ∧ has_room ob3 (length text + 9 - 1 - length (bytes "<p>") - length text)
            ∧ buf_unit ob3 = buf_unit ob2).
  { assert (Hput : ∃ ob3, sd_bufput ob2 text = Some ob3
                     ∧ buf_data ob3 = buf_data ob2 ++ text
                     ∧ has_room ob3
                         (length text + 9 - 1 - length (bytes "<p>") - length text)
                     ∧ buf_unit ob3 = buf_unit ob2).
    { apply sd_bufput_room; [done|]. simpl. lia. }
    destruct (has_flag (html_flags options) HTML_HARD_WRAP).
    - destruct (length text) as [|m] eqn:Hm; [lia|]. cbn [paragraph_lines].
      rewrite Hm.
      change (0 <? S m) with true. cbv iota zeta.
      assert (Hj : while_lt (S m) (λ i, negb (Ascii.eqb (byte_at text i) LF)) 0 = S m).
      { destruct (while_lt_spec (S m) (λ i, negb (Ascii.eqb (byte_at text i) LF)) 0)
          as (_ & H2 & _ & H4); [lia|].
        set (k := while_lt (S m) (λ i, negb (Ascii.eqb (byte_at text i) LF)) 0) in *.
        destruct (Nat.eq_dec k (S m)) as [He|Hne']; [exact He|].
        specialize (H4 ltac:(lia)). simpl in H4.
        apply negb_false_iff, Ascii.eqb_eq in H4.
        assert (Hkl : k < length text) by lia.
        destruct (lookup_lt_is_Some_2 _ _ Hkl) as [x Hx].
        rewrite (byte_at_lookup _ _ _ Hx) in H4.
        by pose proof (proj1 (Forall_lookup _ _) Hnl k x Hx). }
      rewrite Hj. change (0 <? S m) with true. cbv iota.
      rewrite Nat.sub_0_r, <- Hm, slice_all.
      destruct Hput as (ob3 & -> & Hd3 & Hr3 & Hu3). rewrite bind_Some. cbv beta.
      destruct (Nat.leb_spec (length text - 1) (length text)); [|lia].
      exists ob3. rewrite ?Hm. by split_and!.
    - by rewrite Nat.sub_0_r, slice_all. }
  destruct Hbody as (ob3 & -> & Hd3 & Hr3 & Hu3). rewrite bind_Some. cbv beta.
  destruct (sd_bufput_room ob3 (bytes "</p>" ++ [LF]) _ Hr3 ltac:(simpl; lia))
    as (ob4 & -> & Hd4 & Hr4 & Hu4).
  rewrite bind_Some. cbv beta.
  exists ob4. split_and!; [done| |congruence].
  rewrite Hd4, Hd3, Hd2, Hd1. by rewrite <- !app_assoc.
Qed.

Section PlainLine.
Variable line : list ascii.
Hypothesis line_plain : plain_text line.

Lemma rd_line i :
  i < length line →
  rd (line_text line) i = byte_at line i ∧ plain_byte (rd (line_text line) i) = true.
Proof.
  intros Hi. assert (He : rd (line_text line) i = byte_at line i).
  { unfold rd, line_text. simpl. by rewrite byte_at_app_l. }
  split; [done|]. rewrite He. destruct line_plain as [_ Hall].
  destruct (lookup_lt_is_Some_2 _ _ Hi) as [c Hc].
  rewrite (byte_at_lookup _ _ _ Hc). exact (proj1 (Forall_lookup _ _) Hall i c Hc).
Qed.

Lemma rd_line_end : rd (line_text line) (length line) = LF.
Proof.
  unfold rd, line_text. simpl.
  rewrite <- (Nat.add_0_r (length line)). by rewrite byte_at_app_r.
Qed.

Lemma line_length : 0 < length line.
Proof. destruct line_plain as [Hne _]. destruct line; [done|simpl; lia]. Qed.

Lemma rd_line_0 : isalpha (rd (line_text line) 0) = true.
Proof.
  destruct (rd_line 0 line_length) as [-> _]. by destruct line_plain.
Qed.

Lemma line_is_empty : is_empty (line_text line) (S (length line)) = 0.
Proof.
  pose proof rd_line_0 as H0. pose proof line_length.
  apply (is_empty_not_blank _ _ 0); [lia|intros; lia| |].
  - intros He. rewrite <- Ascii.eqb_eq in He. by rewrite (letter_not _ _ H0) in He
      by (vm_compute; tauto).
  - intros He. rewrite <- Ascii.eqb_eq in He. by rewrite (letter_not _ _ H0) in He
      by (vm_compute; tauto).
Qed.

Lemma line_is_hrule : is_hrule (line_text line) (S (length line)) = false.
Proof.
  pose proof rd_line_0 as H0. unfold is_hrule, skip_3_spaces.
  destruct (_ <? 3); [done|]. letter H0. simpl. letter H0.
  by rewrite orb_true_r.
Qed.

Lemma line_is_headerline : is_headerline (line_text line) (S (length line)) = 0.
Proof. pose proof rd_line_0 as H0. unfold is_headerline. by letter H0. Qed.

Lemma line_is_atxheader {opaque_t} (rndr : sd_markdown opaque_t) :
  is_atxheader rndr (line_text line) (S (length line)) = false.
Proof. pose proof rd_line_0 as H0. unfold is_atxheader. by letter H0. Qed.

Lemma line_prefix_quote : prefix_quote (line_text line) (S (length line)) = 0.
Proof.
  pose proof rd_line_0 as H0. unfold prefix_quote, skip_3_spaces_in.
  cbv zeta. letter H0. by rewrite ?andb_false_r.
Qed.

Lemma line_prefix_code : prefix_code (line_text line) (S (length line)) = 0.
Proof.
  pose proof rd_line_0 as H0. unfold prefix_code. letter H0.
  by rewrite andb_false_r.
Qed.

Lemma line_prefix_uli : prefix_uli (line_text line) (S (length line)) = 0.
Proof.
  pose proof rd_line_0 as H0. unfold prefix_uli, skip_3_spaces_in.
  cbv zeta. letter H0. rewrite ?andb_false_r. simpl. by rewrite ?orb_true_r.
Qed.

Lemma line_prefix_oli : prefix_oli (line_text line) (S (length line)) = 0.
Proof.
  pose proof rd_line_0 as H0. unfold prefix_oli, skip_3_spaces_in.
  cbv zeta. letter H0. rewrite ?andb_false_r.
  rewrite (letter_no_digit _ H0). simpl. by rewrite ?orb_true_r.
Qed.


Lemma line_has_end : line_end (line_text line) (S (length line)) 0 = S (length line).
Proof.
  unfold line_end.
  destruct (while_lt_spec (S (length line))
              (λ end_, negb (Ascii.eqb (rd (line_text line) (end_ - 1)) LF)) (0 + 1))
    as (H1 & H2 & _ & H4); [pose proof line_length; simpl; lia|].
  set (j := while_lt _ _ _) in *.
  destruct (Nat.eq_dec j (S (length line))) as [|Hne]; [done|].
  specialize (H4 ltac:(lia)). simpl in H4.
  destruct (rd_line (j - 1) ltac:(simpl in H1; lia)) as [_ Ha].
  rewrite (plain_not _ _ Ha) in H4 by (vm_compute; tauto). done.
Qed.

Lemma line_trimmed :
  while_gt 0 (λ n, Ascii.eqb (rd (line_text line) (n - 1)) LF) (S (length line))
  = length line.
Proof.
  pose proof line_length as Hlen.
  unfold while_gt. rewrite Nat.sub_0_r. cbn [scan_bwd].
  replace (S (length line) - 1) with (length line) by lia.
  rewrite rd_line_end. cbn [Nat.ltb Nat.leb andb Ascii.eqb].
  change (Ascii.eqb LF LF) with true. cbn [andb].
  destruct (length line) as [|n] eqn:Hn; [lia|]. cbn [scan_bwd].
  destruct (rd_line n ltac:(lia)) as [_ Ha].
  replace (S n - 1) with n by lia.
  rewrite (plain_not _ _ Ha) by (vm_compute; tauto). by rewrite andb_false_r.
Qed.

Lemma set_opaque_same {opaque_t} (rndr : sd_markdown opaque_t) :
  set_opaque rndr (opaque rndr) = rndr.
Proof. by destruct rndr. Qed.

Lemma line_escaped secure : html_escaped secure line = line.
Proof.
  apply html_escaped_plain. destruct line_plain as [_ Hall].
  eapply Forall_impl; [exact Hall|]. intros c Hc. by apply plain_escape.
Qed.

Lemma escape_html_line ob :
  has_room ob (length line) →
  ∃ ob', escape_html ob line = Some ob'
    ∧ buf_data ob' = buf_data ob ++ line ∧ buf_unit ob' = buf_unit ob.
Proof.
  intros [Hu Hroom]. unfold escape_html.
  destruct (escape_html0_appends ob line false Hu) as (ob' & -> & Hd & Hu').
  - by rewrite line_escaped.
  - exists ob'. by rewrite Hd, line_escaped.
Qed.

Section Inactive.
Context {opaque_t : Type}.
Variable rndr : sd_markdown opaque_t.
Hypothesis rndr_inactive :
  ∀ c, plain_byte c = true → active_char rndr c = MD_CHAR_NONE.
Hypothesis rndr_plain : ext_flags rndr = 0%Z.

Lemma line_paragraph_loop :
  paragraph_loop (S (length line)) rndr (line_text line) (S (length line)) 0 0
  = (S (length line), S (length line), 0).
Proof.
  cbn [paragraph_loop]. change (0 <? S (length line)) with true. cbv iota zeta.
  change (shift (line_text line) 0) with (line_text line).
  change (S (length line) - 0) with (S (length line)).
  rewrite line_has_end, line_is_empty, line_is_headerline, line_is_atxheader,
    line_is_hrule, line_prefix_quote, rndr_plain.
  cbn [Nat.eqb negb orb andb has_flag]. cbv iota.
  change (has_flag 0 MKDEXT_LAX_SPACING) with false. cbv iota. cbn [andb].
  destruct (length line) as [|n]; cbn [paragraph_loop]; [done|].
  by rewrite Nat.ltb_irrefl.
Qed.

Lemma line_inactive :
  while_lt (length line)
    (λ e, negb (is_active (active_char rndr (rd (line_text line) e)))) 0
  = length line.
Proof.
  destruct (while_lt_spec (length line)
              (λ e, negb (is_active (active_char rndr (rd (line_text line) e)))) 0)
    as (_ & H2 & _ & H4); [lia|].
  set (j := while_lt _ _ _) in *.
  destruct (Nat.eq_dec j (length line)) as [|Hne]; [done|].
  specialize (H4 ltac:(lia)). simpl in H4.
  destruct (rd_line j ltac:(lia)) as [_ Ha].
  by rewrite (rndr_inactive _ Ha) in H4.
Qed.

End Inactive.
End PlainLine.

Section PlainLineRender.
Variable line : list ascii.
Hypothesis line_plain : plain_text line.

Lemma view_line : view (line_text line) (length line) = line.
Proof.
  unfold view, line_text, slice. cbn [mem off]. rewrite skipn_O.
  by rewrite firstn_app, Nat.sub_diag, firstn_all, firstn_O, app_nil_r.
Qed.

(** [parse_inline] on the line: one call of the callback of the normal
    text. *)
Lemma line_parse_inline fuel ob (rndr : sd_markdown html_renderopt) :
  (∀ c, plain_byte c = true → active_char rndr c = MD_CHAR_NONE) →
  cb_normal_text (cb rndr) = Some rndr_normal_text →
  nesting_exceeded rndr = false →
  has_room ob (length line) →
  ∃ ob', parse_inline (S fuel) ob rndr (line_text line) (length line)
         = Some (ob', rndr)
    ∧ buf_data ob' = buf_data ob ++ line.
Proof.
  intros Hact Hcb Hnest Hroom. pose proof (line_length line line_plain) as Hlen.
  cbn [parse_inline]. unfold parse_inline_body. rewrite Hnest.
  cbn [parse_inline_loop].
  destruct (Nat.ltb_spec 0 (length line)) as [_|]; [|lia]. cbv zeta.
  rewrite (line_inactive line line_plain rndr Hact).
  change (shift (line_text line) 0) with (line_text line).
  rewrite Nat.sub_0_r, view_line.
  unfold put_normal_text. rewrite Hcb. unfold rndr_normal_text, run_void.
  destruct (escape_html_line line line_plain ob Hroom) as (ob' & -> & Hd & _).
  rewrite !bind_Some. cbv beta iota. rewrite set_opaque_same.
  rewrite Nat.leb_refl. by exists ob'.
Qed.

Lemma line_first_byte : isspace (byte_at line 0) = false.
Proof.
  destruct line_plain as [Ha _]. by apply letter_no_space.
Qed.

Lemma line_no_newline : Forall (λ c, c ≠ LF) line.
Proof.
  destruct line_plain as [_ Hall]. eapply Forall_impl; [exact Hall|].
  intros c Hc ->. done.
Qed.

Lemma line_not_empty : line ≠ [].
Proof. pose proof (line_length line line_plain) as H. intros ->. simpl in H. lia. Qed.

(** The paragraph of the line: the line goes through a scratch buffer of
    the pool of the blocks to the callback of the paragraph. *)
Lemma line_render_paragraph fuel ob (rndr : sd_markdown html_renderopt) :
  (∀ c, plain_byte c = true → active_char rndr c = MD_CHAR_NONE) →
  cb_normal_text (cb rndr) = Some rndr_normal_text →
  cb_paragraph (cb rndr) = Some rndr_paragraph →
  pool_ok BUFFER_BLOCK (work_bufs_block rndr) →
  span_size rndr + block_size rndr < max_nesting rndr →
  has_room ob (length line + 9) →
  ∃ ob' rndr',
    render_paragraph (parse_inline (S fuel)) ob rndr (line_text line) (length line)
    = Some (ob', rndr')
    ∧ buf_data ob'
      = buf_data ob ++ separator ob ++ bytes "<p>" ++ line ++ bytes "</p>" ++ [LF]
    ∧ cb rndr' = cb rndr ∧ opaque rndr' = opaque rndr.
Proof.
  intros Hact Hnormal Hpara Hpool Hnest Hroom. unfold render_paragraph.
  destruct (rndr_newbuf_ok rndr BUFFER_BLOCK Hpool)
    as (work & pool & -> & Hwork & Hscratch & Hsize & _).
  rewrite bind_Some. cbv beta iota.
  set (rndr1 := set_work_bufs rndr BUFFER_BLOCK pool).
  assert (Hroom1 : has_room work (length line)).
  { destruct Hroom as [_ Hroom]. destruct Hscratch as (Hu & _ & _).
    split; [rewrite Hu; done|]. unfold buf_size in *. rewrite Hwork. simpl. lia. }
  destruct (line_parse_inline fuel work rndr1) as (tmp & -> & Htmp); [done..| |done|].
  { unfold nesting_exceeded, rndr1. cbn. unfold span_size, block_size in Hnest.
    cbn [work_bufs] in Hsize. apply Nat.ltb_ge. lia. }
  rewrite bind_Some. cbv beta iota.
  change (cb rndr1) with (cb rndr). rewrite Hpara. unfold run_void.
  rewrite Htmp, Hwork, app_nil_l.
  destruct (rndr_paragraph_line ob line (opaque rndr1))
    as (ob' & -> & Hd & _);
    [apply line_not_empty|apply line_first_byte|apply line_no_newline|done|].
  rewrite !bind_Some. cbv beta iota.
  unfold rndr_popbuf. cbn [work_bufs set_opaque rndr1 set_work_bufs work_bufs_block].
  rewrite Hsize. cbv iota. rewrite bind_Some.
  eexists _, _. split; [done|]. done.
Qed.

(** [parse_block] on the text of the line: one paragraph. *)
Lemma line_parse_block fuel ob (rndr : sd_markdown html_renderopt) :
  (∀ c, plain_byte c = true → active_char rndr c = MD_CHAR_NONE) →
  ext_flags rndr = 0%Z →
  cb_normal_text (cb rndr) = Some rndr_normal_text →
  cb_paragraph (cb rndr) = Some rndr_paragraph →
  pool_ok BUFFER_BLOCK (work_bufs_block rndr) →
  pools_idle rndr → 0 < max_nesting rndr →
  has_room ob (length line + 9) →
  ∃ ob' rndr',
    parse_block (S (S fuel)) ob rndr (line_text line) (S (length line))
    = Some (ob', rndr')
    ∧ buf_data ob'
      = buf_data ob ++ separator ob ++ bytes "<p>" ++ line ++ bytes "</p>" ++ [LF]
    ∧ cb rndr' = cb rndr ∧ opaque rndr' = opaque rndr.
Proof.
  intros Hact Hext Hnormal Hpara Hpool [Hspan Hblock] Hnest Hroom.
  pose proof (rd_line_0 line line_plain) as Ha.
  cbn [parse_block]. unfold parse_block_body.
  replace (nesting_exceeded rndr) with false
    by (unfold nesting_exceeded; unfold span_size, block_size in *;
        symmetry; apply Nat.ltb_ge; lia).
  cbn [parse_block_loop]. change (0 <? S (length line)) with true. cbv iota.
  change (shift (line_text line) 0) with (line_text line).
  change (S (length line) - 0) with (S (length line)).
  unfold parse_one_block.
  rewrite (line_is_atxheader line line_plain).
  rewrite (letter_not _ "<" Ha) by (vm_compute; tauto). cbn [andb].
  rewrite bind_Some. cbv beta iota. cbn [Nat.eqb negb].
  rewrite (line_is_empty line line_plain), (line_is_hrule line line_plain).
  cbn [Nat.eqb negb]. rewrite Hext.
  change (has_flag 0 MKDEXT_FENCED_CODE) with false. cbv iota.
  rewrite bind_Some. cbv beta iota. cbn [Nat.eqb negb]. rewrite Hext.
  change (has_flag 0 MKDEXT_TABLES) with false. cbv iota.
  rewrite bind_Some. cbv beta iota. cbn [Nat.eqb negb].
  rewrite (line_prefix_quote line line_plain), (line_prefix_code line line_plain),
    (line_prefix_uli line line_plain), (line_prefix_oli line line_plain).
  cbn [Nat.eqb negb].
  unfold parse_paragraph.
  rewrite (line_paragraph_loop line line_plain rndr Hext).
  cbv zeta. rewrite (line_trimmed line line_plain). cbn [Nat.eqb].
  destruct (line_render_paragraph fuel ob rndr) as (ob' & rndr' & -> & Hd & Hcb & Ho);
    [done..| |done|].
  { unfold span_size, block_size in *. lia. }
  rewrite !bind_Some. cbv beta iota.
  replace (0 + S (length line) <? S (length line)) with false
    by (symmetry; apply Nat.ltb_ge; lia).
  by exists ob', rndr'.
Qed.

Lemma rd_document i :
  i < length line →
  rd (mk_ptr line 0) i = byte_at line i ∧ plain_byte (rd (mk_ptr line 0) i) = true.
Proof.
  intros Hi. destruct (rd_line line line_plain i Hi) as [He Ha].
  by rewrite He in Ha.
Qed.

Lemma line_no_bom :
  (3 <=? length line) && bytes_eqb (view (mk_ptr line 0) 3) UTF8_BOM = false.
Proof.
  destruct line_plain as [Hc _]. destruct line as [|c t]; [done|].
  cbn in Hc. apply andb_false_iff. right.
  unfold view, slice, UTF8_BOM. cbn [mem off skipn firstn bytes_eqb].
  by rewrite (letter_not c "239" Hc) by (vm_compute; tauto).
Qed.

Lemma line_is_ref refs : is_ref (mk_ptr line 0) 0 (length line) refs = Some None.
Proof.
  pose proof (line_length line line_plain) as Hlen.
  assert (Ha : isalpha (rd (mk_ptr line 0) 0) = true).
  { destruct (rd_document 0 Hlen) as [-> _]. by destruct line_plain. }
  unfold is_ref, is_ref_scan. cbv zeta. cbn [Nat.add].
  destruct (length line <=? 3); [done|].
  rewrite (letter_not _ " " Ha) by (vm_compute; tauto). cbn [andb]. cbv iota.
  cbn [Nat.add]. by rewrite (letter_not _ "[" Ha) by (vm_compute; tauto).
Qed.

Lemma line_unbroken :
  while_lt (length line)
    (λ e, negb (Ascii.eqb (rd (mk_ptr line 0) e) LF)
          && negb (Ascii.eqb (rd (mk_ptr line 0) e) CR)) 0
  = length line.
Proof.
  destruct (while_lt_spec (length line)
              (λ e, negb (Ascii.eqb (rd (mk_ptr line 0) e) LF)
                    && negb (Ascii.eqb (rd (mk_ptr line 0) e) CR)) 0)
    as (_ & H2 & _ & H4); [lia|].
  set (j := while_lt _ _ _) in *.
  destruct (Nat.eq_dec j (length line)) as [He|Hne]; [exact He|].
  specialize (H4 ltac:(lia)). simpl in H4.
  destruct (rd_document j ltac:(lia)) as [_ Ha].
  rewrite (plain_not _ LF Ha), (plain_not _ CR Ha) in H4 by (vm_compute; tauto).
  done.
Qed.

Lemma line_tab_expand : tab_expand 0 line = line.
Proof.
  rewrite <- (app_nil_r line) at 1. rewrite tab_expand_no_tab; [by rewrite app_nil_r|].
  destruct line_plain as [_ Hall]. eapply Forall_impl; [exact Hall|].
  intros c Hc ->. done.
Qed.

(** The first pass over the line: no reference, the line is copied. *)
Lemma line_first_pass text refs :
  has_room text (length line) →
  ∃ text', first_pass (S (length line)) text refs (mk_ptr line 0) (length line) 0
           = Some (text', refs)
    ∧ buf_data text' = buf_data text ++ line ∧ buf_unit text' = buf_unit text.
Proof.
  intros [Hu Hroom]. pose proof (line_length line line_plain) as Hlen.
  cbn [first_pass]. destruct (Nat.ltb_spec 0 (length line)) as [_|]; [|lia].
  rewrite line_is_ref, bind_Some. cbv beta iota zeta. rewrite line_unbroken.
  destruct (Nat.ltb_spec 0 (length line)) as [_|]; [|lia].
  change (shift (mk_ptr line 0) 0) with (mk_ptr line 0).
  rewrite Nat.sub_0_r.
  replace (view (mk_ptr line 0) (length line)) with line
    by (unfold view; cbn [mem off]; by rewrite slice_all).
  unfold expand_tabs.
  destruct (expand_tabs_loop_spec (S (length line)) text line 0 0 Hu)
    as (text' & -> & Hd & Hu'); [lia|lia| |].
  { rewrite skipn_O, line_tab_expand. lia. }
  rewrite skipn_O, line_tab_expand in Hd.
  rewrite bind_Some. cbv beta.
  destruct (length line) as [|n] eqn:Hn; [lia|].
  cbn [put_newlines]. rewrite Nat.ltb_irrefl. cbn [andb]. cbv iota.
  rewrite bind_Some. cbv beta iota. cbn [first_pass]. rewrite Nat.ltb_irrefl.
  by exists text'.
Qed.

(** The two passes of [sd_markdown_render] over the line. *)
Lemma line_render_passes ob (md : sd_markdown html_renderopt) :
  (∀ c, plain_byte c = true → active_char md c = MD_CHAR_NONE) →
  ext_flags md = 0%Z →
  cb_normal_text (cb md) = Some rndr_normal_text →
  cb_paragraph (cb md) = Some rndr_paragraph →
  cb_doc_header (cb md) = None → cb_doc_footer (cb md) = None →
  pool_ok BUFFER_BLOCK (work_bufs_block md) →
  pools_idle md → 0 < max_nesting md →
  has_room ob (length line + 9) →
  ∃ ob' md',
    render_passes ob line md = Some (ob', md')
    ∧ buf_data ob'
      = buf_data ob ++ separator ob ++ bytes "<p>" ++ line ++ bytes "</p>" ++ [LF]
    ∧ opaque md' = opaque md.
Proof.
  intros Hact Hext Hnormal Hpara Hheader Hfooter Hpool Hidle Hnest Hroom.
  pose proof (line_length line line_plain) as Hlen.
  assert (Hmax : (Z.of_nat (length line) + 9 ≤ BUFFER_MAX_ALLOC_SIZE)%Z).
  { destruct Hroom as [_ Hroom]. unfold buf_size in Hroom. lia. }
  unfold render_passes. cbv zeta.
  destruct (sd_bufgrow_any (sd_bufnew 64) (Z.of_nat (length line)))
    as (err & text & -> & Hd & Hu); [done|].
  rewrite bind_Some. cbv beta iota.
  rewrite line_no_bom. cbv iota.
  destruct (line_first_pass text (refs (set_refs md (replicate REF_TABLE_SIZE []))))
    as (text1 & -> & Hd1 & Hu1).
  { split; [by rewrite Hu|]. unfold buf_size. rewrite Hd. simpl. lia. }
  rewrite bind_Some. cbv beta iota.
  rewrite Hd, app_nil_l in Hd1. rewrite Hu in Hu1. cbn [sd_bufnew buf_unit] in Hu1.
  destruct (sd_bufgrow_any ob (MARKDOWN_GROW (buf_size text1)))
    as (err' & ob1 & -> & Hob1 & Hob1u); [by destruct Hroom|].
  rewrite bind_Some. cbv beta iota.
  set (md1 := set_refs _ _).
  change (cb md1) with (cb md). rewrite Hheader, bind_Some. cbv beta iota.
  rewrite Hd1. destruct (Nat.eqb_spec (length line) 0) as [|_]; [lia|].
  cbn [negb].
  destruct (rd_line line line_plain (length line - 1) ltac:(lia)) as [He Ha].
  rewrite He in Ha.
  rewrite (plain_not _ LF Ha), (plain_not _ CR Ha) by (vm_compute; tauto).
  cbn [negb andb].
  destruct (sd_bufputc_room text1 LF 1) as (text2 & -> & Hd2 & _); [|lia|].
  { split; [by rewrite Hu1|]. unfold buf_size. rewrite Hd1. lia. }
  rewrite bind_Some. cbv beta.
  rewrite Hd1 in Hd2. unfold buf_ptr. rewrite Hd2.
  change (mk_ptr (line ++ [LF]) 0) with (line_text line).
  rewrite length_app. cbn [length].
  replace (length line + 1) with (S (length line)) by lia.
  replace (max_nesting md1 + 2) with (S (S (max_nesting md1))) by lia.
  destruct (line_parse_block (max_nesting md1) ob1 md1)
    as (ob' & md' & -> & Hd' & Hcb & Ho); [done..| |].
  { destruct Hroom as [Hu0 Hroom]. split; [by rewrite Hob1u|].
    unfold buf_size in *. by rewrite Hob1. }
  rewrite bind_Some. cbv beta iota.
  rewrite Hcb. change (cb md1) with (cb md). rewrite Hfooter.
  exists ob', md'. split; [done|]. split; [|done].
  rewrite Hd'. unfold separator. by rewrite Hob1.
Qed.

(** [sd_markdown_render] on the line. *)
Lemma line_sd_markdown_render ob (md : sd_markdown html_renderopt) :
  (∀ c, plain_byte c = true → active_char md c = MD_CHAR_NONE) →
  ext_flags md = 0%Z →
  cb_normal_text (cb md) = Some rndr_normal_text →
  cb_paragraph (cb md) = Some rndr_paragraph →
  cb_doc_header (cb md) = None → cb_doc_footer (cb md) = None →
  pool_ok BUFFER_BLOCK (work_bufs_block md) →
  pools_idle md → 0 < max_nesting md →
  has_room ob (length line + 9) →
  ∃ ob' md',
    sd_markdown_render ob line md = Some (ob', md')
    ∧ buf_data ob'
      = buf_data ob ++ separator ob ++ bytes "<p>" ++ line ++ bytes "</p>" ++ [LF]
    ∧ opaque md' = opaque md.
Proof.
  intros Hact Hext Hnormal Hpara Hheader Hfooter Hpool Hidle Hnest Hroom.
  destruct (line_render_passes ob md) as (ob' & md' & Hpasses & Hd & Ho); [done..|].
  pose proof (render_passes_pools ob line md) as Hpools.
  rewrite Hpasses in Hpools. cbn [wp snd] in Hpools.
  destruct Hpools as (Hspan & Hblock & _). destruct Hidle as [Hs Hb].
  unfold span_size, block_size in *.
  unfold sd_markdown_render. rewrite Hpasses, bind_Some. cbv beta iota.
  rewrite Hspan, Hs, Hblock, Hb. by exists ob', md'.
Qed.

End PlainLineRender.

Lemma set_active_other active (m c : ascii) action :
  Ascii.eqb c m = false → set_active active m action c = active c.
Proof. intros H. unfold set_active. by rewrite H. Qed.

Lemma activate_other (cond : bool) active (m c : ascii) action :
  Ascii.eqb c m = false →
  (if cond then set_active active m action else active) c = active c.
Proof. intros H. destruct cond; [by apply set_active_other|done]. Qed.

(** The context of the HTML renderer without extensions. *)
Lemma html_context_plain render_flags nesting :
  0 < nesting →
  ∃ md, html_context render_flags nesting = Some md
    ∧ (∀ c, plain_byte c = true → active_char md c = MD_CHAR_NONE)
    ∧ ext_flags md = 0%Z
    ∧ cb_normal_text (cb md) = Some rndr_normal_text
    ∧ cb_paragraph (cb md) = Some rndr_paragraph
    ∧ cb_doc_header (cb md) = None ∧ cb_doc_footer (cb md) = None
    ∧ pool_ok BUFFER_BLOCK (work_bufs_block md)
    ∧ pools_idle md ∧ max_nesting md = nesting
    ∧ opaque md = mk_html_renderopt 0 0 0 render_flags None.
Proof.
  intros Hn. unfold html_context, sdhtml_renderer, sd_markdown_new. cbv zeta.
  destruct (Nat.eqb_spec nesting 0) as [|_]; [lia|].
  eexists. split; [reflexivity|]. cbn [active_char ext_flags cb opaque max_nesting
    work_bufs_block cb_normal_text cb_paragraph cb_doc_header cb_doc_footer].
  split_and!; try done; [|apply stack_init_ok].
  intros c Hc.
  change (has_flag 0 MKDEXT_AUTOLINK) with false.
  change (has_flag 0 MKDEXT_SUPERSCRIPT) with false.
  change (has_flag 0 MKDEXT_STRIKETHROUGH) with false.
  rewrite ?andb_false_r. cbv beta iota.
  repeat first
    [ rewrite activate_other by (apply (plain_not _ _ Hc); vm_compute; tauto)
    | rewrite set_active_other by (apply (plain_not _ _ Hc); vm_compute; tauto) ].
  done.
Qed.

(** X17.  A document that is one line of plain text comes out of the HTML
    renderer as one paragraph.  The line is made of letters, digits, spaces
    and the marks [. , ; : ! ? ( ) -], and begins with a letter.  For every
    set of render flags and every nesting limit above 0, the context of
    [sdhtml_renderer] and [sd_markdown_new] without extensions gets made,
    [sd_markdown_render] returns, and what it has appended to the output
    buffer is [<p>], the line as it is, [</p>] and a newline, after a
    newline of separation when the buffer was not empty; the render options
    are left as they were.  The output buffer is taken to have room for
    these bytes below its 16 MiB limit. *)
Theorem html_plain_line (render_flags : Z) (nesting : nat) (ob : sd_buf)
    (line : list ascii) :
  0 < nesting → plain_text line → has_room ob (length line + 9) →
  ∃ md ob' md',
    html_context render_flags nesting = Some md
    ∧ sd_markdown_render ob line md = Some (ob', md')
    ∧ buf_data ob'
      = buf_data ob ++ separator ob ++ bytes "<p>" ++ line ++ bytes "</p>" ++ [LF]
    ∧ opaque md' = opaque md.
Proof.
  intros Hn Hword Hroom.
  destruct (html_context_plain render_flags nesting Hn)
    as (md & Hmd & Hact & Hext & Hnormal & Hpara & Hheader & Hfooter & Hpool & Hidle
        & Hmax & _).
  destruct (line_sd_markdown_render line Hword ob md) as (ob' & md' & Hr & Hd & Ho);
    [done..|lia|done|].
  by exists md, ob', md'.
Qed.

Lemma html_plain_line_witness :
  ∃ md ob' md',
    html_context 0 16 = Some md
    ∧ sd_markdown_render (sd_bufnew 64) (bytes "Hello, world (2nd time)!") md
      = Some (ob', md')
    ∧ buf_data ob' = bytes "<p>Hello, world (2nd time)!</p>" ++ [LF].
Proof.
  destruct (html_plain_line 0 16 (sd_bufnew 64) (bytes "Hello, world (2nd time)!"))
    as (md & ob' & md' & Hmd & Hr & Hd & _).
  - lia.
  - split; [done|]. by repeat constructor.
  - split; [done|]. vm_compute. by intros [=].
  - exists md, ob', md'. exact (conj Hmd (conj Hr Hd)).
Defined.
